(** * docllm: the entity canonicalization and resolution engine

    A shallow embedding of the canonical entity extractor
    (normalizer, candidate matcher, resolution decision, per-document
    ingestion transaction) together with the properties its
    specification states about it.

    Text model.  A JavaScript string is modelled as a Rocq [string]
    whose characters are the code units U+0000..U+00FF (Latin-1).
    On that range [toLowerCase], [\s], [\w] and [trim] are the tables
    written out below. *)

From Stdlib Require Import Bool Arith Lia List ZArith QArith.
From Stdlib Require Import Ascii String DecimalString DecimalZ DecimalNat DecimalFacts.
Import ListNotations.
Local Open Scope string_scope.
Local Open Scope list_scope.
Local Open Scope nat_scope.

(* ================================================================= *)
(** ** Characters *)

Module Char.

Definition code (c : ascii) : nat := nat_of_ascii c.

Definition between (lo hi : nat) (c : ascii) : bool :=
  (lo <=? code c) && (code c <=? hi).

(** [A-Z] *)
Definition isUpperAZ (c : ascii) : bool := between 65 90 c.
(** [a-z] *)
Definition isLowerAZ (c : ascii) : bool := between 97 122 c.
(** [0-9] *)
Definition isDigit (c : ascii) : bool := between 48 57 c.

(** The regex class [\w]: [A-Za-z0-9_]. *)
Definition isWordChar (c : ascii) : bool :=
  isUpperAZ c || isLowerAZ c || isDigit c || (code c =? 95).

(** The regex class [\s] (and the characters [trim] removes):
    TAB, LF, VT, FF, CR, SPACE and NO-BREAK SPACE. *)
Definition isWhiteSpace (c : ascii) : bool :=
  between 9 13 c || (code c =? 32) || (code c =? 160).

(** The class [[a-z0-9\s]] whose complement the normalizer blanks. *)
Definition isKept (c : ascii) : bool :=
  isLowerAZ c || isDigit c || isWhiteSpace c.

(** One character of [String.prototype.toLowerCase]: [A-Z] and the
    Latin-1 capitals U+00C0..U+00DE (except the multiplication sign
    U+00D7) move up by 32. *)
Definition toLower (c : ascii) : ascii :=
  if isUpperAZ c || (between 192 222 c && negb (code c =? 215))
  then ascii_of_nat (code c + 32)
  else c.

Definition space : ascii := " "%char.
Definition dot : ascii := "."%char.

End Char.

(* ================================================================= *)
(** ** String primitives of the JavaScript runtime *)

Module JsString.

Fixpoint map (f : ascii -> ascii) (s : string) : string :=
  match s with
  | EmptyString => EmptyString
  | String c r => String (f c) (map f r)
  end.

Fixpoint forallb (p : ascii -> bool) (s : string) : bool :=
  match s with
  | EmptyString => true
  | String c r => p c && forallb p r
  end.

Fixpoint drop (n : nat) (s : string) : string :=
  match n, s with
  | 0, _ => s
  | S k, EmptyString => EmptyString
  | S k, String _ r => drop k r
  end.

(** Longest prefix of characters satisfying [p], and what follows. *)
Fixpoint span (p : ascii -> bool) (s : string) : string * string :=
  match s with
  | EmptyString => (EmptyString, EmptyString)
  | String c r =>
      if p c then let '(a, b) := span p r in (String c a, b)
      else (EmptyString, s)
  end.

Definition isEmpty (s : string) : bool :=
  match s with EmptyString => true | _ => false end.

(** [s.toLowerCase()] *)
Definition toLowerCase (s : string) : string := map Char.toLower s.

(** [s.trimStart()] *)
Fixpoint trimStart (s : string) : string :=
  match s with
  | EmptyString => EmptyString
  | String c r => if Char.isWhiteSpace c then trimStart r else s
  end.

(** [s.trimEnd()] *)
Fixpoint trimEnd (s : string) : string :=
  match s with
  | EmptyString => EmptyString
  | String c r =>
      let r' := trimEnd r in
      if Char.isWhiteSpace c && isEmpty r' then EmptyString
      else String c r'
  end.

(** [s.trim()] *)
Definition trim (s : string) : string := trimEnd (trimStart s).

(** [s.split(" ")]: the pieces between single spaces (always at least
    one piece, possibly empty). *)
Fixpoint splitSpace (s : string) : list string :=
  match s with
  | EmptyString => [EmptyString]
  | String c r =>
      if Ascii.eqb c Char.space then EmptyString :: splitSpace r
      else match splitSpace r with
           | [] => [String c EmptyString]
           | p :: ps => String c p :: ps
           end
  end.

(** [xs.filter(Boolean)] on an array of strings: drop the empty ones. *)
Definition filterNonEmpty (xs : list string) : list string :=
  filter (fun x => negb (isEmpty x)) xs.

(** The last element of [xs], or the empty string when there is none. *)
Definition lastOrEmpty (xs : list string) : string := last xs EmptyString.

(** [s.slice(start, end)] for [0 <= start], [0 <= end]. *)
Definition slice (start stop : nat) (s : string) : string :=
  substring start (stop - start) s.

(** [s.slice(start, end)] for any two integers: a negative index
    counts from the end of the string, and both are cut at the ends
    of the string. *)
Definition sliceZ (start stop : Z) (s : string) : string :=
  let len := Z.of_nat (String.length s) in
  let from := if (start <? 0)%Z then Z.max (len + start) 0
              else Z.min start len in
  let to := if (stop <? 0)%Z then Z.max (len + stop) 0
            else Z.min stop len in
  slice (Z.to_nat from) (Z.to_nat to) s.

(** [s.indexOf(t)] ([None] for -1). *)
Definition indexOf (t s : string) : option nat := index 0 t s.

End JsString.

(* ================================================================= *)
(** ** Regular-expression replacement, as [String.prototype.replace]
       performs it with a global pattern *)

Module Regex.

(** A matcher looks at the character before the current position (for
    [\b]) and at the rest of the subject; on success it returns the
    number of characters the match consumes. *)
Definition matcher := option ascii -> string -> option nat.

(** [s.replace(/re/g, " ")] for a pattern that never matches the empty
    string: scanning left to right, a match at the current position is
    replaced by one space and scanning resumes after it; otherwise the
    character is copied.  [skip] counts the characters of the current
    match still to be consumed. *)
Fixpoint replaceAllBySpace (m : matcher) (prev : option ascii)
    (skip : nat) (s : string) : string :=
  match s with
  | EmptyString => EmptyString
  | String c r =>
      match skip with
      | S k => replaceAllBySpace m (Some c) k r
      | 0 =>
          match m prev s with
          | Some n => String Char.space (replaceAllBySpace m (Some c) (n - 1) r)
          | None => String c (replaceAllBySpace m (Some c) 0 r)
          end
      end
  end.

Definition isWordOpt (c : option ascii) : bool :=
  match c with Some x => Char.isWordChar x | None => false end.

Definition head (s : string) : option ascii :=
  match s with EmptyString => None | String c _ => Some c end.

(** [\b]: exactly one of the two neighbouring positions holds a word
    character (the outside of the subject counts as non-word). *)
Definition wordBoundary (prev : option ascii) (s : string) : bool :=
  xorb (isWordOpt prev) (isWordOpt (head s)).

(** [\s+] at the end of a pattern: at least one white-space character,
    as many as there are. *)
Definition matchSpaces1 (s : string) : option nat :=
  let '(ws, _) := JsString.span Char.isWhiteSpace s in
  if JsString.isEmpty ws then None else Some (String.length ws).

(** [\.?\s+]: the greedy optional dot is tried first, then given up. *)
Definition matchDotSpaces (s : string) : option nat :=
  match s with
  | String c r =>
      if Ascii.eqb c Char.dot then
        match matchSpaces1 r with
        | Some n => Some (S n)
        | None => matchSpaces1 s
        end
      else matchSpaces1 s
  | EmptyString => None
  end.

(** [(a1|a2|...)k]: the alternatives in order, each followed by the
    continuation [k]; the first one whose continuation succeeds wins. *)
Fixpoint matchAlternatives (alts : list string) (k : string -> option nat)
    (s : string) : option nat :=
  match alts with
  | [] => None
  | a :: more =>
      if prefix a s then
        match k (JsString.drop (String.length a) s) with
        | Some n => Some (String.length a + n)
        | None => matchAlternatives more k s
        end
      else matchAlternatives more k s
  end.

End Regex.

(* ================================================================= *)
(** ** The normalizer *)

Inductive EntityType : Type := PERSON | LOCATION | ORGANIZATION.

Definition EntityType_eqb (a b : EntityType) : bool :=
  match a, b with
  | PERSON, PERSON | LOCATION, LOCATION | ORGANIZATION, ORGANIZATION => true
  | _, _ => false
  end.

Definition honorifics : list string :=
  ["mr"; "mrs"; "ms"; "dr"; "prof"; "sir"; "madam"; "miss"; "mister";
   "professor"; "judge"; "hon"; "honorable"].

(** [/\b(mr|mrs|...|honorable)\.?\s+/] at one position. *)
Definition honorificRegex : Regex.matcher :=
  fun prev s =>
    if Regex.wordBoundary prev s
    then Regex.matchAlternatives honorifics Regex.matchDotSpaces s
    else None.

(** [/[^a-z0-9\s]/g] replaced by a space. *)
Definition blankOthers (s : string) : string :=
  JsString.map (fun c => if Char.isKept c then c else Char.space) s.

(** [/\s+/g] replaced by a space; [inRun] tells that the previous
    character belonged to the run being replaced. *)
Fixpoint collapseSpaces (inRun : bool) (s : string) : string :=
  match s with
  | EmptyString => EmptyString
  | String c r =>
      if Char.isWhiteSpace c
      then if inRun then collapseSpaces true r
           else String Char.space (collapseSpaces true r)
      else String c (collapseSpaces false r)
  end.

Definition normalizeMention (text : string) : string :=
  let lowered := JsString.toLowerCase text in
  let noHonorifics := Regex.replaceAllBySpace honorificRegex None 0 lowered in
  let lettersAndDigits := blankOthers noHonorifics in
  JsString.trim (collapseSpaces false lettersAndDigits).

(** [set.add(x)] on a [Set<string>] kept in insertion order, which is
    the order [Array.from] lists it in. *)
Definition setAdd (x : string) (set : list string) : list string :=
  if existsb (String.eqb x) set then set else set ++ [x].

Definition buildKeyFingerprints (entityType : EntityType) (text : string)
  : list string :=
  let norm := normalizeMention text in
  if JsString.isEmpty norm then []
  else
    let set := [norm] in
    match entityType with
    | PERSON | ORGANIZATION =>
        let tokens := JsString.filterNonEmpty (JsString.splitSpace norm) in
        let last := JsString.lastOrEmpty tokens in
        if 4 <=? String.length last then setAdd last set else set
    | LOCATION => set
    end.

Definition keyFingerprint (text : string) : option string :=
  let norm := normalizeMention text in
  if JsString.isEmpty norm then None
  else
    let parts := JsString.filterNonEmpty (JsString.splitSpace norm) in
    if List.length parts <? 2 then None
    else
      let last := JsString.lastOrEmpty parts in
      if String.length last <? 4 then None else Some last.


(* ================================================================= *)
(** ** Template literals *)

Module Template.

(** [`${n}`] for a non-negative integer [n]. *)
Definition ofNat (n : nat) : string := NilZero.string_of_uint (Nat.to_uint n).

(** [`${z}`] for an integer [z]. *)
Definition ofZ (z : Z) : string := NilZero.string_of_int (Z.to_int z).

Definition ofEntityType (t : EntityType) : string :=
  match t with
  | PERSON => "PERSON"
  | LOCATION => "LOCATION"
  | ORGANIZATION => "ORGANIZATION"
  end.

End Template.

(* ================================================================= *)
(** ** Rows of the canonical store *)

Inductive Meta : Type :=
| MetaEmpty                              (* {} *)
| MetaUnresolved (reason : string).      (* { unresolved: true, reason } *)

Inductive Reason : Type := exact_alias | key_fingerprint.

Inductive LinkStatus : Type := PENDING | ACCEPTED | REJECTED.

Module CanonicalEntity.
Record t : Type := mk {
  id : nat;
  entityType : EntityType;
  canonicalText : string;
  canonicalNormalized : string;
  meta : Meta
}.
End CanonicalEntity.

Module EntityAlias.
Record t : Type := mk {
  id : nat;
  entityType : EntityType;
  canonicalEntityId : nat;
  aliasText : string;
  aliasNormalized : string
}.
End EntityAlias.

(** The legacy [Entity] table. *)
Module Entity.
Record t : Type := mk {
  id : nat;
  entityText : string;
  entityType : EntityType;
  normalizedText : string;
  canonicalText : string;
  aliases : list string;
  aliasFingerprints : list string
}.
End Entity.

Module EntityMention.
Record t : Type := mk {
  id : nat;
  fileId : nat;
  entityId : nat;
  canonicalEntityId : nat;
  aliasId : nat;
  mentionText : string;
  mentionNormalized : string;
  contextSnippet : string;
  mentionPosition : option Z;
  confidence : Q
}.
End EntityMention.

Module EntityCandidateLink.
Record t : Type := mk {
  id : nat;
  mentionId : nat;
  candidateCanonicalEntityId : nat;
  score : Q;
  reason : string;
  status : LinkStatus
}.
End EntityCandidateLink.

Module File.
Record t : Type := mk {
  id : nat;
  fullText : option string;
  entitiesExtracted : bool
}.
End File.

(** The tables a transaction commits or rolls back. *)
Record Db : Type := mkDb {
  canonicalEntity : list CanonicalEntity.t;
  entityAlias : list EntityAlias.t;
  entity : list Entity.t;
  entityMention : list EntityMention.t;
  entityCandidateLink : list EntityCandidateLink.t;
  file : list File.t
}.

(** The serial counters behind the autoincrement ids: the next id each
    table hands out.  They are not part of what a rollback restores. *)
Record Seqs : Type := mkSeqs {
  nextCanonicalEntity : nat;
  nextEntityAlias : nat;
  nextEntity : nat;
  nextEntityMention : nat;
  nextEntityCandidateLink : nat
}.

(** The run's in-memory [stats] object. *)
Record Stats : Type := mkStats {
  totalFiles : nat;
  processed : nat;
  skipped : nat;
  failed : nat;
  totalEntities : nat;
  totalMentions : nat;
  mergedMentions : nat;
  newEntities : nat
}.

Definition emptyDb : Db := mkDb [] [] [] [] [] [].
Definition initialSeqs : Seqs := mkSeqs 1 1 1 1 1.
Definition zeroStats : Stats := mkStats 0 0 0 0 0 0 0 0.

(* ================================================================= *)
(** ** Store calls: state, exceptions and injected storage faults *)

Inductive Error : Type :=
| UniqueConstraintViolation
| StorageFailure
| ExtractionFailure.

(** What a run of the program carries along.  [budget] is the number of
    store calls the connection still serves before one rejects
    ([None]: it never fails). *)
Record World : Type := mkWorld {
  db : Db;
  seqs : Seqs;
  stats : Stats;
  budget : option nat
}.

Inductive Result (A : Type) : Type :=
| Ok (a : A) (w : World)
| Threw (e : Error) (w : World).
Arguments Ok {A} a w.
Arguments Threw {A} e w.

Definition Tx (A : Type) : Type := World -> Result A.

Definition ret {A} (a : A) : Tx A := fun w => Ok a w.

Definition bind {A B} (c : Tx A) (k : A -> Tx B) : Tx B :=
  fun w => match c w with
           | Ok a w' => k a w'
           | Threw e w' => Threw e w'
           end.

Definition throw {A} (e : Error) : Tx A := fun w => Threw e w.

Declare Scope tx_scope.
Delimit Scope tx_scope with tx.
Notation "x <- c ;; k" := (bind c (fun x => k))
  (at level 61, c at next level, right associativity) : tx_scope.
Notation "c ;; k" := (bind c (fun _ => k))
  (at level 61, right associativity) : tx_scope.
Local Open Scope tx_scope.

(** What a store call does to the tables and counters, or the error it
    rejects with. *)
Definition Effect (A : Type) : Type := (A * Db * Seqs) + Error.

(** One awaited call on the Prisma client: it rejects when the
    connection budget is used up, and otherwise reads or updates the
    tables and counters. *)
Definition call {A} (f : Db -> Seqs -> Effect A) : Tx A
  := fun w =>
       match budget w with
       | Some 0 => Threw StorageFailure w
       | b =>
           match f (db w) (seqs w) with
           | inl (a, d, q) => Ok a (mkWorld d q (stats w) (option_map pred b))
           | inr e => Threw e (mkWorld (db w) (seqs w) (stats w) (option_map pred b))
           end
       end.

Definition query {A} (f : Db -> A) : Tx A :=
  call (fun d q => inl (f d, d, q)).

Definition updateStats (f : Stats -> Stats) : Tx unit :=
  fun w => Ok tt (mkWorld (db w) (seqs w) (f (stats w)) (budget w)).

Fixpoint forEach {A} (xs : list A) (body : A -> Tx unit) : Tx unit :=
  match xs with
  | [] => ret tt
  | x :: rest => body x ;; forEach rest body
  end.

(** [prisma.$transaction(body)]: the writes of [body] are kept when it
    returns and undone when it throws; the exception is passed on. *)
Definition transaction {A} (body : Tx A) : Tx A :=
  fun w =>
    match body w with
    | Ok a w' => Ok a w'
    | Threw e w' => Threw e (mkWorld (db w) (seqs w') (stats w') (budget w'))
    end.

(** [try { body } catch (err) { handler }] *)
Definition tryCatch {A} (body : Tx A) (handler : Error -> Tx A) : Tx A :=
  fun w =>
    match body w with
    | Ok a w' => Ok a w'
    | Threw e w' => handler e w'
    end.

(* ================================================================= *)
(** ** The Prisma calls the extractor makes *)

Section Store.

(** Whether [(mentionId, candidateCanonicalEntityId)] is unique on
    [EntityCandidateLink].  The schema of the canonicalization
    migration declares it ([CREATE UNIQUE INDEX
    entity_candidate_links_mention_id_candidate_canonical_entity_id_key]):
    [true] is the store the extractor runs on, [false] a store
    without that index. *)
Variable uniqueLinks : bool.

(** [tx.entityAlias.findMany({ where: { entityType, aliasNormalized },
    take: 20 })], rows in table order. *)
Definition aliasesWhere (ty : EntityType) (norm : string) (d : Db)
  : list EntityAlias.t :=
  firstn 20
    (filter (fun a => EntityType_eqb (EntityAlias.entityType a) ty
                      && String.eqb (EntityAlias.aliasNormalized a) norm)
            (entityAlias d)).

Definition entityAlias_findMany (ty : EntityType) (norm : string)
  : Tx (list EntityAlias.t) :=
  query (aliasesWhere ty norm).

(** [tx.entityAlias.findFirst({ where: { canonicalEntityId,
    aliasNormalized } })] *)
Definition aliasIn (cid : nat) (norm : string) (rows : list EntityAlias.t)
  : option EntityAlias.t :=
  find (fun a => Nat.eqb (EntityAlias.canonicalEntityId a) cid
                 && String.eqb (EntityAlias.aliasNormalized a) norm)
       rows.

Definition aliasOf (cid : nat) (norm : string) (d : Db)
  : option EntityAlias.t :=
  aliasIn cid norm (entityAlias d).

Definition entityAlias_findFirst (cid : nat) (norm : string)
  : Tx (option EntityAlias.t) :=
  query (aliasOf cid norm).

Definition entityAlias_create (ty : EntityType) (cid : nat)
    (aliasText aliasNormalized : string) : Tx EntityAlias.t :=
  call (fun d q =>
    let row := EntityAlias.mk (nextEntityAlias q) ty cid aliasText aliasNormalized in
    inl (row,
         mkDb (canonicalEntity d) (entityAlias d ++ [row]) (entity d)
              (entityMention d) (entityCandidateLink d) (file d),
         mkSeqs (nextCanonicalEntity q) (S (nextEntityAlias q)) (nextEntity q)
                (nextEntityMention q) (nextEntityCandidateLink q))).

Definition canonicalEntity_create (ty : EntityType)
    (canonicalText canonicalNormalized : string) (meta : Meta)
  : Tx CanonicalEntity.t :=
  call (fun d q =>
    let row := CanonicalEntity.mk (nextCanonicalEntity q) ty canonicalText
                                  canonicalNormalized meta in
    inl (row,
         mkDb (canonicalEntity d ++ [row]) (entityAlias d) (entity d)
              (entityMention d) (entityCandidateLink d) (file d),
         mkSeqs (S (nextCanonicalEntity q)) (nextEntityAlias q) (nextEntity q)
                (nextEntityMention q) (nextEntityCandidateLink q))).

(** [tx.canonicalEntity.findUnique({ where: { id } })] *)
Definition canonicalById (cid : nat) (d : Db) : option CanonicalEntity.t :=
  find (fun c => Nat.eqb (CanonicalEntity.id c) cid) (canonicalEntity d).

Definition canonicalEntity_findUnique (cid : nat)
  : Tx (option CanonicalEntity.t) :=
  query (canonicalById cid).

(** [tx.entity.findFirst({ where: { entityType, normalizedText } })] *)
Definition legacyEntityOf (ty : EntityType) (norm : string) (d : Db)
  : option Entity.t :=
  find (fun e => EntityType_eqb (Entity.entityType e) ty
                 && String.eqb (Entity.normalizedText e) norm)
       (entity d).

Definition entity_findFirst (ty : EntityType) (norm : string)
  : Tx (option Entity.t) :=
  query (legacyEntityOf ty norm).

Definition entity_create (entityText : string) (ty : EntityType)
    (normalizedText canonicalText : string)
    (aliases aliasFingerprints : list string) : Tx Entity.t :=
  call (fun d q =>
    let row := Entity.mk (nextEntity q) entityText ty normalizedText
                         canonicalText aliases aliasFingerprints in
    inl (row,
         mkDb (canonicalEntity d) (entityAlias d) (entity d ++ [row])
              (entityMention d) (entityCandidateLink d) (file d),
         mkSeqs (nextCanonicalEntity q) (nextEntityAlias q) (S (nextEntity q))
                (nextEntityMention q) (nextEntityCandidateLink q))).

Definition entityMention_create (fileId entityId canonicalEntityId aliasId : nat)
    (mentionText mentionNormalized contextSnippet : string)
    (mentionPosition : option Z) (confidence : Q) : Tx EntityMention.t :=
  call (fun d q =>
    let row := EntityMention.mk (nextEntityMention q) fileId entityId
                 canonicalEntityId aliasId mentionText mentionNormalized
                 contextSnippet mentionPosition confidence in
    inl (row,
         mkDb (canonicalEntity d) (entityAlias d) (entity d)
              (entityMention d ++ [row]) (entityCandidateLink d) (file d),
         mkSeqs (nextCanonicalEntity q) (nextEntityAlias q) (nextEntity q)
                (S (nextEntityMention q)) (nextEntityCandidateLink q))).

(** The candidate links of the mention rows [deleted]. *)
Definition linkOf (deleted : list EntityMention.t)
    (l : EntityCandidateLink.t) : bool :=
  existsb (fun r => Nat.eqb (EntityMention.id r)
                            (EntityCandidateLink.mentionId l))
          deleted.

(** [tx.entityMention.deleteMany({ where: { fileId } })].  The
    candidate links of the deleted mentions go with them: the schema
    declares [entity_candidate_links.mention_id] with [ON DELETE
    CASCADE]. *)
Definition entityMention_deleteMany (fileId : nat) : Tx unit :=
  call (fun d q =>
    let deleted :=
      filter (fun r => Nat.eqb (EntityMention.fileId r) fileId)
             (entityMention d) in
    inl (tt,
         mkDb (canonicalEntity d) (entityAlias d) (entity d)
              (filter (fun r => negb (Nat.eqb (EntityMention.fileId r) fileId))
                      (entityMention d))
              (filter (fun l => negb (linkOf deleted l))
                      (entityCandidateLink d))
              (file d),
         q)).

Definition entityCandidateLink_create (mentionId candidateCanonicalEntityId : nat)
    (score : Q) (reason : string) (status : LinkStatus) : Tx unit :=
  call (fun d q =>
    if uniqueLinks
       && existsb (fun l =>
            Nat.eqb (EntityCandidateLink.mentionId l) mentionId
            && Nat.eqb (EntityCandidateLink.candidateCanonicalEntityId l)
                       candidateCanonicalEntityId)
            (entityCandidateLink d)
    then inr UniqueConstraintViolation
    else
      let row := EntityCandidateLink.mk (nextEntityCandidateLink q) mentionId
                   candidateCanonicalEntityId score reason status in
      inl (tt,
           mkDb (canonicalEntity d) (entityAlias d) (entity d)
                (entityMention d) (entityCandidateLink d ++ [row]) (file d),
           mkSeqs (nextCanonicalEntity q) (nextEntityAlias q) (nextEntity q)
                  (nextEntityMention q) (S (nextEntityCandidateLink q)))).

(** [tx.file.update({ where: { id }, data: { entitiesExtracted: true,
    entitiesExtractedAt: new Date() } })]; the timestamp is not kept. *)
Definition file_update_extracted (fileId : nat) : Tx unit :=
  call (fun d q =>
    inl (tt,
         mkDb (canonicalEntity d) (entityAlias d) (entity d)
              (entityMention d) (entityCandidateLink d)
              (map (fun f => if Nat.eqb (File.id f) fileId
                             then File.mk (File.id f) (File.fullText f) true
                             else f)
                   (file d)),
         q)).

(* ================================================================= *)
(** ** The extractor *)

Record ExtractedEntity : Type := mkExtracted {
  ex_text : string;
  ex_type : EntityType;
  ex_context : option string;
  (** [position], floored, when it is a finite number; [None] when it
      is absent or not finite. *)
  ex_position : option Z
}.

Record MentionRow : Type := mkMention {
  mentionText : string;
  entityType : EntityType;
  mentionNormalized : string;
  mentionPosition : option Z;
  contextSnippet : string
}.

Record AliasCandidate : Type := mkCandidate {
  aliasId : nat;
  canonicalEntityId : nat;
  reason : Reason;
  score : Q
}.

Definition buildContextSnippet (fullText : string) (position : Z)
    (entityLen : nat) : string :=
  let before := 100%Z in
  let after := 100%Z in
  let start := Z.max 0 (position - before) in
  let stop := Z.min (Z.of_nat (String.length fullText))
                    (position + Z.max (Z.of_nat entityLen) 1 + after) in
  JsString.sliceZ start stop fullText.

Definition getOrCreateLegacyEntityId (ty : EntityType)
    (canonicalText canonicalNormalized : string) : Tx nat :=
  found <- entity_findFirst ty canonicalNormalized ;;
  match found with
  | Some e => ret (Entity.id e)
  | None =>
      created <- entity_create canonicalText ty canonicalNormalized canonicalText
                   [canonicalText] (buildKeyFingerprints ty canonicalText) ;;
      ret (Entity.id created)
  end.

Definition upsertAlias (ty : EntityType) (cid : nat)
    (aliasText aliasNormalized : string) : Tx nat :=
  existing <- entityAlias_findFirst cid aliasNormalized ;;
  match existing with
  | Some a => ret (EntityAlias.id a)
  | None =>
      created <- entityAlias_create ty cid aliasText aliasNormalized ;;
      ret (EntityAlias.id created)
  end.

(** The [seen] set of [findAliasCandidates], a [Set<string>]. *)
Definition setHas (key : string) (seen : list string) : bool :=
  existsb (String.eqb key) seen.

(** One of the two [for (const row of ...)] loops of
    [findAliasCandidates]: [suffix] is ["exact"] or ["key"]. *)
Fixpoint pushCandidates (suffix : string) (why : Reason) (sc : Q)
    (rows : list EntityAlias.t) (seen : list string)
    (out : list AliasCandidate) : list string * list AliasCandidate :=
  match rows with
  | [] => (seen, out)
  | row :: rest =>
      let key := (Template.ofNat (EntityAlias.canonicalEntityId row)
                  ++ "|" ++ suffix)%string in
      if setHas key seen then pushCandidates suffix why sc rest seen out
      else pushCandidates suffix why sc rest (seen ++ [key])
             (out ++ [mkCandidate (EntityAlias.id row)
                                  (EntityAlias.canonicalEntityId row) why sc])
  end.

Definition findAliasCandidates (mentionText mentionNormalized : string)
    (ty : EntityType) : Tx (list AliasCandidate) :=
  exact <- entityAlias_findMany ty mentionNormalized ;;
  let '(seen, out) := pushCandidates "exact" exact_alias 1.0%Q exact [] [] in
  match ty with
  | PERSON | ORGANIZATION =>
      match keyFingerprint mentionText with
      | Some key =>
          if negb (String.eqb key mentionNormalized) then
            keyRows <- entityAlias_findMany ty key ;;
            ret (snd (pushCandidates "key" key_fingerprint 0.6%Q keyRows seen out))
          else ret out
      | None => ret out
      end
  | LOCATION => ret out
  end.

(** [Array.from(new Set(xs))]: the distinct values in order of first
    appearance. *)
Fixpoint distinctFrom (seen : list nat) (xs : list nat) : list nat :=
  match xs with
  | [] => []
  | x :: rest =>
      if existsb (Nat.eqb x) seen then distinctFrom seen rest
      else x :: distinctFrom (x :: seen) rest
  end.

Definition distinct (xs : list nat) : list nat := distinctFrom [] xs.

Definition Reason_eqb (a b : Reason) : bool :=
  match a, b with
  | exact_alias, exact_alias | key_fingerprint, key_fingerprint => true
  | _, _ => false
  end.

Definition canonicalsBy (why : Reason) (candidates : list AliasCandidate)
  : list nat :=
  distinct (map canonicalEntityId
                (filter (fun c => Reason_eqb (reason c) why) candidates)).

Definition isAmbiguous (exactCanonicals keyCanonicals : list nat) : bool :=
  (1 <? List.length exactCanonicals)
  || ((List.length exactCanonicals =? 0) && (1 <? List.length keyCanonicals)).

Definition chosenCanonicalId (exactCanonicals keyCanonicals : list nat)
  : option nat :=
  match exactCanonicals with
  | [c] => Some c
  | _ => match keyCanonicals with
         | [c] => Some c
         | _ => None
         end
  end.

(** What one turn of the [for (const m of uniq)] loop did, with the
    canonical entity id it wrote into the mention row. *)
Inductive Resolution : Type :=
| Ambiguous (placeholderId : nat)
| CreatedNew (canonicalId : nat)
| Merged (canonicalId : nat)
| Skipped.

Definition registerAliases (m : MentionRow) (cid : nat) : Tx nat :=
  primaryAliasId <- upsertAlias (entityType m) cid (mentionText m)
                                (mentionNormalized m) ;;
  forEach (buildKeyFingerprints (entityType m) (mentionText m))
    (fun fp => _ <- upsertAlias (entityType m) cid (mentionText m) fp ;; ret tt) ;;
  ret primaryAliasId.

Definition linkReason (why : Reason) : string :=
  match why with
  | exact_alias => "exact alias normalized match"
  | key_fingerprint => "last-token fingerprint match"
  end.

(** The body of the [for (const m of uniq)] loop inside the
    transaction. *)
Definition resolveMention (fileId : nat) (m : MentionRow) : Tx Resolution :=
  candidates <- findAliasCandidates (mentionText m) (mentionNormalized m)
                                    (entityType m) ;;
  let exactCanonicals := canonicalsBy exact_alias candidates in
  let keyCanonicals := canonicalsBy key_fingerprint candidates in
  if isAmbiguous exactCanonicals keyCanonicals then
    unresolved <- canonicalEntity_create (entityType m) (mentionText m)
                    (mentionNormalized m)
                    (MetaUnresolved "ambiguous_alias_match") ;;
    primaryAliasId <- registerAliases m (CanonicalEntity.id unresolved) ;;
    legacyEntityId <- getOrCreateLegacyEntityId (entityType m)
                        (CanonicalEntity.canonicalText unresolved)
                        (CanonicalEntity.canonicalNormalized unresolved) ;;
    mention <- entityMention_create fileId legacyEntityId
                 (CanonicalEntity.id unresolved) primaryAliasId
                 (mentionText m) (mentionNormalized m) (contextSnippet m)
                 (mentionPosition m) 1.0%Q ;;
    forEach candidates
      (fun c => entityCandidateLink_create (EntityMention.id mention)
                  (canonicalEntityId c) (score c) (linkReason (reason c))
                  PENDING) ;;
    updateStats (fun s => mkStats (totalFiles s) (processed s) (skipped s)
                   (failed s) (totalEntities s) (totalMentions s)
                   (mergedMentions s) (S (newEntities s))) ;;
    ret (Ambiguous (CanonicalEntity.id unresolved))
  else
    match chosenCanonicalId exactCanonicals keyCanonicals with
    | None =>
        createdCanonical <- canonicalEntity_create (entityType m) (mentionText m)
                              (mentionNormalized m) MetaEmpty ;;
        primaryAliasId <- registerAliases m (CanonicalEntity.id createdCanonical) ;;
        legacyEntityId <- getOrCreateLegacyEntityId (entityType m)
                            (CanonicalEntity.canonicalText createdCanonical)
                            (CanonicalEntity.canonicalNormalized createdCanonical) ;;
        _ <- entityMention_create fileId legacyEntityId
               (CanonicalEntity.id createdCanonical) primaryAliasId
               (mentionText m) (mentionNormalized m) (contextSnippet m)
               (mentionPosition m) 1.0%Q ;;
        updateStats (fun s => mkStats (totalFiles s) (processed s) (skipped s)
                       (failed s) (totalEntities s) (totalMentions s)
                       (mergedMentions s) (S (newEntities s))) ;;
        ret (CreatedNew (CanonicalEntity.id createdCanonical))
    | Some chosen =>
        canonical <- canonicalEntity_findUnique chosen ;;
        match canonical with
        | None => ret Skipped
        | Some canonical =>
            aliasId <- registerAliases m (CanonicalEntity.id canonical) ;;
            legacyEntityId <- getOrCreateLegacyEntityId (entityType m)
                                (CanonicalEntity.canonicalText canonical)
                                (CanonicalEntity.canonicalNormalized canonical) ;;
            _ <- entityMention_create fileId legacyEntityId
                   (CanonicalEntity.id canonical) aliasId
                   (mentionText m) (mentionNormalized m) (contextSnippet m)
                   (mentionPosition m) 1.0%Q ;;
            updateStats (fun s => mkStats (totalFiles s) (processed s) (skipped s)
                           (failed s) (totalEntities s) (totalMentions s)
                           (S (mergedMentions s)) (newEntities s)) ;;
            ret (Merged (CanonicalEntity.id canonical))
        end
    end.

(* ================================================================= *)
(** ** Per-document ingestion *)

Record Chunk : Type := mkChunk {
  offset : nat;
  text : string
}.

(** The body of [for (const e of extracted)]: the mention row pushed
    for [e], or [None] when the loop [continue]s. *)
Definition mentionOf (fullText : string) (c : Chunk) (e : ExtractedEntity)
  : option MentionRow :=
  let mentionText := JsString.trim (ex_text e) in
  if JsString.isEmpty mentionText then None
  else
    let posInChunk :=
      match ex_position e with
      | Some p => if (0 <=? p)%Z then Some p else None
      | None => None
      end in
    let posInChunk :=
      match posInChunk with
      | Some p => Some p
      | None => option_map Z.of_nat (JsString.indexOf mentionText (text c))
      end in
    let globalPos := option_map (fun p => (Z.of_nat (offset c) + p)%Z) posInChunk in
    let contextSnippet :=
      match globalPos with
      | Some g => buildContextSnippet fullText g (String.length mentionText)
      | None => match ex_context e with Some x => x | None => EmptyString end
      end in
    let mentionNormalized := normalizeMention mentionText in
    if JsString.isEmpty mentionNormalized then None
    else Some (mkMention mentionText (ex_type e) mentionNormalized globalPos
                         contextSnippet).

Fixpoint pushMentions (fullText : string) (c : Chunk)
    (extracted : list ExtractedEntity) : list MentionRow :=
  match extracted with
  | [] => []
  | e :: rest =>
      match mentionOf fullText c e with
      | Some m => m :: pushMentions fullText c rest
      | None => pushMentions fullText c rest
      end
  end.

(** The key of the [seenKeys] set. *)
Definition dedupeKey (m : MentionRow) : string :=
  (Template.ofEntityType (entityType m) ++ "|" ++ mentionNormalized m ++ "|"
   ++ Template.ofZ (match mentionPosition m with Some p => p | None => (-1)%Z end)
   ++ "|" ++ JsString.toLowerCase (mentionText m))%string.

Fixpoint uniqFrom (seenKeys : list string) (mentions : list MentionRow)
  : list MentionRow :=
  match mentions with
  | [] => []
  | m :: rest =>
      if setHas (dedupeKey m) seenKeys then uniqFrom seenKeys rest
      else m :: uniqFrom (seenKeys ++ [dedupeKey m]) rest
  end.

Definition uniqMentions (mentions : list MentionRow) : list MentionRow :=
  uniqFrom [] mentions.

Section Run.

(** [--reprocess] *)
Variable reprocess : bool.

(** [chunkTextByMaxChars(fullText, maxChars)] for the run's
    [EXTRACTION_MAX_CHARS]. *)
Variable chunkText : string -> list Chunk.

(** [callOpenAiExtractEntitiesWithRetry] on a chunk's text: the
    entities the model returned, or [None] when every attempt threw. *)
Variable extract : string -> option (list ExtractedEntity).

(** Storage faults: for the file with a given id, the number of store
    calls its transaction is served before one rejects ([None]: all of
    them are served). *)
Variable storageFaults : nat -> option nat.

Definition callOpenAiExtractEntitiesWithRetry (chunkText : string)
  : Tx (list ExtractedEntity) :=
  match extract chunkText with
  | Some es => ret es
  | None => throw ExtractionFailure
  end.

Fixpoint collectMentions (fullText : string) (chunks : list Chunk)
  : Tx (list MentionRow) :=
  match chunks with
  | [] => ret []
  | c :: rest =>
      extracted <- callOpenAiExtractEntitiesWithRetry (text c) ;;
      updateStats (fun s => mkStats (totalFiles s) (processed s) (skipped s)
                     (failed s) (totalEntities s + List.length extracted)
                     (totalMentions s) (mergedMentions s) (newEntities s)) ;;
      more <- collectMentions fullText rest ;;
      ret (pushMentions fullText c extracted ++ more)
  end.

Definition skipFile : Tx unit :=
  updateStats (fun s => mkStats (totalFiles s) (processed s) (S (skipped s))
                 (failed s) (totalEntities s) (totalMentions s)
                 (mergedMentions s) (newEntities s)).

Definition connect (faults : option nat) : Tx unit :=
  fun w => Ok tt (mkWorld (db w) (seqs w) (stats w) faults).

(** The callback handed to [prisma.$transaction] for file [f]. *)
Definition resolveDocument (fileId : nat) (uniq : list MentionRow) : Tx unit :=
  (if reprocess then entityMention_deleteMany fileId else ret tt) ;;
  forEach uniq (fun m => _ <- resolveMention fileId m ;; ret tt) ;;
  file_update_extracted fileId.

(** The body of [for (const f of files)]. *)
Definition processFile (f : File.t) : Tx unit :=
  if negb reprocess && File.entitiesExtracted f then skipFile
  else
    let fullText :=
      JsString.trim (match File.fullText f with
                     | Some t => t
                     | None => EmptyString
                     end) in
    if JsString.isEmpty fullText then skipFile
    else if String.length fullText <? 50 then skipFile
    else
      tryCatch
        (mentions <- collectMentions fullText (chunkText fullText) ;;
         let uniq := uniqMentions mentions in
         connect (storageFaults (File.id f)) ;;
         transaction (resolveDocument (File.id f) uniq) ;;
         updateStats (fun s => mkStats (totalFiles s) (S (processed s))
                        (skipped s) (failed s) (totalEntities s)
                        (totalMentions s + List.length uniq)
                        (mergedMentions s) (newEntities s)))
        (fun _ =>
           updateStats (fun s => mkStats (totalFiles s) (processed s)
                          (skipped s) (S (failed s)) (totalEntities s)
                          (totalMentions s) (mergedMentions s) (newEntities s))).

(** The [for (const f of files)] loops of [main], over the files its
    cursor pages through in ascending id. *)
Definition processFiles (files : list File.t) : Tx unit :=
  forEach files processFile.

End Run.

End Store.
(* ================================================================= *)
(** ** The normalizer as the specification words it *)

Module NormalizerSpec.

(** A character of a normalized text: a lowercase letter, a digit or a
    space. *)
Definition isNormalChar (c : ascii) : bool :=
  Char.isLowerAZ c || Char.isDigit c || Ascii.eqb c Char.space.

Definition startsWithSpace (s : string) : bool :=
  match s with String c _ => Ascii.eqb c Char.space | EmptyString => false end.

Fixpoint endsWithSpace (s : string) : bool :=
  match s with
  | EmptyString => false
  | String c EmptyString => Ascii.eqb c Char.space
  | String _ r => endsWithSpace r
  end.

Fixpoint noDoubleSpace (s : string) : bool :=
  match s with
  | EmptyString => true
  | String a r =>
      negb (Ascii.eqb a Char.space && startsWithSpace r) && noDoubleSpace r
  end.

(** Only lowercase letters, digits and single spaces, none of them at
    either end. *)
Definition isNormalForm (s : string) : bool :=
  JsString.forallb isNormalChar s && noDoubleSpace s
  && negb (startsWithSpace s) && negb (endsWithSpace s).

(** An honorific at the head of [s]: the whole word there is one of the
    fixed honorifics and it is followed, after an optional period, by
    white space.  The result is the length of honorific, period and
    white space together. *)
Definition honorificAt (s : string) : option nat :=
  let '(word, rest) := JsString.span Char.isWordChar s in
  if existsb (String.eqb word) honorifics then
    let '(period, rest') :=
      match rest with
      | String c r => if Ascii.eqb c Char.dot then (1, r) else (0, rest)
      | EmptyString => (0, rest)
      end in
    let '(blank, _) := JsString.span Char.isWhiteSpace rest' in
    if JsString.isEmpty blank then None
    else Some (String.length word + period + String.length blank)
  else None.

(** What must follow an honorific: an optional period, then white
    space.  The result is their length. *)
Definition afterHonorific (rest : string) : option nat :=
  let '(period, rest') :=
    match rest with
    | String c r => if Ascii.eqb c Char.dot then (1, r) else (0, rest)
    | EmptyString => (0, rest)
    end in
  let '(blank, _) := JsString.span Char.isWhiteSpace rest' in
  if JsString.isEmpty blank then None
  else Some (period + String.length blank).

(** Strip every honorific that starts a word: nothing is left in its
    place. *)
Fixpoint stripHonorifics (prev : option ascii) (skip : nat) (s : string)
  : string :=
  match s with
  | EmptyString => EmptyString
  | String c r =>
      match skip with
      | S k => stripHonorifics (Some c) k r
      | 0 =>
          match (if Regex.isWordOpt prev then None else honorificAt s) with
          | Some n => stripHonorifics (Some c) (n - 1) r
          | None => String c (stripHonorifics (Some c) 0 r)
          end
      end
  end.

(** Replace any character that is not a lowercase letter, a digit or a
    space by a space. *)
Definition blankNonAlphanumerics (s : string) : string :=
  JsString.map (fun c => if isNormalChar c then c else Char.space) s.

(** Lowercase; strip the honorifics; blank what is not a letter, a
    digit or a space; collapse runs of white space; trim. *)
Definition normalize (text : string) : string :=
  JsString.trim
    (collapseSpaces false
       (blankNonAlphanumerics
          (stripHonorifics None 0 (JsString.toLowerCase text)))).

Fixpoint noSpace (s : string) : bool :=
  match s with
  | EmptyString => true
  | String c r => negb (Ascii.eqb c Char.space) && noSpace r
  end.

(** [tok] is the last space-delimited token of [s]. *)
Definition isLastToken (s tok : string) : Prop :=
  tok <> EmptyString /\ noSpace tok = true /\
  exists pre, s = (pre ++ tok)%string
              /\ (pre = EmptyString \/ exists p, pre = (p ++ " ")%string).

End NormalizerSpec.

(* ================================================================= *)
(** ** What the schema and the extractor keep true of the store *)

Module StoreSpec.

(** The connection serves every call. *)
Definition healthy (w : World) : Prop := budget w = None.

Definition heal (w : World) : World :=
  mkWorld (db w) (seqs w) (stats w) None.

(** The world a result ends in, returned or thrown. *)
Definition finalWorld {A} (r : Result A) : World :=
  match r with Ok _ w => w | Threw _ w => w end.

(** The canonical entity an alias names exists, and every canonical
    row of that id has the alias's entity type. *)
Definition ownedBy (canonicals : list CanonicalEntity.t) (cid : nat)
    (ty : EntityType) : bool :=
  existsb (fun c => Nat.eqb (CanonicalEntity.id c) cid) canonicals
  && forallb (fun c => implb (Nat.eqb (CanonicalEntity.id c) cid)
                             (EntityType_eqb (CanonicalEntity.entityType c) ty))
             canonicals.

Definition referentialIntegrity (d : Db) : bool :=
  forallb (fun a => ownedBy (canonicalEntity d)
                            (EntityAlias.canonicalEntityId a)
                            (EntityAlias.entityType a))
          (entityAlias d).

Definition sameAliasKey (a b : EntityAlias.t) : bool :=
  Nat.eqb (EntityAlias.canonicalEntityId a) (EntityAlias.canonicalEntityId b)
  && String.eqb (EntityAlias.aliasNormalized a) (EntityAlias.aliasNormalized b).

(** [(canonicalEntityId, aliasNormalized)] is unique. *)
Fixpoint aliasKeysUnique (rows : list EntityAlias.t) : bool :=
  match rows with
  | [] => true
  | a :: rest => negb (existsb (sameAliasKey a) rest) && aliasKeysUnique rest
  end.

(** Every id in a table was handed out by its counter, and a candidate
    link names a mention that was. *)
Definition serialsAhead (d : Db) (q : Seqs) : bool :=
  forallb (fun c => CanonicalEntity.id c <? nextCanonicalEntity q) (canonicalEntity d)
  && forallb (fun a => EntityAlias.id a <? nextEntityAlias q) (entityAlias d)
  && forallb (fun e => Entity.id e <? nextEntity q) (entity d)
  && forallb (fun m => EntityMention.id m <? nextEntityMention q) (entityMention d)
  && forallb (fun l => EntityCandidateLink.mentionId l <? nextEntityMention q)
             (entityCandidateLink d).

Definition wellFormed (w : World) : Prop :=
  referentialIntegrity (db w) = true
  /\ aliasKeysUnique (entityAlias (db w)) = true
  /\ serialsAhead (db w) (seqs w) = true.

(** A mention row is backed: its legacy entity row exists and carries
    the normalized text and the type of its canonical entity. *)
Definition backed (d : Db) (r : EntityMention.t) : bool :=
  existsb (fun e =>
    Nat.eqb (Entity.id e) (EntityMention.entityId r)
    && existsb (fun c =>
         Nat.eqb (CanonicalEntity.id c) (EntityMention.canonicalEntityId r)
         && String.eqb (Entity.normalizedText e)
                       (CanonicalEntity.canonicalNormalized c)
         && EntityType_eqb (Entity.entityType e) (CanonicalEntity.entityType c))
         (canonicalEntity d))
    (entity d).

Definition mentionsBacked (d : Db) : bool :=
  forallb (backed d) (entityMention d).

(** The canonical entity a resolution wrote into the mention row. *)
Definition resolvedTo (r : Resolution) : option nat :=
  match r with
  | Ambiguous p => Some p
  | CreatedNew c => Some c
  | Merged c => Some c
  | Skipped => None
  end.

(** The entity type recorded for canonical entity [cid]. *)
Definition typeOf (d : Db) (cid : nat) : option EntityType :=
  option_map CanonicalEntity.entityType (canonicalById cid d).

(** What the matcher answers on tables [d]. *)
Definition candidatesIn (d : Db) (mentionText mentionNormalized : string)
    (ty : EntityType) : list AliasCandidate :=
  let exact := aliasesWhere ty mentionNormalized d in
  let '(seen, out) := pushCandidates "exact" exact_alias 1.0%Q exact [] [] in
  match ty with
  | PERSON | ORGANIZATION =>
      match keyFingerprint mentionText with
      | Some key =>
          if negb (String.eqb key mentionNormalized)
          then snd (pushCandidates "key" key_fingerprint 0.6%Q
                                   (aliasesWhere ty key d) seen out)
          else out
      | None => out
      end
  | LOCATION => out
  end.

(** The alias rows the last-token lookup of the matcher reads: none
    for a LOCATION, for a mention without a last-token fingerprint, or
    when the fingerprint is the normalized text itself. *)
Definition keyRowsIn (d : Db) (mentionText mentionNormalized : string)
    (ty : EntityType) : list EntityAlias.t :=
  match ty with
  | PERSON | ORGANIZATION =>
      match keyFingerprint mentionText with
      | Some key =>
          if negb (String.eqb key mentionNormalized)
          then aliasesWhere ty key d else []
      | None => []
      end
  | LOCATION => []
  end.

(** The alias rows a sequence of [upsertAlias] calls for [cid] appends
    to [rows]: one for each key that [cid] does not have yet. *)
Fixpoint aliasesToAdd (ty : EntityType) (cid : nat) (aliasText : string)
    (keys : list string) (rows : list EntityAlias.t) (next : nat)
  : list EntityAlias.t :=
  match keys with
  | [] => []
  | k :: ks =>
      match aliasIn cid k rows with
      | Some _ => aliasesToAdd ty cid aliasText ks rows next
      | None =>
          let row := EntityAlias.mk next ty cid aliasText k in
          row :: aliasesToAdd ty cid aliasText ks (rows ++ [row]) (S next)
      end
  end.

(** The keys a resolution registers for a mention. *)
Definition aliasKeys (m : MentionRow) : list string :=
  mentionNormalized m :: buildKeyFingerprints (entityType m) (mentionText m).

(** The candidates, and the two sets the decision looks at. *)
Definition candidatesOf (w : World) (mn : MentionRow) : list AliasCandidate :=
  candidatesIn (db w) (mentionText mn) (mentionNormalized mn) (entityType mn).

Definition exactSet (w : World) (mn : MentionRow) : list nat :=
  canonicalsBy exact_alias (candidatesOf w mn).

Definition fingerprintSet (w : World) (mn : MentionRow) : list nat :=
  canonicalsBy key_fingerprint (candidatesOf w mn).

(** Between [w] and [w'] the normalized text and the fingerprints of
    [mn] were registered as aliases of canonical entity [c]: each of
    them is an alias of [c] in [w'], the alias rows of [w'] are those
    of [w] followed by rows of [c] for keys it did not have, and no
    pair of canonical entity and normalized alias occurs twice. *)
Definition registeredAt (mn : MentionRow) (c : nat) (w w' : World) : Prop :=
  (forall k, In k (aliasKeys mn) ->
     exists a, In a (entityAlias (db w'))
               /\ EntityAlias.canonicalEntityId a = c
               /\ EntityAlias.aliasNormalized a = k)
  /\ (exists added,
        entityAlias (db w') = entityAlias (db w) ++ added
        /\ forall a, In a added ->
             EntityAlias.canonicalEntityId a = c
             /\ In (EntityAlias.aliasNormalized a) (aliasKeys mn)
             /\ aliasIn c (EntityAlias.aliasNormalized a) (entityAlias (db w)) = None)
  /\ aliasKeysUnique (entityAlias (db w')) = true.

(** The placeholder of an ambiguous mention, and the canonical entity
    of a new one. *)
Definition placeholderFor (w : World) (mn : MentionRow) : CanonicalEntity.t :=
  CanonicalEntity.mk (nextCanonicalEntity (seqs w)) (entityType mn)
    (mentionText mn) (mentionNormalized mn)
    (MetaUnresolved "ambiguous_alias_match").

Definition canonicalFor (w : World) (mn : MentionRow) : CanonicalEntity.t :=
  CanonicalEntity.mk (nextCanonicalEntity (seqs w)) (entityType mn)
    (mentionText mn) (mentionNormalized mn) MetaEmpty.

(** The candidate link rows written for [candidates], ids from [next]
    on. *)
Fixpoint linkRows (next mentionId : nat) (candidates : list AliasCandidate)
  : list EntityCandidateLink.t :=
  match candidates with
  | [] => []
  | c :: rest =>
      EntityCandidateLink.mk next mentionId (canonicalEntityId c) (score c)
                             (linkReason (reason c)) PENDING
      :: linkRows (S next) mentionId rest
  end.

(** The keys of the deduplication the specification describes: entity
    type, normalized text and position. *)
Definition sameSpan (a b : MentionRow) : Prop :=
  entityType a = entityType b
  /\ mentionNormalized a = mentionNormalized b
  /\ mentionPosition a = mentionPosition b.

(** The keys of the deduplication the extractor performs: those three
    and the lowercased mention text. *)
Definition sameKeyFields (a b : MentionRow) : Prop :=
  sameSpan a b
  /\ JsString.toLowerCase (mentionText a) = JsString.toLowerCase (mentionText b).

(** A mention row as the document loop builds it. *)
Definition fromDocument (m : MentionRow) : Prop :=
  mentionNormalized m = normalizeMention (mentionText m)
  /\ forall p, mentionPosition m = Some p -> (0 <= p)%Z.

(** A stretch of ingestion: the resolutions of mentions, each for its
    file, one after the other. *)
Fixpoint resolveAll (uniqueLinks : bool) (jobs : list (nat * MentionRow))
  : Tx (list Resolution) :=
  match jobs with
  | [] => ret []
  | (fileId, m) :: rest =>
      r <- resolveMention uniqueLinks fileId m ;;
      rs <- resolveAll uniqueLinks rest ;;
      ret (r :: rs)
  end.

(** What ingestion keeps true of the store. *)
Definition invariant (w : World) : Prop :=
  wellFormed w /\ mentionsBacked (db w) = true.

(** The world in which a document's transaction starts: the
    connection serves [faults] calls. *)
Definition connected (faults : option nat) (w : World) : World :=
  mkWorld (db w) (seqs w) (stats w) faults.

End StoreSpec.

(* ================================================================= *)
(** ** Auxiliary notions of the proofs *)

Module Aux.
Import StoreSpec.

(** No ["|"] in a field of a key. *)
Definition noBar (s : string) : bool :=
  JsString.forallb (fun c => negb (Ascii.eqb c "|"%char)) s.

Definition seenKey (n : nat) (suffix : string) : string :=
  (Template.ofNat n ++ "|" ++ suffix)%string.

(** The alias rows a loop turns into candidates: the first row of each
    canonical entity not seen before. *)
Fixpoint firstRows (seenIds : list nat) (rows : list EntityAlias.t)
  : list EntityAlias.t :=
  match rows with
  | [] => []
  | r :: rest =>
      if existsb (Nat.eqb (EntityAlias.canonicalEntityId r)) seenIds
      then firstRows seenIds rest
      else r :: firstRows (EntityAlias.canonicalEntityId r :: seenIds) rest
  end.

Definition candidateOf (why : Reason) (sc : Q) (r : EntityAlias.t)
  : AliasCandidate :=
  mkCandidate (EntityAlias.id r) (EntityAlias.canonicalEntityId r) why sc.

(** The legacy entity row [getOrCreateLegacyEntityId] adds, if any. *)
Definition legacyRows (ty : EntityType) (ctext cnorm : string)
    (ents : list Entity.t) (next : nat) : list Entity.t :=
  match find (fun e => EntityType_eqb (Entity.entityType e) ty
                       && String.eqb (Entity.normalizedText e) cnorm) ents with
  | Some _ => []
  | None => [Entity.mk next ctext ty cnorm ctext [ctext]
                       (buildKeyFingerprints ty ctext)]
  end.

(** The id [getOrCreateLegacyEntityId] returns. *)
Definition legacyId (ty : EntityType) (cnorm : string)
    (ents : list Entity.t) (next : nat) : nat :=
  match find (fun e => EntityType_eqb (Entity.entityType e) ty
                       && String.eqb (Entity.normalizedText e) cnorm) ents with
  | Some e => Entity.id e
  | None => next
  end.

(** The id the first [upsertAlias] of a resolution returns. *)
Definition primaryAliasId (cid : nat) (norm : string)
    (rows : list EntityAlias.t) (next : nat) : nat :=
  match aliasIn cid norm rows with
  | Some a => EntityAlias.id a
  | None => next
  end.

(** The mention row a resolution writes for [m], resolved to [cid]
    whose canonical normalized text is [cnorm]. *)
Definition mentionRowFor (fileId : nat) (m : MentionRow) (cid : nat)
    (cnorm : string) (rows : list EntityAlias.t) (ents : list Entity.t)
    (nextAlias nextEnt nextMention : nat) : EntityMention.t :=
  EntityMention.mk nextMention fileId
    (legacyId (entityType m) cnorm ents nextEnt) cid
    (primaryAliasId cid (mentionNormalized m) rows nextAlias)
    (mentionText m) (mentionNormalized m) (contextSnippet m)
    (mentionPosition m) 1.0%Q.

(** No candidate link can collide: the store has no unique index on
    links, or the candidates name distinct entities and no older link
    of the mention names one of them. *)
Definition linksClear (uniqueLinks : bool) (mentionId : nat)
    (candidates : list AliasCandidate)
    (links : list EntityCandidateLink.t) : Prop :=
  uniqueLinks = false
  \/ (NoDup (map canonicalEntityId candidates)
      /\ forall l, In l links ->
            EntityCandidateLink.mentionId l = mentionId ->
            ~ In (EntityCandidateLink.candidateCanonicalEntityId l)
                 (map canonicalEntityId candidates)).

Definition bumpNew (s : Stats) : Stats :=
  mkStats (totalFiles s) (processed s) (skipped s) (failed s)
          (totalEntities s) (totalMentions s) (mergedMentions s)
          (S (newEntities s)).

Definition bumpMerged (s : Stats) : Stats :=
  mkStats (totalFiles s) (processed s) (skipped s) (failed s)
          (totalEntities s) (totalMentions s) (S (mergedMentions s))
          (newEntities s).

(** The world a resolution of [mn] to canonical entity [cid] ends in,
    from a healthy world [w]: [more] are the canonical rows it adds
    (none when it merges), [ct] and [cn] the canonical text and
    normalized text of [cid], [cands] the candidates it links (none
    unless it is ambiguous). *)
Definition written (w : World) (more : list CanonicalEntity.t) (fileId : nat)
    (mn : MentionRow) (cid : nat) (ct cn : string)
    (cands : list AliasCandidate) (count : Stats -> Stats) : World :=
  let d := db w in
  let q := seqs w in
  let added := aliasesToAdd (entityType mn) cid (mentionText mn) (aliasKeys mn)
                            (entityAlias d) (nextEntityAlias q) in
  let legacy := legacyRows (entityType mn) ct cn (entity d) (nextEntity q) in
  mkWorld
    (mkDb (canonicalEntity d ++ more)
          (entityAlias d ++ added)
          (entity d ++ legacy)
          (entityMention d
           ++ [mentionRowFor fileId mn cid cn (entityAlias d) (entity d)
                 (nextEntityAlias q) (nextEntity q) (nextEntityMention q)])
          (entityCandidateLink d
           ++ linkRows (nextEntityCandidateLink q) (nextEntityMention q) cands)
          (file d))
    (mkSeqs (nextCanonicalEntity q + List.length more)
            (nextEntityAlias q + List.length added)
            (nextEntity q + List.length legacy)
            (S (nextEntityMention q))
            (nextEntityCandidateLink q + List.length cands))
    (count (stats w)) None.

(** The serial counters only grow. *)
Definition seqsLe (a b : Seqs) : Prop :=
  nextCanonicalEntity a <= nextCanonicalEntity b
  /\ nextEntityAlias a <= nextEntityAlias b
  /\ nextEntity a <= nextEntity b
  /\ nextEntityMention a <= nextEntityMention b
  /\ nextEntityCandidateLink a <= nextEntityCandidateLink b.

(** A computation whose successful runs do not depend on the connection
    budget, and which never moves a serial counter back. *)
Definition regular {A} (c : Tx A) : Prop :=
  forall w,
    match c w with
    | Ok a w' => c (heal w) = Ok a (heal w') /\ seqsLe (seqs w) (seqs w')
    | Threw _ w' => seqsLe (seqs w) (seqs w')
    end.

(** A store call that never moves a serial counter back. *)
Definition monotone {A} (f : Db -> Seqs -> Effect A) : Prop :=
  forall d q,
    match f d q with
    | inl (_, _, q') => seqsLe q q'
    | inr _ => True
    end.

(** A computation that leaves the store's invariant in the world it
    ends in, returned or thrown. *)
Definition keeps {A} (c : Tx A) : Prop :=
  forall w, invariant w -> invariant (finalWorld (c w)).

(** A computation that leaves the store's invariant when it returns. *)
Definition keepsOk {A} (c : Tx A) : Prop :=
  forall w a w', invariant w -> c w = Ok a w' -> invariant w'.

(** A computation that touches neither the tables, nor the serial
    counters, nor the tallies of processed and failed files. *)
Definition quiet {A} (c : Tx A) : Prop :=
  forall w,
    db (finalWorld (c w)) = db w
    /\ seqs (finalWorld (c w)) = seqs w
    /\ failed (stats (finalWorld (c w))) = failed (stats w)
    /\ processed (stats (finalWorld (c w))) = processed (stats w).

(** A computation that does not touch the tallies of processed and
    failed files. *)
Definition tallyFree {A} (c : Tx A) : Prop :=
  forall w,
    failed (stats (finalWorld (c w))) = failed (stats w)
    /\ processed (stats (finalWorld (c w))) = processed (stats w).

End Aux.

(* ================================================================= *)
(** ** Stores used in the examples *)

Module Fixtures.

Definition world (d : Db) (q : Seqs) : World := mkWorld d q zeroStats None.

Definition emptyWorld : World := world emptyDb initialSeqs.

(** One person, the way a first mention of "John Smith" leaves the
    store: the full name and the last-token fingerprint are both
    aliases of canonical entity 1. *)
Definition oneSmith : Db :=
  mkDb [CanonicalEntity.mk 1 PERSON "John Smith" "john smith" MetaEmpty]
       [EntityAlias.mk 1 PERSON 1 "John Smith" "john smith";
        EntityAlias.mk 2 PERSON 1 "John Smith" "smith"]
       [Entity.mk 1 "John Smith" PERSON "john smith" "John Smith"
                  ["John Smith"] ["john smith"; "smith"]]
       [EntityMention.mk 1 7 1 1 1 "John Smith" "john smith" EmptyString None 1.0%Q]
       [] [File.mk 7 None true].

Definition oneSmithSeqs : Seqs := mkSeqs 2 3 2 2 1.

(** Two different persons called John Smith, each with the full name
    and the last-token fingerprint as aliases. *)
Definition twoSmiths : Db :=
  mkDb [CanonicalEntity.mk 1 PERSON "John Smith" "john smith" MetaEmpty;
        CanonicalEntity.mk 2 PERSON "John Smith" "john smith" MetaEmpty]
       [EntityAlias.mk 1 PERSON 1 "John Smith" "john smith";
        EntityAlias.mk 2 PERSON 1 "John Smith" "smith";
        EntityAlias.mk 3 PERSON 2 "John Smith" "john smith";
        EntityAlias.mk 4 PERSON 2 "John Smith" "smith"]
       [] [] [] [].

Definition twoSmithsSeqs : Seqs := mkSeqs 3 5 1 1 1.

(** Two persons called John Smith as a backfill from the legacy
    entities leaves them: each with its normalized name as its only
    alias. *)
Definition backfilledSmiths : Db :=
  mkDb [CanonicalEntity.mk 1 PERSON "John Smith" "john smith" MetaEmpty;
        CanonicalEntity.mk 2 PERSON "John Smith" "john smith" MetaEmpty]
       [EntityAlias.mk 1 PERSON 1 "John Smith" "john smith";
        EntityAlias.mk 2 PERSON 2 "John Smith" "john smith"]
       [] [] [] [].

Definition backfilledSeqs : Seqs := mkSeqs 3 3 1 1 1.

(** Two persons whose aliases share only the last token. *)
Definition smithAndSmith : Db :=
  mkDb [CanonicalEntity.mk 1 PERSON "Alice Smith" "alice smith" MetaEmpty;
        CanonicalEntity.mk 2 PERSON "Bob Smith" "bob smith" MetaEmpty]
       [EntityAlias.mk 1 PERSON 1 "Alice Smith" "alice smith";
        EntityAlias.mk 2 PERSON 1 "Alice Smith" "smith";
        EntityAlias.mk 3 PERSON 2 "Bob Smith" "bob smith";
        EntityAlias.mk 4 PERSON 2 "Bob Smith" "smith"]
       [] [] [] [].

Definition mention (text : string) (ty : EntityType) : MentionRow :=
  mkMention text ty (normalizeMention text) None EmptyString.

(** A document and what the extractor returned for it: the same span
    reported twice, once with and once without the title. *)
Definition letter : string :=
  "Dear Mr. Smith, thank you for the letter of May 4th about the estate.".

Definition letterChunk : Chunk := mkChunk 0 letter.

Definition titledSmith : ExtractedEntity :=
  mkExtracted "Mr. Smith" PERSON None (Some 5%Z).

Definition plainSmith : ExtractedEntity :=
  mkExtracted "Smith" PERSON None (Some 5%Z).

(** A run over that letter, stored as file 7: one chunk, and the
    extractor reports the titled mention. *)
Definition letterFile : File.t := File.mk 7 (Some letter) false.

Definition letterWorld : World :=
  world (mkDb [] [] [] [] [] [letterFile]) initialSeqs.

Definition oneChunk (fullText : string) : list Chunk := [mkChunk 0 fullText].

Definition reportsTitledSmith (chunkText : string)
  : option (list ExtractedEntity) := Some [titledSmith].

Definition neverFails (fileId : nat) : option nat := None.

(** The mention row built for the titled mention. *)
Definition letterMention : MentionRow :=
  hd (mention "Mr. Smith" PERSON)
     (pushMentions (JsString.trim letter) (mkChunk 0 (JsString.trim letter))
                   [titledSmith]).

(** A memo, stored as file 6, that names a new person and then one of
    the two John Smiths; the extractor reports both, without
    positions. *)
Definition memo : string :=
  "Alice Jones met John Smith at the harbour office on Monday morning.".

Definition memoFile : File.t := File.mk 6 (Some memo) false.

Definition aliceJones : ExtractedEntity :=
  mkExtracted "Alice Jones" PERSON None None.

Definition johnSmith : ExtractedEntity :=
  mkExtracted "John Smith" PERSON None None.

Definition reportsPeople (chunkText : string)
  : option (list ExtractedEntity) :=
  if prefix "Alice" chunkText then Some [aliceJones; johnSmith]
  else Some [titledSmith].

(** The mention rows built for the memo. *)
Definition memoMentions : list MentionRow :=
  pushMentions (JsString.trim memo) (mkChunk 0 (JsString.trim memo))
               [aliceJones; johnSmith].

(** The two John Smiths, with the memo and the letter to go through. *)
Definition smithsWorld : World :=
  world (mkDb (canonicalEntity twoSmiths) (entityAlias twoSmiths) [] [] []
              [memoFile; letterFile])
        twoSmithsSeqs.

(** Two notes, stored as files 7 and 9, each naming a Smith the store
    does not know by first name, and the store a run over both leaves:
    each mention is ambiguous between the Smiths known by then and
    has its placeholder and its PENDING links. *)
Definition carolNote : string :=
  "Carol Smith signed the lease for the harbour office in March.".

Definition daveNote : string :=
  "Dave Smith countersigned the lease for the harbour office in April.".

Definition carolFile : File.t := File.mk 7 (Some carolNote) false.

Definition daveFile : File.t := File.mk 9 (Some daveNote) false.

Definition reportsSigner (chunkText : string)
  : option (list ExtractedEntity) :=
  if prefix "Carol" chunkText
  then Some [mkExtracted "Carol Smith" PERSON None None]
  else Some [mkExtracted "Dave Smith" PERSON None None].

Definition signedWorld : World :=
  Eval vm_compute in
    StoreSpec.finalWorld
      (processFiles true false oneChunk reportsSigner neverFails
         [carolFile; daveFile]
         (world (mkDb (canonicalEntity smithAndSmith)
                      (entityAlias smithAndSmith)
                      [] [] [] [carolFile; daveFile])
                twoSmithsSeqs)).

End Fixtures.

(* ================================================================= *)
(** ** Cutting a text into chunks *)

Module Chunking.

(** ["\n\n"] *)
Definition paragraphBreak : string :=
  String "010"%char (String "010"%char EmptyString).

Fixpoint lastIndexFrom (t s : string) (k : nat) : option nat :=
  match k with
  | 0 => if prefix t s then Some 0 else None
  | S k' =>
      if prefix t (JsString.drop k s) then Some k else lastIndexFrom t s k'
  end.

(** [s.lastIndexOf(t, position)] for [0 <= position] ([None] for -1):
    the largest index, at most [position], at which [t] occurs. *)
Definition lastIndexOf (t s : string) (position : nat) : option nat :=
  lastIndexFrom t s (Nat.min position (String.length s)).

(** The [end] one turn of the [while] loop settles on: [maxChars]
    characters on, or just after the last paragraph break at or before
    that point when it lies far enough into the chunk. *)
Definition chunkEnd (fullText : string) (maxChars start : nat) : nat :=
  let stop := Nat.min (start + maxChars) (String.length fullText) in
  if stop <? String.length fullText then
    match lastIndexOf paragraphBreak fullText stop with
    | Some boundary =>
        if start + Nat.min 1000 (maxChars / 4) <? boundary then boundary + 2
        else stop
    | None => stop
    end
  else stop.

(** The [while (start < fullText.length)] loop, for a whole number
    [maxChars]; [None] when it is still running after [fuel] turns. *)
Fixpoint chunkLoop (fuel : nat) (fullText : string) (maxChars start : nat)
  : option (list Chunk) :=
  if start <? String.length fullText then
    match fuel with
    | 0 => None
    | S fuel' =>
        let stop := chunkEnd fullText maxChars start in
        option_map
          (cons (mkChunk start (JsString.slice start stop fullText)))
          (chunkLoop fuel' fullText maxChars stop)
    end
  else Some [].

Definition chunkTextByMaxChars (fuel : nat) (fullText : string)
    (maxChars : nat) : option (list Chunk) :=
  if String.length fullText <=? maxChars then Some [mkChunk 0 fullText]
  else chunkLoop fuel fullText maxChars 0.

(** The chunks of a text for a chunk size of at least one character,
    when the loop is given as many turns as the text has characters:
    it ends within them.  For a chunk size of 0 the loop does not end
    on a non-empty text, and this is not what the source computes. *)
Definition chunksWithin (maxChars : nat) (fullText : string) : list Chunk :=
  match chunkTextByMaxChars (String.length fullText) fullText maxChars with
  | Some chunks => chunks
  | None => []
  end.

(** Chunks that follow one another in the text without gap or overlap,
    the first at [start]. *)
Fixpoint contiguousFrom (start : nat) (chunks : list Chunk) : Prop :=
  match chunks with
  | [] => True
  | c :: rest =>
      offset c = start
      /\ contiguousFrom (start + String.length (text c)) rest
  end.

Definition endsWith (suffix s : string) : Prop :=
  exists pre, s = (pre ++ suffix)%string.

(** What every chunk of the loop is like. *)
Definition chunkOf (fullText : string) (maxChars : nat) (c : Chunk) : Prop :=
  text c
  = JsString.slice (offset c) (offset c + String.length (text c)) fullText
  /\ 1 <= String.length (text c) <= maxChars + 2
  /\ offset c + String.length (text c) <= String.length fullText
  /\ (offset c + String.length (text c) < String.length fullText ->
      Nat.min 1000 (maxChars / 4) < String.length (text c)
      /\ (String.length (text c) < maxChars ->
          endsWith paragraphBreak (text c))).

End Chunking.

(* ================================================================= *)
(** ** Tokens of a mention *)

Definition tokensOf (text : string) : list string :=
  JsString.filterNonEmpty
    (List.map JsString.trim (JsString.splitSpace (normalizeMention text))).

(** A lowercase letter or a digit. *)
Definition isTokenChar (c : ascii) : bool :=
  Char.isLowerAZ c || Char.isDigit c.

(* ================================================================= *)
(** ** Retrying the extraction call *)

Module Retry.

(** What one call of [callOpenAiExtractEntities] does: it returns the
    entities, or throws an [Error] with a message. *)
Inductive Attempt : Type :=
| Returns (entities : list ExtractedEntity)
| Throws (message : string).

Inductive Outcome : Type :=
| Returned (entities : list ExtractedEntity)
| Thrown (message : string).

(** The calls of [callOpenAiExtractEntities] made so far and the
    milliseconds slept so far. *)
Record Clock : Type := mkClock {
  calls : nat;
  sleptMs : nat
}.

Section Loop.

(** What the [n]-th call of [callOpenAiExtractEntities] of the run
    does, counting from 0. *)
Variable callOpenAiExtractEntities : nat -> Attempt.

(** The [for (let attempt = 1; attempt <= maxAttempts; attempt++)]
    loop with [remaining] turns to go, and the [throw] after it:
    [lastErr] is [None] for [null]. *)
Fixpoint attempts (remaining attempt : nat) (lastErr : option string)
    (c : Clock) : Outcome * Clock :=
  match remaining with
  | 0 =>
      (Thrown (match lastErr with Some message => message | None => "null" end),
       c)
  | S remaining' =>
      match callOpenAiExtractEntities (calls c) with
      | Returns entities => (Returned entities, mkClock (S (calls c)) (sleptMs c))
      | Throws message =>
          let backoffMs := 400 * 2 ^ (attempt - 1) in
          attempts remaining' (S attempt) (Some message)
                   (mkClock (S (calls c)) (sleptMs c + backoffMs))
      end
  end.

Definition callOpenAiExtractEntitiesWithRetry (maxAttempts : nat) (c : Clock)
  : Outcome * Clock :=
  attempts maxAttempts 1 None c.

(** The message of the error the [n]-th call throws. *)
Definition messageOf (n : nat) : string :=
  match callOpenAiExtractEntities n with
  | Throws message => message
  | Returns _ => EmptyString
  end.

Definition fails (n : nat) : Prop :=
  exists message, callOpenAiExtractEntities n = Throws message.

End Loop.

End Retry.

(* ================================================================= *)
(** ** What a run leaves behind *)

Module RunSpec.
Import StoreSpec.

(** The three tallies one of which every file ends in. *)
Definition tallies (s : Stats) : nat * nat * nat :=
  (processed s, skipped s, failed s).

(** A computation that leaves the three tallies alone, returned or
    thrown. *)
Definition untallied {A} (c : Tx A) : Prop :=
  forall w, tallies (stats (finalWorld (c w))) = tallies (stats w).

(** The mentions of a document when every extraction call returns: the
    rows built from what the extractor reports, chunk after chunk. *)
Definition mentionsOf (extract : string -> option (list ExtractedEntity))
    (fullText : string) (chunks : list Chunk) : list MentionRow :=
  flat_map (fun c => match extract (text c) with
                     | Some es => pushMentions fullText c es
                     | None => []
                     end)
           chunks.

(** The mention row of the store that a mention of the document was
    written as. *)
Definition writtenAs (fileId : nat) (m : MentionRow) (r : EntityMention.t)
  : Prop :=
  EntityMention.fileId r = fileId
  /\ EntityMention.mentionText r = mentionText m
  /\ EntityMention.mentionNormalized r = mentionNormalized m
  /\ EntityMention.contextSnippet r = contextSnippet m
  /\ EntityMention.mentionPosition r = mentionPosition m.

(** The mention rows of a file, in table order. *)
Definition mentionsOfFile (fileId : nat) (d : Db) : list EntityMention.t :=
  filter (fun r => Nat.eqb (EntityMention.fileId r) fileId) (entityMention d).

(** The mention rows of the other files, in table order. *)
Definition mentionsElsewhere (fileId : nat) (d : Db) : list EntityMention.t :=
  filter (fun r => negb (Nat.eqb (EntityMention.fileId r) fileId))
         (entityMention d).

(** [xs] with rows added at its end. *)
Definition extendedBy {A} (xs ys : list A) : Prop :=
  exists more, ys = xs ++ more.

(** The same files, none unmarked. *)
Definition sameFilesMarked (before after : list File.t) : Prop :=
  Forall2 (fun a b =>
             File.id b = File.id a
             /\ File.fullText b = File.fullText a
             /\ (File.entitiesExtracted a = true ->
                 File.entitiesExtracted b = true))
          before after.

(** Nothing is lost between [d] and [d'] but what a deletion of
    mention rows takes: canonical entities, aliases and legacy
    entities are only added to; the mention rows that [kept] marks
    are still there; a candidate link is still there when the mention
    rows it belongs to are marked by [kept], and the links are only
    added to when every mention row is; the file rows are the same,
    none unmarked. *)
Definition growsInto (kept : EntityMention.t -> Prop) (d d' : Db) : Prop :=
  extendedBy (canonicalEntity d) (canonicalEntity d')
  /\ extendedBy (entityAlias d) (entityAlias d')
  /\ extendedBy (entity d) (entity d')
  /\ (forall r, In r (entityMention d) -> kept r -> In r (entityMention d'))
  /\ (forall l, In l (entityCandidateLink d) ->
        (forall r, In r (entityMention d) ->
           EntityMention.id r = EntityCandidateLink.mentionId l -> kept r) ->
        In l (entityCandidateLink d'))
  /\ ((forall r, kept r) ->
      extendedBy (entityCandidateLink d) (entityCandidateLink d'))
  /\ sameFilesMarked (file d) (file d').

(** The mention rows a run started with, [origin], are told from the
    ones it writes by their ids: the counter stands at [bound] or
    beyond, and a mention row with an id below [bound] is one of
    [origin]. *)
Definition steady (origin : list EntityMention.t) (bound : nat)
    (d : Db) (q : Seqs) : Prop :=
  bound <= nextEntityMention q
  /\ forall r, In r (entityMention d) -> EntityMention.id r < bound ->
               In r origin.

(** A candidate link of a mention row the run started with and none
    that it may delete. *)
Definition keptLink (kept : EntityMention.t -> Prop)
    (origin : list EntityMention.t) (bound : nat)
    (l : EntityCandidateLink.t) : Prop :=
  EntityCandidateLink.mentionId l < bound
  /\ forall r, In r origin ->
               EntityMention.id r = EntityCandidateLink.mentionId l -> kept r.

(** One step of a run from [d] to [d'] loses nothing but what a
    deletion of mention rows takes. *)
Definition keepsRows (kept : EntityMention.t -> Prop)
    (origin : list EntityMention.t) (bound : nat) (d d' : Db) : Prop :=
  extendedBy (canonicalEntity d) (canonicalEntity d')
  /\ extendedBy (entityAlias d) (entityAlias d')
  /\ extendedBy (entity d) (entity d')
  /\ (forall r, In r (entityMention d) -> kept r -> In r (entityMention d'))
  /\ (forall l, In l (entityCandidateLink d) -> keptLink kept origin bound l ->
        In l (entityCandidateLink d'))
  /\ ((forall r, kept r) ->
      extendedBy (entityCandidateLink d) (entityCandidateLink d'))
  /\ sameFilesMarked (file d) (file d').

(** A computation through which nothing is lost but what a deletion of
    mention rows takes, returned or thrown. *)
Definition lossless (kept : EntityMention.t -> Prop)
    (origin : list EntityMention.t) (bound : nat) {A} (c : Tx A) : Prop :=
  forall w,
    steady origin bound (db w) (seqs w) ->
    steady origin bound (db (finalWorld (c w))) (seqs (finalWorld (c w)))
    /\ keepsRows kept origin bound (db w) (db (finalWorld (c w))).

(** The world after the extraction calls of a document: only the tally
    of extracted entities has moved. *)
Definition afterExtraction (n : nat) (w : World) : World :=
  mkWorld (db w) (seqs w)
    (mkStats (totalFiles (stats w)) (processed (stats w)) (skipped (stats w))
       (failed (stats w)) (totalEntities (stats w) + n)
       (totalMentions (stats w)) (mergedMentions (stats w))
       (newEntities (stats w)))
    (budget w).


(** The mentions resolved so far: merged into an entity, or given a new
    one. *)
Definition resolved (s : Stats) : nat := mergedMentions s + newEntities s.

(* ----------------------------------------------------------------- *)
(** *** Settled alias rows *)

(** The last-token key of a normalized text: what [keyFingerprint]
    takes from it. *)
Definition keyOf (norm : string) : option string :=
  let parts := JsString.filterNonEmpty (JsString.splitSpace norm) in
  if List.length parts <? 2 then None
  else
    let last := JsString.lastOrEmpty parts in
    if String.length last <? 4 then None else Some last.

(** Alias rows in which a normalized text of a type belongs to one
    canonical entity, and the last-token key of every alias of a
    person or an organisation is an alias of its entity too. *)
Definition settled (rows : list EntityAlias.t) : Prop :=
  (forall a b, In a rows -> In b rows ->
     EntityAlias.entityType a = EntityAlias.entityType b ->
     EntityAlias.aliasNormalized a = EntityAlias.aliasNormalized b ->
     EntityAlias.canonicalEntityId a = EntityAlias.canonicalEntityId b)
  /\ (forall a k, In a rows ->
        EntityAlias.entityType a <> LOCATION ->
        keyOf (EntityAlias.aliasNormalized a) = Some k ->
        exists b, In b rows
                  /\ EntityAlias.entityType b = EntityAlias.entityType a
                  /\ EntityAlias.canonicalEntityId b
                     = EntityAlias.canonicalEntityId a
                  /\ EntityAlias.aliasNormalized b = k).

(** A mention with a normalized text, as the document loop pushes
    it. *)
Definition pushed (m : MentionRow) : Prop :=
  mentionNormalized m = normalizeMention (mentionText m)
  /\ mentionNormalized m <> EmptyString.

(** A resolution that merged into an entity or created one. *)
Definition decided (r : Resolution) : Prop :=
  exists c, r = Merged c \/ r = CreatedNew c.

End RunSpec.

(* ================================================================= *)
(** * Properties of the normalizer *)

Import NormalizerSpec.

(** *** Strings *)

Lemma prefix_split a : forall s,
  prefix a s = true -> s = (a ++ JsString.drop (String.length a) s)%string.
Proof.
  induction a as [|c a IH]; intros s H; simpl.
  - destruct s; reflexivity.
  - destruct s as [|d s]; simpl in H; [discriminate|].
    destruct (ascii_dec c d) as [->|]; [|discriminate].
    f_equal. apply IH, H.
Qed.

Lemma prefix_app a r : prefix a (a ++ r) = true.
Proof.
  induction a as [|c a IH]; simpl.
  - destruct r; reflexivity.
  - destruct (ascii_dec c c); [exact IH | congruence].
Qed.

Lemma drop_app a r : JsString.drop (String.length a) (a ++ r) = r.
Proof. induction a; simpl; auto. Qed.

Lemma span_app p a : forall r,
  JsString.forallb p a = true ->
  match r with String c _ => p c = false | EmptyString => True end ->
  JsString.span p (a ++ r) = (a, r).
Proof.
  induction a as [|c a IH]; intros r Ha Hr; simpl in *.
  - destruct r as [|d r]; [reflexivity|]. simpl. rewrite Hr. reflexivity.
  - apply andb_true_iff in Ha as [Hc Ha]. rewrite Hc, (IH r Ha Hr). reflexivity.
Qed.

Lemma span_split p s :
  s = (fst (JsString.span p s) ++ snd (JsString.span p s))%string.
Proof.
  induction s as [|c s IH]; simpl; [reflexivity|].
  destruct (p c); [|reflexivity].
  destruct (JsString.span p s) as [a b]. simpl in *. congruence.
Qed.

Lemma length_append a b :
  String.length (a ++ b) = String.length a + String.length b.
Proof. induction a; simpl; auto. Qed.

(** *** The honorific pattern *)

Ltac each_char c :=
  destruct c as [[] [] [] [] [] [] [] []]; vm_compute;
  try reflexivity; try discriminate; auto.

Lemma white_not_word c : Char.isWhiteSpace c = true -> Char.isWordChar c = false.
Proof. each_char c. Qed.

Lemma dot_not_word c : Ascii.eqb c Char.dot = true -> Char.isWordChar c = false.
Proof. each_char c. Qed.

Lemma dot_not_white c : Ascii.eqb c Char.dot = true -> Char.isWhiteSpace c = false.
Proof. each_char c. Qed.

Lemma matchSpaces1_head s n :
  Regex.matchSpaces1 s = Some n ->
  match s with String c _ => Char.isWhiteSpace c = true | EmptyString => False end.
Proof.
  unfold Regex.matchSpaces1. destruct s as [|c r]; simpl; [discriminate|].
  destruct (Char.isWhiteSpace c); [auto|]. simpl. discriminate.
Qed.

Lemma matchDotSpaces_head s n :
  Regex.matchDotSpaces s = Some n ->
  match s with String c _ => Char.isWordChar c = false | EmptyString => True end.
Proof.
  destruct s as [|c r]; [auto|]. simpl.
  destruct (Ascii.eqb c Char.dot) eqn:D.
  - intros _. apply dot_not_word, D.
  - intros H. apply matchSpaces1_head in H. apply white_not_word, H.
Qed.

Lemma matchDotSpaces_afterHonorific s : Regex.matchDotSpaces s = afterHonorific s.
Proof.
  unfold afterHonorific. destruct s as [|c r]; [reflexivity|].
  cbn [Regex.matchDotSpaces]. destruct (Ascii.eqb c Char.dot) eqn:D.
  - unfold Regex.matchSpaces1 at 1.
    destruct (JsString.span Char.isWhiteSpace r) as [ws tl].
    destruct (JsString.isEmpty ws); [|reflexivity].
    unfold Regex.matchSpaces1. simpl. rewrite (dot_not_white c D). reflexivity.
  - unfold Regex.matchSpaces1.
    destruct (JsString.span Char.isWhiteSpace (String c r)) as [ws tl].
    destruct (JsString.isEmpty ws); reflexivity.
Qed.

Lemma honorificAt_unfold s :
  honorificAt s =
  let '(word, rest) := JsString.span Char.isWordChar s in
  if existsb (String.eqb word) honorifics then
    match afterHonorific rest with
    | Some n => Some (String.length word + n)
    | None => None
    end
  else None.
Proof.
  unfold honorificAt, afterHonorific.
  destruct (JsString.span Char.isWordChar s) as [word rest].
  destruct (existsb (String.eqb word) honorifics); [|reflexivity].
  destruct rest as [|c r].
  - simpl. reflexivity.
  - destruct (Ascii.eqb c Char.dot).
    + destruct (JsString.span Char.isWhiteSpace r) as [ws tl].
      destruct (JsString.isEmpty ws); [reflexivity|]. f_equal. lia.
    + destruct (JsString.span Char.isWhiteSpace (String c r)) as [ws tl].
      destruct (JsString.isEmpty ws); [reflexivity|]. f_equal. lia.
Qed.

Lemma honorifics_are_words :
  forallb (JsString.forallb Char.isWordChar) honorifics = true.
Proof. reflexivity. Qed.

Lemma existsb_eqb_In x xs : existsb (String.eqb x) xs = true <-> In x xs.
Proof.
  rewrite existsb_exists. split.
  - intros (y & Hy & E). apply String.eqb_eq in E. congruence.
  - intros H. exists x. split; [exact H | apply String.eqb_refl].
Qed.

(** An alternative that matches is the whole word at the head. *)
Lemma alternative_is_word a s n :
  JsString.forallb Char.isWordChar a = true ->
  prefix a s = true ->
  Regex.matchDotSpaces (JsString.drop (String.length a) s) = Some n ->
  JsString.span Char.isWordChar s = (a, JsString.drop (String.length a) s).
Proof.
  intros Ha Hp Hk. rewrite (prefix_split a s Hp) at 1.
  apply span_app; [exact Ha|]. apply (matchDotSpaces_head _ _ Hk).
Qed.

Lemma matchAlternatives_sound alts : forall s n,
  incl alts honorifics ->
  Regex.matchAlternatives alts Regex.matchDotSpaces s = Some n ->
  honorificAt s = Some n.
Proof.
  induction alts as [|a more IH]; intros s n Hin H; simpl in H; [discriminate|].
  assert (Hmore : incl more honorifics) by (intros x Hx; apply Hin; right; exact Hx).
  destruct (prefix a s) eqn:P; [|apply IH; assumption].
  destruct (Regex.matchDotSpaces (JsString.drop (String.length a) s)) as [k|] eqn:K;
    [|apply IH; assumption].
  injection H as <-.
  assert (Ha : In a honorifics) by (apply Hin; left; reflexivity).
  assert (Hw : JsString.forallb Char.isWordChar a = true).
  { pose proof honorifics_are_words as W. rewrite forallb_forall in W. apply W, Ha. }
  rewrite honorificAt_unfold, (alternative_is_word a s k Hw P K).
  apply existsb_eqb_In in Ha. rewrite Ha.
  rewrite <- matchDotSpaces_afterHonorific, K. reflexivity.
Qed.

Lemma matchAlternatives_complete alts : forall s word n,
  In word alts ->
  prefix word s = true ->
  Regex.matchDotSpaces (JsString.drop (String.length word) s) = Some n ->
  exists k, Regex.matchAlternatives alts Regex.matchDotSpaces s = Some k.
Proof.
  induction alts as [|a more IH]; intros s word n Hin P K; [destruct Hin|].
  simpl. destruct Hin as [->|Hin].
  - rewrite P, K. eauto.
  - destruct (prefix a s); [|eapply IH; eauto].
    destruct (Regex.matchDotSpaces (JsString.drop (String.length a) s)); [eauto|].
    eapply IH; eauto.
Qed.

Lemma matchAlternatives_honorificAt s :
  Regex.matchAlternatives honorifics Regex.matchDotSpaces s = honorificAt s.
Proof.
  destruct (Regex.matchAlternatives honorifics Regex.matchDotSpaces s) as [n|] eqn:M.
  - symmetry. eapply matchAlternatives_sound; [apply incl_refl | exact M].
  - destruct (honorificAt s) as [n|] eqn:H; [|reflexivity].
    exfalso. rewrite honorificAt_unfold in H.
    pose proof (span_split Char.isWordChar s) as Sp.
    destruct (JsString.span Char.isWordChar s) as [word rest]. simpl in Sp.
    destruct (existsb (String.eqb word) honorifics) eqn:E; [|discriminate].
    destruct (afterHonorific rest) as [k|] eqn:K; [|discriminate].
    apply existsb_eqb_In in E.
    destruct (matchAlternatives_complete honorifics s word k E) as [k' Hk'].
    + subst s. apply prefix_app.
    + subst s. rewrite drop_app, matchDotSpaces_afterHonorific. exact K.
    + congruence.
Qed.

Lemma honorificAt_head_word s n :
  honorificAt s = Some n -> Regex.isWordOpt (Regex.head s) = true.
Proof.
  rewrite honorificAt_unfold. destruct s as [|c r]; simpl.
  - discriminate.
  - destruct (Char.isWordChar c) eqn:W; [reflexivity|]. simpl. discriminate.
Qed.

(** The pattern, position by position, is the specification's
    "honorific at a word start". *)
Lemma honorificRegex_spec prev s :
  honorificRegex prev s = if Regex.isWordOpt prev then None else honorificAt s.
Proof.
  unfold honorificRegex, Regex.wordBoundary.
  rewrite matchAlternatives_honorificAt.
  destruct (Regex.isWordOpt prev); simpl.
  - destruct (Regex.isWordOpt (Regex.head s)) eqn:W; simpl; [reflexivity|].
    destruct (honorificAt s) eqn:H; [|reflexivity].
    apply honorificAt_head_word in H. congruence.
  - destruct (Regex.isWordOpt (Regex.head s)) eqn:W; simpl; [reflexivity|].
    destruct (honorificAt s) eqn:H; [|reflexivity].
    apply honorificAt_head_word in H. congruence.
Qed.

(** *** Shape of a normalized text *)

Lemma kept_space_or_token c :
  Char.isKept c = true ->
  Char.isWhiteSpace c = false ->
  isNormalChar c = true /\ Ascii.eqb c Char.space = false.
Proof. each_char c. Qed.

Lemma space_is_white c : Ascii.eqb c Char.space = true -> Char.isWhiteSpace c = true.
Proof. each_char c. Qed.

Lemma normal_white_is_space c :
  isNormalChar c = true -> Char.isWhiteSpace c = true -> Ascii.eqb c Char.space = true.
Proof. each_char c. Qed.

Lemma blankOthers_kept s : JsString.forallb Char.isKept (blankOthers s) = true.
Proof.
  unfold blankOthers.
  induction s as [|c r IH]; simpl; [reflexivity|].
  rewrite IH, andb_true_r.
  destruct (Char.isKept c) eqn:E; [exact E | reflexivity].
Qed.

Lemma collapse_shape s : forall b,
  JsString.forallb Char.isKept s = true ->
  JsString.forallb isNormalChar (collapseSpaces b s) = true
  /\ noDoubleSpace (collapseSpaces b s) = true
  /\ (b = true -> startsWithSpace (collapseSpaces b s) = false).
Proof.
  induction s as [|c r IH]; intros b H; simpl in *.
  - auto.
  - apply andb_true_iff in H as [Hc Hr].
    destruct (Char.isWhiteSpace c) eqn:W.
    + destruct b.
      * apply IH; assumption.
      * destruct (IH true Hr) as (A & B & C). simpl.
        rewrite A, B, C by reflexivity. repeat split; try reflexivity. discriminate.
    + destruct (kept_space_or_token c Hc W) as [N S].
      destruct (IH false Hr) as (A & B & _). simpl.
      rewrite N, A, S, B. repeat split; reflexivity.
Qed.

Lemma trimStart_shape s :
  JsString.forallb isNormalChar s = true -> noDoubleSpace s = true ->
  JsString.forallb isNormalChar (JsString.trimStart s) = true
  /\ noDoubleSpace (JsString.trimStart s) = true
  /\ startsWithSpace (JsString.trimStart s) = false.
Proof.
  induction s as [|c r IH]; simpl; intros A B; [auto|].
  apply andb_true_iff in A as [Ac Ar]. apply andb_true_iff in B as [Bc Br].
  destruct (Char.isWhiteSpace c) eqn:W.
  - apply IH; assumption.
  - simpl. rewrite Ac, Ar, Bc, Br. repeat split; try reflexivity.
    destruct (Ascii.eqb c Char.space) eqn:E; [|reflexivity].
    apply space_is_white in E. congruence.
Qed.

Lemma startsWithSpace_trimEnd s :
  startsWithSpace s = false -> startsWithSpace (JsString.trimEnd s) = false.
Proof.
  destruct s as [|c r]; simpl; [auto|]. intros H.
  destruct (Char.isWhiteSpace c && JsString.isEmpty (JsString.trimEnd r)); simpl; auto.
Qed.

Lemma trimEnd_shape s :
  JsString.forallb isNormalChar s = true -> noDoubleSpace s = true ->
  JsString.forallb isNormalChar (JsString.trimEnd s) = true
  /\ noDoubleSpace (JsString.trimEnd s) = true
  /\ endsWithSpace (JsString.trimEnd s) = false.
Proof.
  induction s as [|c r IH]; simpl; intros A B; [auto|].
  apply andb_true_iff in A as [Ac Ar]. apply andb_true_iff in B as [Bc Br].
  destruct (IH Ar Br) as (A' & B' & C').
  destruct (Char.isWhiteSpace c) eqn:W; simpl.
  - destruct (JsString.trimEnd r) as [|d t] eqn:T; simpl; [auto|].
    simpl in A', B', C'. rewrite Ac. simpl.
    rewrite (normal_white_is_space c Ac W). simpl.
    assert (S : startsWithSpace r = false).
    { apply negb_true_iff in Bc. rewrite (normal_white_is_space c Ac W) in Bc.
      simpl in Bc. exact Bc. }
    pose proof (startsWithSpace_trimEnd r S) as S'. rewrite T in S'. simpl in S'.
    rewrite S'. simpl. apply andb_true_iff in B' as [_ B''].
    repeat split; auto. destruct t; auto.
  - rewrite Ac, A'. simpl.
    assert (E : Ascii.eqb c Char.space = false).
    { destruct (Ascii.eqb c Char.space) eqn:E; [|reflexivity].
      apply space_is_white in E. congruence. }
    rewrite E. simpl. repeat split; auto.
    destruct (JsString.trimEnd r) eqn:T; simpl; auto.
Qed.

Lemma normalizeMention_normalForm text : isNormalForm (normalizeMention text) = true.
Proof.
  unfold normalizeMention, JsString.trim, isNormalForm.
  set (x := blankOthers _).
  destruct (collapse_shape x false (blankOthers_kept _)) as (A & B & _).
  destruct (trimStart_shape _ A B) as (A1 & B1 & C1).
  destruct (trimEnd_shape _ A1 B1) as (A2 & B2 & C2).
  rewrite A2, B2, C2, (startsWithSpace_trimEnd _ C1). reflexivity.
Qed.

(** *** Stripping and replacing by a space agree once blanks are
        collapsed *)

Lemma blank_not_white_word c :
  Char.isWhiteSpace (if Char.isKept c then c else Char.space) = false ->
  Char.isWordChar c = true.
Proof. each_char c. Qed.

Lemma space_white : Char.isWhiteSpace Char.space = true.
Proof. reflexivity. Qed.

Lemma space_kept : Char.isKept Char.space = true.
Proof. reflexivity. Qed.

Lemma replace_strip_collapse s : forall prev skip b,
  (b = false -> skip = 0 /\ Regex.isWordOpt prev = true) ->
  collapseSpaces b (blankOthers (Regex.replaceAllBySpace honorificRegex prev skip s))
  = collapseSpaces b (blankOthers (stripHonorifics prev skip s)).
Proof.
  unfold blankOthers.
  induction s as [|c r IH]; intros prev skip b Hb; [reflexivity|].
  destruct skip as [|k].
  - cbn [Regex.replaceAllBySpace stripHonorifics].
    rewrite honorificRegex_spec.
    destruct (if Regex.isWordOpt prev then None else honorificAt (String c r))
      as [n|] eqn:M.
    + assert (b = true) as ->.
      { destruct b; [reflexivity|]. destruct (Hb eq_refl) as [_ W].
        rewrite W in M. discriminate. }
      cbn [JsString.map]. rewrite space_kept. cbn [collapseSpaces].
      rewrite space_white. apply IH. discriminate.
    + cbn [JsString.map collapseSpaces].
      destruct (Char.isWhiteSpace (if Char.isKept c then c else Char.space)) eqn:W.
      * destruct b; [|f_equal]; apply IH; discriminate.
      * f_equal. apply IH. intros _. split; [reflexivity|].
        simpl. apply blank_not_white_word, W.
  - assert (b = true) as ->.
    { destruct b; [reflexivity|]. destruct (Hb eq_refl) as [E _]. discriminate. }
    cbn [Regex.replaceAllBySpace stripHonorifics]. apply IH. discriminate.
Qed.

Lemma blank_chars_agree c :
  Char.isWhiteSpace (if isNormalChar c then c else Char.space)
  = Char.isWhiteSpace (if Char.isKept c then c else Char.space)
  /\ (Char.isWhiteSpace (if Char.isKept c then c else Char.space) = false ->
      (if isNormalChar c then c else Char.space)
      = (if Char.isKept c then c else Char.space)).
Proof.
  destruct c as [[] [] [] [] [] [] [] []]; vm_compute;
    (split; [reflexivity | first [reflexivity | discriminate | auto]]).
Qed.

Lemma blank_collapse s : forall b,
  collapseSpaces b (blankNonAlphanumerics s) = collapseSpaces b (blankOthers s).
Proof.
  unfold blankNonAlphanumerics, blankOthers.
  induction s as [|c r IH]; intros b; [reflexivity|].
  cbn [JsString.map collapseSpaces].
  destruct (blank_chars_agree c) as [E1 E2]. rewrite E1.
  destruct (Char.isWhiteSpace (if Char.isKept c then c else Char.space)).
  - destruct b; rewrite IH; reflexivity.
  - rewrite E2, IH; reflexivity.
Qed.

Lemma trimStart_collapse z :
  JsString.trimStart (collapseSpaces false z)
  = JsString.trimStart (collapseSpaces true z).
Proof.
  destruct z as [|c r]; [reflexivity|]. simpl.
  destruct (Char.isWhiteSpace c); [|reflexivity].
  simpl. reflexivity.
Qed.

(** The extractor's normalizer computes the specification's. *)
Lemma normalizeMention_refines text : normalizeMention text = normalize text.
Proof.
  unfold normalizeMention, normalize, JsString.trim.
  rewrite blank_collapse, !trimStart_collapse.
  f_equal. f_equal. apply replace_strip_collapse. discriminate.
Qed.

(** *** Blank input *)

Lemma toLower_white c :
  Char.isWhiteSpace c = true -> Char.toLower c = c.
Proof. each_char c. Qed.

Lemma white_kept c : Char.isWhiteSpace c = true -> Char.isKept c = true.
Proof. each_char c. Qed.

Lemma replace_white s : forall prev,
  Regex.isWordOpt prev = false ->
  JsString.forallb Char.isWhiteSpace s = true ->
  Regex.replaceAllBySpace honorificRegex prev 0 s = s.
Proof.
  induction s as [|c r IH]; intros prev Hp H; [reflexivity|].
  simpl in H. apply andb_true_iff in H as [Hc Hr].
  cbn [Regex.replaceAllBySpace]. unfold honorificRegex, Regex.wordBoundary.
  rewrite Hp. simpl. rewrite (white_not_word c Hc). simpl.
  f_equal. apply IH; [simpl; apply white_not_word, Hc | exact Hr].
Qed.

Lemma collapse_white s : forall b,
  JsString.forallb Char.isWhiteSpace s = true ->
  JsString.trim (collapseSpaces b s) = EmptyString.
Proof.
  assert (T : forall t, JsString.forallb Char.isWhiteSpace t = true ->
                        collapseSpaces true t = EmptyString).
  { induction t as [|c r IH]; simpl; [reflexivity|]. intros H.
    apply andb_true_iff in H as [Hc Hr]. rewrite Hc. apply IH, Hr. }
  intros b H. destruct s as [|c r]; [reflexivity|]. simpl in *.
  apply andb_true_iff in H as [Hc Hr]. rewrite Hc, (T r Hr).
  destruct b; reflexivity.
Qed.

Lemma normalizeMention_blank text :
  JsString.forallb Char.isWhiteSpace text = true ->
  normalizeMention text = EmptyString.
Proof.
  intros H. unfold normalizeMention.
  assert (L : JsString.toLowerCase text = text).
  { unfold JsString.toLowerCase. induction text as [|c r IH]; [reflexivity|].
    simpl in *. apply andb_true_iff in H as [Hc Hr].
    rewrite (toLower_white c Hc), (IH Hr). reflexivity. }
  rewrite L, (replace_white text None eq_refl H).
  assert (B : blankOthers text = text).
  { unfold blankOthers. clear L. induction text as [|c r IH]; [reflexivity|].
    simpl in *. apply andb_true_iff in H as [Hc Hr].
    rewrite (white_kept c Hc), (IH Hr). reflexivity. }
  rewrite B. apply collapse_white, H.
Qed.

(** *** What the document loop keeps *)

Lemma isEmpty_false s : JsString.isEmpty s = false -> s <> EmptyString.
Proof. destruct s; [discriminate | discriminate]. Qed.

Lemma mentionOf_kept fullText c e m :
  mentionOf fullText c e = Some m ->
  mentionText m = JsString.trim (ex_text e)
  /\ entityType m = ex_type e
  /\ mentionNormalized m = normalizeMention (mentionText m)
  /\ mentionNormalized m <> EmptyString
  /\ (forall p, mentionPosition m = Some p -> (0 <= p)%Z).
Proof.
  unfold mentionOf.
  destruct (JsString.isEmpty (JsString.trim (ex_text e))); [discriminate|].
  destruct (JsString.isEmpty (normalizeMention (JsString.trim (ex_text e)))) eqn:N;
    [discriminate|].
  intros H. injection H as <-. simpl.
  repeat split; auto using isEmpty_false.
  intros p. destruct (ex_position e) as [q|].
  - destruct (0 <=? q)%Z eqn:Q.
    + simpl. intros E. injection E as <-. apply Z.leb_le in Q. lia.
    + destruct (JsString.indexOf _ _); simpl; [|discriminate].
      intros E. injection E as <-. lia.
  - destruct (JsString.indexOf _ _); simpl; [|discriminate].
    intros E. injection E as <-. lia.
Qed.

Lemma mentionOf_discards fullText c e :
  normalizeMention (JsString.trim (ex_text e)) = EmptyString ->
  mentionOf fullText c e = None.
Proof.
  intros H. unfold mentionOf. rewrite H.
  destruct (JsString.isEmpty (JsString.trim (ex_text e))); reflexivity.
Qed.

Lemma pushMentions_In fullText c es m :
  In m (pushMentions fullText c es) <->
  exists e, In e es /\ mentionOf fullText c e = Some m.
Proof.
  induction es as [|e es IH]; simpl.
  - split; [intros [] | intros (e & [] & _)].
  - destruct (mentionOf fullText c e) as [m'|] eqn:E; simpl; rewrite IH; split.
    + intros [<-|(e' & H1 & H2)]; eauto.
    + intros (e' & [<-|H1] & H2); [left; congruence | right; eauto].
    + intros (e' & H1 & H2); eauto.
    + intros (e' & [<-|H1] & H2); [congruence | eauto].
Qed.

(** *** Tokens *)

Lemma splitSpace_nonempty s : JsString.splitSpace s <> [].
Proof.
  destruct s as [|c r]; simpl; [discriminate|].
  destruct (Ascii.eqb c Char.space); [discriminate|].
  destruct (JsString.splitSpace r); discriminate.
Qed.

Lemma splitSpace_concat s : String.concat " " (JsString.splitSpace s) = s.
Proof.
  induction s as [|c r IH]; [reflexivity|]. simpl.
  destruct (Ascii.eqb c Char.space) eqn:C.
  - apply Ascii.eqb_eq in C. subst c.
    destruct (JsString.splitSpace r) as [|p ps] eqn:S.
    + exfalso. eapply splitSpace_nonempty; eauto.
    + simpl in *. rewrite IH. reflexivity.
  - destruct (JsString.splitSpace r) as [|p ps] eqn:S.
    + exfalso. eapply splitSpace_nonempty; eauto.
    + destruct ps; simpl in *; rewrite <- IH; reflexivity.
Qed.

Lemma noSpace_splitSpace s : noSpace s = true -> JsString.splitSpace s = [s].
Proof.
  induction s as [|c r IH]; simpl; [reflexivity|]. intros H.
  apply andb_true_iff in H as [Hc Hr]. apply negb_true_iff in Hc.
  rewrite Hc, (IH Hr). reflexivity.
Qed.

Lemma last_cons_nonempty {A} (x : A) xs d : xs <> [] -> last (x :: xs) d = last xs d.
Proof. destruct xs; [congruence | reflexivity]. Qed.

Lemma splitSpace_last s :
  noSpace (last (JsString.splitSpace s) EmptyString) = true
  /\ exists pre, s = (pre ++ last (JsString.splitSpace s) EmptyString)%string
                 /\ (pre = EmptyString \/ exists p, pre = (p ++ " ")%string).
Proof.
  induction s as [|c r IH]; simpl.
  - split; [reflexivity|]. exists EmptyString. auto.
  - destruct IH as (N & pre & E & Hpre).
    destruct (Ascii.eqb c Char.space) eqn:C.
    + apply Ascii.eqb_eq in C. subst c.
      rewrite last_cons_nonempty by apply splitSpace_nonempty.
      split; [exact N|].
      exists (String Char.space pre). split; [simpl; congruence|].
      right. destruct Hpre as [->|(p & ->)].
      * exists EmptyString. reflexivity.
      * exists (String Char.space p). reflexivity.
    + pose proof (splitSpace_concat r) as R.
      destruct (JsString.splitSpace r) as [|p ps] eqn:S.
      { exfalso. eapply splitSpace_nonempty; eauto. }
      destruct ps as [|p' ps'].
      * simpl in *. subst p. rewrite C, N. split; [reflexivity|].
        exists EmptyString. auto.
      * rewrite last_cons_nonempty by discriminate.
        rewrite last_cons_nonempty in N, E by discriminate.
        split; [exact N|].
        exists (String c pre). split; [cbn [append]; f_equal; exact E|].
        destruct Hpre as [->|(q & ->)].
        -- exfalso. cbn [append] in E. rewrite <- E in N. apply noSpace_splitSpace in N.
           rewrite S in N. discriminate.
        -- right. exists (String c q). reflexivity.
Qed.

Lemma last_filter {A} (p : A -> bool) xs d :
  xs <> [] -> p (last xs d) = true -> last (filter p xs) d = last xs d.
Proof.
  induction xs as [|x xs IH]; intros Hne Hp; [congruence|].
  destruct xs as [|y ys].
  - simpl in *. rewrite Hp. reflexivity.
  - rewrite last_cons_nonempty in * by discriminate.
    change (filter p (x :: y :: ys)) with (if p x then x :: filter p (y :: ys) else filter p (y :: ys)).
    assert (F : filter p (y :: ys) <> []).
    { clear IH Hne. revert y Hp. induction ys as [|z zs IHz]; intros y Hp.
      - simpl in *. rewrite Hp. discriminate.
      - rewrite last_cons_nonempty in Hp by discriminate.
        specialize (IHz z Hp). simpl in *. destruct (p y); [discriminate|exact IHz]. }
    destruct (p x); [rewrite last_cons_nonempty by exact F|]; apply IH; auto; discriminate.
Qed.

Lemma endsWithSpace_app p : endsWithSpace (p ++ " ") = true.
Proof.
  induction p as [|c r IH]; [reflexivity|].
  simpl. destruct (r ++ " ")%string eqn:E; [destruct r; discriminate | exact IH].
Qed.

Lemma append_empty_r s : (s ++ EmptyString)%string = s.
Proof. induction s; simpl; congruence. Qed.

(** The token the fingerprint code takes is the last space-delimited
    token of a normalized text. *)
Lemma lastToken_normalForm s :
  isNormalForm s = true -> s <> EmptyString ->
  isLastToken s (JsString.lastOrEmpty (JsString.filterNonEmpty (JsString.splitSpace s))).
Proof.
  intros NF Hne. unfold isNormalForm in NF.
  apply andb_true_iff in NF as [NF E]. apply negb_true_iff in E.
  destruct (splitSpace_last s) as (N & pre & Hs & Hpre).
  set (tok := last (JsString.splitSpace s) EmptyString) in *.
  assert (T : tok <> EmptyString).
  { intros T. rewrite T, append_empty_r in Hs.
    destruct Hpre as [Hp|(p & Hp)]; [congruence|].
    rewrite Hs, Hp, endsWithSpace_app in E. discriminate. }
  unfold JsString.lastOrEmpty, JsString.filterNonEmpty.
  rewrite last_filter; [|apply splitSpace_nonempty|].
  - split; [exact T|]. split; [exact N|]. exists pre. auto.
  - fold tok. destruct tok; [congruence | reflexivity].
Qed.


Lemma splitSpace_app p : forall t,
  JsString.splitSpace (p ++ String Char.space t)
  = JsString.splitSpace p ++ JsString.splitSpace t.
Proof.
  induction p as [|c p IH]; intros t; [reflexivity|].
  simpl. rewrite IH.
  destruct (Ascii.eqb c Char.space); [reflexivity|].
  destruct (JsString.splitSpace p) eqn:S; [|reflexivity].
  exfalso. eapply splitSpace_nonempty; eauto.
Qed.

Lemma last_app_nonempty {A} (xs ys : list A) d :
  ys <> [] -> last (xs ++ ys) d = last ys d.
Proof.
  intros H. induction xs as [|x xs IH]; [reflexivity|].
  simpl app. rewrite last_cons_nonempty; [exact IH|].
  destruct xs; simpl; [exact H | discriminate].
Qed.

Lemma append_assoc a b c : ((a ++ b) ++ c)%string = (a ++ (b ++ c))%string.
Proof. induction a; simpl; congruence. Qed.

(** A text has one last token. *)
Lemma isLastToken_unique s a b : isLastToken s a -> isLastToken s b -> a = b.
Proof.
  assert (G : forall tok, isLastToken s tok ->
                          tok = last (JsString.splitSpace s) EmptyString).
  { intros tok (_ & N & pre & E & [->|(p & ->)]).
    - simpl in E. subst s. rewrite (noSpace_splitSpace tok N). reflexivity.
    - subst s. rewrite append_assoc. simpl.
      rewrite splitSpace_app, last_app_nonempty by apply splitSpace_nonempty.
      rewrite (noSpace_splitSpace tok N). reflexivity. }
  intros Ha Hb. rewrite (G a Ha), (G b Hb). reflexivity.
Qed.

(** *** The claims about the normalizer *)

(** C5.  [normalizeMention] returns the text lowercased, with the
    honorifics (each a whole word, with its optional period and the
    white space after it) stripped, every character other than a
    lowercase letter, a digit or a space blanked, runs of white space
    collapsed and the ends trimmed: it computes
    [NormalizerSpec.normalize], and its result is in normal form.  An
    empty or all-blank text gives the empty string, and the document
    loop pushes no mention whose normalized text is empty. *)
Theorem normalizeMention_spec (text : string) :
  normalizeMention text = NormalizerSpec.normalize text
  /\ NormalizerSpec.isNormalForm (normalizeMention text) = true
  /\ (JsString.forallb Char.isWhiteSpace text = true ->
      normalizeMention text = EmptyString)
  /\ (forall fullText c e,
        normalizeMention (JsString.trim (ex_text e)) = EmptyString ->
        mentionOf fullText c e = None)
  /\ (forall fullText c extracted m,
        In m (pushMentions fullText c extracted) ->
        mentionNormalized m = normalizeMention (mentionText m)
        /\ mentionNormalized m <> EmptyString).
Proof.
  split; [apply normalizeMention_refines|].
  split; [apply normalizeMention_normalForm|].
  split; [apply normalizeMention_blank|].
  split; [intros; apply mentionOf_discards; assumption|].
  intros fullText c extracted m H.
  apply pushMentions_In in H as (e & _ & H).
  apply mentionOf_kept in H as (_ & _ & N & E & _). auto.
Qed.

Lemma normalizeMention_spec_witness :
  JsString.forallb Char.isWhiteSpace "   " = true
  /\ normalizeMention "   " = EmptyString
  /\ mentionOf "see ... here" (mkChunk 0 "see ... here")
       (mkExtracted " ... " PERSON None None) = None.
Proof.
  split; [reflexivity|].
  destruct (normalizeMention_spec "   ") as (_ & _ & B & D & _).
  split; [apply B; reflexivity | apply D; reflexivity].
Defined.

(** C9.  [buildKeyFingerprints] returns nothing for a text whose
    normalized form is empty; otherwise it returns, without
    repetition, the normalized text and, for PERSON and ORGANIZATION
    only, the last space-delimited token of the normalized text when
    that token has at least 4 characters.  A LOCATION gets the
    normalized text alone. *)
Theorem buildKeyFingerprints_spec (ty : EntityType) (text : string) :
  let norm := normalizeMention text in
  let fps := buildKeyFingerprints ty text in
  (norm = EmptyString -> fps = [])
  /\ (norm <> EmptyString ->
      In norm fps /\ NoDup fps
      /\ (ty = LOCATION -> fps = [norm])
      /\ exists tok,
           NormalizerSpec.isLastToken norm tok
           /\ forall x, In x fps <->
                x = norm
                \/ ((ty = PERSON \/ ty = ORGANIZATION)
                    /\ x = tok /\ 4 <= String.length tok)).
Proof.
  intros norm fps. subst fps. unfold buildKeyFingerprints. fold norm.
  pose proof (normalizeMention_normalForm text) as NF. fold norm in NF.
  clearbody norm. split.
  - intros ->. reflexivity.
  - intros Hne.
    assert (E : JsString.isEmpty norm = false)
      by (destruct norm; [exfalso; apply Hne; reflexivity | reflexivity]).
    rewrite E.
    pose proof (lastToken_normalForm norm NF Hne) as T.
    set (tok := JsString.lastOrEmpty _) in *.
    assert (A : forall set,
               set = (if 4 <=? String.length tok then setAdd tok [norm] else [norm]) ->
               In norm set /\ NoDup set
               /\ forall x, In x set <-> x = norm \/ (x = tok /\ 4 <= String.length tok)).
    { intros set ->. destruct (4 <=? String.length tok) eqn:L.
      - apply Nat.leb_le in L. unfold setAdd. simpl.
        destruct (String.eqb tok norm) eqn:Q; simpl.
        + apply String.eqb_eq in Q. repeat split.
          * auto.
          * repeat constructor. intros [].
          * intros [<-|[]]. auto.
          * intros [->|[-> _]]; auto.
        + apply String.eqb_neq in Q. repeat split.
          * auto.
          * repeat constructor; simpl; intuition congruence.
          * intros [<-|[<-|[]]]; auto.
          * intros [->|[-> _]]; auto.
      - apply Nat.leb_gt in L. repeat split.
        + left; reflexivity.
        + repeat constructor. intros [].
        + intros [<-|[]]. auto.
        + intros [->|[-> ?]]; [left; reflexivity | lia]. }
    destruct ty.
    + destruct (A _ eq_refl) as (A1 & A2 & A3).
      repeat split; try assumption; [discriminate|].
      exists tok. split; [exact T|]. intros x. rewrite A3. intuition.
    + repeat split.
      * left; reflexivity.
      * repeat constructor. intros [].
      * exists tok. split; [exact T|]. intros x. simpl.
        split; [intros [<-|[]]; auto|].
        intros [->|[[?|?] _]]; [auto | discriminate | discriminate].
    + destruct (A _ eq_refl) as (A1 & A2 & A3).
      repeat split; try assumption; [discriminate|].
      exists tok. split; [exact T|]. intros x. rewrite A3. intuition.
Qed.

Lemma buildKeyFingerprints_spec_witness :
  normalizeMention "Dr. Jeffrey Epstein" <> EmptyString
  /\ In "jeffrey epstein" (buildKeyFingerprints PERSON "Dr. Jeffrey Epstein")
  /\ In "epstein" (buildKeyFingerprints PERSON "Dr. Jeffrey Epstein")
  /\ buildKeyFingerprints PERSON "?!" = [].
Proof.
  destruct (buildKeyFingerprints_spec PERSON "Dr. Jeffrey Epstein") as [_ H].
  destruct (buildKeyFingerprints_spec PERSON "?!") as [H0 _].
  assert (N : normalizeMention "Dr. Jeffrey Epstein" <> EmptyString)
    by (vm_compute; discriminate).
  destruct (H N) as (H1 & _).
  split; [exact N|]. split; [exact H1|].
  split; [vm_compute; auto | apply H0; reflexivity].
Defined.

Example normalize_ex1 : normalizeMention "Mr. Epstein" = "epstein".
Proof. reflexivity. Qed.
Example normalize_ex2 :
  normalizeMention "  Dr  Jane   O'Neil-Smith, Jr. " = "jane o neil smith jr".
Proof. reflexivity. Qed.
Example normalize_ex3 : normalizeMention "Mrs Honorable judge  Judy" = "judy".
Proof. reflexivity. Qed.
Example normalize_ex4 : normalizeMention "Missing Mr" = "missing mr".
Proof. reflexivity. Qed.
Example fingerprints_ex1 :
  buildKeyFingerprints PERSON "Jeffrey Epstein" = ["jeffrey epstein"; "epstein"].
Proof. reflexivity. Qed.
Example fingerprints_ex2 :
  buildKeyFingerprints LOCATION "New York City" = ["new york city"].
Proof. reflexivity. Qed.
Example fingerprints_ex3 : buildKeyFingerprints PERSON "Epstein" = ["epstein"].
Proof. reflexivity. Qed.

(* ================================================================= *)
(** * Running store calls *)

Import StoreSpec Aux.

Lemma bind_Ok {A B} (c : Tx A) (k : A -> Tx B) w a w1 :
  c w = Ok a w1 -> bind c k w = k a w1.
Proof. unfold bind. intros ->. reflexivity. Qed.

Lemma bind_Threw {A B} (c : Tx A) (k : A -> Tx B) w e w1 :
  c w = Threw e w1 -> bind c k w = Threw e w1.
Proof. unfold bind. intros ->. reflexivity. Qed.

Lemma bind_assoc {A B C} (c : Tx A) (k : A -> Tx B) (h : B -> Tx C) w :
  bind (bind c k) h w = bind c (fun a => bind (k a) h) w.
Proof. unfold bind. destruct (c w); reflexivity. Qed.

Lemma healthy_eta w : healthy w -> w = mkWorld (db w) (seqs w) (stats w) None.
Proof. destruct w as [d q st b]. unfold healthy. simpl. intros ->. reflexivity. Qed.

Lemma heal_healthy w : healthy w -> heal w = w.
Proof. intros H. symmetry. apply healthy_eta, H. Qed.

Lemma seqsLe_refl q : seqsLe q q.
Proof. unfold seqsLe. lia. Qed.

Lemma seqsLe_trans a b c : seqsLe a b -> seqsLe b c -> seqsLe a c.
Proof. unfold seqsLe. lia. Qed.

#[local] Hint Resolve seqsLe_refl : core.

Lemma regular_ret {A} (a : A) : regular (ret a).
Proof. intros w. simpl. auto. Qed.

Lemma regular_throw {A} e : regular (@throw A e).
Proof. intros w. simpl. auto. Qed.

Lemma regular_bind {A B} (c : Tx A) (k : A -> Tx B) :
  regular c -> (forall a, regular (k a)) -> regular (bind c k).
Proof.
  intros Hc Hk w. unfold bind. specialize (Hc w).
  destruct (c w) as [a w1|e w1].
  - destruct Hc as [Hc L1]. rewrite Hc. specialize (Hk a w1).
    destruct (k a w1) as [b w2|e w2].
    + destruct Hk as [Hk L2]. split; [exact Hk | eapply seqsLe_trans; eauto].
    + eapply seqsLe_trans; eauto.
  - exact Hc.
Qed.

Lemma regular_call {A} (f : Db -> Seqs -> Effect A) : monotone f -> regular (call f).
Proof.
  intros M [d q st b]. specialize (M d q). unfold call, heal. simpl.
  destruct b as [[|n]|]; simpl; auto;
    destruct (f d q) as [[[a d'] q']|e]; simpl; auto.
Qed.

Lemma regular_query {A} (f : Db -> A) : regular (query f).
Proof. apply regular_call. intros d q. apply seqsLe_refl. Qed.

Lemma regular_updateStats f : regular (updateStats f).
Proof. intros [d q st b]. simpl. auto. Qed.

Lemma regular_forEach {A} (xs : list A) (body : A -> Tx unit) :
  (forall x, regular (body x)) -> regular (forEach xs body).
Proof.
  intros H. induction xs as [|x xs IH]; simpl.
  - apply regular_ret.
  - apply regular_bind; auto.
Qed.

Lemma monotone_insert {A} (f : Db -> Seqs -> A * Db * Seqs) :
  (forall d q, seqsLe q (snd (f d q))) ->
  monotone (fun d q => inl (f d q)).
Proof.
  intros H d q. specialize (H d q). destruct (f d q) as [[a d'] q']. exact H.
Qed.

Ltac seqs_step := unfold seqsLe; simpl; lia.

Lemma regular_entityAlias_create ty cid t n : regular (entityAlias_create ty cid t n).
Proof. apply regular_call. intros d q. seqs_step. Qed.

Lemma regular_canonicalEntity_create ty t n meta :
  regular (canonicalEntity_create ty t n meta).
Proof. apply regular_call. intros d q. seqs_step. Qed.

Lemma regular_entity_create t ty n c al fp : regular (entity_create t ty n c al fp).
Proof. apply regular_call. intros d q. seqs_step. Qed.

Lemma regular_entityMention_create f e c a t n x p cf :
  regular (entityMention_create f e c a t n x p cf).
Proof. apply regular_call. intros d q. seqs_step. Qed.

Lemma regular_entityMention_deleteMany f : regular (entityMention_deleteMany f).
Proof. apply regular_call. intros d q. seqs_step. Qed.

Lemma regular_file_update_extracted f : regular (file_update_extracted f).
Proof. apply regular_call. intros d q. seqs_step. Qed.

Lemma regular_entityCandidateLink_create u m c s r st :
  regular (entityCandidateLink_create u m c s r st).
Proof.
  apply regular_call. intros d q.
  destruct (u && existsb _ (entityCandidateLink d)); [exact I | seqs_step].
Qed.

Create HintDb regular.

#[local] Hint Resolve regular_ret regular_throw regular_query regular_updateStats
  regular_entityAlias_create regular_canonicalEntity_create regular_entity_create
  regular_entityMention_create regular_entityMention_deleteMany
  regular_file_update_extracted regular_entityCandidateLink_create : regular.

Ltac regular_step :=
  match goal with
  | |- regular (bind _ _) => apply regular_bind; [|intros ?]
  | |- regular (forEach _ _) => apply regular_forEach; intros ?
  | |- regular (match ?x with _ => _ end) => destruct x
  | |- regular (if ?x then _ else _) => destruct x
  | |- regular (let '(_, _) := ?x in _) => destruct x
  | |- regular _ => solve [auto with regular]
  end.

Lemma regular_upsertAlias ty cid t n : regular (upsertAlias ty cid t n).
Proof. unfold upsertAlias, entityAlias_findFirst. repeat regular_step. Qed.

Lemma regular_getOrCreateLegacyEntityId ty t n :
  regular (getOrCreateLegacyEntityId ty t n).
Proof. unfold getOrCreateLegacyEntityId, entity_findFirst. repeat regular_step. Qed.

#[local] Hint Resolve regular_upsertAlias regular_getOrCreateLegacyEntityId : regular.

Lemma regular_registerAliases m cid : regular (registerAliases m cid).
Proof. unfold registerAliases. repeat regular_step. Qed.

Lemma regular_findAliasCandidates t n ty : regular (findAliasCandidates t n ty).
Proof. unfold findAliasCandidates, entityAlias_findMany. repeat regular_step. Qed.

#[local] Hint Resolve regular_registerAliases regular_findAliasCandidates : regular.

Lemma regular_resolveMention u fid m : regular (resolveMention u fid m).
Proof.
  unfold resolveMention, canonicalEntity_findUnique. repeat regular_step.
Qed.

#[local] Hint Resolve regular_resolveMention : regular.

Lemma regular_resolveDocument u reprocess fid uniq :
  regular (resolveDocument u reprocess fid uniq).
Proof. unfold resolveDocument. repeat regular_step. Qed.

(** A successful run is the run of the healed world. *)
Lemma regular_Ok {A} (c : Tx A) w a w' :
  regular c -> c w = Ok a w' ->
  c (heal w) = Ok a (heal w') /\ seqsLe (seqs w) (seqs w').
Proof. intros R H. specialize (R w). rewrite H in R. exact R. Qed.

Lemma regular_Threw {A} (c : Tx A) w e w' :
  regular c -> c w = Threw e w' -> seqsLe (seqs w) (seqs w').
Proof. intros R H. specialize (R w). rewrite H in R. exact R. Qed.

(* ================================================================= *)
(** * Properties of the candidate matcher *)

Import StoreSpec Aux.

(** *** Template keys *)

Lemma string_of_uint_noBar d : noBar (NilEmpty.string_of_uint d) = true.
Proof. induction d; simpl; auto. Qed.

Lemma ofNat_noBar n : noBar (Template.ofNat n) = true.
Proof.
  unfold Template.ofNat, NilZero.string_of_uint.
  destruct (Nat.to_uint n); try reflexivity; apply string_of_uint_noBar.
Qed.

Lemma ofZ_noBar z : noBar (Template.ofZ z) = true.
Proof.
  unfold Template.ofZ, NilZero.string_of_int.
  destruct (Z.to_int z) as [d|d]; unfold NilZero.string_of_uint;
    destruct d; try reflexivity; simpl; apply string_of_uint_noBar.
Qed.

Lemma ofEntityType_noBar t : noBar (Template.ofEntityType t) = true.
Proof. destruct t; reflexivity. Qed.

Lemma to_uint_unorm n : Nat.to_uint n = Decimal.unorm (Nat.to_uint n).
Proof. rewrite <- (Unsigned.of_to n) at 1. apply Unsigned.to_of. Qed.

Lemma ofNat_inj n n' : Template.ofNat n = Template.ofNat n' -> n = n'.
Proof.
  unfold Template.ofNat. intros H.
  apply Unsigned.to_uint_inj.
  assert (N : forall k, Nat.to_uint k <> Decimal.Nil)
    by (intros k; rewrite to_uint_unorm; apply unorm_nonnil).
  pose proof (NilZero.usu _ (N n)) as A. pose proof (NilZero.usu _ (N n')) as B.
  rewrite H in A. congruence.
Qed.

Lemma ofZ_inj z z' : Template.ofZ z = Template.ofZ z' -> z = z'.
Proof.
  unfold Template.ofZ. intros H.
  apply DecimalZ.to_int_inj.
  assert (N : forall k, Z.to_int k <> Decimal.Pos Decimal.Nil
                        /\ Z.to_int k <> Decimal.Neg Decimal.Nil).
  { intros [|p|p]; simpl; split; try discriminate;
      intros E; injection E; apply DecimalPos.Unsigned.to_uint_nonnil. }
  destruct (N z) as [A1 A2]. destruct (N z') as [B1 B2].
  pose proof (NilZero.isi _ A1 A2) as A. pose proof (NilZero.isi _ B1 B2) as B.
  rewrite H in A. congruence.
Qed.

(** A field without a bar ends at the first bar. *)
Lemma bar_split x : forall x' r r',
  noBar x = true -> noBar x' = true ->
  (x ++ String "|" r)%string = (x' ++ String "|" r')%string ->
  x = x' /\ r = r'.
Proof.
  induction x as [|c x IH]; intros x' r r' N N' E.
  - destruct x' as [|c' x']; simpl in *.
    + injection E as ->. auto.
    + injection E as <- _. simpl in N'. discriminate.
  - destruct x' as [|c' x']; simpl in *.
    + injection E as -> _. simpl in N. discriminate.
    + injection E as -> E.
      apply andb_true_iff in N as [_ N]. apply andb_true_iff in N' as [_ N'].
      destruct (IH x' r r' N N' E) as [-> ->]. auto.
Qed.

Lemma seenKey_inj n n' s s' : seenKey n s = seenKey n' s' -> n = n' /\ s = s'.
Proof.
  unfold seenKey. intros H.
  apply bar_split in H as [H ->]; auto using ofNat_noBar.
  split; [apply ofNat_inj, H | reflexivity].
Qed.

Lemma seenKey_eqb n n' s :
  String.eqb (seenKey n s) (seenKey n' s) = Nat.eqb n n'.
Proof.
  destruct (Nat.eqb n n') eqn:E.
  - apply Nat.eqb_eq in E. subst. apply String.eqb_refl.
  - apply String.eqb_neq. intros H. apply seenKey_inj in H as [-> _].
    rewrite Nat.eqb_refl in E. discriminate.
Qed.

Lemma seenKey_eqb_other n n' s s' :
  s <> s' -> String.eqb (seenKey n s) (seenKey n' s') = false.
Proof.
  intros D. apply String.eqb_neq. intros H. apply seenKey_inj in H as [_ H]. auto.
Qed.

(** *** Distinct values *)

Lemma existsb_nat_In x xs : existsb (Nat.eqb x) xs = true <-> In x xs.
Proof.
  rewrite existsb_exists. split.
  - intros (y & Hy & E). apply Nat.eqb_eq in E. congruence.
  - intros H. exists x. split; [exact H | apply Nat.eqb_refl].
Qed.

Lemma distinctFrom_In seen : forall xs x,
  In x (distinctFrom xs seen) <-> In x seen /\ ~ In x xs.
Proof.
  induction seen as [|y ys IH]; intros xs x; simpl.
  - tauto.
  - destruct (existsb (Nat.eqb y) xs) eqn:E.
    + apply existsb_nat_In in E. rewrite IH. split.
      * intros [A B]. auto.
      * intros [[->|A] B]; [contradiction | auto].
    + assert (N : ~ In y xs).
      { intros H. apply existsb_nat_In in H. congruence. }
      simpl. rewrite IH. simpl. split.
      * intros [<-|[A B]]; [auto|]. split; [auto|]. intros H. apply B. auto.
      * intros [[<-|A] B]; [auto|].
        destruct (Nat.eq_dec y x) as [->|D]; [auto|].
        right. split; [exact A|]. intros [?|?]; [congruence | contradiction].
Qed.

Lemma distinctFrom_NoDup seen : forall xs, NoDup (distinctFrom xs seen).
Proof.
  induction seen as [|y ys IH]; intros xs; simpl; [constructor|].
  destruct (existsb (Nat.eqb y) xs); [apply IH|].
  constructor; [|apply IH].
  rewrite distinctFrom_In. intros [_ H]. apply H. left. reflexivity.
Qed.

Lemma distinct_In xs x : In x (distinct xs) <-> In x xs.
Proof. unfold distinct. rewrite distinctFrom_In. simpl. tauto. Qed.

Lemma distinct_NoDup xs : NoDup (distinct xs).
Proof. apply distinctFrom_NoDup. Qed.

Lemma distinctFrom_fixed xs : forall seen,
  NoDup xs -> (forall x, In x xs -> ~ In x seen) ->
  distinctFrom seen xs = xs.
Proof.
  induction xs as [|x xs IH]; intros seen N D; [reflexivity|].
  inversion N as [|? ? Hx Hxs]; subst. simpl.
  destruct (existsb (Nat.eqb x) seen) eqn:E.
  - apply existsb_nat_In in E. exfalso. apply (D x); simpl; auto.
  - f_equal. apply IH; [exact Hxs|].
    intros y Hy [<-|H]; [contradiction|]. apply (D y); simpl; auto.
Qed.

Lemma distinct_fixed xs : NoDup xs -> distinct xs = xs.
Proof. intros N. apply distinctFrom_fixed; auto. Qed.

Lemma distinct_idempotent xs : distinct (distinct xs) = distinct xs.
Proof. apply distinct_fixed, distinct_NoDup. Qed.

(** *** The two loops of the matcher *)

Lemma firstRows_ids rows : forall seenIds,
  map EntityAlias.canonicalEntityId (firstRows seenIds rows)
  = distinctFrom seenIds (map EntityAlias.canonicalEntityId rows).
Proof.
  induction rows as [|r rows IH]; intros seenIds; [reflexivity|]. simpl.
  destruct (existsb _ seenIds); simpl; rewrite IH; reflexivity.
Qed.

Lemma firstRows_incl rows : forall seenIds r,
  In r (firstRows seenIds rows) -> In r rows.
Proof.
  induction rows as [|x rows IH]; intros seenIds r; simpl; [auto|].
  destruct (existsb _ seenIds); simpl; intros H.
  - right. eapply IH, H.
  - destruct H as [H|H]; [auto | right; eapply IH, H].
Qed.

Lemma setHas_app key seen x :
  setHas key (seen ++ [x]) = setHas key seen || String.eqb key x.
Proof.
  unfold setHas. rewrite existsb_app. simpl. rewrite orb_false_r. reflexivity.
Qed.

Lemma pushCandidates_spec suffix why sc rows : forall seen out ids,
  (forall n, setHas (seenKey n suffix) seen = existsb (Nat.eqb n) ids) ->
  snd (pushCandidates suffix why sc rows seen out)
  = out ++ map (candidateOf why sc) (firstRows ids rows)
  /\ forall suffix' n, suffix' <> suffix ->
       setHas (seenKey n suffix') (fst (pushCandidates suffix why sc rows seen out))
       = setHas (seenKey n suffix') seen.
Proof.
  induction rows as [|r rows IH]; intros seen out ids K.
  - simpl. rewrite List.app_nil_r. auto.
  - cbn [pushCandidates firstRows].
    change (Template.ofNat (EntityAlias.canonicalEntityId r) ++ "|" ++ suffix)%string
      with (seenKey (EntityAlias.canonicalEntityId r) suffix).
    rewrite K.
    destruct (existsb (Nat.eqb (EntityAlias.canonicalEntityId r)) ids) eqn:E.
    + apply IH, K.
    + destruct (IH (seen ++ [seenKey (EntityAlias.canonicalEntityId r) suffix])
                   (out ++ [mkCandidate (EntityAlias.id r)
                              (EntityAlias.canonicalEntityId r) why sc])
                   (EntityAlias.canonicalEntityId r :: ids)) as [A B].
      { intros n. rewrite setHas_app, K, seenKey_eqb. simpl.
        rewrite (Nat.eqb_sym n). apply orb_comm. }
      split.
      * rewrite A, <- List.app_assoc. reflexivity.
      * intros suffix' n D. rewrite B by exact D.
        rewrite setHas_app, seenKey_eqb_other by exact D. apply orb_false_r.
Qed.

Lemma surjective_pair_let {A B C} (p : A * B) (f : A -> B -> C) :
  (let '(a, b) := p in f a b) = f (fst p) (snd p).
Proof. destruct p; reflexivity. Qed.

(** The matcher's answer: the first alias row of each canonical entity
    among the exact rows, then the first alias row of each canonical
    entity among the last-token rows. *)
Lemma candidatesIn_rows d text norm ty :
  candidatesIn d text norm ty
  = map (candidateOf exact_alias 1.0%Q) (firstRows [] (aliasesWhere ty norm d))
    ++ map (candidateOf key_fingerprint 0.6%Q)
           (firstRows [] (keyRowsIn d text norm ty)).
Proof.
  unfold candidatesIn, keyRowsIn. rewrite surjective_pair_let.
  destruct (pushCandidates_spec "exact" exact_alias 1.0%Q
              (aliasesWhere ty norm d) [] [] []) as [A B]; [reflexivity|].
  rewrite A. simpl app.
  assert (K : forall rows,
    snd (pushCandidates "key" key_fingerprint 0.6%Q rows
           (fst (pushCandidates "exact" exact_alias 1.0%Q
                   (aliasesWhere ty norm d) [] []))
           (map (candidateOf exact_alias 1.0%Q)
                (firstRows [] (aliasesWhere ty norm d))))
    = map (candidateOf exact_alias 1.0%Q) (firstRows [] (aliasesWhere ty norm d))
      ++ map (candidateOf key_fingerprint 0.6%Q) (firstRows [] rows)).
  { intros rows. apply pushCandidates_spec. intros n.
    rewrite B by discriminate. reflexivity. }
  destruct ty; try (simpl; rewrite List.app_nil_r; reflexivity);
    (destruct (keyFingerprint text) as [key|];
       [destruct (negb (String.eqb key norm)); [apply K|] |];
     simpl; rewrite List.app_nil_r; reflexivity).
Qed.

Lemma filter_reason_same why sc rows :
  filter (fun c => Reason_eqb (reason c) why) (map (candidateOf why sc) rows)
  = map (candidateOf why sc) rows.
Proof.
  induction rows as [|r rows IH]; [reflexivity|]. simpl.
  destruct why; simpl; rewrite IH; reflexivity.
Qed.

Lemma filter_reason_other why why' sc rows :
  why <> why' ->
  filter (fun c => Reason_eqb (reason c) why') (map (candidateOf why sc) rows) = [].
Proof.
  intros D. induction rows as [|r rows IH]; [reflexivity|]. simpl.
  destruct why, why'; simpl; try congruence; exact IH.
Qed.

Lemma map_candidate_ids why sc rows :
  map canonicalEntityId (map (candidateOf why sc) rows)
  = map EntityAlias.canonicalEntityId rows.
Proof. rewrite map_map. reflexivity. Qed.

Lemma exactCanonicals_rows d text norm ty :
  canonicalsBy exact_alias (candidatesIn d text norm ty)
  = distinct (map EntityAlias.canonicalEntityId (aliasesWhere ty norm d)).
Proof.
  unfold canonicalsBy. rewrite candidatesIn_rows, filter_app.
  rewrite filter_reason_same, filter_reason_other by discriminate.
  rewrite List.app_nil_r, map_candidate_ids, firstRows_ids.
  apply distinct_idempotent.
Qed.

Lemma keyCanonicals_rows d text norm ty :
  canonicalsBy key_fingerprint (candidatesIn d text norm ty)
  = distinct (map EntityAlias.canonicalEntityId (keyRowsIn d text norm ty)).
Proof.
  unfold canonicalsBy. rewrite candidatesIn_rows, filter_app.
  rewrite filter_reason_same, filter_reason_other by discriminate.
  simpl. rewrite map_candidate_ids, firstRows_ids.
  apply distinct_idempotent.
Qed.

(** *** The claims about the matcher *)

Lemma findAliasCandidates_healthy d q st text norm ty :
  findAliasCandidates text norm ty (mkWorld d q st None)
  = Ok (candidatesIn d text norm ty) (mkWorld d q st None).
Proof.
  unfold findAliasCandidates, candidatesIn, entityAlias_findMany.
  unfold bind at 1. unfold query, call.
  cbn [db seqs stats budget option_map].
  destruct (pushCandidates "exact" exact_alias 1.0%Q (aliasesWhere ty norm d) [] [])
    as [seen out].
  destruct ty; try reflexivity;
    (destruct (keyFingerprint text) as [key|]; [|reflexivity];
     destruct (negb (String.eqb key norm)); reflexivity).
Qed.

Lemma NoDup_map_pair {A B} (f : A -> nat) (y : B) (xs : list A) :
  NoDup (map f xs) -> NoDup (map (fun x => (f x, y)) xs).
Proof.
  induction xs as [|x xs IH]; simpl; intros N; [constructor|].
  inversion N as [|? ? Hx Hxs]; subst. constructor; [|apply IH, Hxs].
  intros H. apply Hx. apply in_map_iff in H as (z & E & Hz).
  injection E as E. rewrite <- E. apply in_map, Hz.
Qed.

Lemma firstRows_NoDup rows :
  NoDup (map EntityAlias.canonicalEntityId (firstRows [] rows)).
Proof. rewrite firstRows_ids. apply distinctFrom_NoDup. Qed.

Lemma rows_ids_In (rows : list EntityAlias.t) x :
  In x (map EntityAlias.canonicalEntityId rows)
  <-> exists row, In row rows /\ EntityAlias.canonicalEntityId row = x.
Proof.
  rewrite in_map_iff. split; intros (r & A & B); exists r; auto.
Qed.

Lemma findAliasCandidates_returns w text norm ty :
  healthy w ->
  findAliasCandidates text norm ty w = Ok (candidatesIn (db w) text norm ty) w.
Proof.
  intros H. rewrite (healthy_eta w H) at 1 3. apply findAliasCandidates_healthy.
Qed.

(** C3, as the code has it.  The matcher's candidate list holds each
    pair of canonical entity and reason at most once; an [exact_alias]
    candidate scores 1.0 and a [key_fingerprint] candidate 0.6; the
    entities listed as [exact_alias] are those of the exact alias rows
    and the entities listed as [key_fingerprint] are those of the
    last-token rows, whether or not they were found by exact match
    too. *)
Theorem findAliasCandidates_dedupes_per_reason
    (w : World) (text norm : string) (ty : EntityType) :
  healthy w ->
  let cands := candidatesIn (db w) text norm ty in
  findAliasCandidates text norm ty w = Ok cands w
  /\ NoDup (map (fun c => (canonicalEntityId c, reason c)) cands)
  /\ (forall c, In c cands ->
        score c = match reason c with
                  | exact_alias => 1.0%Q
                  | key_fingerprint => 0.6%Q
                  end)
  /\ (forall x, In x (canonicalsBy exact_alias cands) <->
        exists row, In row (aliasesWhere ty norm (db w))
                    /\ EntityAlias.canonicalEntityId row = x)
  /\ (forall x, In x (canonicalsBy key_fingerprint cands) <->
        exists row, In row (keyRowsIn (db w) text norm ty)
                    /\ EntityAlias.canonicalEntityId row = x).
Proof.
  intros H cands. subst cands.
  split.
  { apply findAliasCandidates_returns, H. }
  rewrite exactCanonicals_rows, keyCanonicals_rows.
  rewrite candidatesIn_rows.
  split; [|split; [|split]].
  - rewrite map_app. 
    assert (D : forall why sc rows,
      map (fun c => (canonicalEntityId c, reason c))
          (map (candidateOf why sc) (firstRows [] rows))
      = map (fun r => (EntityAlias.canonicalEntityId r, why)) (firstRows [] rows)).
    { intros. rewrite map_map. reflexivity. }
    rewrite !D.
    apply NoDup_app.
    + apply NoDup_map_pair, firstRows_NoDup.
    + apply NoDup_map_pair, firstRows_NoDup.
    + intros [x y] A B.
      apply in_map_iff in A as (? & A & _). apply in_map_iff in B as (? & B & _).
      congruence.
  - intros c Hc. apply in_app_or in Hc as [Hc|Hc];
      apply in_map_iff in Hc as (r & <- & _); reflexivity.
  - intros x. rewrite distinct_In. apply rows_ids_In.
  - intros x. rewrite distinct_In. apply rows_ids_In.
Qed.

Lemma findAliasCandidates_dedupes_per_reason_witness :
  findAliasCandidates "John Smith" "john smith" PERSON
    (Fixtures.world Fixtures.oneSmith Fixtures.oneSmithSeqs)
  = Ok [mkCandidate 1 1 exact_alias 1.0%Q; mkCandidate 2 1 key_fingerprint 0.6%Q]
       (Fixtures.world Fixtures.oneSmith Fixtures.oneSmithSeqs).
Proof.
  exact (proj1 (findAliasCandidates_dedupes_per_reason
                  (Fixtures.world Fixtures.oneSmith Fixtures.oneSmithSeqs)
                  "John Smith" "john smith" PERSON eq_refl)).
Defined.

(** C3, as the specification states it, fails: after a first mention
    of "John Smith" the same mention finds canonical entity 1 twice,
    by exact alias and by last-token fingerprint. *)
Lemma findAliasCandidates_lists_entity_twice :
  ~ (forall w text norm ty cands w',
       healthy w ->
       findAliasCandidates text norm ty w = Ok cands w' ->
       NoDup (map canonicalEntityId cands)).
Proof.
  intros H.
  specialize (H (Fixtures.world Fixtures.oneSmith Fixtures.oneSmithSeqs)
                "John Smith" "john smith" PERSON _ _ eq_refl eq_refl).
  vm_compute in H. inversion H as [|? ? N _]. apply N. left. reflexivity.
Qed.

(* ================================================================= *)
(** * Running one resolution on a healthy connection *)

Section HealthyRuns.

Variable uniqueLinks : bool.

Lemma upsertAlias_healthy ty cid t n c a e m l f nc na ne nm nl st :
  upsertAlias ty cid t n
    (mkWorld (mkDb c a e m l f) (mkSeqs nc na ne nm nl) st None)
  = match aliasIn cid n a with
    | Some row =>
        Ok (EntityAlias.id row)
           (mkWorld (mkDb c a e m l f) (mkSeqs nc na ne nm nl) st None)
    | None =>
        Ok na
           (mkWorld (mkDb c (a ++ [EntityAlias.mk na ty cid t n]) e m l f)
                    (mkSeqs nc (S na) ne nm nl) st None)
    end.
Proof.
  unfold upsertAlias, entityAlias_findFirst, bind, query, call, aliasOf.
  cbn [db seqs stats budget option_map entityAlias].
  destruct (aliasIn cid n a); reflexivity.
Qed.

Lemma upsertLoop_healthy ty cid t keys : forall c a e m l f nc na ne nm nl st,
  forEach keys (fun fp => _ <- upsertAlias ty cid t fp ;; ret tt)
    (mkWorld (mkDb c a e m l f) (mkSeqs nc na ne nm nl) st None)
  = Ok tt
      (mkWorld (mkDb c (a ++ aliasesToAdd ty cid t keys a na) e m l f)
               (mkSeqs nc (na + List.length (aliasesToAdd ty cid t keys a na))
                       ne nm nl)
               st None).
Proof.
  induction keys as [|k ks IH]; intros.
  - simpl. rewrite List.app_nil_r, Nat.add_0_r. reflexivity.
  - cbn [forEach aliasesToAdd]. unfold bind at 1. unfold bind at 1.
    rewrite upsertAlias_healthy.
    destruct (aliasIn cid k a).
    + cbn [ret]. apply IH.
    + cbn [ret]. rewrite IH. cbn [List.length].
      rewrite <- List.app_assoc, Nat.add_succ_r. reflexivity.
Qed.

Lemma registerAliases_healthy mn cid c a e m l f nc na ne nm nl st :
  registerAliases mn cid
    (mkWorld (mkDb c a e m l f) (mkSeqs nc na ne nm nl) st None)
  = Ok (primaryAliasId cid (mentionNormalized mn) a na)
      (mkWorld
         (mkDb c (a ++ aliasesToAdd (entityType mn) cid (mentionText mn)
                         (aliasKeys mn) a na) e m l f)
         (mkSeqs nc (na + List.length (aliasesToAdd (entityType mn) cid
                                         (mentionText mn) (aliasKeys mn) a na))
                 ne nm nl)
         st None).
Proof.
  unfold registerAliases, aliasKeys, primaryAliasId.
  cbn [aliasesToAdd]. unfold bind at 1. rewrite upsertAlias_healthy.
  destruct (aliasIn cid (mentionNormalized mn) a).
  - unfold bind at 1. rewrite upsertLoop_healthy. reflexivity.
  - unfold bind at 1. rewrite upsertLoop_healthy. cbn [ret List.length].
    rewrite <- List.app_assoc, Nat.add_succ_r. reflexivity.
Qed.

Lemma getOrCreateLegacyEntityId_healthy ty ct cn c a e m l f nc na ne nm nl st :
  getOrCreateLegacyEntityId ty ct cn
    (mkWorld (mkDb c a e m l f) (mkSeqs nc na ne nm nl) st None)
  = Ok (legacyId ty cn e ne)
      (mkWorld (mkDb c a (e ++ legacyRows ty ct cn e ne) m l f)
               (mkSeqs nc na (ne + List.length (legacyRows ty ct cn e ne)) nm nl)
               st None).
Proof.
  unfold getOrCreateLegacyEntityId, entity_findFirst, bind, query, call,
    legacyEntityOf, legacyId, legacyRows.
  cbn [db seqs stats budget option_map entity].
  destruct (find _ e).
  - cbn [ret List.length]. rewrite List.app_nil_r, Nat.add_0_r. reflexivity.
  - cbn [ret List.length Entity.id]. rewrite Nat.add_1_r. reflexivity.
Qed.

(** The three writes every branch ends with: the aliases, the legacy
    entity and the mention row. *)
Lemma settle_healthy {B} fid mn cid ct cn (k : EntityMention.t -> Tx B)
    c a e m l f nc na ne nm nl st :
  (primaryAliasId <- registerAliases mn cid ;;
   legacyEntityId <- getOrCreateLegacyEntityId (entityType mn) ct cn ;;
   mention <- entityMention_create fid legacyEntityId cid primaryAliasId
                (mentionText mn) (mentionNormalized mn) (contextSnippet mn)
                (mentionPosition mn) 1.0%Q ;;
   k mention)
    (mkWorld (mkDb c a e m l f) (mkSeqs nc na ne nm nl) st None)
  = k (mentionRowFor fid mn cid cn a e na ne nm)
      (mkWorld
         (mkDb c
               (a ++ aliasesToAdd (entityType mn) cid (mentionText mn)
                       (aliasKeys mn) a na)
               (e ++ legacyRows (entityType mn) ct cn e ne)
               (m ++ [mentionRowFor fid mn cid cn a e na ne nm]) l f)
         (mkSeqs nc
                 (na + List.length (aliasesToAdd (entityType mn) cid
                                      (mentionText mn) (aliasKeys mn) a na))
                 (ne + List.length (legacyRows (entityType mn) ct cn e ne))
                 (S nm) nl)
         st None).
Proof.
  unfold bind at 1. rewrite registerAliases_healthy.
  unfold bind at 1. rewrite getOrCreateLegacyEntityId_healthy.
  reflexivity.
Qed.

Lemma linkLoop_healthy mid cands : forall c a e m l f nc na ne nm nl st,
  linksClear uniqueLinks mid cands l ->
  forEach cands
    (fun cd => entityCandidateLink_create uniqueLinks mid (canonicalEntityId cd)
                 (score cd) (linkReason (reason cd)) PENDING)
    (mkWorld (mkDb c a e m l f) (mkSeqs nc na ne nm nl) st None)
  = Ok tt
      (mkWorld (mkDb c a e m (l ++ linkRows nl mid cands) f)
               (mkSeqs nc na ne nm (nl + List.length cands)) st None).
Proof.
  induction cands as [|cd cands IH]; intros c a e m l f nc na ne nm nl st Hc.
  - simpl. rewrite List.app_nil_r, Nat.add_0_r. reflexivity.
  - cbn [forEach linkRows List.length]. unfold bind at 1.
    unfold entityCandidateLink_create at 1, call.
    cbn [db seqs stats budget option_map entityCandidateLink].
    assert (G : uniqueLinks
                && existsb (fun l0 =>
                     Nat.eqb (EntityCandidateLink.mentionId l0) mid
                     && Nat.eqb (EntityCandidateLink.candidateCanonicalEntityId l0)
                                (canonicalEntityId cd)) l = false).
    { destruct Hc as [->|[N F]]; [reflexivity|].
      destruct uniqueLinks; [|reflexivity]. simpl.
      destruct (existsb _ l) eqn:X; [|reflexivity].
      apply existsb_exists in X as (l0 & In0 & E).
      apply andb_true_iff in E as [E1 E2].
      apply Nat.eqb_eq in E1. apply Nat.eqb_eq in E2.
      exfalso. apply (F l0 In0 E1). rewrite E2. left. reflexivity. }
    rewrite G. cbn [nextEntityCandidateLink nextCanonicalEntity nextEntityAlias
                    nextEntity nextEntityMention canonicalEntity entityAlias
                    entity entityMention file].
    rewrite IH.
    + rewrite <- List.app_assoc, Nat.add_succ_r. reflexivity.
    + destruct Hc as [->|[N F]]; [left; reflexivity|]. right.
      inversion N as [|? ? Hx Hxs]; subst. split; [exact Hxs|].
      intros l0 In0 E. apply in_app_or in In0 as [In0|[<-|[]]].
      * intros H. apply (F l0 In0 E). right. exact H.
      * simpl. exact Hx.
Qed.

(** Whatever the candidates, a link loop that returns has appended one
    row per candidate, and the only exception it raises is the unique
    constraint's. *)
Lemma linkLoop_shape mid cands : forall c a e m l f nc na ne nm nl st,
  match forEach cands
          (fun cd => entityCandidateLink_create uniqueLinks mid
                       (canonicalEntityId cd) (score cd)
                       (linkReason (reason cd)) PENDING)
          (mkWorld (mkDb c a e m l f) (mkSeqs nc na ne nm nl) st None)
  with
  | Ok _ w' =>
      w' = mkWorld (mkDb c a e m (l ++ linkRows nl mid cands) f)
                   (mkSeqs nc na ne nm (nl + List.length cands)) st None
  | Threw err w' =>
      err = UniqueConstraintViolation
      /\ exists l' nl',
           w' = mkWorld (mkDb c a e m l' f) (mkSeqs nc na ne nm nl') st None
  end.
Proof.
  induction cands as [|cd cands IH]; intros.
  - simpl. rewrite List.app_nil_r, Nat.add_0_r. reflexivity.
  - cbn [forEach linkRows List.length]. unfold bind at 1.
    unfold entityCandidateLink_create at 1, call.
    cbn [db seqs stats budget option_map entityCandidateLink].
    destruct (uniqueLinks && existsb _ l).
    + split; eauto.
    + cbn [nextEntityCandidateLink nextCanonicalEntity nextEntityAlias
           nextEntity nextEntityMention canonicalEntity entityAlias
           entity entityMention file].
      match goal with
      | |- context [forEach cands ?body ?w] =>
          pose proof (IH c a e m
                        (l ++ [EntityCandidateLink.mk nl mid (canonicalEntityId cd)
                                 (score cd) (linkReason (reason cd)) PENDING])
                        f nc na ne nm (S nl) st) as L;
          destruct (forEach cands body w) as [[] w'|err w']
      end.
      * rewrite L, <- List.app_assoc, Nat.add_succ_r. reflexivity.
      * exact L.
Qed.

(** Where links are unique, the loop throws when it comes to a
    candidate whose entity already has a link of the mention. *)
Lemma linkLoop_collides mid cands :
  uniqueLinks = true ->
  forall c a e m l f nc na ne nm nl st,
  (exists cd, In cd cands
     /\ existsb (fun l0 =>
          Nat.eqb (EntityCandidateLink.mentionId l0) mid
          && Nat.eqb (EntityCandidateLink.candidateCanonicalEntityId l0)
                     (canonicalEntityId cd)) l = true) ->
  exists err w',
    forEach cands
      (fun cd => entityCandidateLink_create uniqueLinks mid
                   (canonicalEntityId cd) (score cd)
                   (linkReason (reason cd)) PENDING)
      (mkWorld (mkDb c a e m l f) (mkSeqs nc na ne nm nl) st None)
    = Threw err w'.
Proof.
  intros U. induction cands as [|cd cands IH];
    intros c a e m l f nc na ne nm nl st (x & Hx & Ex); [destruct Hx|].
  cbn [forEach]. unfold bind at 1.
  unfold entityCandidateLink_create at 1, call.
  cbn [db seqs stats budget option_map entityCandidateLink].
  destruct (existsb (fun l0 =>
              Nat.eqb (EntityCandidateLink.mentionId l0) mid
              && Nat.eqb (EntityCandidateLink.candidateCanonicalEntityId l0)
                         (canonicalEntityId cd)) l) eqn:X.
  - replace (uniqueLinks && true) with true by (rewrite U; reflexivity).
    eauto.
  - replace (uniqueLinks && false) with false by (rewrite U; reflexivity).
    cbn [nextEntityCandidateLink nextCanonicalEntity nextEntityAlias
         nextEntity nextEntityMention canonicalEntity entityAlias
         entity entityMention file].
    apply IH. destruct Hx as [<-|Hx]; [congruence|].
    exists x. split; [exact Hx|]. rewrite existsb_app, Ex. reflexivity.
Qed.

(** Where links are unique, the loop throws when two of its candidates
    name the same entity. *)
Lemma linkLoop_throws mid cands :
  uniqueLinks = true ->
  forall c a e m l f nc na ne nm nl st,
  ~ NoDup (map canonicalEntityId cands) ->
  exists err w',
    forEach cands
      (fun cd => entityCandidateLink_create uniqueLinks mid
                   (canonicalEntityId cd) (score cd)
                   (linkReason (reason cd)) PENDING)
      (mkWorld (mkDb c a e m l f) (mkSeqs nc na ne nm nl) st None)
    = Threw err w'.
Proof.
  intros U. induction cands as [|cd cands IH];
    intros c a e m l f nc na ne nm nl st ND.
  { exfalso. apply ND. constructor. }
  cbn [forEach]. unfold bind at 1.
  unfold entityCandidateLink_create at 1, call.
  cbn [db seqs stats budget option_map entityCandidateLink].
  destruct (existsb (fun l0 =>
              Nat.eqb (EntityCandidateLink.mentionId l0) mid
              && Nat.eqb (EntityCandidateLink.candidateCanonicalEntityId l0)
                         (canonicalEntityId cd)) l) eqn:X.
  - replace (uniqueLinks && true) with true by (rewrite U; reflexivity).
    eauto.
  - replace (uniqueLinks && false) with false by (rewrite U; reflexivity).
    cbn [nextEntityCandidateLink nextCanonicalEntity nextEntityAlias
         nextEntity nextEntityMention canonicalEntity entityAlias
         entity entityMention file].
    destruct (in_dec Nat.eq_dec (canonicalEntityId cd)
                (map canonicalEntityId cands)) as [I|I].
    + apply (linkLoop_collides mid cands U).
      apply in_map_iff in I as (x & Ex & Hx).
      exists x. split; [exact Hx|]. rewrite existsb_app. cbn [existsb].
      cbn [EntityCandidateLink.mentionId
           EntityCandidateLink.candidateCanonicalEntityId].
      rewrite Ex, !Nat.eqb_refl. cbn [andb orb]. apply orb_true_r.
    + apply IH. intros N. apply ND. cbn [map]. constructor; assumption.
Qed.

Ltac run_create :=
  unfold bind at 1;
  unfold canonicalEntity_create at 1, call;
  cbn [db seqs stats budget option_map canonicalEntity entityAlias entity
       entityMention entityCandidateLink file nextCanonicalEntity
       nextEntityAlias nextEntity nextEntityMention nextEntityCandidateLink].

Ltac tidy_rows :=
  cbn [CanonicalEntity.id CanonicalEntity.canonicalText
       CanonicalEntity.canonicalNormalized CanonicalEntity.entityType
       EntityMention.id mentionRowFor].

Lemma resolveMention_ambiguous fid mn c a e m l f nc na ne nm nl st :
  let cands := candidatesIn (mkDb c a e m l f) (mentionText mn)
                 (mentionNormalized mn) (entityType mn) in
  isAmbiguous (canonicalsBy exact_alias cands)
              (canonicalsBy key_fingerprint cands) = true ->
  linksClear uniqueLinks nm cands l ->
  resolveMention uniqueLinks fid mn
    (mkWorld (mkDb c a e m l f) (mkSeqs nc na ne nm nl) st None)
  = Ok (Ambiguous nc)
      (mkWorld
         (mkDb (c ++ [CanonicalEntity.mk nc (entityType mn) (mentionText mn)
                        (mentionNormalized mn)
                        (MetaUnresolved "ambiguous_alias_match")])
               (a ++ aliasesToAdd (entityType mn) nc (mentionText mn)
                       (aliasKeys mn) a na)
               (e ++ legacyRows (entityType mn) (mentionText mn)
                       (mentionNormalized mn) e ne)
               (m ++ [mentionRowFor fid mn nc (mentionNormalized mn) a e na ne nm])
               (l ++ linkRows nl nm cands) f)
         (mkSeqs (S nc)
                 (na + List.length (aliasesToAdd (entityType mn) nc
                                      (mentionText mn) (aliasKeys mn) a na))
                 (ne + List.length (legacyRows (entityType mn) (mentionText mn)
                                      (mentionNormalized mn) e ne))
                 (S nm) (nl + List.length cands))
         (bumpNew st) None).
Proof.
  intros cands Hamb Hclear. unfold resolveMention.
  unfold bind at 1. rewrite findAliasCandidates_healthy. fold cands.
  rewrite Hamb. run_create. rewrite settle_healthy. tidy_rows.
  unfold bind at 1. rewrite (linkLoop_healthy _ _ _ _ _ _ _ _ _ _ _ _ _ _ Hclear).
  reflexivity.
Qed.

(** The ambiguous branch in general: the only way not to return is a
    unique-constraint violation, and then the placeholder was created
    all the same. *)
Lemma resolveMention_ambiguous_outcome fid mn c a e m l f nc na ne nm nl st :
  let cands := candidatesIn (mkDb c a e m l f) (mentionText mn)
                 (mentionNormalized mn) (entityType mn) in
  isAmbiguous (canonicalsBy exact_alias cands)
              (canonicalsBy key_fingerprint cands) = true ->
  match resolveMention uniqueLinks fid mn
          (mkWorld (mkDb c a e m l f) (mkSeqs nc na ne nm nl) st None) with
  | Ok r w' =>
      r = Ambiguous nc
      /\ w' = mkWorld
           (mkDb (c ++ [CanonicalEntity.mk nc (entityType mn) (mentionText mn)
                          (mentionNormalized mn)
                          (MetaUnresolved "ambiguous_alias_match")])
                 (a ++ aliasesToAdd (entityType mn) nc (mentionText mn)
                         (aliasKeys mn) a na)
                 (e ++ legacyRows (entityType mn) (mentionText mn)
                         (mentionNormalized mn) e ne)
                 (m ++ [mentionRowFor fid mn nc (mentionNormalized mn) a e na ne nm])
                 (l ++ linkRows nl nm cands) f)
           (mkSeqs (S nc)
                   (na + List.length (aliasesToAdd (entityType mn) nc
                                        (mentionText mn) (aliasKeys mn) a na))
                   (ne + List.length (legacyRows (entityType mn) (mentionText mn)
                                        (mentionNormalized mn) e ne))
                   (S nm) (nl + List.length cands))
           (bumpNew st) None
  | Threw err w' =>
      err = UniqueConstraintViolation
      /\ canonicalEntity (db w')
         = c ++ [CanonicalEntity.mk nc (entityType mn) (mentionText mn)
                   (mentionNormalized mn)
                   (MetaUnresolved "ambiguous_alias_match")]
  end.
Proof.
  intros cands Hamb. unfold resolveMention.
  unfold bind at 1. rewrite findAliasCandidates_healthy. fold cands.
  rewrite Hamb. run_create. rewrite settle_healthy. tidy_rows.
  unfold bind at 1.
  match goal with
  | |- context [forEach cands ?body ?w] =>
      pose proof (linkLoop_shape nm cands
                    (c ++ [CanonicalEntity.mk nc (entityType mn) (mentionText mn)
                             (mentionNormalized mn)
                             (MetaUnresolved "ambiguous_alias_match")])
                    (a ++ aliasesToAdd (entityType mn) nc (mentionText mn)
                            (aliasKeys mn) a na)
                    (e ++ legacyRows (entityType mn) (mentionText mn)
                            (mentionNormalized mn) e ne)
                    (m ++ [mentionRowFor fid mn nc (mentionNormalized mn) a e na ne nm])
                    l f (S nc)
                    (na + List.length (aliasesToAdd (entityType mn) nc
                                         (mentionText mn) (aliasKeys mn) a na))
                    (ne + List.length (legacyRows (entityType mn) (mentionText mn)
                                         (mentionNormalized mn) e ne))
                    (S nm) nl st) as L;
      cbn [CanonicalEntity.id CanonicalEntity.canonicalText
           CanonicalEntity.canonicalNormalized CanonicalEntity.entityType
           EntityMention.id mentionRowFor] in L;
      destruct (forEach cands body w) as [[] w'|err w']
  end.
  - subst w'. split; reflexivity.
  - destruct L as (-> & l' & nl' & ->). split; reflexivity.
Qed.

Lemma resolveMention_created fid mn c a e m l f nc na ne nm nl st :
  let cands := candidatesIn (mkDb c a e m l f) (mentionText mn)
                 (mentionNormalized mn) (entityType mn) in
  isAmbiguous (canonicalsBy exact_alias cands)
              (canonicalsBy key_fingerprint cands) = false ->
  chosenCanonicalId (canonicalsBy exact_alias cands)
                    (canonicalsBy key_fingerprint cands) = None ->
  resolveMention uniqueLinks fid mn
    (mkWorld (mkDb c a e m l f) (mkSeqs nc na ne nm nl) st None)
  = Ok (CreatedNew nc)
      (mkWorld
         (mkDb (c ++ [CanonicalEntity.mk nc (entityType mn) (mentionText mn)
                        (mentionNormalized mn) MetaEmpty])
               (a ++ aliasesToAdd (entityType mn) nc (mentionText mn)
                       (aliasKeys mn) a na)
               (e ++ legacyRows (entityType mn) (mentionText mn)
                       (mentionNormalized mn) e ne)
               (m ++ [mentionRowFor fid mn nc (mentionNormalized mn) a e na ne nm])
               l f)
         (mkSeqs (S nc)
                 (na + List.length (aliasesToAdd (entityType mn) nc
                                      (mentionText mn) (aliasKeys mn) a na))
                 (ne + List.length (legacyRows (entityType mn) (mentionText mn)
                                      (mentionNormalized mn) e ne))
                 (S nm) nl)
         (bumpNew st) None).
Proof.
  intros cands Hamb Hch. unfold resolveMention.
  unfold bind at 1. rewrite findAliasCandidates_healthy. fold cands.
  rewrite Hamb, Hch. run_create. rewrite settle_healthy. reflexivity.
Qed.

Lemma resolveMention_merged fid mn chosen row c a e m l f nc na ne nm nl st :
  let cands := candidatesIn (mkDb c a e m l f) (mentionText mn)
                 (mentionNormalized mn) (entityType mn) in
  isAmbiguous (canonicalsBy exact_alias cands)
              (canonicalsBy key_fingerprint cands) = false ->
  chosenCanonicalId (canonicalsBy exact_alias cands)
                    (canonicalsBy key_fingerprint cands) = Some chosen ->
  canonicalById chosen (mkDb c a e m l f) = Some row ->
  resolveMention uniqueLinks fid mn
    (mkWorld (mkDb c a e m l f) (mkSeqs nc na ne nm nl) st None)
  = Ok (Merged (CanonicalEntity.id row))
      (mkWorld
         (mkDb c
               (a ++ aliasesToAdd (entityType mn) (CanonicalEntity.id row)
                       (mentionText mn) (aliasKeys mn) a na)
               (e ++ legacyRows (entityType mn) (CanonicalEntity.canonicalText row)
                       (CanonicalEntity.canonicalNormalized row) e ne)
               (m ++ [mentionRowFor fid mn (CanonicalEntity.id row)
                        (CanonicalEntity.canonicalNormalized row) a e na ne nm])
               l f)
         (mkSeqs nc
                 (na + List.length (aliasesToAdd (entityType mn)
                                      (CanonicalEntity.id row) (mentionText mn)
                                      (aliasKeys mn) a na))
                 (ne + List.length (legacyRows (entityType mn)
                                      (CanonicalEntity.canonicalText row)
                                      (CanonicalEntity.canonicalNormalized row) e ne))
                 (S nm) nl)
         (bumpMerged st) None).
Proof.
  intros cands Hamb Hch Hrow. unfold resolveMention.
  unfold bind at 1. rewrite findAliasCandidates_healthy. fold cands.
  rewrite Hamb, Hch. unfold bind at 1.
  unfold canonicalEntity_findUnique, query, call.
  cbn [db seqs stats budget option_map]. rewrite Hrow.
  rewrite settle_healthy. reflexivity.
Qed.

Lemma resolveMention_skipped fid mn chosen c a e m l f nc na ne nm nl st :
  let cands := candidatesIn (mkDb c a e m l f) (mentionText mn)
                 (mentionNormalized mn) (entityType mn) in
  isAmbiguous (canonicalsBy exact_alias cands)
              (canonicalsBy key_fingerprint cands) = false ->
  chosenCanonicalId (canonicalsBy exact_alias cands)
                    (canonicalsBy key_fingerprint cands) = Some chosen ->
  canonicalById chosen (mkDb c a e m l f) = None ->
  resolveMention uniqueLinks fid mn
    (mkWorld (mkDb c a e m l f) (mkSeqs nc na ne nm nl) st None)
  = Ok Skipped (mkWorld (mkDb c a e m l f) (mkSeqs nc na ne nm nl) st None).
Proof.
  intros cands Hamb Hch Hrow. unfold resolveMention.
  unfold bind at 1. rewrite findAliasCandidates_healthy. fold cands.
  rewrite Hamb, Hch. unfold bind at 1.
  unfold canonicalEntity_findUnique, query, call.
  cbn [db seqs stats budget option_map]. rewrite Hrow. reflexivity.
Qed.

(** Where links are unique, an ambiguous resolution whose candidate
    list names an entity twice throws, after it created the
    placeholder. *)
Lemma resolveMention_ambiguous_throws fid mn c a e m l f nc na ne nm nl st :
  uniqueLinks = true ->
  let cands := candidatesIn (mkDb c a e m l f) (mentionText mn)
                 (mentionNormalized mn) (entityType mn) in
  isAmbiguous (canonicalsBy exact_alias cands)
              (canonicalsBy key_fingerprint cands) = true ->
  ~ NoDup (map canonicalEntityId cands) ->
  exists w',
    resolveMention uniqueLinks fid mn
      (mkWorld (mkDb c a e m l f) (mkSeqs nc na ne nm nl) st None)
    = Threw UniqueConstraintViolation w'
    /\ canonicalEntity (db w')
       = c ++ [CanonicalEntity.mk nc (entityType mn) (mentionText mn)
                 (mentionNormalized mn)
                 (MetaUnresolved "ambiguous_alias_match")].
Proof.
  intros U cands Hamb ND.
  pose proof (resolveMention_ambiguous_outcome fid mn c a e m l f
                nc na ne nm nl st Hamb) as O.
  assert (T : exists err w',
            resolveMention uniqueLinks fid mn
              (mkWorld (mkDb c a e m l f) (mkSeqs nc na ne nm nl) st None)
            = Threw err w').
  { unfold resolveMention.
    unfold bind at 1. rewrite findAliasCandidates_healthy. fold cands.
    rewrite Hamb. run_create. rewrite settle_healthy. tidy_rows.
    unfold bind at 1.
    match goal with
    | |- context [forEach cands ?body ?w] =>
        destruct (linkLoop_throws nm cands U
                    (c ++ [CanonicalEntity.mk nc (entityType mn) (mentionText mn)
                             (mentionNormalized mn)
                             (MetaUnresolved "ambiguous_alias_match")])
                    (a ++ aliasesToAdd (entityType mn) nc (mentionText mn)
                            (aliasKeys mn) a na)
                    (e ++ legacyRows (entityType mn) (mentionText mn)
                            (mentionNormalized mn) e ne)
                    (m ++ [mentionRowFor fid mn nc (mentionNormalized mn) a e na ne nm])
                    l f (S nc)
                    (na + List.length (aliasesToAdd (entityType mn) nc
                                         (mentionText mn) (aliasKeys mn) a na))
                    (ne + List.length (legacyRows (entityType mn) (mentionText mn)
                                         (mentionNormalized mn) e ne))
                    (S nm) nl st ND) as (err & w' & L)
    end.
    cbn [CanonicalEntity.id CanonicalEntity.canonicalText
         CanonicalEntity.canonicalNormalized CanonicalEntity.entityType
         EntityMention.id mentionRowFor] in L.
    rewrite L. eauto. }
  destruct T as (err & w' & T). rewrite T in O. destruct O as [-> O].
  exists w'. split; [exact T | exact O].
Qed.

End HealthyRuns.

(* ================================================================= *)
(** * The four outcomes of a resolution *)

Ltac open_world w H :=
  destruct w as [[c a e m l f] [nc na ne nm nl] st b];
  unfold healthy in H; cbn [budget] in H; subst b.

Ltac show_written :=
  unfold written, placeholderFor, canonicalFor, candidatesOf;
  cbn [db seqs stats budget canonicalEntity entityAlias entity entityMention
       entityCandidateLink file nextCanonicalEntity nextEntityAlias nextEntity
       nextEntityMention nextEntityCandidateLink List.length linkRows];
  rewrite ?List.app_nil_r, ?Nat.add_0_r, ?Nat.add_1_r.

(** On a healthy connection a resolution ends in one of four ways,
    each with the world it leaves. *)
Lemma resolveMention_cases u fid mn w :
  healthy w ->
  if isAmbiguous (exactSet w mn) (fingerprintSet w mn) then
    match resolveMention u fid mn w with
    | Ok r w' =>
        r = Ambiguous (nextCanonicalEntity (seqs w))
        /\ w' = written w [placeholderFor w mn] fid mn
                  (nextCanonicalEntity (seqs w)) (mentionText mn)
                  (mentionNormalized mn) (candidatesOf w mn) bumpNew
    | Threw err w' =>
        err = UniqueConstraintViolation
        /\ canonicalEntity (db w')
           = canonicalEntity (db w) ++ [placeholderFor w mn]
    end
  else
    match chosenCanonicalId (exactSet w mn) (fingerprintSet w mn) with
    | None =>
        resolveMention u fid mn w
        = Ok (CreatedNew (nextCanonicalEntity (seqs w)))
             (written w [canonicalFor w mn] fid mn
                (nextCanonicalEntity (seqs w)) (mentionText mn)
                (mentionNormalized mn) [] bumpNew)
    | Some chosen =>
        match canonicalById chosen (db w) with
        | Some row =>
            resolveMention u fid mn w
            = Ok (Merged (CanonicalEntity.id row))
                 (written w [] fid mn (CanonicalEntity.id row)
                    (CanonicalEntity.canonicalText row)
                    (CanonicalEntity.canonicalNormalized row) [] bumpMerged)
        | None => resolveMention u fid mn w = Ok Skipped w
        end
    end.
Proof.
  intros H. open_world w H. unfold exactSet, fingerprintSet, candidatesOf.
  cbn [db seqs].
  destruct (isAmbiguous _ _) eqn:Hamb.
  - pose proof (resolveMention_ambiguous_outcome u fid mn c a e m l f
                  nc na ne nm nl st Hamb) as O.
    destruct (resolveMention u fid mn _) as [r w'|err w'].
    + destruct O as [-> ->]. split; [reflexivity|]. show_written. reflexivity.
    + destruct O as [-> O]. split; [reflexivity|]. rewrite O. reflexivity.
  - destruct (chosenCanonicalId _ _) as [chosen|] eqn:Hch.
    + destruct (canonicalById chosen _) as [row|] eqn:Hrow.
      * rewrite (resolveMention_merged u fid mn chosen row c a e m l f
                   nc na ne nm nl st Hamb Hch Hrow).
        show_written. reflexivity.
      * apply (resolveMention_skipped u fid mn chosen c a e m l f
                 nc na ne nm nl st Hamb Hch Hrow).
    + rewrite (resolveMention_created u fid mn c a e m l f
                 nc na ne nm nl st Hamb Hch).
      show_written. reflexivity.
Qed.

Lemma resolveMention_ambiguous_clear u fid mn w :
  healthy w ->
  isAmbiguous (exactSet w mn) (fingerprintSet w mn) = true ->
  linksClear u (nextEntityMention (seqs w)) (candidatesOf w mn)
             (entityCandidateLink (db w)) ->
  resolveMention u fid mn w
  = Ok (Ambiguous (nextCanonicalEntity (seqs w)))
       (written w [placeholderFor w mn] fid mn
          (nextCanonicalEntity (seqs w)) (mentionText mn)
          (mentionNormalized mn) (candidatesOf w mn) bumpNew).
Proof.
  intros H Hamb Hc. open_world w H.
  unfold exactSet, fingerprintSet, candidatesOf in *. cbn [db seqs] in *.
  rewrite (resolveMention_ambiguous u fid mn c a e m l f nc na ne nm nl st Hamb Hc).
  show_written. reflexivity.
Qed.

Lemma NoDup_map_injective {A B} (f : A -> B) (xs : list A) :
  NoDup (map f xs) ->
  forall x y, In x xs -> In y xs -> f x = f y -> x = y.
Proof.
  induction xs as [|z xs IH]; intros N x y Hx Hy E; [destruct Hx|].
  cbn [map] in N. inversion N as [|? ? Hz Hzs]; subst.
  destruct Hx as [<-|Hx], Hy as [<-|Hy].
  - reflexivity.
  - exfalso. apply Hz. rewrite E. apply in_map, Hy.
  - exfalso. apply Hz. rewrite <- E. apply in_map, Hx.
  - apply IH; assumption.
Qed.

(** An entity in both sets is named twice in the candidate list, once
    for each reason. *)
Lemma candidate_for_both_reasons w mn c :
  In c (exactSet w mn) -> In c (fingerprintSet w mn) ->
  ~ NoDup (map canonicalEntityId (candidatesOf w mn)).
Proof.
  unfold exactSet, fingerprintSet, canonicalsBy. rewrite !distinct_In.
  intros E K N.
  apply in_map_iff in E as (x & Ex & Hx). apply filter_In in Hx as [Hx Rx].
  apply in_map_iff in K as (y & Ey & Hy). apply filter_In in Hy as [Hy Ry].
  assert (x = y)
    by (apply (NoDup_map_injective _ _ N); [exact Hx | exact Hy | congruence]).
  subst y. destruct (reason x); discriminate.
Qed.

(** Where links are unique, an ambiguous resolution with an entity in
    both sets throws. *)
Lemma resolveMention_collides fid mn w twice :
  healthy w ->
  isAmbiguous (exactSet w mn) (fingerprintSet w mn) = true ->
  In twice (exactSet w mn) -> In twice (fingerprintSet w mn) ->
  exists w',
    resolveMention true fid mn w = Threw UniqueConstraintViolation w'
    /\ canonicalEntity (db w')
       = canonicalEntity (db w) ++ [placeholderFor w mn].
Proof.
  intros H Hamb E K.
  pose proof (candidate_for_both_reasons w mn twice E K) as ND. clear E K.
  open_world w H.
  unfold exactSet, fingerprintSet, candidatesOf in *. cbn [db seqs] in *.
  destruct (resolveMention_ambiguous_throws true fid mn c a e m l f
              nc na ne nm nl st eq_refl Hamb ND) as (w' & T & O).
  exists w'. split; [exact T|]. rewrite O. reflexivity.
Qed.

(** The decision, case by case. *)
Lemma decision_exact_one E K c :
  E = [c] -> isAmbiguous E K = false /\ chosenCanonicalId E K = Some c.
Proof. intros ->. split; reflexivity. Qed.

Lemma decision_key_one E K c :
  E = [] -> K = [c] -> isAmbiguous E K = false /\ chosenCanonicalId E K = Some c.
Proof. intros -> ->. split; reflexivity. Qed.

Lemma decision_none E K :
  E = [] -> K = [] -> isAmbiguous E K = false /\ chosenCanonicalId E K = None.
Proof. intros -> ->. split; reflexivity. Qed.

Lemma decision_ambiguous E K :
  isAmbiguous E K = true <->
  1 < List.length E \/ (E = [] /\ 1 < List.length K).
Proof.
  unfold isAmbiguous. rewrite orb_true_iff, andb_true_iff, !Nat.ltb_lt, Nat.eqb_eq.
  split; intros [A|[A B]]; auto; right; split; auto.
  - destruct E; [reflexivity | discriminate].
  - subst. reflexivity.
Qed.

Lemma decision_chosen E K c :
  isAmbiguous E K = false -> chosenCanonicalId E K = Some c ->
  E = [c] \/ (E = [] /\ K = [c]).
Proof.
  unfold isAmbiguous, chosenCanonicalId. intros A C.
  destruct E as [|x [|y E]].
  - destruct K as [|z [|z' K]]; try discriminate. injection C as ->. auto.
  - injection C as ->. auto.
  - simpl in A. discriminate.
Qed.

(* ================================================================= *)
(** * What a resolution writes *)

(** *** Alias rows *)

Lemma aliasIn_app_some cid k rows more r :
  aliasIn cid k rows = Some r -> aliasIn cid k (rows ++ more) = Some r.
Proof.
  unfold aliasIn. induction rows as [|x rows IH]; simpl; [discriminate|].
  destruct (_ && _); auto.
Qed.

Lemma aliasIn_app_none cid k rows more :
  aliasIn cid k rows = None ->
  aliasIn cid k (rows ++ more) = aliasIn cid k more.
Proof.
  unfold aliasIn. induction rows as [|x rows IH]; simpl; [reflexivity|].
  destruct (_ && _); [discriminate | auto].
Qed.

Lemma aliasIn_Some cid k rows r :
  aliasIn cid k rows = Some r ->
  In r rows /\ EntityAlias.canonicalEntityId r = cid
  /\ EntityAlias.aliasNormalized r = k.
Proof.
  unfold aliasIn. intros H. apply find_some in H as [A B].
  apply andb_true_iff in B as [B1 B2].
  apply Nat.eqb_eq in B1. apply String.eqb_eq in B2. auto.
Qed.

Lemma aliasIn_None cid k rows r :
  aliasIn cid k rows = None -> In r rows ->
  EntityAlias.canonicalEntityId r = cid ->
  EntityAlias.aliasNormalized r <> k.
Proof.
  unfold aliasIn. intros H A B C.
  pose proof (find_none _ _ H r A) as F. simpl in F.
  rewrite B, C, Nat.eqb_refl, String.eqb_refl in F. discriminate.
Qed.

Lemma aliasIn_present cid k rows r :
  In r rows -> EntityAlias.canonicalEntityId r = cid ->
  EntityAlias.aliasNormalized r = k ->
  aliasIn cid k rows <> None.
Proof. intros A B C H. eapply aliasIn_None; eauto. Qed.

(** Each added row belongs to [cid], carries one of the keys, and was
    not there before. *)
Lemma aliasesToAdd_rows ty cid t keys : forall rows next r,
  In r (aliasesToAdd ty cid t keys rows next) ->
  EntityAlias.canonicalEntityId r = cid
  /\ EntityAlias.entityType r = ty
  /\ EntityAlias.aliasText r = t
  /\ In (EntityAlias.aliasNormalized r) keys
  /\ aliasIn cid (EntityAlias.aliasNormalized r) rows = None
  /\ next <= EntityAlias.id r < next + List.length (aliasesToAdd ty cid t keys rows next).
Proof.
  induction keys as [|k ks IH]; intros rows next r H; [destruct H|].
  cbn [aliasesToAdd] in *.
  destruct (aliasIn cid k rows) eqn:E.
  - destruct (IH rows next r H) as (A & B & C & D & F & G).
    repeat split; auto; try lia. right. exact D.
  - destruct H as [<-|H].
    + simpl. repeat split; auto; lia.
    + destruct (IH _ _ r H) as (A & B & C & D & F & G).
      repeat split; auto; try (right; exact D); try (simpl; lia).
      destruct (aliasIn cid (EntityAlias.aliasNormalized r) rows) eqn:X;
        [|reflexivity].
      rewrite (aliasIn_app_some _ _ _ _ _ X) in F. discriminate.
Qed.

(** After the upserts every key is an alias of [cid]. *)
Lemma aliasesToAdd_covers ty cid t keys : forall rows next k,
  In k keys ->
  aliasIn cid k (rows ++ aliasesToAdd ty cid t keys rows next) <> None.
Proof.
  induction keys as [|k0 ks IH]; intros rows next k H; [destruct H|].
  cbn [aliasesToAdd]. destruct (aliasIn cid k0 rows) eqn:E.
  - destruct H as [<-|H]; [|apply IH, H].
    rewrite (aliasIn_app_some _ _ _ _ _ E). discriminate.
  - change (rows ++ ?r :: ?x) with (rows ++ [r] ++ x). rewrite List.app_assoc.
    destruct H as [<-|H]; [|apply IH, H].
    eapply aliasIn_present with (r := EntityAlias.mk next ty cid t k0);
      try reflexivity.
    apply in_or_app. left. apply in_or_app. right. left. reflexivity.
Qed.

(** Registering again adds nothing. *)
Lemma aliasesToAdd_nothing ty cid t keys : forall rows next,
  (forall k, In k keys -> aliasIn cid k rows <> None) ->
  aliasesToAdd ty cid t keys rows next = [].
Proof.
  induction keys as [|k ks IH]; intros rows next H; [reflexivity|].
  cbn [aliasesToAdd]. destruct (aliasIn cid k rows) eqn:E.
  - apply IH. intros k' Hk'. apply H. right. exact Hk'.
  - exfalso. apply (H k); [left; reflexivity | exact E].
Qed.

Lemma aliasKeysUnique_snoc rows r :
  aliasKeysUnique rows = true ->
  aliasIn (EntityAlias.canonicalEntityId r) (EntityAlias.aliasNormalized r) rows = None ->
  aliasKeysUnique (rows ++ [r]) = true.
Proof.
  induction rows as [|x rows IH]; intros U N; [reflexivity|].
  simpl in *. apply andb_true_iff in U as [U1 U2].
  unfold aliasIn in N. simpl in N.
  destruct (Nat.eqb (EntityAlias.canonicalEntityId x) (EntityAlias.canonicalEntityId r)
            && String.eqb (EntityAlias.aliasNormalized x) (EntityAlias.aliasNormalized r))
    eqn:S; [discriminate|].
  rewrite existsb_app. simpl. unfold sameAliasKey at 2. rewrite S, orb_false_r.
  rewrite U1. simpl. apply IH; assumption.
Qed.

Lemma aliasesToAdd_unique ty cid t keys : forall rows next,
  aliasKeysUnique rows = true ->
  aliasKeysUnique (rows ++ aliasesToAdd ty cid t keys rows next) = true.
Proof.
  induction keys as [|k ks IH]; intros rows next U.
  - simpl. rewrite List.app_nil_r. exact U.
  - cbn [aliasesToAdd]. destruct (aliasIn cid k rows) eqn:E; [apply IH, U|].
    change (rows ++ ?r :: ?x) with (rows ++ [r] ++ x). rewrite List.app_assoc.
    apply IH. apply aliasKeysUnique_snoc; [exact U | exact E].
Qed.

(** *** Canonical rows *)

Lemma ownedBy_spec cs cid ty :
  ownedBy cs cid ty = true <->
  (exists x, In x cs /\ CanonicalEntity.id x = cid)
  /\ (forall x, In x cs -> CanonicalEntity.id x = cid ->
                CanonicalEntity.entityType x = ty).
Proof.
  unfold ownedBy. rewrite andb_true_iff, existsb_exists, forallb_forall. split.
  - intros [(x & A & B) F]. split.
    + exists x. split; [exact A | apply Nat.eqb_eq, B].
    + intros y Hy E. specialize (F y Hy).
      rewrite E, Nat.eqb_refl in F. simpl in F.
      destruct (CanonicalEntity.entityType y), ty; simpl in F; congruence.
  - intros [(x & A & B) F]. split.
    + exists x. split; [exact A | apply Nat.eqb_eq, B].
    + intros y Hy. destruct (Nat.eqb (CanonicalEntity.id y) cid) eqn:E; [|reflexivity].
      apply Nat.eqb_eq in E. rewrite (F y Hy E). destruct ty; reflexivity.
Qed.

Lemma canonicalById_Some cid d row :
  canonicalById cid d = Some row ->
  In row (canonicalEntity d) /\ CanonicalEntity.id row = cid.
Proof.
  unfold canonicalById. intros H. apply find_some in H as [A B].
  apply Nat.eqb_eq in B. auto.
Qed.

Lemma find_app_some {A} (p : A -> bool) xs ys r :
  find p xs = Some r -> find p (xs ++ ys) = Some r.
Proof. induction xs as [|x xs IH]; simpl; [discriminate|]. destruct (p x); auto. Qed.

Lemma find_app_none {A} (p : A -> bool) xs ys :
  find p xs = None -> find p (xs ++ ys) = find p ys.
Proof.
  induction xs as [|x xs IH]; simpl; [reflexivity|].
  destruct (p x); [discriminate | auto].
Qed.

Lemma find_fresh_id cs n :
  forallb (fun c => CanonicalEntity.id c <? n) cs = true ->
  find (fun c => Nat.eqb (CanonicalEntity.id c) n) cs = None.
Proof.
  intros F. destruct (find _ cs) eqn:E; [|reflexivity].
  apply find_some in E as [A B]. apply Nat.eqb_eq in B.
  rewrite forallb_forall in F. specialize (F _ A). apply Nat.ltb_lt in F. lia.
Qed.

Lemma exists_find_id cs cid :
  (exists x, In x cs /\ CanonicalEntity.id x = cid) ->
  exists row, find (fun c => Nat.eqb (CanonicalEntity.id c) cid) cs = Some row.
Proof.
  intros (x & A & B).
  destruct (find _ cs) eqn:E; [eauto|].
  pose proof (find_none _ _ E x A) as F. simpl in F.
  rewrite B, Nat.eqb_refl in F. discriminate.
Qed.

(* ================================================================= *)
(** * The store stays well formed *)

Lemma EntityType_eqb_eq a b : EntityType_eqb a b = true <-> a = b.
Proof. destruct a, b; simpl; split; congruence. Qed.

Lemma EntityType_eqb_refl a : EntityType_eqb a a = true.
Proof. destruct a; reflexivity. Qed.

Lemma In_firstn {A} n (xs : list A) x : In x (firstn n xs) -> In x xs.
Proof.
  revert n. induction xs as [|y xs IH]; intros [|n]; simpl; try tauto.
  intros [H|H]; [left; exact H | right; eapply IH, H].
Qed.

Lemma aliasesWhere_In ty n d r :
  In r (aliasesWhere ty n d) ->
  In r (entityAlias d) /\ EntityAlias.entityType r = ty
  /\ EntityAlias.aliasNormalized r = n.
Proof.
  unfold aliasesWhere. intros H. apply In_firstn in H.
  apply filter_In in H as [A B]. apply andb_true_iff in B as [B1 B2].
  apply EntityType_eqb_eq in B1. apply String.eqb_eq in B2. auto.
Qed.

Lemma keyRowsIn_In d text norm ty r :
  In r (keyRowsIn d text norm ty) ->
  In r (entityAlias d) /\ EntityAlias.entityType r = ty
  /\ EntityAlias.aliasNormalized r <> norm.
Proof.
  assert (G : forall key,
             In r (if negb (String.eqb key norm) then aliasesWhere ty key d else []) ->
             In r (entityAlias d) /\ EntityAlias.entityType r = ty
             /\ EntityAlias.aliasNormalized r <> norm).
  { intros key. destruct (String.eqb key norm) eqn:E; simpl; [intros []|].
    intros H. apply aliasesWhere_In in H as (A & B & C).
    apply String.eqb_neq in E. repeat split; auto; congruence. }
  unfold keyRowsIn. destruct ty.
  - destruct (keyFingerprint text) as [key|]; [apply G | intros H; destruct H].
  - intros H; destruct H.
  - destruct (keyFingerprint text) as [key|]; [apply G | intros H; destruct H].
Qed.

(** Every candidate entity owns an alias row of the mention's type. *)
Lemma exactSet_alias w mn x :
  In x (exactSet w mn) ->
  exists r, In r (entityAlias (db w))
            /\ EntityAlias.canonicalEntityId r = x
            /\ EntityAlias.entityType r = entityType mn
            /\ EntityAlias.aliasNormalized r = mentionNormalized mn.
Proof.
  unfold exactSet, candidatesOf. rewrite exactCanonicals_rows, distinct_In.
  intros H. apply rows_ids_In in H as (r & A & B).
  apply aliasesWhere_In in A as (A1 & A2 & A3). eauto.
Qed.

Lemma fingerprintSet_alias w mn x :
  In x (fingerprintSet w mn) ->
  exists r, In r (entityAlias (db w))
            /\ EntityAlias.canonicalEntityId r = x
            /\ EntityAlias.entityType r = entityType mn.
Proof.
  unfold fingerprintSet, candidatesOf. rewrite keyCanonicals_rows, distinct_In.
  intros H. apply rows_ids_In in H as (r & A & B).
  apply keyRowsIn_In in A as (A1 & A2 & A3). eauto.
Qed.

Lemma chosen_alias w mn chosen :
  isAmbiguous (exactSet w mn) (fingerprintSet w mn) = false ->
  chosenCanonicalId (exactSet w mn) (fingerprintSet w mn) = Some chosen ->
  exists r, In r (entityAlias (db w))
            /\ EntityAlias.canonicalEntityId r = chosen
            /\ EntityAlias.entityType r = entityType mn.
Proof.
  intros A C. destruct (decision_chosen _ _ _ A C) as [E|[E K]].
  - destruct (exactSet_alias w mn chosen) as (r & R1 & R2 & R3 & _);
      [rewrite E; left; reflexivity | eauto].
  - apply fingerprintSet_alias. rewrite K. left. reflexivity.
Qed.

Lemma referentialIntegrity_alias d r :
  referentialIntegrity d = true -> In r (entityAlias d) ->
  ownedBy (canonicalEntity d) (EntityAlias.canonicalEntityId r)
          (EntityAlias.entityType r) = true.
Proof.
  unfold referentialIntegrity. rewrite forallb_forall. intros H A. apply H, A.
Qed.

(** The entity a merge chooses exists and has the mention's type. *)
Lemma chosen_owned w mn chosen :
  wellFormed w ->
  isAmbiguous (exactSet w mn) (fingerprintSet w mn) = false ->
  chosenCanonicalId (exactSet w mn) (fingerprintSet w mn) = Some chosen ->
  ownedBy (canonicalEntity (db w)) chosen (entityType mn) = true
  /\ exists row, canonicalById chosen (db w) = Some row
                 /\ CanonicalEntity.id row = chosen
                 /\ CanonicalEntity.entityType row = entityType mn.
Proof.
  intros (RI & _ & _) A C.
  destruct (chosen_alias w mn chosen A C) as (r & R1 & R2 & R3).
  pose proof (referentialIntegrity_alias _ _ RI R1) as O.
  rewrite R2, R3 in O. split; [exact O|].
  apply ownedBy_spec in O as [Ex All].
  destruct (exists_find_id _ _ Ex) as [row Hrow].
  exists row. split; [exact Hrow|].
  apply find_some in Hrow as [In1 Id1]. apply Nat.eqb_eq in Id1. auto.
Qed.

Lemma serialsAhead_spec d q :
  serialsAhead d q = true <->
  (forall x, In x (canonicalEntity d) -> CanonicalEntity.id x < nextCanonicalEntity q)
  /\ (forall x, In x (entityAlias d) -> EntityAlias.id x < nextEntityAlias q)
  /\ (forall x, In x (entity d) -> Entity.id x < nextEntity q)
  /\ (forall x, In x (entityMention d) -> EntityMention.id x < nextEntityMention q)
  /\ (forall x, In x (entityCandidateLink d) ->
                EntityCandidateLink.mentionId x < nextEntityMention q).
Proof.
  unfold serialsAhead. rewrite !andb_true_iff, !forallb_forall.
  split.
  - intros ((((A & B) & C) & D) & E).
    repeat split; intros x Hx; apply Nat.ltb_lt; auto.
  - intros (A & B & C & D & E).
    repeat split; intros x Hx; apply Nat.ltb_lt; auto.
Qed.

Lemma ownedBy_extend cs more cid ty :
  ownedBy cs cid ty = true ->
  (forall x, In x more -> CanonicalEntity.id x <> cid) ->
  ownedBy (cs ++ more) cid ty = true.
Proof.
  rewrite !ownedBy_spec. intros [(x & A & B) F] N. split.
  - exists x. split; [apply in_or_app; left; exact A | exact B].
  - intros y Hy E. apply in_app_or in Hy as [Hy|Hy]; [apply F; assumption|].
    exfalso. apply (N y Hy E).
Qed.

Lemma linkRows_In next mid cands r :
  In r (linkRows next mid cands) ->
  EntityCandidateLink.mentionId r = mid
  /\ EntityCandidateLink.status r = PENDING
  /\ exists c, In c cands
               /\ EntityCandidateLink.candidateCanonicalEntityId r = canonicalEntityId c
               /\ EntityCandidateLink.score r = score c
               /\ EntityCandidateLink.reason r = linkReason (reason c).
Proof.
  revert next. induction cands as [|c cands IH]; intros next; simpl; [intros []|].
  intros [<-|H].
  - simpl. repeat split. exists c. auto.
  - destruct (IH _ H) as (A & B & c' & C1 & C2). repeat split; auto.
    exists c'. split; [right; exact C1 | exact C2].
Qed.

Lemma linkRows_length next mid cands :
  List.length (linkRows next mid cands) = List.length cands.
Proof. revert next. induction cands; intros; simpl; auto. Qed.

Lemma legacyRows_In ty ct cn ents next x :
  In x (legacyRows ty ct cn ents next) ->
  Entity.id x = next /\ List.length (legacyRows ty ct cn ents next) = 1.
Proof.
  unfold legacyRows. destruct (find _ ents); [intros []|].
  intros [<-|[]]. auto.
Qed.

(** The world a resolution writes is well formed when the one it
    started from was and the resolved entity exists, with the
    mention's type, among the canonical rows. *)
Lemma written_wellFormed w more fid mn cid ct cn cands count :
  wellFormed w ->
  (forall x, In x more ->
     nextCanonicalEntity (seqs w) <= CanonicalEntity.id x
     < nextCanonicalEntity (seqs w) + List.length more) ->
  ownedBy (canonicalEntity (db w) ++ more) cid (entityType mn) = true ->
  wellFormed (written w more fid mn cid ct cn cands count).
Proof.
  intros (RI & AU & SA) Hmore Own.
  apply serialsAhead_spec in SA as (S1 & S2 & S3 & S4 & S5).
  unfold wellFormed, written. cbn [db seqs]. split; [|split].
  - unfold referentialIntegrity. cbn [canonicalEntity entityAlias].
    rewrite forallb_forall. intros r Hr. apply in_app_or in Hr as [Hr|Hr].
    + pose proof (referentialIntegrity_alias _ _ RI Hr) as O.
      apply ownedBy_extend; [exact O|].
      intros x Hx E. apply ownedBy_spec in O as [(y & Y1 & Y2) _].
      specialize (S1 y Y1). specialize (Hmore x Hx). lia.
    + apply aliasesToAdd_rows in Hr as (-> & -> & _). exact Own.
  - cbn [entityAlias]. apply aliasesToAdd_unique, AU.
  - apply serialsAhead_spec.
    cbn [canonicalEntity entityAlias entity entityMention entityCandidateLink
         nextCanonicalEntity nextEntityAlias nextEntity nextEntityMention].
    repeat split; intros x Hx; apply in_app_or in Hx as [Hx|Hx].
    + specialize (S1 x Hx). lia.
    + specialize (Hmore x Hx). lia.
    + specialize (S2 x Hx). lia.
    + apply aliasesToAdd_rows in Hx. lia.
    + specialize (S3 x Hx). lia.
    + apply legacyRows_In in Hx as [-> ->]. lia.
    + specialize (S4 x Hx). lia.
    + destruct Hx as [<-|[]]. simpl. lia.
    + specialize (S5 x Hx). lia.
    + apply linkRows_In in Hx as [-> _]. lia.
Qed.

Lemma backed_spec d r :
  backed d r = true <->
  exists e c, In e (entity d) /\ In c (canonicalEntity d)
              /\ Entity.id e = EntityMention.entityId r
              /\ CanonicalEntity.id c = EntityMention.canonicalEntityId r
              /\ Entity.normalizedText e = CanonicalEntity.canonicalNormalized c
              /\ Entity.entityType e = CanonicalEntity.entityType c.
Proof.
  unfold backed. rewrite existsb_exists. split.
  - intros (e & A & B). apply andb_true_iff in B as [B1 B2].
    apply existsb_exists in B2 as (c & C & D).
    apply andb_true_iff in D as [D D3]. apply andb_true_iff in D as [D1 D2].
    exists e, c. apply Nat.eqb_eq in B1, D1. apply String.eqb_eq in D2.
    apply EntityType_eqb_eq in D3. auto 10.
  - intros (e & c & A & B & C & D & E & F). exists e. split; [exact A|].
    rewrite C, Nat.eqb_refl. simpl. apply existsb_exists. exists c.
    split; [exact B|]. rewrite D, E, F, Nat.eqb_refl, String.eqb_refl,
      EntityType_eqb_refl. reflexivity.
Qed.

Lemma legacy_row ty ct cn ents next :
  exists e, In e (ents ++ legacyRows ty ct cn ents next)
            /\ Entity.id e = legacyId ty cn ents next
            /\ Entity.normalizedText e = cn
            /\ Entity.entityType e = ty.
Proof.
  unfold legacyRows, legacyId. destruct (find _ ents) as [e|] eqn:F.
  - apply find_some in F as [A B]. apply andb_true_iff in B as [B1 B2].
    apply EntityType_eqb_eq in B1. apply String.eqb_eq in B2.
    exists e. rewrite List.app_nil_r. auto.
  - eexists. split; [apply in_or_app; right; left; reflexivity|].
    simpl. auto.
Qed.

(** The mention row a resolution writes is backed, and the older rows
    stay so. *)
Lemma written_backed w more fid mn cid ct cn cands count :
  mentionsBacked (db w) = true ->
  (exists row, In row (canonicalEntity (db w) ++ more)
               /\ CanonicalEntity.id row = cid
               /\ CanonicalEntity.canonicalNormalized row = cn
               /\ CanonicalEntity.entityType row = entityType mn) ->
  mentionsBacked (db (written w more fid mn cid ct cn cands count)) = true.
Proof.
  intros MB (row & R1 & R2 & R3 & R4).
  unfold mentionsBacked in *. rewrite forallb_forall in *.
  unfold written. cbn [db entityMention]. intros r Hr.
  apply backed_spec. cbn [entity canonicalEntity].
  apply in_app_or in Hr as [Hr|[<-|[]]].
  - apply MB, backed_spec in Hr as (e & c & A & B & C).
    exists e, c. split; [apply in_or_app; left; exact A|].
    split; [apply in_or_app; left; exact B | exact C].
  - destruct (legacy_row (entityType mn) ct cn (entity (db w)) (nextEntity (seqs w)))
      as (e & E1 & E2 & E3 & E4).
    exists e, row. simpl. repeat split; auto; congruence.
Qed.

(* ================================================================= *)
(** * The decision policy and its bookkeeping *)

Lemma written_registered w more fid mn cid ct cn cands count :
  wellFormed w ->
  registeredAt mn cid w (written w more fid mn cid ct cn cands count).
Proof.
  intros (_ & AU & _). unfold registeredAt, written. cbn [db entityAlias].
  split; [|split].
  - intros k Hk.
    pose proof (aliasesToAdd_covers (entityType mn) cid (mentionText mn)
                  (aliasKeys mn) (entityAlias (db w))
                  (nextEntityAlias (seqs w)) k Hk) as C.
    destruct (aliasIn cid k _) as [r|] eqn:E; [|congruence].
    apply aliasIn_Some in E as (A & B & D). eauto.
  - eexists. split; [reflexivity|]. intros r Hr.
    apply aliasesToAdd_rows in Hr as (A & _ & _ & B & C & _). auto.
  - apply aliasesToAdd_unique, AU.
Qed.

Lemma fresh_canonical w x :
  wellFormed w -> In x (canonicalEntity (db w)) ->
  CanonicalEntity.id x <> nextCanonicalEntity (seqs w).
Proof.
  intros (_ & _ & SA) Hx. apply serialsAhead_spec in SA as (S1 & _).
  specialize (S1 x Hx). lia.
Qed.

Lemma fresh_owned w ty row :
  wellFormed w ->
  CanonicalEntity.id row = nextCanonicalEntity (seqs w) ->
  CanonicalEntity.entityType row = ty ->
  ownedBy (canonicalEntity (db w) ++ [row]) (nextCanonicalEntity (seqs w)) ty = true.
Proof.
  intros WF Hid Hty. apply ownedBy_spec. split.
  - exists row. split; [apply in_or_app; right; left; reflexivity | exact Hid].
  - intros x Hx E. apply in_app_or in Hx as [Hx|[<-|[]]]; [|exact Hty].
    exfalso. eapply fresh_canonical; eauto.
Qed.

Lemma one_more (row : CanonicalEntity.t) n :
  CanonicalEntity.id row = n ->
  forall x, In x [row] -> n <= CanonicalEntity.id x < n + List.length [row].
Proof. intros <- x [<-|[]]. simpl. lia. Qed.

Lemma none_more n :
  forall x : CanonicalEntity.t, In x [] -> n <= CanonicalEntity.id x < n + @List.length CanonicalEntity.t [].
Proof. intros x []. Qed.

(** A merge on a well-formed store. *)
Lemma resolveMention_merges u fid mn w chosen :
  healthy w -> wellFormed w ->
  isAmbiguous (exactSet w mn) (fingerprintSet w mn) = false ->
  chosenCanonicalId (exactSet w mn) (fingerprintSet w mn) = Some chosen ->
  exists row w',
    canonicalById chosen (db w) = Some row
    /\ CanonicalEntity.id row = chosen
    /\ CanonicalEntity.entityType row = entityType mn
    /\ w' = written w [] fid mn chosen (CanonicalEntity.canonicalText row)
              (CanonicalEntity.canonicalNormalized row) [] bumpMerged
    /\ resolveMention u fid mn w = Ok (Merged chosen) w'
    /\ wellFormed w'.
Proof.
  intros H WF A C.
  destruct (chosen_owned w mn chosen WF A C) as (O & row & R1 & R2 & R3).
  pose proof (resolveMention_cases u fid mn w H) as Cs.
  rewrite A, C, R1, R2 in Cs.
  exists row. eexists.
  split; [exact R1|]. split; [exact R2|]. split; [exact R3|].
  split; [reflexivity|]. split; [exact Cs|].
  apply written_wellFormed; [exact WF | apply none_more |].
  rewrite List.app_nil_r. exact O.
Qed.

(** A new canonical entity on a well-formed store. *)
Lemma resolveMention_creates u fid mn w :
  healthy w -> wellFormed w ->
  isAmbiguous (exactSet w mn) (fingerprintSet w mn) = false ->
  chosenCanonicalId (exactSet w mn) (fingerprintSet w mn) = None ->
  exists w',
    w' = written w [canonicalFor w mn] fid mn (nextCanonicalEntity (seqs w))
           (mentionText mn) (mentionNormalized mn) [] bumpNew
    /\ resolveMention u fid mn w = Ok (CreatedNew (nextCanonicalEntity (seqs w))) w'
    /\ wellFormed w'.
Proof.
  intros H WF A C.
  pose proof (resolveMention_cases u fid mn w H) as Cs. rewrite A, C in Cs.
  eexists. split; [reflexivity|]. split; [exact Cs|].
  apply written_wellFormed; [exact WF | apply one_more; reflexivity |].
  apply fresh_owned; auto.
Qed.

(** An ambiguous mention on a well-formed store whose links cannot
    collide. *)
Lemma resolveMention_flags u fid mn w :
  healthy w -> wellFormed w ->
  isAmbiguous (exactSet w mn) (fingerprintSet w mn) = true ->
  u = false \/ NoDup (map canonicalEntityId (candidatesOf w mn)) ->
  exists w',
    w' = written w [placeholderFor w mn] fid mn (nextCanonicalEntity (seqs w))
           (mentionText mn) (mentionNormalized mn) (candidatesOf w mn) bumpNew
    /\ resolveMention u fid mn w = Ok (Ambiguous (nextCanonicalEntity (seqs w))) w'
    /\ wellFormed w'.
Proof.
  intros H WF A L.
  assert (Hc : linksClear u (nextEntityMention (seqs w)) (candidatesOf w mn)
                 (entityCandidateLink (db w))).
  { destruct L as [->|N]; [left; reflexivity|]. right. split; [exact N|].
    intros l Hl E. destruct WF as (_ & _ & SA).
    apply serialsAhead_spec in SA as (_ & _ & _ & _ & S5).
    specialize (S5 l Hl). lia. }
  eexists. split; [reflexivity|]. split.
  - apply resolveMention_ambiguous_clear; assumption.
  - apply written_wellFormed; [exact WF | apply one_more; reflexivity |].
    apply fresh_owned; auto.
Qed.

(** C1.  Let the exact set and the fingerprint set be the distinct
    canonical entities of the matcher's candidates with reason
    [exact_alias] and [key_fingerprint].  On a well-formed store and a
    healthy connection, resolution merges into the member of the exact
    set when it has one member; else into the member of the
    fingerprint set when the exact set is empty and the fingerprint set
    has one member; it is ambiguous (a placeholder is created, and
    only the unique constraint on candidate links can make it throw)
    when the exact set has more than one member or is empty with more
    than one fingerprint candidate; and when both are empty it creates
    a new canonical entity with the mention text as canonical text.
    In every branch that is not ambiguous the normalized text and the
    fingerprints of the mention are registered as aliases of that
    entity, each only if it was not one already. *)
Theorem resolution_decision_policy (u : bool) (fid : nat) (mn : MentionRow)
    (w : World) :
  healthy w -> wellFormed w ->
  let E := exactSet w mn in
  let K := fingerprintSet w mn in
  findAliasCandidates (mentionText mn) (mentionNormalized mn) (entityType mn) w
  = Ok (candidatesOf w mn) w
  /\ (forall c, E = [c] \/ (E = [] /\ K = [c]) ->
        exists w',
          resolveMention u fid mn w = Ok (Merged c) w'
          /\ (exists row, In row (canonicalEntity (db w))
                          /\ CanonicalEntity.id row = c)
          /\ canonicalEntity (db w') = canonicalEntity (db w)
          /\ registeredAt mn c w w')
  /\ (1 < List.length E \/ (E = [] /\ 1 < List.length K) ->
        match resolveMention u fid mn w with
        | Ok r w' =>
            r = Ambiguous (nextCanonicalEntity (seqs w))
            /\ canonicalEntity (db w')
               = canonicalEntity (db w) ++ [placeholderFor w mn]
        | Threw err w' => err = UniqueConstraintViolation
        end)
  /\ (E = [] /\ K = [] ->
        exists w',
          resolveMention u fid mn w
          = Ok (CreatedNew (nextCanonicalEntity (seqs w))) w'
          /\ canonicalEntity (db w')
             = canonicalEntity (db w) ++ [canonicalFor w mn]
          /\ (forall row, In row (canonicalEntity (db w)) ->
                CanonicalEntity.id row <> nextCanonicalEntity (seqs w))
          /\ registeredAt mn (nextCanonicalEntity (seqs w)) w w').
Proof.
  intros H WF E K. subst E K. split; [|split; [|split]].
  - apply findAliasCandidates_returns, H.
  - intros c Hc.
    assert (D : isAmbiguous (exactSet w mn) (fingerprintSet w mn) = false
                /\ chosenCanonicalId (exactSet w mn) (fingerprintSet w mn) = Some c).
    { destruct Hc as [Hc|[Hc1 Hc2]];
        [apply decision_exact_one | apply decision_key_one]; assumption. }
    destruct D as [A C].
    destruct (resolveMention_merges u fid mn w c H WF A C)
      as (row & w' & R1 & R2 & R3 & -> & Run & _).
    eexists. split; [exact Run|]. split; [|split].
    + apply canonicalById_Some in R1 as [R1 _]. eauto.
    + unfold written. cbn [db canonicalEntity]. apply List.app_nil_r.
    + apply written_registered, WF.
  - intros Hamb. apply decision_ambiguous in Hamb.
    pose proof (resolveMention_cases u fid mn w H) as Cs. rewrite Hamb in Cs.
    destruct (resolveMention u fid mn w) as [r w'|err w'].
    + destruct Cs as [-> ->]. split; reflexivity.
    + apply Cs.
  - intros [HE HK]. destruct (decision_none _ _ HE HK) as [A C].
    destruct (resolveMention_creates u fid mn w H WF A C) as (w' & -> & Run & _).
    eexists. split; [exact Run|]. split; [reflexivity|]. split.
    + intros row Hrow. apply fresh_canonical; assumption.
    + apply written_registered, WF.
Qed.

Lemma resolution_decision_policy_witness :
  let w := Fixtures.world Fixtures.oneSmith Fixtures.oneSmithSeqs in
  let mn := Fixtures.mention "Mr. John Smith" PERSON in
  healthy w /\ wellFormed w /\ exactSet w mn = [1]
  /\ exists w', resolveMention true 7 mn w = Ok (Merged 1) w'
                /\ registeredAt mn 1 w w'.
Proof.
  intros w mn.
  assert (H : healthy w) by reflexivity.
  assert (WF : wellFormed w) by (repeat split; reflexivity).
  assert (E : exactSet w mn = [1]) by (vm_compute; reflexivity).
  destruct (resolution_decision_policy true 7 mn w H WF) as (_ & M & _).
  destruct (M 1 (or_introl E)) as (w' & R & _ & _ & G).
  split; [exact H|]. split; [exact WF|]. split; [exact E|].
  exists w'. split; [exact R | exact G].
Defined.

Lemma candidates_have_older_ids w mn :
  wellFormed w ->
  ~ In (nextCanonicalEntity (seqs w)) (map canonicalEntityId (candidatesOf w mn)).
Proof.
  intros WF H. pose proof WF as (RI & _ & _).
  unfold candidatesOf in H. rewrite candidatesIn_rows, map_app in H.
  rewrite !map_candidate_ids in H.
  assert (G : forall rows,
             (forall r, In r rows -> In r (entityAlias (db w))) ->
             ~ In (nextCanonicalEntity (seqs w))
                  (map EntityAlias.canonicalEntityId (firstRows [] rows))).
  { intros rows Sub X. apply in_map_iff in X as (r & X1 & X2).
    apply firstRows_incl, Sub in X2.
    pose proof (referentialIntegrity_alias _ _ RI X2) as O.
    apply ownedBy_spec in O as [(y & Y1 & Y2) _].
    apply (fresh_canonical w y WF Y1). congruence. }
  apply in_app_or in H as [H|H]; revert H; apply G.
  - intros r Hr. apply aliasesWhere_In in Hr. tauto.
  - intros r Hr. apply keyRowsIn_In in Hr. tauto.
Qed.

Lemma linkRows_candidates next mid cands :
  map EntityCandidateLink.candidateCanonicalEntityId (linkRows next mid cands)
  = map canonicalEntityId cands.
Proof. revert next. induction cands; intros; simpl; f_equal; auto. Qed.

Lemma linkRows_pairs next mid cands :
  map (fun l => (EntityCandidateLink.candidateCanonicalEntityId l,
                 EntityCandidateLink.score l)) (linkRows next mid cands)
  = map (fun c => (canonicalEntityId c, score c)) cands.
Proof. revert next. induction cands; intros; simpl; f_equal; auto. Qed.

Lemma no_alias_of_fresh w k :
  wellFormed w ->
  aliasIn (nextCanonicalEntity (seqs w)) k (entityAlias (db w)) = None.
Proof.
  intros WF. pose proof WF as (RI & _ & _).
  destruct (aliasIn _ k _) as [r|] eqn:E; [|reflexivity].
  apply aliasIn_Some in E as (A & B & _).
  pose proof (referentialIntegrity_alias _ _ RI A) as O.
  apply ownedBy_spec in O as [(y & Y1 & Y2) _].
  exfalso. apply (fresh_canonical w y WF Y1). congruence.
Qed.

(** The bookkeeping of an ambiguity that no candidate link disturbs.
    When resolution is ambiguous and no candidate link can collide (no
    canonical entity is a candidate for both reasons, or the store
    has no unique index on links), the
    engine creates a placeholder canonical entity with meta
    [{unresolved: true, reason: 'ambiguous_alias_match'}], registers
    the mention's own text as its alias, writes the mention row with
    the placeholder (which is none of the candidates) as its canonical
    entity, and creates one PENDING link row per entry of the
    candidate list; that number is the number of distinct candidate
    entities when no entity is a candidate twice. *)
Theorem ambiguity_bookkeeping (u : bool) (fid : nat) (mn : MentionRow)
    (w : World) :
  healthy w -> wellFormed w ->
  isAmbiguous (exactSet w mn) (fingerprintSet w mn) = true ->
  u = false \/ NoDup (map canonicalEntityId (candidatesOf w mn)) ->
  let p := nextCanonicalEntity (seqs w) in
  let cands := candidatesOf w mn in
  exists w' row links,
    resolveMention u fid mn w = Ok (Ambiguous p) w'
    /\ canonicalEntity (db w')
       = canonicalEntity (db w)
         ++ [CanonicalEntity.mk p (entityType mn) (mentionText mn)
               (mentionNormalized mn) (MetaUnresolved "ambiguous_alias_match")]
    /\ ~ In p (map canonicalEntityId cands)
    /\ (exists a, In a (entityAlias (db w'))
                  /\ EntityAlias.canonicalEntityId a = p
                  /\ EntityAlias.aliasNormalized a = mentionNormalized mn
                  /\ EntityAlias.aliasText a = mentionText mn
                  /\ EntityMention.aliasId row = EntityAlias.id a)
    /\ entityMention (db w') = entityMention (db w) ++ [row]
    /\ EntityMention.canonicalEntityId row = p
    /\ EntityMention.fileId row = fid
    /\ EntityMention.mentionText row = mentionText mn
    /\ entityCandidateLink (db w') = entityCandidateLink (db w) ++ links
    /\ (forall l, In l links ->
          EntityCandidateLink.status l = PENDING
          /\ EntityCandidateLink.mentionId l = EntityMention.id row)
    /\ map (fun l => (EntityCandidateLink.candidateCanonicalEntityId l,
                      EntityCandidateLink.score l)) links
       = map (fun c => (canonicalEntityId c, score c)) cands
    /\ List.length links
       = List.length (exactSet w mn) + List.length (fingerprintSet w mn)
    /\ (NoDup (map canonicalEntityId cands) ->
        List.length links
        = List.length (distinct (map canonicalEntityId cands))).
Proof.
  intros H WF A L p cands. subst p cands.
  destruct (resolveMention_flags u fid mn w H WF A L) as (w' & -> & Run & _).
  pose proof (no_alias_of_fresh w (mentionNormalized mn) WF) as Fresh.
  exists (written w [placeholderFor w mn] fid mn (nextCanonicalEntity (seqs w))
            (mentionText mn) (mentionNormalized mn) (candidatesOf w mn) bumpNew).
  exists (mentionRowFor fid mn (nextCanonicalEntity (seqs w)) (mentionNormalized mn)
            (entityAlias (db w)) (entity (db w)) (nextEntityAlias (seqs w))
            (nextEntity (seqs w)) (nextEntityMention (seqs w))).
  exists (linkRows (nextEntityCandidateLink (seqs w)) (nextEntityMention (seqs w))
            (candidatesOf w mn)).
  split; [exact Run|].
  unfold written. cbn [db canonicalEntity entityAlias entityMention
                       entityCandidateLink].
  split; [reflexivity|].
  split; [apply candidates_have_older_ids, WF|].
  split.
  { unfold aliasKeys. cbn [aliasesToAdd]. rewrite Fresh.
    eexists. split; [apply in_or_app; right; left; reflexivity|].
    cbn [EntityAlias.canonicalEntityId EntityAlias.aliasNormalized
         EntityAlias.aliasText EntityAlias.id mentionRowFor EntityMention.aliasId].
    unfold primaryAliasId. rewrite Fresh. auto. }
  split; [reflexivity|]. split; [reflexivity|]. split; [reflexivity|].
  split; [reflexivity|]. split; [reflexivity|].
  split.
  { intros l Hl. apply linkRows_In in Hl as (X & Y & _). auto. }
  split.
  { apply linkRows_pairs. }
  split.
  { rewrite linkRows_length. unfold exactSet, fingerprintSet, candidatesOf.
    rewrite exactCanonicals_rows, keyCanonicals_rows, candidatesIn_rows.
    rewrite length_app, !length_map.
    rewrite <- (length_map EntityAlias.canonicalEntityId (firstRows [] _)).
    rewrite <- (length_map EntityAlias.canonicalEntityId
                  (firstRows [] (keyRowsIn _ _ _ _))).
    rewrite !firstRows_ids. reflexivity. }
  intros N. rewrite linkRows_length, (distinct_fixed _ N), length_map. reflexivity.
Qed.

Lemma ambiguity_bookkeeping_witness :
  let w := Fixtures.world Fixtures.smithAndSmith Fixtures.twoSmithsSeqs in
  let mn := Fixtures.mention "Carol Smith" PERSON in
  fingerprintSet w mn = [1; 2]
  /\ exists w', resolveMention true 7 mn w = Ok (Ambiguous 3) w'
                /\ List.length (entityCandidateLink (db w')) = 2.
Proof.
  intros w mn.
  assert (H : healthy w) by reflexivity.
  assert (WF : wellFormed w) by (repeat split; reflexivity).
  assert (A : isAmbiguous (exactSet w mn) (fingerprintSet w mn) = true)
    by (vm_compute; reflexivity).
  assert (N : NoDup (map canonicalEntityId (candidatesOf w mn))).
  { vm_compute. repeat constructor; simpl; intuition discriminate. }
  destruct (ambiguity_bookkeeping true 7 mn w H WF A (or_intror N))
    as (w' & row & links & R & _ & _ & _ & _ & _ & _ & _ & L & _ & _ & C & _).
  split; [vm_compute; reflexivity|].
  exists w'. split; [exact R|]. rewrite L, length_app, C. vm_compute. reflexivity.
Defined.

(** C4.  The engine does not do what C4 says when an entity is a
    candidate for both reasons, by exact alias and by key
    fingerprint.  The candidate list names such an entity twice and
    the link loop writes one row per entry of the list, not one per
    distinct candidate entity; under the schema's unique index on a
    link's mention and candidate entity the second row for the entity
    is rejected.  The resolution then throws, after it created the
    placeholder, instead of leaving one PENDING link per distinct
    candidate. *)
Theorem ambiguous_candidate_twice_throws (fid : nat) (mn : MentionRow)
    (w : World) (twice : nat) :
  healthy w ->
  isAmbiguous (exactSet w mn) (fingerprintSet w mn) = true ->
  In twice (exactSet w mn) -> In twice (fingerprintSet w mn) ->
  ~ NoDup (map canonicalEntityId (candidatesOf w mn))
  /\ exists w',
       resolveMention true fid mn w = Threw UniqueConstraintViolation w'
       /\ canonicalEntity (db w')
          = canonicalEntity (db w) ++ [placeholderFor w mn].
Proof.
  intros H A E K. split.
  - apply (candidate_for_both_reasons w mn twice E K).
  - apply (resolveMention_collides fid mn w twice H A E K).
Qed.

(** Two persons called John Smith are each a candidate twice for the
    mention "John Smith": two distinct candidate entities, four
    entries in the candidate list, and the third link is rejected.
    From a backfilled store, where each has only its name as alias,
    the first mention "John Smith" is flagged and gets a placeholder
    with the name and its last token as aliases; at the second
    mention the placeholder is a candidate twice, and the resolution
    throws. *)
Lemma ambiguous_candidate_twice_throws_witness :
  let w := Fixtures.world Fixtures.twoSmiths Fixtures.twoSmithsSeqs in
  let b := Fixtures.world Fixtures.backfilledSmiths Fixtures.backfilledSeqs in
  let mn := Fixtures.mention "John Smith" PERSON in
  distinct (map canonicalEntityId (candidatesOf w mn)) = [1; 2]
  /\ map canonicalEntityId (candidatesOf w mn) = [1; 2; 1; 2]
  /\ (exists w',
        resolveMention true 7 mn w = Threw UniqueConstraintViolation w'
        /\ map EntityCandidateLink.candidateCanonicalEntityId
               (entityCandidateLink (db w')) = [1; 2])
  /\ exists w1 w2,
       resolveMention true 7 mn b = Ok (Ambiguous 3) w1
       /\ map canonicalEntityId (candidatesOf w1 mn) = [1; 2; 3; 3]
       /\ resolveMention true 8 mn w1 = Threw UniqueConstraintViolation w2.
Proof.
  intros w b mn.
  destruct (ambiguous_candidate_twice_throws 7 mn w 1)
    as (_ & w' & T & _);
    [reflexivity | vm_compute; reflexivity
     | vm_compute; auto | vm_compute; auto |].
  split; [vm_compute; reflexivity|]. split; [vm_compute; reflexivity|].
  split.
  - exists w'. split; [exact T|].
    assert (E : finalWorld (resolveMention true 7 mn w) = w')
      by (rewrite T; reflexivity).
    rewrite <- E. vm_compute. reflexivity.
  - pose (w1 := finalWorld (resolveMention true 7 mn b)).
    destruct (ambiguous_candidate_twice_throws 8 mn w1 3)
      as (_ & w2 & T2 & _);
      [reflexivity | vm_compute; reflexivity
       | vm_compute; auto | vm_compute; auto |].
    exists w1, w2. split; [vm_compute; reflexivity|].
    split; [vm_compute; reflexivity | exact T2].
Defined.

(* ================================================================= *)
(** * Resolving a mention twice *)

Lemma distinct_nil_inv xs : distinct xs = [] -> xs = [].
Proof. destruct xs; [reflexivity | discriminate]. Qed.

Lemma firstn_S_nil_inv {A} n (xs : list A) : firstn (S n) xs = [] -> xs = [].
Proof. destruct xs; [reflexivity | discriminate]. Qed.

Lemma NoDup_const (t : nat) xs :
  NoDup xs -> xs <> [] -> (forall x, In x xs -> x = t) -> xs = [t].
Proof.
  intros N Hne All. destruct xs as [|a xs]; [congruence|].
  rewrite (All a (or_introl eq_refl)). f_equal.
  destruct xs as [|b xs]; [reflexivity|]. exfalso.
  inversion N as [|? ? Ha _]; subst. apply Ha.
  rewrite (All a (or_introl eq_refl)), (All b (or_intror (or_introl eq_refl))).
  left. reflexivity.
Qed.

Lemma distinct_const t xs :
  xs <> [] -> (forall x, In x xs -> x = t) -> distinct xs = [t].
Proof.
  intros Hne All. apply NoDup_const.
  - apply distinct_NoDup.
  - destruct xs; [congruence | discriminate].
  - intros x Hx. apply All, distinct_In, Hx.
Qed.

Lemma exactSet_rows w mn :
  exactSet w mn
  = distinct (map EntityAlias.canonicalEntityId
                  (aliasesWhere (entityType mn) (mentionNormalized mn) (db w))).
Proof. apply exactCanonicals_rows. Qed.

Lemma exactSet_empty w mn :
  exactSet w mn = [] ->
  filter (fun a => EntityType_eqb (EntityAlias.entityType a) (entityType mn)
                   && String.eqb (EntityAlias.aliasNormalized a)
                                 (mentionNormalized mn))
         (entityAlias (db w)) = [].
Proof.
  rewrite exactSet_rows. intros H. apply distinct_nil_inv in H.
  apply map_eq_nil in H. unfold aliasesWhere in H.
  apply firstn_S_nil_inv in H. exact H.
Qed.

Lemma written_aliases w more fid mn cid ct cn cands count :
  entityAlias (db (written w more fid mn cid ct cn cands count))
  = entityAlias (db w)
    ++ aliasesToAdd (entityType mn) cid (mentionText mn) (aliasKeys mn)
         (entityAlias (db w)) (nextEntityAlias (seqs w)).
Proof. reflexivity. Qed.

Lemma written_canonicals w more fid mn cid ct cn cands count :
  canonicalEntity (db (written w more fid mn cid ct cn cands count))
  = canonicalEntity (db w) ++ more.
Proof. reflexivity. Qed.











(* ================================================================= *)
(** * Deduplication of a document's mentions *)

Lemma normalChar_noBar c :
  isNormalChar c = true -> negb (Ascii.eqb c "|"%char) = true.
Proof. each_char c. Qed.

Lemma normalForm_noBar s : isNormalForm s = true -> noBar s = true.
Proof.
  unfold isNormalForm. rewrite !andb_true_iff. intros [[[H _] _] _].
  unfold noBar. induction s as [|c r IH]; [reflexivity|].
  simpl in *. apply andb_true_iff in H as [Hc Hr].
  rewrite (normalChar_noBar c Hc), (IH Hr). reflexivity.
Qed.

Lemma ofEntityType_inj a b :
  Template.ofEntityType a = Template.ofEntityType b -> a = b.
Proof. destruct a, b; simpl; intros H; try reflexivity; discriminate. Qed.

Lemma dedupeKey_fields a b :
  fromDocument a -> fromDocument b ->
  (dedupeKey a = dedupeKey b <-> sameKeyFields a b).
Proof.
  intros [Na Pa] [Nb Pb]. unfold dedupeKey, sameKeyFields, sameSpan. split.
  - intros H.
    apply bar_split in H as [T H]; try apply ofEntityType_noBar.
    apply bar_split in H as [N H];
      try (rewrite ?Na, ?Nb; apply normalForm_noBar, normalizeMention_normalForm).
    apply bar_split in H as [P L]; try apply ofZ_noBar.
    apply ofEntityType_inj in T. apply ofZ_inj in P.
    repeat split; auto.
    destruct (mentionPosition a) as [p|] eqn:A, (mentionPosition b) as [q|] eqn:B.
    + congruence.
    + specialize (Pa p eq_refl). lia.
    + specialize (Pb q eq_refl). lia.
    + reflexivity.
  - intros [(T & N & P) L]. rewrite T, N, P, L. reflexivity.
Qed.

Lemma setHas_In key seen : setHas key seen = true <-> In key seen.
Proof. unfold setHas. apply existsb_eqb_In. Qed.

Lemma uniqFrom_spec ms : forall seen,
  (forall m, In m (uniqFrom seen ms) -> In m ms /\ ~ In (dedupeKey m) seen)
  /\ NoDup (map dedupeKey (uniqFrom seen ms))
  /\ (forall m, In m ms ->
        In (dedupeKey m) seen
        \/ exists m', In m' (uniqFrom seen ms) /\ dedupeKey m' = dedupeKey m).
Proof.
  induction ms as [|x ms IH]; intros seen.
  - simpl. split; [intros m []|]. split; [constructor | intros m []].
  - cbn [uniqFrom]. destruct (setHas (dedupeKey x) seen) eqn:S.
    + destruct (IH seen) as (A & B & C). split; [|split].
      * intros m H. split; [right; apply A, H | apply A, H].
      * exact B.
      * intros m [<-|Hm]; [left; apply setHas_In, S | apply C, Hm].
    + assert (NS : ~ In (dedupeKey x) seen).
      { intros H. apply setHas_In in H. congruence. }
      destruct (IH (seen ++ [dedupeKey x])) as (A & B & C). split; [|split].
      * intros m [<-|H].
        -- split; [left; reflexivity | exact NS].
        -- split; [right; apply A, H|].
           intros Hs. apply (proj2 (A m H)). apply in_or_app. left. exact Hs.
      * simpl. constructor; [|exact B].
        intros H. apply in_map_iff in H as (m & E & Hm).
        apply (proj2 (A m Hm)). apply in_or_app. right. left. auto.
      * intros m [<-|Hm].
        -- right. exists x. split; [left; reflexivity | reflexivity].
        -- destruct (C m Hm) as [Hs|(m' & H1 & H2)].
           ++ apply in_app_or in Hs as [Hs|[Hs|[]]]; [left; exact Hs|].
              right. exists x. split; [left; reflexivity | exact Hs].
           ++ right. exists m'. split; [right; exact H1 | exact H2].
Qed.

Lemma NoDup_map_nth {A B} (f : A -> B) xs i j a b :
  NoDup (map f xs) ->
  nth_error xs i = Some a -> nth_error xs j = Some b -> f a = f b -> i = j.
Proof.
  intros N Hi Hj E.
  apply (proj1 (NoDup_nth_error (map f xs)) N).
  - apply nth_error_Some. rewrite nth_error_map, Hi. discriminate.
  - rewrite !nth_error_map, Hi, Hj. simpl. congruence.
Qed.

Lemma pushMentions_fromDocument fullText c es :
  Forall fromDocument (pushMentions fullText c es).
Proof.
  apply Forall_forall. intros m H.
  apply pushMentions_In in H as (e & _ & H).
  apply mentionOf_kept in H as (_ & _ & N & _ & P). split; assumption.
Qed.

(** C6, as the code has it.  The mentions of a document are
    deduplicated by entity type, normalized text, position and
    lowercased mention text: of the mentions the document loop built,
    the ones kept are among them, every mention agrees on those four
    fields with one that is kept, and no two that are kept agree on
    all four. *)
Theorem uniqMentions_by_four_fields (mentions : list MentionRow) :
  Forall fromDocument mentions ->
  let uniq := uniqMentions mentions in
  (forall m, In m uniq -> In m mentions)
  /\ (forall m, In m mentions -> exists m', In m' uniq /\ sameKeyFields m' m)
  /\ (forall i j a b,
        nth_error uniq i = Some a -> nth_error uniq j = Some b ->
        sameKeyFields a b -> i = j).
Proof.
  intros F uniq. subst uniq. unfold uniqMentions.
  destruct (uniqFrom_spec mentions []) as (A & B & C).
  rewrite Forall_forall in F.
  split; [|split].
  - intros m Hm. apply A, Hm.
  - intros m Hm. destruct (C m Hm) as [[]|(m' & H1 & H2)].
    exists m'. split; [exact H1|].
    apply dedupeKey_fields; auto. apply F, A, H1.
  - intros i j a b Hi Hj S.
    apply (NoDup_map_nth dedupeKey _ i j a b B Hi Hj).
    apply dedupeKey_fields; auto; apply F, A; eapply nth_error_In; eauto.
Qed.

Lemma uniqMentions_by_four_fields_witness :
  let mentions :=
    pushMentions Fixtures.letter Fixtures.letterChunk
      [Fixtures.titledSmith; Fixtures.plainSmith; Fixtures.titledSmith] in
  Forall fromDocument mentions
  /\ List.length mentions = 3
  /\ List.length (uniqMentions mentions) = 2
  /\ forall m, In m mentions ->
       exists m', In m' (uniqMentions mentions) /\ sameKeyFields m' m.
Proof.
  intros mentions.
  assert (F : Forall fromDocument mentions) by apply pushMentions_fromDocument.
  destruct (uniqMentions_by_four_fields mentions F) as (_ & C & _).
  split; [exact F|]. split; [reflexivity|]. split; [vm_compute; reflexivity|].
  exact C.
Defined.

(** C6, as the specification states it, fails: the extractor reports
    the same span once as "Mr. Smith" and once as "Smith".  The two
    mentions agree on entity type, normalized text and position, and
    both are kept. *)
Lemma uniqMentions_keeps_same_span :
  let mentions :=
    pushMentions Fixtures.letter Fixtures.letterChunk
      [Fixtures.titledSmith; Fixtures.plainSmith] in
  exists a b,
    mentions = [a; b]
    /\ sameSpan a b
    /\ mentionText a <> mentionText b
    /\ uniqMentions mentions = [a; b].
Proof.
  intros mentions. eexists. eexists.
  split; [vm_compute; reflexivity|].
  split; [repeat split|].
  split; [discriminate | vm_compute; reflexivity].
Qed.

(* ================================================================= *)
(** * One resolution keeps the store's invariant *)

Lemma typeOf_owned d cid ty :
  ownedBy (canonicalEntity d) cid ty = true -> typeOf d cid = Some ty.
Proof.
  intros O. apply ownedBy_spec in O as [Ex All].
  destruct (exists_find_id _ _ Ex) as [row Hrow].
  unfold typeOf, canonicalById. rewrite Hrow. simpl. f_equal.
  apply find_some in Hrow as [A B]. apply Nat.eqb_eq in B. apply All; assumption.
Qed.

Lemma typeOf_written w more fid mn cid ct cn cands count t ty :
  typeOf (db w) t = Some ty ->
  typeOf (db (written w more fid mn cid ct cn cands count)) t = Some ty.
Proof.
  unfold typeOf, canonicalById. rewrite written_canonicals.
  destruct (find _ (canonicalEntity (db w))) as [row|] eqn:F; [|discriminate].
  rewrite (find_app_some _ _ _ _ F). auto.
Qed.

(** What a resolution that returned did, on a healthy connection. *)
Lemma resolveMention_returned u fid mn w r w' :
  healthy w -> wellFormed w ->
  resolveMention u fid mn w = Ok r w' ->
  (r = Skipped /\ w' = w)
  \/ exists t more ct cn cands count,
       resolvedTo r = Some t
       /\ w' = written w more fid mn t ct cn cands count
       /\ wellFormed w'
       /\ ownedBy (canonicalEntity (db w) ++ more) t (entityType mn) = true
       /\ exists row, In row (canonicalEntity (db w) ++ more)
                      /\ CanonicalEntity.id row = t
                      /\ CanonicalEntity.canonicalNormalized row = cn
                      /\ CanonicalEntity.entityType row = entityType mn.
Proof.
  intros H WF Run.
  pose proof (resolveMention_cases u fid mn w H) as Cs.
  destruct (isAmbiguous (exactSet w mn) (fingerprintSet w mn)) eqn:A.
  - rewrite Run in Cs. destruct Cs as [-> ->]. right.
    exists (nextCanonicalEntity (seqs w)), [placeholderFor w mn],
      (mentionText mn), (mentionNormalized mn), (candidatesOf w mn), bumpNew.
    split; [reflexivity|]. split; [reflexivity|].
    assert (O : ownedBy (canonicalEntity (db w) ++ [placeholderFor w mn])
                  (nextCanonicalEntity (seqs w)) (entityType mn) = true)
      by (apply fresh_owned; auto).
    split; [apply written_wellFormed; [exact WF | apply one_more; reflexivity | exact O]|].
    split; [exact O|].
    exists (placeholderFor w mn).
    split; [apply in_or_app; right; left; reflexivity | auto].
  - destruct (chosenCanonicalId (exactSet w mn) (fingerprintSet w mn))
      as [chosen|] eqn:C.
    + destruct (resolveMention_merges u fid mn w chosen H WF A C)
        as (row & w1 & R1 & R2 & R3 & -> & Run1 & WF1).
      rewrite Run1 in Run. injection Run as <- <-. right.
      exists chosen, [], (CanonicalEntity.canonicalText row),
        (CanonicalEntity.canonicalNormalized row), [], bumpMerged.
      split; [reflexivity|]. split; [reflexivity|]. split; [exact WF1|].
      rewrite List.app_nil_r.
      split; [apply (chosen_owned w mn chosen WF A C)|].
      exists row. apply canonicalById_Some in R1 as [R1 _]. auto.
    + rewrite Cs in Run. injection Run as <- <-. right.
      exists (nextCanonicalEntity (seqs w)), [canonicalFor w mn],
        (mentionText mn), (mentionNormalized mn), [], bumpNew.
      split; [reflexivity|]. split; [reflexivity|].
      assert (O : ownedBy (canonicalEntity (db w) ++ [canonicalFor w mn])
                    (nextCanonicalEntity (seqs w)) (entityType mn) = true)
        by (apply fresh_owned; auto).
      split; [apply written_wellFormed; [exact WF | apply one_more; reflexivity | exact O]|].
      split; [exact O|].
      exists (canonicalFor w mn).
      split; [apply in_or_app; right; left; reflexivity | auto].
Qed.

Lemma wellFormed_heal w : wellFormed (heal w) <-> wellFormed w.
Proof. reflexivity. Qed.

(** One resolution, whatever the connection: the store stays well
    formed, the entity resolved to has the mention's type, and the
    types recorded before are still recorded. *)
Lemma resolveMention_types u fid mn w r w' :
  wellFormed w ->
  resolveMention u fid mn w = Ok r w' ->
  wellFormed w'
  /\ (forall t, resolvedTo r = Some t -> typeOf (db w') t = Some (entityType mn))
  /\ (forall t ty, typeOf (db w) t = Some ty -> typeOf (db w') t = Some ty).
Proof.
  intros WF Run.
  destruct (regular_Ok _ _ _ _ (regular_resolveMention u fid mn) Run) as [RunH _].
  destruct (resolveMention_returned u fid mn (heal w) r (heal w') eq_refl WF RunH)
    as [[-> E]|(t & more & ct & cn & cands & count & T & E & WF' & O & _)].
  - change (db w') with (db (heal w')). rewrite E.
    split; [apply (proj1 (wellFormed_heal w')); rewrite E; exact WF|].
    split; [discriminate | auto].
  - change (db w') with (db (heal w')).
    split; [apply (proj1 (wellFormed_heal w')), WF'|]. rewrite E. split.
    + intros t' T'. rewrite T in T'. injection T' as <-.
      apply typeOf_owned. rewrite written_canonicals. exact O.
    + intros t' ty X. apply typeOf_written. exact X.
Qed.

Lemma backed_written w more fid mn cid ct cn cands count :
  mentionsBacked (db (written w more fid mn cid ct cn cands count)) = true ->
  exists row,
    entityMention (db (written w more fid mn cid ct cn cands count))
    = entityMention (db w) ++ [row]
    /\ EntityMention.canonicalEntityId row = cid
    /\ EntityMention.fileId row = fid
    /\ backed (db (written w more fid mn cid ct cn cands count)) row = true.
Proof.
  intros MB. eexists. split; [reflexivity|]. split; [reflexivity|].
  split; [reflexivity|].
  unfold mentionsBacked in MB. rewrite forallb_forall in MB. apply MB.
  unfold written. cbn [db entityMention]. apply in_or_app. right. left. reflexivity.
Qed.

(** One resolution, whatever the connection: the invariant stays, and
    the mention row written is backed by a legacy entity row. *)
Lemma resolveMention_backed u fid mn w r w' :
  invariant w ->
  resolveMention u fid mn w = Ok r w' ->
  invariant w'
  /\ (forall t, resolvedTo r = Some t ->
        exists row,
          entityMention (db w') = entityMention (db w) ++ [row]
          /\ EntityMention.canonicalEntityId row = t
          /\ EntityMention.fileId row = fid
          /\ backed (db w') row = true).
Proof.
  intros [WF MB] Run.
  destruct (regular_Ok _ _ _ _ (regular_resolveMention u fid mn) Run) as [RunH _].
  destruct (resolveMention_returned u fid mn (heal w) r (heal w') eq_refl WF RunH)
    as [[-> E]|(t & more & ct & cn & cands & count & T & E & WF' & O & Row)].
  - split; [|discriminate].
    split; [apply (proj1 (wellFormed_heal w')); rewrite E; exact WF|].
    change (db w') with (db (heal w')). rewrite E. exact MB.
  - assert (MB' : mentionsBacked (db (heal w')) = true)
      by (rewrite E; apply written_backed; [exact MB | exact Row]).
    split; [split; [apply (proj1 (wellFormed_heal w')), WF' | exact MB']|].
    intros t' T'. rewrite T in T'. injection T' as <-.
    change (db w') with (db (heal w')). change (db w) with (db (heal w)).
    rewrite E in *. apply backed_written, MB'.
Qed.

(* ================================================================= *)
(** * Type isolation *)

Lemma bind_Ok_inv {A B} (c : Tx A) (k : A -> Tx B) w b w' :
  bind c k w = Ok b w' -> exists a w1, c w = Ok a w1 /\ k a w1 = Ok b w'.
Proof.
  unfold bind. destruct (c w) as [a w1|e w1]; [eauto | discriminate].
Qed.

Lemma bind_Threw_inv {A B} (c : Tx A) (k : A -> Tx B) w e w' :
  bind c k w = Threw e w' ->
  c w = Threw e w' \/ exists a w1, c w = Ok a w1 /\ k a w1 = Threw e w'.
Proof.
  unfold bind. destruct (c w) as [a w1|e1 w1]; intros H.
  - right. exists a, w1. auto.
  - left. injection H as -> ->. reflexivity.
Qed.

Lemma resolveAll_types u jobs : forall w rs w',
  wellFormed w ->
  resolveAll u jobs w = Ok rs w' ->
  wellFormed w'
  /\ (forall t ty, typeOf (db w) t = Some ty -> typeOf (db w') t = Some ty)
  /\ (forall i f m r t,
        nth_error jobs i = Some (f, m) -> nth_error rs i = Some r ->
        resolvedTo r = Some t -> typeOf (db w') t = Some (entityType m)).
Proof.
  induction jobs as [|[f0 m0] jobs IH]; intros w rs w' WF Run.
  - simpl in Run. injection Run as <- <-. split; [exact WF|]. split; [auto|].
    intros [|i] f m r t H; discriminate.
  - cbn [resolveAll] in Run.
    apply bind_Ok_inv in Run as (r0 & w1 & Run0 & Run).
    apply bind_Ok_inv in Run as (rs1 & w2 & Run1 & Run).
    injection Run as <- <-.
    destruct (resolveMention_types u f0 m0 w r0 w1 WF Run0) as (WF1 & T0 & P0).
    destruct (IH w1 rs1 w2 WF1 Run1) as (WF2 & P1 & T1).
    split; [exact WF2|]. split; [auto|].
    intros [|i] f m r t Hj Hr Ht; simpl in Hj, Hr.
    + injection Hj as <- <-. injection Hr as <-. apply P1, T0, Ht.
    + eapply T1; eauto.
Qed.

Lemma candidatesOf_alias w mn c :
  In c (candidatesOf w mn) ->
  exists a, In a (entityAlias (db w))
            /\ EntityAlias.id a = aliasId c
            /\ EntityAlias.canonicalEntityId a = canonicalEntityId c
            /\ EntityAlias.entityType a = entityType mn.
Proof.
  unfold candidatesOf. rewrite candidatesIn_rows. intros H.
  apply in_app_or in H as [H|H]; apply in_map_iff in H as (a & <- & Ha);
    apply firstRows_incl in Ha; exists a.
  - apply aliasesWhere_In in Ha as (A & B & _). auto.
  - apply keyRowsIn_In in Ha as (A & B & _). auto.
Qed.

(** C8.  Mentions of different entity types are never resolved to the
    same canonical entity: on a well-formed store, whatever mentions
    are resolved one after the other, each is resolved to a canonical
    entity recorded with the mention's own type, so two of them whose
    types differ are resolved to different entities, even with the
    same normalized text.  The candidates of a mention all come from
    alias rows of the mention's type, and a canonical entity created
    for a mention records the mention's type. *)
Theorem type_isolation (u : bool) (jobs : list (nat * MentionRow))
    (w : World) (rs : list Resolution) (w' : World) :
  wellFormed w ->
  resolveAll u jobs w = Ok rs w' ->
  (forall i j f1 m1 f2 m2 r1 r2 t1 t2,
     nth_error jobs i = Some (f1, m1) -> nth_error jobs j = Some (f2, m2) ->
     nth_error rs i = Some r1 -> nth_error rs j = Some r2 ->
     resolvedTo r1 = Some t1 -> resolvedTo r2 = Some t2 ->
     entityType m1 <> entityType m2 ->
     t1 <> t2)
  /\ (forall i f m r t,
        nth_error jobs i = Some (f, m) -> nth_error rs i = Some r ->
        resolvedTo r = Some t -> typeOf (db w') t = Some (entityType m))
  /\ (forall w0 mn c,
        In c (candidatesOf w0 mn) ->
        exists a, In a (entityAlias (db w0))
                  /\ EntityAlias.id a = aliasId c
                  /\ EntityAlias.canonicalEntityId a = canonicalEntityId c
                  /\ EntityAlias.entityType a = entityType mn)
  /\ (forall w0 mn,
        CanonicalEntity.entityType (canonicalFor w0 mn) = entityType mn
        /\ CanonicalEntity.entityType (placeholderFor w0 mn) = entityType mn).
Proof.
  intros WF Run.
  destruct (resolveAll_types u jobs w rs w' WF Run) as (_ & _ & T).
  split; [|split; [exact T|split]].
  - intros i j f1 m1 f2 m2 r1 r2 t1 t2 J1 J2 R1 R2 T1 T2 D E. subst t2.
    pose proof (T i f1 m1 r1 t1 J1 R1 T1) as X1.
    pose proof (T j f2 m2 r2 t1 J2 R2 T2) as X2.
    congruence.
  - intros w0 mn c. apply candidatesOf_alias.
  - intros w0 mn. split; reflexivity.
Qed.

Lemma type_isolation_witness :
  exists w',
    resolveAll true [(7, Fixtures.mention "Paris" PERSON);
                     (7, Fixtures.mention "Paris" LOCATION)]
      Fixtures.emptyWorld
    = Ok [CreatedNew 1; CreatedNew 2] w'
    /\ 1 <> 2
    /\ typeOf (db w') 1 = Some PERSON
    /\ typeOf (db w') 2 = Some LOCATION.
Proof.
  assert (WF : wellFormed Fixtures.emptyWorld) by (repeat split; reflexivity).
  eexists. split; [vm_compute; reflexivity|].
  match goal with
  | |- ?n <> ?m /\ typeOf (db ?w') _ = _ /\ _ =>
      destruct (type_isolation true
                  [(7, Fixtures.mention "Paris" PERSON);
                   (7, Fixtures.mention "Paris" LOCATION)]
                  Fixtures.emptyWorld [CreatedNew 1; CreatedNew 2] w' WF)
        as (I & T & _)
  end.
  - vm_compute. reflexivity.
  - split.
    + apply (I 0 1 7 (Fixtures.mention "Paris" PERSON) 7
               (Fixtures.mention "Paris" LOCATION) (CreatedNew 1) (CreatedNew 2));
        try reflexivity. discriminate.
    + split.
      * apply (T 0 7 (Fixtures.mention "Paris" PERSON) (CreatedNew 1)); reflexivity.
      * apply (T 1 7 (Fixtures.mention "Paris" LOCATION) (CreatedNew 2)); reflexivity.
Defined.

(* ================================================================= *)
(** * The per-document transaction *)

Lemma call_Ok_inv {A} (f : Db -> Seqs -> Effect A) w a w' :
  call f w = Ok a w' ->
  f (db w) (seqs w) = inl (a, db w', seqs w') /\ stats w' = stats w.
Proof.
  unfold call. destruct (budget w) as [[|n]|]; try discriminate;
    destruct (f (db w) (seqs w)) as [[[a0 d] q]|e]; try discriminate;
    intros H; injection H as <- <-; auto.
Qed.

Lemma forEach_app {A} (xs ys : list A) (body : A -> Tx unit) w :
  forEach (xs ++ ys) body w
  = bind (forEach xs body) (fun _ => forEach ys body) w.
Proof.
  revert w. induction xs as [|x xs IH]; intros w; [reflexivity|].
  cbn [app forEach]. unfold bind.
  destruct (body x w); [rewrite IH; reflexivity | reflexivity].
Qed.

(** *** Keeping the invariant *)

Lemma invariant_same w w' :
  db w' = db w -> seqs w' = seqs w -> invariant w -> invariant w'.
Proof.
  unfold invariant, wellFormed. intros -> ->. auto.
Qed.

Lemma serialsAhead_seqsLe d q q' :
  seqsLe q q' -> serialsAhead d q = true -> serialsAhead d q' = true.
Proof.
  intros (L1 & L2 & L3 & L4 & L5). rewrite !serialsAhead_spec.
  intros (S1 & S2 & S3 & S4 & S5).
  repeat split; intros x Hx;
    [specialize (S1 x Hx) | specialize (S2 x Hx) | specialize (S3 x Hx)
     | specialize (S4 x Hx) | specialize (S5 x Hx)]; lia.
Qed.

Lemma invariant_rollback w w' :
  db w' = db w -> seqsLe (seqs w) (seqs w') -> invariant w -> invariant w'.
Proof.
  unfold invariant, wellFormed. intros -> L [(RI & AU & SA) MB].
  repeat split; auto. eapply serialsAhead_seqsLe; eauto.
Qed.

Lemma keepsOk_ret {A} (a : A) : keepsOk (ret a).
Proof. intros w a' w' I H. injection H as <- <-. exact I. Qed.

Lemma keepsOk_bind {A B} (c : Tx A) (k : A -> Tx B) :
  keepsOk c -> (forall a, keepsOk (k a)) -> keepsOk (bind c k).
Proof.
  intros Hc Hk w b w' I H. apply bind_Ok_inv in H as (a & w1 & H1 & H2).
  eapply Hk; [|exact H2]. eapply Hc; eauto.
Qed.

Lemma keepsOk_forEach {A} (xs : list A) (body : A -> Tx unit) :
  (forall x, keepsOk (body x)) -> keepsOk (forEach xs body).
Proof.
  intros H. induction xs as [|x xs IH]; simpl.
  - apply keepsOk_ret.
  - apply keepsOk_bind; auto.
Qed.

Lemma keepsOk_resolveMention u fid m : keepsOk (resolveMention u fid m).
Proof.
  intros w r w' I H. apply (resolveMention_backed u fid m w r w' I H).
Qed.

Lemma keepsOk_deleteMany fid : keepsOk (entityMention_deleteMany fid).
Proof.
  intros w a w' [(RI & AU & SA) MB] H.
  apply call_Ok_inv in H as [H _]. injection H as Ha Hd Hq.
  unfold invariant, wellFormed. rewrite <- Hd, <- Hq.
  apply serialsAhead_spec in SA as (S1 & S2 & S3 & S4 & S5).
  split; [split; [exact RI | split; [exact AU|]]|].
  - apply serialsAhead_spec. cbn [canonicalEntity entityAlias entity entityMention
                                  entityCandidateLink].
    repeat split; auto; intros x Hx; apply filter_In in Hx as [Hx _]; auto.
  - unfold mentionsBacked in *. cbn [entityMention]. rewrite forallb_forall in *.
    intros x Hx. apply filter_In in Hx as [Hx _]. apply (MB x Hx).
Qed.

Lemma keepsOk_file_update fid : keepsOk (file_update_extracted fid).
Proof.
  intros w a w' I H. apply call_Ok_inv in H as [H _]. injection H as Ha Hd Hq.
  destruct I as [(RI & AU & SA) MB].
  unfold invariant, wellFormed. rewrite <- Hd, <- Hq.
  split; [split; [exact RI | split; [exact AU | exact SA]] | exact MB].
Qed.

Lemma keepsOk_resolveDocument u reprocess fid uniq :
  keepsOk (resolveDocument u reprocess fid uniq).
Proof.
  unfold resolveDocument. apply keepsOk_bind.
  - destruct reprocess; [apply keepsOk_deleteMany | apply keepsOk_ret].
  - intros _. apply keepsOk_bind; [|intros _; apply keepsOk_file_update].
    apply keepsOk_forEach. intros m. apply keepsOk_bind.
    + apply keepsOk_resolveMention.
    + intros r. apply keepsOk_ret.
Qed.

Lemma keeps_ret {A} (a : A) : keeps (ret a).
Proof. intros w I. exact I. Qed.

Lemma keeps_throw {A} e : keeps (@throw A e).
Proof. intros w I. exact I. Qed.

Lemma keeps_bind {A B} (c : Tx A) (k : A -> Tx B) :
  keeps c -> (forall a, keeps (k a)) -> keeps (bind c k).
Proof.
  intros Hc Hk w I. specialize (Hc w I). unfold bind.
  destruct (c w) as [a w1|e w1]; [apply Hk, Hc | exact Hc].
Qed.

Lemma keeps_updateStats f : keeps (updateStats f).
Proof. intros w I. simpl. eapply invariant_same; [| |exact I]; reflexivity. Qed.

Lemma keeps_connect faults : keeps (connect faults).
Proof. intros w I. simpl. eapply invariant_same; [| |exact I]; reflexivity. Qed.

Lemma keeps_transaction {A} (body : Tx A) :
  keepsOk body -> regular body -> keeps (transaction body).
Proof.
  intros K R w I. unfold transaction.
  destruct (body w) as [a w1|e w1] eqn:E; simpl.
  - eapply K; eauto.
  - eapply invariant_rollback; [| |exact I]; [reflexivity|].
    simpl. apply (regular_Threw body w e w1 R E).
Qed.

Lemma keeps_tryCatch {A} (body : Tx A) (handler : Error -> Tx A) :
  keeps body -> (forall e, keeps (handler e)) -> keeps (tryCatch body handler).
Proof.
  intros Kb Kh w I. specialize (Kb w I). unfold tryCatch.
  destruct (body w) as [a w1|e w1]; [exact Kb | apply Kh, Kb].
Qed.

Lemma keeps_forEach {A} (xs : list A) (body : A -> Tx unit) :
  (forall x, keeps (body x)) -> keeps (forEach xs body).
Proof.
  intros H. induction xs as [|x xs IH]; simpl.
  - apply keeps_ret.
  - apply keeps_bind; auto.
Qed.

Section RunFacts.

Variable uniqueLinks : bool.
Variable reprocess : bool.
Variable chunkText : string -> list Chunk.
Variable extract : string -> option (list ExtractedEntity).
Variable storageFaults : nat -> option nat.

Lemma keeps_collectMentions fullText chunks :
  keeps (collectMentions extract fullText chunks).
Proof.
  induction chunks as [|c chunks IH]; simpl; [apply keeps_ret|].
  apply keeps_bind.
  - unfold callOpenAiExtractEntitiesWithRetry.
    destruct (extract (text c)); [apply keeps_ret | apply keeps_throw].
  - intros es. apply keeps_bind; [apply keeps_updateStats|].
    intros _. apply keeps_bind; [exact IH | intros ms; apply keeps_ret].
Qed.

Lemma keeps_processFile f :
  keeps (processFile uniqueLinks reprocess chunkText extract storageFaults f).
Proof.
  unfold processFile, skipFile.
  destruct (negb reprocess && File.entitiesExtracted f); [apply keeps_updateStats|].
  destruct (JsString.isEmpty _); [apply keeps_updateStats|].
  destruct (String.length _ <? 50); [apply keeps_updateStats|].
  apply keeps_tryCatch; [|intros e; apply keeps_updateStats].
  apply keeps_bind; [apply keeps_collectMentions|]. intros ms.
  apply keeps_bind; [apply keeps_connect|]. intros _.
  apply keeps_bind; [|intros _; apply keeps_updateStats].
  apply keeps_transaction.
  - apply keepsOk_resolveDocument.
  - apply regular_resolveDocument.
Qed.

(** A file never makes the run throw. *)
Lemma processFile_returns f w :
  exists w',
    processFile uniqueLinks reprocess chunkText extract storageFaults f w = Ok tt w'.
Proof.
  unfold processFile, skipFile, tryCatch.
  destruct (negb reprocess && File.entitiesExtracted f); [eexists; reflexivity|].
  destruct (JsString.isEmpty _); [eexists; reflexivity|].
  destruct (String.length _ <? 50); [eexists; reflexivity|].
  match goal with |- context [match ?b w with _ => _ end] => destruct (b w) as [[] w1|e w1] end;
    eexists; reflexivity.
Qed.

(** Nor does a run over any files. *)
Lemma processFiles_total files : forall w,
  exists w',
    processFiles uniqueLinks reprocess chunkText extract storageFaults files w
    = Ok tt w'.
Proof.
  unfold processFiles. induction files as [|f files IH]; intros w.
  - exists w. reflexivity.
  - destruct (processFile_returns f w) as [w1 H1].
    destruct (IH w1) as [w' H']. exists w'. cbn [forEach].
    rewrite (bind_Ok _ _ _ _ _ H1). exact H'.
Qed.

Lemma processFiles_returns files : forall w,
  invariant w ->
  exists w',
    processFiles uniqueLinks reprocess chunkText extract storageFaults files w
    = Ok tt w'
    /\ invariant w'.
Proof.
  unfold processFiles. induction files as [|f files IH]; intros w I.
  - exists w. split; [reflexivity | exact I].
  - destruct (processFile_returns f w) as [w1 H1].
    pose proof (keeps_processFile f w I) as I1. rewrite H1 in I1. simpl in I1.
    destruct (IH w1 I1) as (w' & H' & I').
    exists w'. split; [|exact I']. cbn [forEach]. rewrite (bind_Ok _ _ _ _ _ H1).
    exact H'.
Qed.

End RunFacts.

(** C10.  Every mention row a resolution writes names, in [entityId],
    a legacy entity row found or created under the mention's type and
    the canonical normalized text of the entity it is resolved to, and
    that type is the canonical entity's; so a run over any files, from
    a store where every mention row is backed in this way, always
    returns and leaves every mention row backed by a legacy entity row
    with the normalized text and the type of the mention's canonical
    entity. *)
Theorem mentions_backed_by_legacy_entities (u reprocess : bool)
    (chunkText : string -> list Chunk)
    (extract : string -> option (list ExtractedEntity))
    (storageFaults : nat -> option nat) :
  (forall fid mn w r w' t,
     invariant w ->
     resolveMention u fid mn w = Ok r w' ->
     resolvedTo r = Some t ->
     exists row e c,
       entityMention (db w') = entityMention (db w) ++ [row]
       /\ EntityMention.canonicalEntityId row = t
       /\ In e (entity (db w')) /\ In c (canonicalEntity (db w'))
       /\ Entity.id e = EntityMention.entityId row
       /\ CanonicalEntity.id c = t
       /\ Entity.normalizedText e = CanonicalEntity.canonicalNormalized c
       /\ Entity.entityType e = CanonicalEntity.entityType c
       /\ typeOf (db w') t = Some (entityType mn))
  /\ (forall files w,
        invariant w ->
        exists w',
          processFiles u reprocess chunkText extract storageFaults files w
          = Ok tt w'
          /\ invariant w'
          /\ forall row, In row (entityMention (db w')) ->
               exists e c,
                 In e (entity (db w')) /\ In c (canonicalEntity (db w'))
                 /\ Entity.id e = EntityMention.entityId row
                 /\ CanonicalEntity.id c = EntityMention.canonicalEntityId row
                 /\ Entity.normalizedText e = CanonicalEntity.canonicalNormalized c
                 /\ Entity.entityType e = CanonicalEntity.entityType c).
Proof.
  split.
  - intros fid mn w r w' t I Run T.
    destruct (resolveMention_backed u fid mn w r w' I Run) as (I' & B).
    destruct (B t T) as (row & M & C & _ & Bk).
    apply backed_spec in Bk as (e & c & E1 & E2 & E3 & E4 & E5 & E6).
    exists row, e, c. rewrite C in E4.
    destruct (resolveMention_types u fid mn w r w' (proj1 I) Run) as (_ & Ty & _).
    repeat split; auto.
  - intros files w I.
    destruct (processFiles_returns u reprocess chunkText extract storageFaults
                files w I) as (w' & Run & I').
    exists w'. split; [exact Run|]. split; [exact I'|].
    intros row Hrow. destruct I' as [_ MB].
    unfold mentionsBacked in MB. rewrite forallb_forall in MB.
    apply MB, backed_spec in Hrow as (e & c & H). exists e, c. tauto.
Qed.

Lemma mentions_backed_by_legacy_entities_witness :
  invariant Fixtures.letterWorld
  /\ exists w',
       processFiles true false Fixtures.oneChunk Fixtures.reportsTitledSmith
         Fixtures.neverFails [Fixtures.letterFile] Fixtures.letterWorld
       = Ok tt w'
       /\ invariant w'.
Proof.
  assert (I : invariant Fixtures.letterWorld) by (repeat split; reflexivity).
  destruct (mentions_backed_by_legacy_entities true false Fixtures.oneChunk
              Fixtures.reportsTitledSmith Fixtures.neverFails) as [_ P].
  destruct (P [Fixtures.letterFile] Fixtures.letterWorld I) as (w' & R & I' & _).
  split; [exact I|]. exists w'. split; [exact R | exact I'].
Defined.

(* ================================================================= *)
(** * Failure isolation *)

Lemma tallyFree_ret {A} (a : A) : tallyFree (ret a).
Proof. intros w. split; reflexivity. Qed.

Lemma tallyFree_throw {A} e : tallyFree (@throw A e).
Proof. intros w. split; reflexivity. Qed.

Lemma tallyFree_bind {A B} (c : Tx A) (k : A -> Tx B) :
  tallyFree c -> (forall a, tallyFree (k a)) -> tallyFree (bind c k).
Proof.
  intros Hc Hk w. specialize (Hc w). unfold bind.
  destruct (c w) as [a w1|e w1]; simpl in Hc; [|exact Hc].
  destruct (Hk a w1) as [F P]. destruct Hc as [F1 P1]. split; congruence.
Qed.

Lemma tallyFree_call {A} (f : Db -> Seqs -> Effect A) : tallyFree (call f).
Proof.
  intros [d q st b]. unfold call. simpl.
  destruct b as [[|n]|]; simpl; auto;
    destruct (f d q) as [[[a d'] q']|e]; simpl; auto.
Qed.

Lemma tallyFree_updateStats f :
  (forall s, failed (f s) = failed s /\ processed (f s) = processed s) ->
  tallyFree (updateStats f).
Proof. intros H w. simpl. apply H. Qed.

Lemma tallyFree_forEach {A} (xs : list A) (body : A -> Tx unit) :
  (forall x, tallyFree (body x)) -> tallyFree (forEach xs body).
Proof.
  intros H. induction xs as [|x xs IH]; simpl.
  - apply tallyFree_ret.
  - apply tallyFree_bind; auto.
Qed.

Ltac tally_step :=
  match goal with
  | |- tallyFree (bind _ _) => apply tallyFree_bind; [|intros ?]
  | |- tallyFree (forEach _ _) => apply tallyFree_forEach; intros ?
  | |- tallyFree (ret _) => apply tallyFree_ret
  | |- tallyFree (updateStats _) =>
      apply tallyFree_updateStats; intros ?; split; reflexivity
  | |- tallyFree (match ?x with _ => _ end) => destruct x
  | |- tallyFree (if ?x then _ else _) => destruct x
  | |- tallyFree (let '(_, _) := ?x in _) => destruct x
  | |- tallyFree _ => apply tallyFree_call
  end.

Lemma tallyFree_upsertAlias ty cid t n : tallyFree (upsertAlias ty cid t n).
Proof. unfold upsertAlias. repeat tally_step. Qed.

Lemma tallyFree_getOrCreateLegacyEntityId ty t n :
  tallyFree (getOrCreateLegacyEntityId ty t n).
Proof. unfold getOrCreateLegacyEntityId. repeat tally_step. Qed.

Lemma tallyFree_registerAliases m cid : tallyFree (registerAliases m cid).
Proof.
  unfold registerAliases. repeat tally_step; apply tallyFree_upsertAlias.
Qed.

Lemma tallyFree_findAliasCandidates t n ty : tallyFree (findAliasCandidates t n ty).
Proof. unfold findAliasCandidates. repeat tally_step. Qed.

Lemma tallyFree_resolveMention u fid m : tallyFree (resolveMention u fid m).
Proof.
  unfold resolveMention.
  repeat first [ apply tallyFree_findAliasCandidates
               | apply tallyFree_registerAliases
               | apply tallyFree_getOrCreateLegacyEntityId
               | tally_step ].
Qed.

Lemma tallyFree_Ok {A} (c : Tx A) w a w' :
  tallyFree c -> c w = Ok a w' ->
  failed (stats w') = failed (stats w) /\ processed (stats w') = processed (stats w).
Proof. intros T H. specialize (T w). rewrite H in T. exact T. Qed.

Lemma tallyFree_Threw {A} (c : Tx A) w e w' :
  tallyFree c -> c w = Threw e w' ->
  failed (stats w') = failed (stats w) /\ processed (stats w') = processed (stats w).
Proof. intros T H. specialize (T w). rewrite H in T. exact T. Qed.

Lemma quiet_collectMentions extract fullText chunks :
  quiet (collectMentions extract fullText chunks).
Proof.
  induction chunks as [|c chunks IH]; intros w; simpl; [auto|].
  unfold bind, callOpenAiExtractEntitiesWithRetry.
  destruct (extract (text c)) as [es|]; simpl; [|auto].
  match goal with |- context [collectMentions _ _ _ ?w1] =>
    specialize (IH w1); destruct (collectMentions extract fullText chunks w1)
  end; simpl in *; exact IH.
Qed.

(** A throwing mention makes the document's transaction body throw at
    that mention. *)
Lemma resolveDocument_throws u (reprocess : bool) fid (pre post : list MentionRow) m
    w wa wm e wx :
  (if reprocess then entityMention_deleteMany fid else ret tt) w = Ok tt wa ->
  forEach pre (fun m => _ <- resolveMention u fid m ;; ret tt) wa = Ok tt wm ->
  resolveMention u fid m wm = Threw e wx ->
  resolveDocument u reprocess fid (pre ++ m :: post) w = Threw e wx.
Proof.
  intros P F R. unfold resolveDocument.
  rewrite (bind_Ok _ _ _ _ _ P).
  apply bind_Threw. rewrite forEach_app. rewrite (bind_Ok _ _ _ _ _ F).
  cbn [forEach]. apply bind_Threw. apply bind_Threw. exact R.
Qed.

(** C7.  When resolving a mention of a document throws -- after the
    mentions before it were resolved and written inside the document's
    transaction -- the file's iteration still returns: every table
    (CanonicalEntity, EntityAlias, Entity, EntityMention,
    EntityCandidateLink and File, hence the file's entitiesExtracted
    flag) is what it was before the file, the failed tally is one
    higher, the processed tally is unchanged, and the run goes on with
    the remaining files and returns. *)
Theorem failure_isolation (u reprocess : bool)
    (chunkText : string -> list Chunk)
    (extract : string -> option (list ExtractedEntity))
    (storageFaults : nat -> option nat)
    (f : File.t) (rest : list File.t) (w : World)
    (mentions pre post : list MentionRow) (m : MentionRow)
    (w0 wa wm wx : World) (e : Error) :
  let fullText :=
    JsString.trim (match File.fullText f with
                   | Some t => t
                   | None => EmptyString
                   end) in
  negb reprocess && File.entitiesExtracted f = false ->
  JsString.isEmpty fullText = false ->
  (String.length fullText <? 50) = false ->
  collectMentions extract fullText (chunkText fullText) w = Ok mentions w0 ->
  uniqMentions mentions = pre ++ m :: post ->
  (if reprocess then entityMention_deleteMany (File.id f) else ret tt)
    (connected (storageFaults (File.id f)) w0) = Ok tt wa ->
  forEach pre (fun m => _ <- resolveMention u (File.id f) m ;; ret tt) wa
  = Ok tt wm ->
  resolveMention u (File.id f) m wm = Threw e wx ->
  exists w',
    processFile u reprocess chunkText extract storageFaults f w = Ok tt w'
    /\ db w' = db w
    /\ failed (stats w') = S (failed (stats w))
    /\ processed (stats w') = processed (stats w)
    /\ processFiles u reprocess chunkText extract storageFaults (f :: rest) w
       = processFiles u reprocess chunkText extract storageFaults rest w'
    /\ exists w'',
         processFiles u reprocess chunkText extract storageFaults (f :: rest) w
         = Ok tt w''.
Proof.
  intros fullText Hskip Hempty Hshort Hcollect Huniq Hpre Hfor Hthrow.
  pose proof (resolveDocument_throws u reprocess (File.id f) pre post m
                _ wa wm e wx Hpre Hfor Hthrow) as Hdoc.
  rewrite <- Huniq in Hdoc.
  set (w' := mkWorld (db w0) (seqs wx)
               (mkStats (totalFiles (stats wx)) (processed (stats wx))
                  (skipped (stats wx)) (S (failed (stats wx)))
                  (totalEntities (stats wx)) (totalMentions (stats wx))
                  (mergedMentions (stats wx)) (newEntities (stats wx)))
               (budget wx)).
  assert (Hfile : processFile u reprocess chunkText extract storageFaults f w
                  = Ok tt w').
  { unfold processFile. rewrite Hskip. fold fullText. rewrite Hempty, Hshort.
    unfold tryCatch. rewrite (bind_Ok _ _ _ _ _ Hcollect).
    unfold bind at 1. unfold connect at 1. fold (connected (storageFaults (File.id f)) w0).
    unfold bind at 1. unfold transaction at 1. rewrite Hdoc. reflexivity. }
  destruct (quiet_collectMentions extract fullText (chunkText fullText) w)
    as (Qd & _ & Qf & Qp).
  rewrite Hcollect in Qd, Qf, Qp. simpl in Qd, Qf, Qp.
  assert (Tpre : failed (stats wa) = failed (stats w0)
                 /\ processed (stats wa) = processed (stats w0)).
  { destruct reprocess.
    - apply (tallyFree_Ok _ _ _ _ (tallyFree_call _) Hpre).
    - injection Hpre as <-. split; reflexivity. }
  assert (Tfor : failed (stats wm) = failed (stats wa)
                 /\ processed (stats wm) = processed (stats wa)).
  { refine (tallyFree_Ok _ _ _ _ _ Hfor). apply tallyFree_forEach. intros x.
    apply tallyFree_bind; [apply tallyFree_resolveMention|].
    intros r. apply tallyFree_ret. }
  pose proof (tallyFree_Threw _ _ _ _ (tallyFree_resolveMention u (File.id f) m)
                Hthrow) as Tm.
  assert (Hrun : processFiles u reprocess chunkText extract storageFaults
                   (f :: rest) w
                 = processFiles u reprocess chunkText extract storageFaults
                     rest w').
  { unfold processFiles. cbn [forEach]. rewrite (bind_Ok _ _ _ _ _ Hfile).
    reflexivity. }
  exists w'. split; [exact Hfile|]. split; [exact Qd|].
  split; [simpl; lia|]. split; [simpl; lia|]. split; [exact Hrun|].
  rewrite Hrun. apply processFiles_total.
Qed.

Lemma failure_isolation_witness :
  let w := Fixtures.smithsWorld in
  let alice := nth 0 Fixtures.memoMentions Fixtures.letterMention in
  let john := nth 1 Fixtures.memoMentions Fixtures.letterMention in
  let run := processFiles true false Fixtures.oneChunk Fixtures.reportsPeople
               Fixtures.neverFails in
  exists w0 wm wx w' w'',
    collectMentions Fixtures.reportsPeople (JsString.trim Fixtures.memo)
      (Fixtures.oneChunk (JsString.trim Fixtures.memo)) w
    = Ok [alice; john] w0
    /\ forEach [alice] (fun m => _ <- resolveMention true 6 m ;; ret tt)
         (connected None w0) = Ok tt wm
    /\ List.length (entityMention (db wm)) = 1
    /\ resolveMention true 6 john wm = Threw UniqueConstraintViolation wx
    /\ List.length (canonicalEntity (db wx)) = 4
    /\ List.length (entityMention (db wx)) = 2
    /\ List.length (entityCandidateLink (db wx)) = 2
    /\ processFile true false Fixtures.oneChunk Fixtures.reportsPeople
         Fixtures.neverFails Fixtures.memoFile w = Ok tt w'
    /\ db w' = db w
    /\ failed (stats w') = 1
    /\ processed (stats w') = 0
    /\ run [Fixtures.memoFile; Fixtures.letterFile] w = Ok tt w''
    /\ failed (stats w'') = 1
    /\ processed (stats w'') = 1
    /\ map EntityMention.fileId (entityMention (db w'')) = [7].
Proof.
  intros w alice john run.
  pose (w0 := finalWorld
                (collectMentions Fixtures.reportsPeople
                   (JsString.trim Fixtures.memo)
                   (Fixtures.oneChunk (JsString.trim Fixtures.memo)) w)).
  pose (wc := connected None w0).
  pose (wm := finalWorld
                (forEach [alice]
                   (fun m => _ <- resolveMention true 6 m ;; ret tt) wc)).
  pose (wx := finalWorld (resolveMention true 6 john wm)).
  assert (Collect : collectMentions Fixtures.reportsPeople
                      (JsString.trim Fixtures.memo)
                      (Fixtures.oneChunk (JsString.trim Fixtures.memo)) w
                    = Ok [alice; john] w0) by (vm_compute; reflexivity).
  assert (Before : forEach [alice]
                     (fun m => _ <- resolveMention true 6 m ;; ret tt) wc
                   = Ok tt wm) by (vm_compute; reflexivity).
  assert (Throws : resolveMention true 6 john wm
                   = Threw UniqueConstraintViolation wx)
    by (vm_compute; reflexivity).
  destruct (failure_isolation true false Fixtures.oneChunk
              Fixtures.reportsPeople Fixtures.neverFails
              Fixtures.memoFile [Fixtures.letterFile] w
              [alice; john] [alice] [] john
              w0 wc wm wx UniqueConstraintViolation)
    as (w' & Run & Tables & Failed & Processed & Next & w'' & Rest);
    [reflexivity | reflexivity | reflexivity | exact Collect
     | vm_compute; reflexivity | reflexivity | exact Before | exact Throws |].
  exists w0, wm, wx, w', w''.
  split; [exact Collect|]. split; [exact Before|].
  split; [vm_compute; reflexivity|]. split; [exact Throws|].
  split; [vm_compute; reflexivity|]. split; [vm_compute; reflexivity|].
  split; [vm_compute; reflexivity|]. split; [exact Run|].
  split; [exact Tables|]. split; [exact Failed|]. split; [exact Processed|].
  split; [exact Rest|].
  assert (E : finalWorld (run [Fixtures.memoFile; Fixtures.letterFile] w) = w'')
    by (unfold run; rewrite Rest; reflexivity).
  rewrite <- E. split; [vm_compute; reflexivity|].
  split; vm_compute; reflexivity.
Defined.

(* ================================================================= *)
(** * Lists *)

Import RunSpec.

Lemma filter_none {A} (p : A -> bool) xs :
  (forall x, In x xs -> p x = false) -> filter p xs = [].
Proof.
  induction xs as [|x xs IH]; intros H; [reflexivity|]. simpl.
  rewrite (H x (or_introl eq_refl)). apply IH. intros y Hy. apply H. right. exact Hy.
Qed.

Lemma filter_all {A} (p : A -> bool) xs :
  (forall x, In x xs -> p x = true) -> filter p xs = xs.
Proof.
  induction xs as [|x xs IH]; intros H; [reflexivity|]. simpl.
  rewrite (H x (or_introl eq_refl)). f_equal. apply IH.
  intros y Hy. apply H. right. exact Hy.
Qed.

Lemma filter_twice {A} (p : A -> bool) xs : filter p (filter p xs) = filter p xs.
Proof.
  apply filter_all. intros x Hx. apply filter_In in Hx. tauto.
Qed.


(* ================================================================= *)
(** * Chunks of a text *)

Import Chunking.

Lemma substring_nil n m : substring n m EmptyString = EmptyString.
Proof. destruct n, m; reflexivity. Qed.

Lemma substring_length n : forall m s,
  String.length (substring n m s) = Nat.min m (String.length s - n).
Proof.
  induction n as [|n IH]; intros m s.
  - rewrite Nat.sub_0_r. revert s. induction m as [|m IHm]; intros s.
    + destruct s; reflexivity.
    + destruct s as [|c s]; [reflexivity|]. simpl. rewrite IHm. reflexivity.
  - destruct s as [|c s]; simpl.
    + destruct m; reflexivity.
    + apply IH.
Qed.

Lemma substring_split n : forall a b s,
  substring n (a + b) s = (substring n a s ++ substring (n + a) b s)%string.
Proof.
  induction n as [|n IH]; intros a b s.
  - revert s. induction a as [|a IHa]; intros s.
    + simpl. destruct s; reflexivity.
    + destruct s as [|c s].
      * simpl. destruct b; reflexivity.
      * simpl. rewrite IHa. reflexivity.
  - destruct s as [|c s].
    + rewrite !substring_nil. reflexivity.
    + simpl. apply IH.
Qed.

Lemma substring_none n : forall s, substring n 0 s = EmptyString.
Proof.
  induction n as [|n IH]; intros [|c s]; simpl; auto.
Qed.

Lemma substring_whole s : substring 0 (String.length s) s = s.
Proof. induction s as [|c s IH]; simpl; congruence. Qed.

Lemma substring_drop n : forall m s,
  substring n m s = substring 0 m (JsString.drop n s).
Proof.
  induction n as [|n IH]; intros m s; [reflexivity|].
  destruct s as [|c s]; simpl; [destruct m; reflexivity | apply IH].
Qed.

Lemma drop_length n : forall s,
  String.length (JsString.drop n s) = String.length s - n.
Proof.
  induction n as [|n IH]; intros s; simpl; [lia|].
  destruct s as [|c s]; simpl; [reflexivity | apply IH].
Qed.

Lemma substring_prefix a r : substring 0 (String.length a) (a ++ r) = a.
Proof. induction a as [|c a IH]; simpl; [destruct r; reflexivity | congruence]. Qed.

(** Where a text occurs, there it is. *)
Lemma prefix_drop_occurs t s i :
  t <> EmptyString ->
  prefix t (JsString.drop i s) = true ->
  i + String.length t <= String.length s
  /\ substring i (String.length t) s = t.
Proof.
  intros Hne H. apply prefix_split in H.
  assert (L : String.length (JsString.drop i s)
              = String.length t
                + String.length (JsString.drop (String.length t) (JsString.drop i s)))
    by (rewrite H at 1; apply length_append).
  rewrite drop_length in L.
  split.
  - destruct t as [|c t]; [congruence|]. simpl in *. lia.
  - rewrite substring_drop, H. apply substring_prefix.
Qed.


Lemma lastIndexFrom_spec t s k i :
  lastIndexFrom t s k = Some i ->
  i <= k /\ prefix t (JsString.drop i s) = true.
Proof.
  induction k as [|k IH]; cbn [lastIndexFrom].
  - destruct (prefix t s) eqn:P; [|discriminate].
    intros [= <-]. split; [lia | exact P].
  - destruct (prefix t (JsString.drop (S k) s)) eqn:P.
    + intros [= <-]. split; [lia | exact P].
    + intros H. destruct (IH H). split; [lia | assumption].
Qed.

Lemma lastIndexOf_paragraphBreak s position i :
  lastIndexOf paragraphBreak s position = Some i ->
  i <= position /\ i + 2 <= String.length s
  /\ substring i 2 s = paragraphBreak.
Proof.
  unfold lastIndexOf. intros H. apply lastIndexFrom_spec in H as [L P].
  apply prefix_drop_occurs in P as [B E]; [|discriminate].
  split; [lia|]. split; [exact B | exact E].
Qed.

(** One turn of the loop moves on, by at most [maxChars + 2]
    characters, and stays within the text. *)
Lemma chunkEnd_bounds fullText maxChars start :
  1 <= maxChars -> start < String.length fullText ->
  let stop := chunkEnd fullText maxChars start in
  start < stop /\ stop <= String.length fullText
  /\ stop <= start + maxChars + 2
  /\ (stop < String.length fullText ->
      start + Nat.min 1000 (maxChars / 4) < stop)
  /\ (stop < String.length fullText -> stop < start + maxChars ->
      endsWith paragraphBreak (JsString.slice start stop fullText)).
Proof.
  intros M S. unfold chunkEnd.
  set (len := String.length fullText) in *.
  assert (Q : maxChars / 4 < maxChars)
    by (apply Nat.div_lt; lia).
  destruct (Nat.min (start + maxChars) len <? len) eqn:C.
  - apply Nat.ltb_lt in C.
    destruct (lastIndexOf paragraphBreak fullText (Nat.min (start + maxChars) len))
      as [boundary|] eqn:B.
    + apply lastIndexOf_paragraphBreak in B as (B1 & B2 & B3). fold len in B2.
      destruct (start + Nat.min 1000 (maxChars / 4) <? boundary) eqn:T.
      * apply Nat.ltb_lt in T. cbv zeta.
        split; [lia|]. split; [lia|]. split; [lia|]. split; [lia|].
        intros _ _. exists (substring start (boundary - start) fullText).
        unfold JsString.slice.
        replace (boundary + 2 - start) with ((boundary - start) + 2) by lia.
        rewrite substring_split.
        replace (start + (boundary - start)) with boundary by lia.
        rewrite B3. reflexivity.
      * cbv zeta. repeat split; try lia.
    + cbv zeta. repeat split; try lia.
  - apply Nat.ltb_ge in C. cbv zeta. repeat split; try lia.
Qed.

Lemma concat_empty_cons x xs :
  String.concat EmptyString (x :: xs)
  = (x ++ String.concat EmptyString xs)%string.
Proof.
  destruct xs as [|y ys]; simpl; [rewrite append_empty_r|]; reflexivity.
Qed.

Lemma slice_length start stop s :
  start <= stop -> stop <= String.length s ->
  String.length (JsString.slice start stop s) = stop - start.
Proof.
  intros H1 H2. unfold JsString.slice. rewrite substring_length. lia.
Qed.

Lemma chunkLoop_spec fullText maxChars :
  1 <= maxChars ->
  forall fuel start,
    start <= String.length fullText ->
    String.length fullText - start <= fuel ->
    exists chunks,
      chunkLoop fuel fullText maxChars start = Some chunks
      /\ contiguousFrom start chunks
      /\ String.concat EmptyString (map text chunks)
         = substring start (String.length fullText - start) fullText
      /\ Forall (chunkOf fullText maxChars) chunks
      /\ (start < String.length fullText -> chunks <> []).
Proof.
  intros M. induction fuel as [|fuel IH]; intros start Hs Hf.
  - assert (start = String.length fullText) by lia. subst start.
    exists []. cbn [chunkLoop]. rewrite Nat.ltb_irrefl.
    split; [reflexivity|]. split; [exact I|].
    split; [rewrite Nat.sub_diag, substring_none; reflexivity|].
    split; [constructor | lia].
  - cbn [chunkLoop]. destruct (start <? String.length fullText) eqn:C.
    + apply Nat.ltb_lt in C.
      destruct (chunkEnd_bounds fullText maxChars start M C)
        as (B1 & B2 & B3 & B4 & B5).
      set (stop := chunkEnd fullText maxChars start) in *.
      destruct (IH stop B2 ltac:(lia)) as (rest & R & Cont & Cat & All & _).
      rewrite R. cbn [option_map].
      pose proof (slice_length start stop fullText ltac:(lia) B2) as L.
      eexists. split; [reflexivity|].
      split; [cbn [contiguousFrom offset text]; split; [reflexivity|];
              rewrite L; replace (start + (stop - start)) with stop by lia;
              exact Cont|].
      split.
      { cbn [map text]. rewrite concat_empty_cons, Cat. unfold JsString.slice.
        replace (String.length fullText - start)
          with ((stop - start) + (String.length fullText - stop)) by lia.
        rewrite substring_split.
        replace (start + (stop - start)) with stop by lia. reflexivity. }
      split; [|discriminate].
      constructor; [|exact All].
      unfold chunkOf. cbn [offset text]. rewrite L.
      replace (start + (stop - start)) with stop by lia.
      split; [reflexivity|]. split; [lia|]. split; [exact B2|].
      intros E. split; [specialize (B4 E); lia|].
      intros S. apply B5; [exact E | lia].
    + apply Nat.ltb_ge in C. assert (start = String.length fullText) by lia.
      subst start. exists []. split; [reflexivity|]. split; [exact I|].
      split; [rewrite Nat.sub_diag, substring_none; reflexivity|].
      split; [constructor | lia].
Qed.

(** For a chunk size of at least one character the chunker returns:
    its chunks follow one another from offset 0 without gap or
    overlap, each is the part of the text at its offset, and together
    they are the text. *)
Theorem chunkTextByMaxChars_partitions (fullText : string)
    (maxChars fuel : nat) :
  1 <= maxChars -> String.length fullText <= fuel ->
  exists chunks,
    chunkTextByMaxChars fuel fullText maxChars = Some chunks
    /\ chunks <> []
    /\ contiguousFrom 0 chunks
    /\ String.concat EmptyString (map text chunks) = fullText
    /\ forall c, In c chunks ->
         text c
         = JsString.slice (offset c) (offset c + String.length (text c)) fullText.
Proof.
  intros M F. unfold chunkTextByMaxChars.
  destruct (String.length fullText <=? maxChars) eqn:C.
  - exists [mkChunk 0 fullText]. split; [reflexivity|]. split; [discriminate|].
    split; [cbn; auto|]. split; [reflexivity|].
    intros c [<-|[]]. cbn [offset text]. unfold JsString.slice.
    rewrite Nat.add_0_l, Nat.sub_0_r, substring_whole. reflexivity.
  - apply Nat.leb_gt in C.
    destruct (chunkLoop_spec fullText maxChars M fuel 0 ltac:(lia) ltac:(lia))
      as (chunks & R & Cont & Cat & All & Ne).
    exists chunks. split; [exact R|]. split; [apply Ne; lia|].
    split; [exact Cont|].
    split; [rewrite Cat, Nat.sub_0_r; apply substring_whole|].
    intros c Hc. rewrite Forall_forall in All. apply (All c Hc).
Qed.

Lemma chunkTextByMaxChars_partitions_witness :
  chunkTextByMaxChars 6 (String "a" (String "b" paragraphBreak) ++ "cd") 2
  = Some [mkChunk 0 (String "a" (String "b" paragraphBreak)); mkChunk 4 "cd"]
  /\ exists chunks,
       chunkTextByMaxChars 6 (String "a" (String "b" paragraphBreak) ++ "cd") 2
       = Some chunks
       /\ String.concat EmptyString (map text chunks)
          = (String "a" (String "b" paragraphBreak) ++ "cd")%string.
Proof.
  split; [reflexivity|].
  destruct (chunkTextByMaxChars_partitions
              (String "a" (String "b" paragraphBreak) ++ "cd") 2 6)
    as (chunks & R & _ & _ & Cat & _); [lia | simpl; lia |].
  exists chunks. split; [exact R | exact Cat].
Defined.

(** A chunk is at most two characters longer than the chunk size, and
    is not empty unless the text is; a chunk that ends before the text
    does is longer than the smaller of 1000 and a quarter of the chunk
    size, and ends with a paragraph break when it is shorter than the
    chunk size. *)
Theorem chunkTextByMaxChars_sizes (fullText : string)
    (maxChars fuel : nat) (chunks : list Chunk) (c : Chunk) :
  1 <= maxChars ->
  chunkTextByMaxChars fuel fullText maxChars = Some chunks ->
  In c chunks ->
  String.length (text c) <= maxChars + 2
  /\ (fullText <> EmptyString -> 1 <= String.length (text c))
  /\ offset c + String.length (text c) <= String.length fullText
  /\ (offset c + String.length (text c) < String.length fullText ->
      Nat.min 1000 (maxChars / 4) < String.length (text c)
      /\ (String.length (text c) < maxChars ->
          endsWith paragraphBreak (text c))).
Proof.
  intros M R Hc. unfold chunkTextByMaxChars in R.
  destruct (String.length fullText <=? maxChars) eqn:C.
  - apply Nat.leb_le in C. injection R as <-. destruct Hc as [<-|[]].
    cbn [offset text]. split; [lia|].
    split; [destruct fullText; [congruence | simpl; lia]|].
    split; [lia|]. intros X. lia.
  - assert (G : forall fuel start chunks,
               start <= String.length fullText ->
               chunkLoop fuel fullText maxChars start = Some chunks ->
               Forall (chunkOf fullText maxChars) chunks).
    { clear R Hc C. intros n.
      induction n as [|n IH]; intros start cs Hs R;
        cbn [chunkLoop] in R;
        destruct (start <? String.length fullText) eqn:C;
        try discriminate; try (injection R as <-; constructor).
      apply Nat.ltb_lt in C.
      destruct (chunkEnd_bounds fullText maxChars start M C)
        as (B1 & B2 & B3 & B4 & B5).
      set (stop := chunkEnd fullText maxChars start) in *.
      destruct (chunkLoop n fullText maxChars stop) as [rest|] eqn:E;
        [|discriminate].
      injection R as <-.
      pose proof (slice_length start stop fullText ltac:(lia) B2) as L.
      constructor; [|apply (IH stop rest B2 E)].
      unfold chunkOf. cbn [offset text]. rewrite L.
      replace (start + (stop - start)) with stop by lia.
      split; [reflexivity|]. split; [lia|]. split; [exact B2|].
      intros X. split; [specialize (B4 X); lia|].
      intros S. apply B5; [exact X | lia]. }
    specialize (G fuel 0 chunks ltac:(lia) R). rewrite Forall_forall in G.
    destruct (G c Hc) as (_ & L & B & T).
    split; [lia|]. split; [intros _; lia|]. split; [exact B | exact T].
Qed.

Lemma chunkTextByMaxChars_sizes_witness :
  let fullText := (String "a" (String "b" paragraphBreak) ++ "cd")%string in
  let c := mkChunk 0 (String "a" (String "b" paragraphBreak)) in
  chunkTextByMaxChars 6 fullText 2 = Some [c; mkChunk 4 "cd"]
  /\ String.length (text c) = 4
  /\ String.length (text c) <= 2 + 2.
Proof.
  intros fullText c. split; [reflexivity|]. split; [reflexivity|].
  apply (chunkTextByMaxChars_sizes fullText 2 6 [c; mkChunk 4 "cd"] c);
    [lia | reflexivity | left; reflexivity].
Defined.

Lemma chunkEnd_stuck fullText : chunkEnd fullText 0 0 = 0.
Proof.
  unfold chunkEnd. cbn [Nat.add Nat.min].
  destruct (0 <? String.length fullText); [|reflexivity].
  destruct (lastIndexOf paragraphBreak fullText 0) as [boundary|] eqn:B;
    [|reflexivity].
  apply lastIndexOf_paragraphBreak in B as (B & _).
  assert (boundary = 0) by lia. subst boundary. reflexivity.
Qed.

(** With a chunk size of zero the loop makes no progress on a text
    that is not empty: however many turns it is given, it is still
    running. *)
Theorem chunkTextByMaxChars_zero_never_returns (fullText : string)
    (fuel : nat) :
  fullText <> EmptyString ->
  chunkTextByMaxChars fuel fullText 0 = None.
Proof.
  intros Hne. unfold chunkTextByMaxChars.
  assert (L : 0 < String.length fullText)
    by (destruct fullText; [congruence | simpl; lia]).
  destruct (String.length fullText <=? 0) eqn:C;
    [apply Nat.leb_le in C; lia|].
  induction fuel as [|fuel IH]; cbn [chunkLoop];
    destruct (0 <? String.length fullText) eqn:D;
    try (apply Nat.ltb_ge in D; lia); [reflexivity|].
  rewrite chunkEnd_stuck, IH. reflexivity.
Qed.

Lemma chunkTextByMaxChars_zero_never_returns_witness :
  chunkTextByMaxChars 1000 "a text" 0 = None.
Proof.
  apply chunkTextByMaxChars_zero_never_returns. discriminate.
Defined.

(* ================================================================= *)
(** * Context snippets and mention positions *)

Lemma substring_substring i l : forall n m s,
  i + l <= m ->
  substring i l (substring n m s) = substring (n + i) l s.
Proof.
  intros n. induction n as [|n IH]; intros m s H.
  - revert l m s H. induction i as [|i IHi]; intros l m s H.
    + revert m s H. induction l as [|l IHl]; intros m s H.
      * rewrite !substring_none. reflexivity.
      * destruct m as [|m]; [lia|]. destruct s as [|c s]; [reflexivity|].
        simpl. f_equal. apply IHl. lia.
    + destruct m as [|m]; [lia|]. destruct s as [|c s].
      * rewrite !substring_nil. reflexivity.
      * simpl. apply IHi. lia.
  - destruct s as [|c s].
    + rewrite !substring_nil. reflexivity.
    + simpl. apply IH, H.
Qed.

(** A slice that starts after its end is empty, so cutting the start
    at the length of the string changes nothing. *)
Lemma slice_start_cut a b s :
  b <= String.length s ->
  JsString.slice (Nat.min a (String.length s)) b s = JsString.slice a b s.
Proof.
  intros B. unfold JsString.slice.
  destruct (Nat.le_gt_cases a (String.length s)) as [L|L].
  - rewrite Nat.min_l by exact L. reflexivity.
  - rewrite Nat.min_r by lia.
    replace (b - String.length s) with 0 by lia.
    replace (b - a) with 0 by lia.
    rewrite !substring_none. reflexivity.
Qed.

(** Between two indices that are not negative, [slice] is the part of
    the string between them, cut at its end. *)
Lemma sliceZ_within (a b : Z) s :
  (0 <= a)%Z -> (0 <= b)%Z ->
  JsString.sliceZ a b s
  = JsString.slice (Z.to_nat a) (Nat.min (Z.to_nat b) (String.length s)) s.
Proof.
  intros A B. unfold JsString.sliceZ. cbv zeta.
  assert (Ea : (a <? 0)%Z = false) by (apply Z.ltb_ge; exact A).
  assert (Eb : (b <? 0)%Z = false) by (apply Z.ltb_ge; exact B).
  rewrite Ea, Eb.
  rewrite <- (slice_start_cut (Z.to_nat a)) by lia.
  f_equal; lia.
Qed.

(** A negative end is counted from the end of the string. *)
Lemma sliceZ_from_end (b : Z) s :
  (b < 0)%Z ->
  JsString.sliceZ 0 b s
  = JsString.slice 0 (String.length s - Z.to_nat (- b)) s.
Proof.
  intros B. unfold JsString.sliceZ. cbv zeta.
  assert (Eb : (b <? 0)%Z = true) by (apply Z.ltb_lt; exact B).
  rewrite Eb. cbn [Z.ltb Z.compare]. f_equal; lia.
Qed.

(** For a position that is not negative, the snippet is the part of
    the text from 100 characters before the position to 100
    characters after the entity (counted as one character long when
    it is empty), cut at the ends of the text. *)
Lemma buildContextSnippet_slice fullText position entityLen :
  (0 <= position)%Z ->
  buildContextSnippet fullText position entityLen
  = JsString.slice (Z.to_nat position - 100)
      (Nat.min (String.length fullText)
               (Z.to_nat position + Nat.max entityLen 1 + 100))
      fullText.
Proof.
  intros P. unfold buildContextSnippet. cbv zeta.
  rewrite sliceZ_within by lia. f_equal; lia.
Qed.

(** A slice cut at two points within it. *)
Lemma slice_three a p q b s :
  a <= p -> p <= q -> q <= b ->
  JsString.slice a b s
  = (JsString.slice a p s ++ JsString.slice p q s ++ JsString.slice q b s)%string.
Proof.
  intros H1 H2 H3. unfold JsString.slice.
  replace (b - a) with ((p - a) + ((q - p) + (b - q))) by lia.
  rewrite substring_split. replace (a + (p - a)) with p by lia.
  rewrite substring_split. replace (p + (q - p)) with q by lia.
  reflexivity.
Qed.

(** For a position that is not negative and an entity that lies
    within the text, the context snippet is the entity's span with
    what precedes it, up to 100 characters, and what follows it, up to
    100 characters (101 for an empty entity).  As long as the end it
    computes -- the position, the entity's length (1 for an empty
    entity) and 100 -- is not negative, the snippet is no longer than
    the entity and 200 characters.  For a position so far below zero
    that this end is negative, [slice] counts it from the end of the
    text: the snippet is then the text without its last characters,
    as many as the end lies below zero. *)
Theorem buildContextSnippet_contains_span (fullText : string)
    (position : Z) (entityLen : nat) :
  let snippet := buildContextSnippet fullText position entityLen in
  let reach := (position + Z.max (Z.of_nat entityLen) 1 + 100)%Z in
  let p := Z.to_nat position in
  let stop := Nat.min (String.length fullText)
                      (p + Nat.max entityLen 1 + 100) in
  ((0 <= reach)%Z ->
   String.length snippet <= 200 + Nat.max entityLen 1)
  /\ ((reach < 0)%Z ->
      snippet
      = JsString.slice 0 (String.length fullText - Z.to_nat (- reach)) fullText
      /\ String.length snippet = String.length fullText - Z.to_nat (- reach))
  /\ ((0 <= position)%Z ->
      p + entityLen <= String.length fullText ->
      snippet
      = (JsString.slice (p - 100) p fullText
         ++ JsString.slice p (p + entityLen) fullText
         ++ JsString.slice (p + entityLen) stop fullText)%string
      /\ String.length (JsString.slice (p - 100) p fullText) = Nat.min p 100
      /\ String.length (JsString.slice p (p + entityLen) fullText) = entityLen
      /\ String.length (JsString.slice (p + entityLen) stop fullText)
         <= 100 + (Nat.max entityLen 1 - entityLen)).
Proof.
  intros snippet reach p stop. split; [|split].
  - intros R. unfold snippet, buildContextSnippet. cbv zeta. fold reach.
    rewrite sliceZ_within by lia.
    unfold JsString.slice. rewrite substring_length. lia.
  - intros R. unfold snippet, buildContextSnippet. cbv zeta. fold reach.
    replace (Z.max 0 (position - 100)) with 0%Z by lia.
    replace (Z.min (Z.of_nat (String.length fullText)) reach) with reach by lia.
    rewrite (sliceZ_from_end _ _ R).
    split; [reflexivity|].
    unfold JsString.slice. rewrite substring_length. lia.
  - intros P In. unfold snippet.
    rewrite (buildContextSnippet_slice _ _ _ P). fold p. fold stop.
    assert (S1 : stop <= String.length fullText) by (unfold stop; lia).
    assert (S2 : stop <= p + Nat.max entityLen 1 + 100) by (unfold stop; lia).
    assert (S3 : p + entityLen <= stop) by (unfold stop; lia).
    clearbody stop p.
    split; [apply slice_three; lia|].
    rewrite !slice_length by lia. repeat split; lia.
Qed.

Lemma buildContextSnippet_contains_span_witness :
  buildContextSnippet "Dear Mr. Smith, thank you." 5 9
  = ("Dear " ++ "Mr. Smith" ++ ", thank you.")%string
  /\ buildContextSnippet "Dear Mr. Smith, thank you." (-120) 9
     = "Dear Mr. Smith,".
Proof.
  pose proof (buildContextSnippet_contains_span
                "Dear Mr. Smith, thank you." 5 9) as H.
  pose proof (buildContextSnippet_contains_span
                "Dear Mr. Smith, thank you." (-120) 9) as N.
  cbv zeta in H, N.
  destruct H as (_ & _ & H). destruct N as (_ & N & _).
  split.
  - destruct H as [E _]; [lia | simpl; lia|]. exact E.
  - destruct N as [E _]; [vm_compute; reflexivity|]. rewrite E. reflexivity.
Defined.

(** When the extractor reports no usable position and the mention
    text occurs in the chunk, the mention row gets the position of its
    first occurrence, counted from the start of the document; for a
    chunk that is the part of the document at its offset, the document
    has the mention text at that position and the context snippet
    holds it, after at most 100 characters and before at most 100. *)
Theorem mentionOf_position_by_search (fullText : string) (c : Chunk)
    (e : ExtractedEntity) (m : MentionRow) (i : nat) :
  text c
  = JsString.slice (offset c) (offset c + String.length (text c)) fullText ->
  (forall p, ex_position e = Some p -> (p < 0)%Z) ->
  JsString.indexOf (JsString.trim (ex_text e)) (text c) = Some i ->
  mentionOf fullText c e = Some m ->
  let g := offset c + i in
  mentionPosition m = Some (Z.of_nat g)
  /\ JsString.slice g (g + String.length (mentionText m)) fullText
     = mentionText m
  /\ exists pre post,
       contextSnippet m = (pre ++ mentionText m ++ post)%string
       /\ String.length pre = Nat.min g 100
       /\ String.length post <= 100.
Proof.
  intros Hc Hp Hi Hm g.
  assert (T : mentionText m = JsString.trim (ex_text e))
    by apply (mentionOf_kept _ _ _ _ Hm).
  unfold mentionOf in Hm.
  destruct (JsString.isEmpty (JsString.trim (ex_text e))) eqn:Em;
    [discriminate|].
  destruct (JsString.isEmpty (normalizeMention (JsString.trim (ex_text e))));
    [discriminate|].
  assert (Pos : match ex_position e with
                | Some p => if (0 <=? p)%Z then Some p else None
                | None => None
                end = None).
  { destruct (ex_position e) as [p|]; [|reflexivity].
    specialize (Hp p eq_refl). destruct (0 <=? p)%Z eqn:Q; [|reflexivity].
    apply Z.leb_le in Q. lia. }
  rewrite Pos, Hi in Hm. cbn [option_map] in Hm.
  set (t := JsString.trim (ex_text e)) in *.
  assert (L : 1 <= String.length t) by (destruct t; [discriminate | simpl; lia]).
  pose proof (index_correct1 _ _ _ _ Hi) as Occ.
  assert (In : i + String.length t <= String.length (text c)).
  { pose proof (f_equal String.length Occ) as X.
    rewrite substring_length in X. lia. }
  assert (Len : offset c + String.length (text c) <= String.length fullText).
  { pose proof (f_equal String.length Hc) as X. unfold JsString.slice in X.
    rewrite substring_length in X. lia. }
  assert (Doc : JsString.slice g (g + String.length t) fullText = t).
  { unfold JsString.slice.
    replace (g + String.length t - g) with (String.length t) by lia.
    rewrite <- Occ at 2. rewrite Hc. unfold JsString.slice.
    rewrite substring_substring by lia. reflexivity. }
  injection Hm as <-. cbn [mentionPosition mentionText contextSnippet].
  split; [f_equal; unfold g; lia|]. split; [exact Doc|].
  rewrite buildContextSnippet_slice by lia.
  replace (Z.to_nat (Z.of_nat (offset c) + Z.of_nat i)) with g
    by (unfold g; lia).
  set (stop := Nat.min (String.length fullText)
                       (g + Nat.max (String.length t) 1 + 100)).
  assert (G : g + String.length t <= String.length fullText) by (unfold g; lia).
  assert (S1 : stop <= String.length fullText) by (unfold stop; lia).
  assert (S2 : stop <= g + String.length t + 100) by (unfold stop; lia).
  assert (S3 : g + String.length t <= stop) by (unfold stop; lia).
  clearbody stop.
  rewrite (slice_three (g - 100) g (g + String.length t) stop) by lia.
  rewrite Doc.
  eexists. eexists. split; [reflexivity|].
  rewrite !slice_length by lia. split; lia.
Qed.

Lemma mentionOf_position_by_search_witness :
  exists m,
    mentionOf Fixtures.letter Fixtures.letterChunk
      (mkExtracted "Smith" PERSON None None) = Some m
    /\ mentionPosition m = Some 9%Z
    /\ JsString.slice 9 (9 + 5) Fixtures.letter = "Smith".
Proof.
  destruct (mentionOf Fixtures.letter Fixtures.letterChunk
              (mkExtracted "Smith" PERSON None None)) as [m|] eqn:E;
    [|vm_compute in E; discriminate].
  destruct (mentionOf_position_by_search Fixtures.letter Fixtures.letterChunk
              (mkExtracted "Smith" PERSON None None) m 9)
    as (P & D & _);
    [reflexivity | discriminate | reflexivity | exact E |].
  exists m. split; [reflexivity|]. split; [exact P|].
  assert (T : mentionText m = "Smith")
    by (vm_compute in E; injection E as <-; reflexivity).
  rewrite T in D. exact D.
Defined.

(* ================================================================= *)
(** * Tokens and fingerprints *)

Lemma trimStart_id c r :
  Char.isWhiteSpace c = false -> JsString.trimStart (String c r) = String c r.
Proof. intros H. simpl. rewrite H. reflexivity. Qed.

Lemma trimEnd_token s :
  JsString.forallb isTokenChar s = true -> JsString.trimEnd s = s.
Proof.
  induction s as [|c r IH]; [reflexivity|]. simpl. intros H.
  apply andb_true_iff in H as [Hc Hr]. rewrite (IH Hr).
  assert (W : Char.isWhiteSpace c = false)
    by (revert Hc; unfold isTokenChar; each_char c).
  rewrite W. reflexivity.
Qed.

Lemma trim_token s : JsString.forallb isTokenChar s = true -> JsString.trim s = s.
Proof.
  intros H. unfold JsString.trim.
  destruct s as [|c r]; [reflexivity|].
  assert (W : Char.isWhiteSpace c = false).
  { simpl in H. apply andb_true_iff in H as [Hc _].
    revert Hc. unfold isTokenChar. each_char c. }
  rewrite trimStart_id by exact W. apply trimEnd_token, H.
Qed.

Lemma normalChar_token c :
  isNormalChar c = true -> Ascii.eqb c Char.space = false ->
  isTokenChar c = true.
Proof.
  unfold isNormalChar, isTokenChar. intros H S. rewrite S in H.
  rewrite orb_false_r in H. exact H.
Qed.

(** The pieces between the spaces of a text of letters, digits and
    spaces are made of letters and digits. *)
Lemma splitSpace_tokens s :
  JsString.forallb isNormalChar s = true ->
  Forall (fun p => JsString.forallb isTokenChar p = true) (JsString.splitSpace s).
Proof.
  induction s as [|c r IH]; simpl; intros H.
  - repeat constructor.
  - apply andb_true_iff in H as [Hc Hr]. specialize (IH Hr).
    destruct (Ascii.eqb c Char.space) eqn:S.
    + constructor; [reflexivity | exact IH].
    + destruct (JsString.splitSpace r) as [|p ps].
      * repeat constructor. simpl. rewrite (normalChar_token c Hc S). reflexivity.
      * inversion IH as [|? ? Hp Hps]; subst. constructor; [|exact Hps].
        simpl. rewrite (normalChar_token c Hc S). exact Hp.
Qed.

(** Between single spaces, none of them at an end, no piece is
    empty. *)
Lemma splitSpace_pieces s :
  noDoubleSpace s = true -> endsWithSpace s = false -> s <> EmptyString ->
  Forall (fun p => p <> EmptyString) (tl (JsString.splitSpace s))
  /\ (startsWithSpace s = false ->
      hd EmptyString (JsString.splitSpace s) <> EmptyString).
Proof.
  induction s as [|c r IH]; intros D E Hne; [congruence|].
  cbn [noDoubleSpace] in D. apply andb_true_iff in D as [D1 D2].
  apply negb_true_iff in D1.
  destruct r as [|c' r'].
  - simpl in E. simpl. rewrite E. simpl. split; [constructor|]. intros _. discriminate.
  - assert (E' : endsWithSpace (String c' r') = false) by exact E.
    destruct (IH D2 E' ltac:(discriminate)) as [T H].
    change (JsString.splitSpace (String c (String c' r')))
      with (if Ascii.eqb c Char.space
            then EmptyString :: JsString.splitSpace (String c' r')
            else match JsString.splitSpace (String c' r') with
                 | [] => [String c EmptyString]
                 | p :: ps => String c p :: ps
                 end).
    destruct (Ascii.eqb c Char.space) eqn:S.
    + cbn [andb] in D1.
      split; [|cbn [startsWithSpace]; rewrite S; discriminate].
      cbn [tl]. specialize (H D1).
      destruct (JsString.splitSpace (String c' r')) as [|p ps];
        [constructor|]. constructor; [exact H | exact T].
    + destruct (JsString.splitSpace (String c' r')) as [|p ps].
      * split; [constructor | intros _; discriminate].
      * split; [exact T | intros _; discriminate].
Qed.

Lemma filterNonEmpty_id xs :
  Forall (fun p => p <> EmptyString) xs -> JsString.filterNonEmpty xs = xs.
Proof.
  induction 1 as [|x xs Hx _ IH]; [reflexivity|].
  unfold JsString.filterNonEmpty in *. simpl.
  destruct x; [congruence|]. simpl. rewrite IH. reflexivity.
Qed.

Lemma map_id_Forall {A} (f : A -> A) xs :
  Forall (fun x => f x = x) xs -> List.map f xs = xs.
Proof. induction 1 as [|x xs Hx _ IH]; simpl; congruence. Qed.

(** The tokens of a normalized text that is not empty are the pieces
    between its spaces. *)
Lemma tokens_normalForm s :
  isNormalForm s = true -> s <> EmptyString ->
  JsString.filterNonEmpty (JsString.splitSpace s) = JsString.splitSpace s
  /\ List.map JsString.trim (JsString.splitSpace s) = JsString.splitSpace s
  /\ Forall (fun p => p <> EmptyString /\ JsString.forallb isTokenChar p = true)
            (JsString.splitSpace s).
Proof.
  intros NF Hne. unfold isNormalForm in NF.
  apply andb_true_iff in NF as [NF E]. apply negb_true_iff in E.
  apply andb_true_iff in NF as [NF S]. apply negb_true_iff in S.
  apply andb_true_iff in NF as [C D].
  destruct (splitSpace_pieces s D E Hne) as [T H]. specialize (H S).
  pose proof (splitSpace_tokens s C) as K.
  assert (N : Forall (fun p => p <> EmptyString) (JsString.splitSpace s)).
  { destruct (JsString.splitSpace s) as [|p ps]; [constructor|].
    constructor; [exact H | exact T]. }
  split; [apply filterNonEmpty_id, N|].
  split.
  - apply map_id_Forall. eapply Forall_impl; [|exact K].
    intros p. apply trim_token.
  - rewrite Forall_forall in *. intros p Hp. split; auto.
Qed.

(** The tokens of a text are not empty and made of lowercase letters
    and digits, and joined by single spaces they are the normalized
    text. *)
Theorem tokensOf_join (text : string) :
  String.concat " " (tokensOf text) = normalizeMention text
  /\ (forall t, In t (tokensOf text) ->
        t <> EmptyString /\ JsString.forallb isTokenChar t = true)
  /\ (tokensOf text = [] <-> normalizeMention text = EmptyString).
Proof.
  unfold tokensOf.
  pose proof (normalizeMention_normalForm text) as NF.
  destruct (normalizeMention text) as [|c r] eqn:N.
  - split; [reflexivity|]. split; [intros t []|]. split; reflexivity.
  - destruct (tokens_normalForm _ NF ltac:(discriminate)) as (F & M & A).
    rewrite M, F. split; [apply splitSpace_concat|].
    split; [rewrite Forall_forall in A; exact A|].
    split; [|discriminate].
    intros X. exfalso. eapply splitSpace_nonempty; eauto.
Qed.

(** For a person or an organisation, the fingerprints registered for a
    text are its normalized text and, when there is one, the key the
    matcher looks the text up by; that key is the last token of the
    text, has at least four characters and is never the normalized
    text itself. *)
Theorem fingerprints_hold_lookup_key (ty : EntityType) (text : string) :
  normalizeMention text <> EmptyString ->
  ty <> LOCATION ->
  buildKeyFingerprints ty text
  = normalizeMention text
    :: match keyFingerprint text with Some k => [k] | None => [] end
  /\ forall k, keyFingerprint text = Some k ->
       k <> normalizeMention text
       /\ 4 <= String.length k
       /\ k = last (tokensOf text) EmptyString
       /\ 2 <= List.length (tokensOf text).
Proof.
  intros Hne Hty. unfold buildKeyFingerprints, keyFingerprint, tokensOf.
  pose proof (normalizeMention_normalForm text) as NF.
  set (norm := normalizeMention text) in *. clearbody norm.
  assert (E : JsString.isEmpty norm = false)
    by (destruct norm; [congruence | reflexivity]).
  rewrite E. cbv zeta.
  destruct (tokens_normalForm _ NF Hne) as (F & M & A).
  rewrite M, F. unfold JsString.lastOrEmpty.
  pose proof (splitSpace_concat norm) as J.
  destruct (splitSpace_last norm) as (NS & pre & P & Hpre).
  set (tok := last (JsString.splitSpace norm) EmptyString) in *.
  assert (Two : 2 <= List.length (JsString.splitSpace norm) -> tok <> norm).
  { intros L X. rewrite X in NS. apply noSpace_splitSpace in NS.
    rewrite NS in L. simpl in L. lia. }
  assert (One : List.length (JsString.splitSpace norm) < 2 -> tok = norm).
  { intros L. unfold tok.
    destruct (JsString.splitSpace norm) as [|p [|q ps]] eqn:S;
      [exfalso; eapply splitSpace_nonempty; eauto | | simpl in L; lia].
    simpl in J. simpl. exact J. }
  destruct (List.length (JsString.splitSpace norm) <? 2) eqn:L.
  - apply Nat.ltb_lt in L. rewrite (One L).
    split; [|intros k; discriminate].
    assert (SA : setAdd norm [norm] = [norm])
      by (unfold setAdd; cbn [existsb]; rewrite String.eqb_refl; reflexivity).
    rewrite SA.
    destruct ty; try congruence; destruct (4 <=? String.length norm); reflexivity.
  - apply Nat.ltb_ge in L. specialize (Two L).
    destruct (String.length tok <? 4) eqn:T.
    + apply Nat.ltb_lt in T.
      assert (T' : (4 <=? String.length tok) = false) by (apply Nat.leb_gt; lia).
      rewrite T'. split; [|intros k; discriminate].
      destruct ty; try congruence; reflexivity.
    + apply Nat.ltb_ge in T.
      assert (T' : (4 <=? String.length tok) = true) by (apply Nat.leb_le; lia).
      rewrite T'. split.
      * assert (Q : String.eqb tok norm = false) by (apply String.eqb_neq; exact Two).
        assert (SA : setAdd tok [norm] = [norm; tok])
          by (unfold setAdd; cbn [existsb]; rewrite Q; reflexivity).
        rewrite SA. destruct ty; try congruence; reflexivity.
      * intros k [= <-]. repeat split; auto.
Qed.

Lemma fingerprints_hold_lookup_key_witness :
  buildKeyFingerprints PERSON "Dr. Jeffrey Epstein"
  = ["jeffrey epstein"; "epstein"]
  /\ keyFingerprint "Dr. Jeffrey Epstein" = Some "epstein".
Proof.
  destruct (fingerprints_hold_lookup_key PERSON "Dr. Jeffrey Epstein")
    as [H _]; [vm_compute; discriminate | discriminate |].
  split; [exact H | reflexivity].
Defined.

(* ================================================================= *)
(** * Upserting an alias, getting or creating a legacy entity *)

Lemma upsertAlias_runs ty cid t n w id w1 :
  upsertAlias ty cid t n w = Ok id w1 ->
  match aliasIn cid n (entityAlias (db w)) with
  | Some row =>
      id = EntityAlias.id row /\ db w1 = db w /\ seqs w1 = seqs w
  | None =>
      id = nextEntityAlias (seqs w)
      /\ db w1
         = mkDb (canonicalEntity (db w))
                (entityAlias (db w) ++ [EntityAlias.mk id ty cid t n])
                (entity (db w)) (entityMention (db w))
                (entityCandidateLink (db w)) (file (db w))
      /\ nextEntityAlias (seqs w1) = S (nextEntityAlias (seqs w))
  end.
Proof.
  intros H. apply (regular_Ok _ _ _ _ (regular_upsertAlias ty cid t n)) in H as [H _].
  unfold heal in H. destruct (db w) as [c a e m l f].
  destruct (seqs w) as [nc na ne nm nl]. rewrite upsertAlias_healthy in H.
  cbn [entityAlias canonicalEntity entity entityMention entityCandidateLink file
       nextEntityAlias].
  destruct (aliasIn cid n a) as [row|]; injection H as <- Hd Hq;
    rewrite <- Hd, <- Hq; repeat split; reflexivity.
Qed.

Lemma aliasIn_new cid n rows ty t id :
  aliasIn cid n rows = None ->
  aliasIn cid n (rows ++ [EntityAlias.mk id ty cid t n])
  = Some (EntityAlias.mk id ty cid t n).
Proof.
  intros H. rewrite (aliasIn_app_none _ _ _ _ H). unfold aliasIn. simpl.
  rewrite Nat.eqb_refl, String.eqb_refl. reflexivity.
Qed.

(** [upsertAlias] adds a row only when the canonical entity has no
    alias of that normalized text, and touches no other table; the id
    it returns is the one a lookup by canonical entity and normalized
    text then finds; and a second upsert of the same normalized text
    for the same entity, whatever its alias text or type, returns that
    id again and changes nothing. *)
Theorem upsertAlias_idempotent (ty : EntityType) (cid : nat)
    (t n : string) (w w1 : World) (id : nat) :
  upsertAlias ty cid t n w = Ok id w1 ->
  (exists row, aliasOf cid n (db w1) = Some row /\ EntityAlias.id row = id)
  /\ (db w1 = db w
      \/ (aliasOf cid n (db w) = None
          /\ db w1
             = mkDb (canonicalEntity (db w))
                    (entityAlias (db w) ++ [EntityAlias.mk id ty cid t n])
                    (entity (db w)) (entityMention (db w))
                    (entityCandidateLink (db w)) (file (db w))))
  /\ forall ty' t' id' w2,
       upsertAlias ty' cid t' n w1 = Ok id' w2 ->
       id' = id /\ db w2 = db w1 /\ seqs w2 = seqs w1.
Proof.
  intros H. apply upsertAlias_runs in H. unfold aliasOf.
  destruct (aliasIn cid n (entityAlias (db w))) as [row|] eqn:A.
  - destruct H as (-> & Hd & Hq). rewrite Hd, A.
    split; [eauto|]. split; [auto|].
    intros ty' t' id' w2 H2. apply upsertAlias_runs in H2.
    rewrite Hd, A in H2. destruct H2 as (-> & Hd2 & Hq2).
    repeat split; congruence.
  - destruct H as (-> & Hd & Hq).
    assert (A1 : aliasIn cid n (entityAlias (db w1))
                 = Some (EntityAlias.mk (nextEntityAlias (seqs w)) ty cid t n))
      by (rewrite Hd; cbn [entityAlias]; apply aliasIn_new, A).
    rewrite A1. split; [eauto|]. split; [right; auto|].
    intros ty' t' id' w2 H2. apply upsertAlias_runs in H2.
    rewrite A1 in H2. destruct H2 as (-> & Hd2 & Hq2). auto.
Qed.

Lemma upsertAlias_idempotent_witness :
  let w1 := finalWorld (upsertAlias PERSON 1 "John Smith" "smith"
                          Fixtures.emptyWorld) in
  upsertAlias PERSON 1 "J. Smith" "smith" w1 = Ok 1 w1
  /\ exists row, aliasOf 1 "smith" (db w1) = Some row /\ EntityAlias.id row = 1.
Proof.
  intros w1.
  destruct (upsertAlias_idempotent PERSON 1 "John Smith" "smith"
              Fixtures.emptyWorld w1 1 eq_refl) as (Found & _ & _).
  split; [reflexivity | exact Found].
Defined.

Lemma getOrCreateLegacyEntityId_runs ty ct cn w id w1 :
  getOrCreateLegacyEntityId ty ct cn w = Ok id w1 ->
  match legacyEntityOf ty cn (db w) with
  | Some row => id = Entity.id row /\ db w1 = db w /\ seqs w1 = seqs w
  | None =>
      id = nextEntity (seqs w)
      /\ db w1
         = mkDb (canonicalEntity (db w)) (entityAlias (db w))
                (entity (db w)
                 ++ [Entity.mk id ct ty cn ct [ct] (buildKeyFingerprints ty ct)])
                (entityMention (db w)) (entityCandidateLink (db w))
                (file (db w))
      /\ nextEntity (seqs w1) = S (nextEntity (seqs w))
  end.
Proof.
  intros H.
  apply (regular_Ok _ _ _ _ (regular_getOrCreateLegacyEntityId ty ct cn)) in H
    as [H _].
  unfold heal in H. destruct (db w) as [c a e m l f].
  destruct (seqs w) as [nc na ne nm nl].
  rewrite getOrCreateLegacyEntityId_healthy in H.
  unfold legacyId, legacyRows in H. unfold legacyEntityOf.
  cbn [entityAlias canonicalEntity entity entityMention entityCandidateLink file
       nextEntity].
  destruct (find _ e) as [row|]; injection H as <- Hd Hq;
    rewrite <- Hd, <- Hq; cbn [List.length]; repeat split;
    rewrite ?List.app_nil_r, ?Nat.add_0_r, ?Nat.add_1_r; reflexivity.
Qed.

(** [getOrCreateLegacyEntityId] returns the id of a legacy entity row
    of the given type and normalized text: the first such row when
    there is one, and otherwise a row it adds, touching no other
    table; a second call for the same type and normalized text,
    whatever the canonical text, returns that id again and changes
    nothing. *)
Theorem getOrCreateLegacyEntityId_idempotent (ty : EntityType)
    (ct cn : string) (w w1 : World) (id : nat) :
  getOrCreateLegacyEntityId ty ct cn w = Ok id w1 ->
  (exists row,
     legacyEntityOf ty cn (db w1) = Some row /\ Entity.id row = id
     /\ Entity.entityType row = ty /\ Entity.normalizedText row = cn)
  /\ (db w1 = db w
      \/ (legacyEntityOf ty cn (db w) = None
          /\ db w1
             = mkDb (canonicalEntity (db w)) (entityAlias (db w))
                    (entity (db w)
                     ++ [Entity.mk id ct ty cn ct [ct]
                           (buildKeyFingerprints ty ct)])
                    (entityMention (db w)) (entityCandidateLink (db w))
                    (file (db w))))
  /\ forall ct' id' w2,
       getOrCreateLegacyEntityId ty ct' cn w1 = Ok id' w2 ->
       id' = id /\ db w2 = db w1 /\ seqs w2 = seqs w1.
Proof.
  intros H. apply getOrCreateLegacyEntityId_runs in H.
  assert (Key : forall row, legacyEntityOf ty cn (db w1) = Some row ->
                  Entity.entityType row = ty /\ Entity.normalizedText row = cn).
  { unfold legacyEntityOf. intros row F. apply find_some in F as [_ F].
    apply andb_true_iff in F as [F1 F2].
    apply EntityType_eqb_eq in F1. apply String.eqb_eq in F2. auto. }
  destruct (legacyEntityOf ty cn (db w)) as [row|] eqn:A.
  - destruct H as (-> & Hd & Hq). rewrite Hd in *. rewrite A.
    split; [exists row; destruct (Key row A); auto|]. split; [auto|].
    intros ct' id' w2 H2. apply getOrCreateLegacyEntityId_runs in H2.
    rewrite Hd, A in H2. destruct H2 as (-> & Hd2 & Hq2).
    repeat split; congruence.
  - destruct H as (-> & Hd & Hq).
    assert (A1 : legacyEntityOf ty cn (db w1)
                 = Some (Entity.mk (nextEntity (seqs w)) ct ty cn ct [ct]
                           (buildKeyFingerprints ty ct))).
    { rewrite Hd. unfold legacyEntityOf in *. cbn [entity].
      rewrite find_app_none by exact A. simpl.
      rewrite EntityType_eqb_refl, String.eqb_refl. reflexivity. }
    rewrite A1. split; [eexists; split; [reflexivity|]; auto|].
    split; [right; auto|].
    intros ct' id' w2 H2. apply getOrCreateLegacyEntityId_runs in H2.
    rewrite A1 in H2. destruct H2 as (-> & Hd2 & Hq2). auto.
Qed.

Lemma getOrCreateLegacyEntityId_idempotent_witness :
  let w1 := finalWorld (getOrCreateLegacyEntityId PERSON "John Smith"
                          "john smith" Fixtures.emptyWorld) in
  getOrCreateLegacyEntityId PERSON "JOHN SMITH" "john smith" w1 = Ok 1 w1
  /\ exists row,
       legacyEntityOf PERSON "john smith" (db w1) = Some row
       /\ Entity.id row = 1
       /\ Entity.entityType row = PERSON
       /\ Entity.normalizedText row = "john smith".
Proof.
  intros w1.
  destruct (getOrCreateLegacyEntityId_idempotent PERSON "John Smith"
              "john smith" Fixtures.emptyWorld w1 1 eq_refl) as (Found & _ & _).
  split; [reflexivity | exact Found].
Defined.

(* ================================================================= *)
(** * Retrying the extraction call *)

Lemma pow2_pos k : 1 <= 2 ^ k.
Proof. induction k; simpl; lia. Qed.

Lemma attempts_failing call k : forall remaining attempt lastErr c,
  1 <= attempt ->
  (forall j, j < k -> Retry.fails call (Retry.calls c + j)) ->
  Retry.attempts call (k + remaining) attempt lastErr c
  = Retry.attempts call remaining (attempt + k)
      (match k with
       | 0 => lastErr
       | S k' => Some (Retry.messageOf call (Retry.calls c + k'))
       end)
      (Retry.mkClock (Retry.calls c + k)
         (Retry.sleptMs c + 400 * 2 ^ (attempt - 1) * (2 ^ k - 1))).
Proof.
  induction k as [|k IH]; intros remaining attempt lastErr c A F.
  - destruct c as [n ms]. cbn [Retry.calls Retry.sleptMs Nat.add Nat.pow].
    rewrite !Nat.add_0_r, Nat.sub_diag, Nat.mul_0_r, Nat.add_0_r. reflexivity.
  - cbn [Nat.add Retry.attempts].
    destruct (F 0 ltac:(lia)) as [msg E]. rewrite Nat.add_0_r in E. rewrite E.
    cbv zeta. rewrite IH; [|lia|].
    + cbn [Retry.calls Retry.sleptMs].
      f_equal.
      * lia.
      * destruct k as [|k'].
        -- unfold Retry.messageOf. rewrite Nat.add_0_r, E. reflexivity.
        -- f_equal. f_equal. lia.
      * f_equal; [lia|].
        replace (S attempt - 1) with (S (attempt - 1)) by lia.
        pose proof (pow2_pos k) as P1. pose proof (pow2_pos (attempt - 1)) as P2.
        cbn [Nat.pow]. nia.
    + intros j Hj. cbn [Retry.calls].
      replace (S (Retry.calls c) + j) with (Retry.calls c + S j) by lia.
      apply F. lia.
Qed.

(** The retry loop calls the extractor until a call returns, at most
    [maxAttempts] times, and sleeps 400 ms, 800 ms, 1600 ms, ... after
    each failed call, the last one included.  When the first [k]
    calls fail and the next one returns within the limit, its
    entities are returned after [k + 1] calls and [400 * (2^k - 1)]
    ms of sleep; when all [maxAttempts] calls fail, the error of the
    last call is thrown after [400 * (2^maxAttempts - 1)] ms of sleep
    (an error saying "null", at once, when [maxAttempts] is 0). *)
Theorem retry_until_first_success (call : nat -> Retry.Attempt)
    (maxAttempts k : nat) (c : Retry.Clock) :
  (forall j, j < k -> Retry.fails call (Retry.calls c + j)) ->
  (forall entities,
     k < maxAttempts ->
     call (Retry.calls c + k) = Retry.Returns entities ->
     Retry.callOpenAiExtractEntitiesWithRetry call maxAttempts c
     = (Retry.Returned entities,
        Retry.mkClock (Retry.calls c + k + 1)
                      (Retry.sleptMs c + 400 * (2 ^ k - 1))))
  /\ (k = maxAttempts ->
      Retry.callOpenAiExtractEntitiesWithRetry call maxAttempts c
      = (Retry.Thrown
           (match k with
            | 0 => "null"
            | S k' => Retry.messageOf call (Retry.calls c + k')
            end),
         Retry.mkClock (Retry.calls c + k)
                       (Retry.sleptMs c + 400 * (2 ^ k - 1)))).
Proof.
  intros F. unfold Retry.callOpenAiExtractEntitiesWithRetry. split.
  - intros entities Hk E.
    replace maxAttempts with (k + S (maxAttempts - S k)) by lia.
    rewrite (attempts_failing call k _ 1 None c (le_n _) F).
    cbn [Retry.attempts Retry.calls Retry.sleptMs]. rewrite E.
    f_equal. f_equal; cbn [Nat.sub Nat.pow]; lia.
  - intros <-.
    replace k with (k + 0) at 1 by lia.
    rewrite (attempts_failing call k _ 1 None c (le_n _) F).
    cbn [Retry.attempts].
    replace (400 * 2 ^ (1 - 1) * (2 ^ k - 1)) with (400 * (2 ^ k - 1))
      by (cbn [Nat.sub Nat.pow]; lia).
    destruct k; reflexivity.
Qed.

Lemma retry_until_first_success_witness :
  let call := fun n => if n <? 3 then Retry.Throws "HTTP 429"
                       else Retry.Returns [] in
  Retry.callOpenAiExtractEntitiesWithRetry call 3 (Retry.mkClock 0 0)
  = (Retry.Thrown "HTTP 429", Retry.mkClock 3 2800).
Proof.
  intros call.
  destruct (retry_until_first_success call 3 3 (Retry.mkClock 0 0)) as [_ H].
  - intros j Hj. exists "HTTP 429". unfold call. cbn [Retry.calls Nat.add].
    destruct j as [|[|[|j]]]; try reflexivity. lia.
  - exact (H eq_refl).
Defined.

(* ================================================================= *)
(** * What the matcher reads *)

Lemma firstRows_length rows : forall seenIds,
  List.length (firstRows seenIds rows) <= List.length rows.
Proof.
  induction rows as [|r rows IH]; intros seenIds; simpl; [lia|].
  destruct (existsb _ seenIds); simpl.
  - specialize (IH seenIds). lia.
  - specialize (IH (EntityAlias.canonicalEntityId r :: seenIds)). lia.
Qed.

Lemma aliasesWhere_length ty n d : List.length (aliasesWhere ty n d) <= 20.
Proof. unfold aliasesWhere. apply firstn_le_length. Qed.

Lemma keyRowsIn_length d text norm ty :
  List.length (keyRowsIn d text norm ty) <= 20.
Proof.
  unfold keyRowsIn.
  destruct ty; try (simpl; lia);
    (destruct (keyFingerprint text) as [key|]; [|simpl; lia];
     destruct (negb (String.eqb key norm)); [apply aliasesWhere_length | simpl; lia]).
Qed.

Lemma keyRowsIn_key d text norm ty r :
  In r (keyRowsIn d text norm ty) ->
  ty <> LOCATION
  /\ keyFingerprint text = Some (EntityAlias.aliasNormalized r)
  /\ In r (entityAlias d) /\ EntityAlias.entityType r = ty.
Proof.
  unfold keyRowsIn.
  destruct ty; try (intros []);
    (destruct (keyFingerprint text) as [key|]; [|intros []];
     destruct (negb (String.eqb key norm)); [|intros []];
     intros H; apply aliasesWhere_In in H as (A & B & C);
     split; [discriminate|]; split; [congruence | auto]).
Qed.

(** The matcher only reads: whatever the connection, when it returns
    the tables, serial counters and tallies are as they were.  It
    returns at most 20 candidates per reason, and each is an alias row
    of the mention's entity type: one whose normalized text is the
    mention's, scored 1.0, for an exact match, and one whose
    normalized text is the mention's last-token key, scored 0.6 and
    never for a location, for a fingerprint match. *)
Theorem findAliasCandidates_reads_only (text norm : string)
    (ty : EntityType) (w w' : World) (cands : list AliasCandidate) :
  findAliasCandidates text norm ty w = Ok cands w' ->
  db w' = db w /\ seqs w' = seqs w /\ stats w' = stats w
  /\ List.length (filter (fun c => Reason_eqb (reason c) exact_alias) cands) <= 20
  /\ List.length (filter (fun c => Reason_eqb (reason c) key_fingerprint) cands)
     <= 20
  /\ forall c, In c cands ->
       exists row,
         In row (entityAlias (db w))
         /\ EntityAlias.id row = aliasId c
         /\ EntityAlias.canonicalEntityId row = canonicalEntityId c
         /\ EntityAlias.entityType row = ty
         /\ match reason c with
            | exact_alias =>
                EntityAlias.aliasNormalized row = norm /\ score c = 1.0%Q
            | key_fingerprint =>
                keyFingerprint text = Some (EntityAlias.aliasNormalized row)
                /\ ty <> LOCATION /\ score c = 0.6%Q
            end.
Proof.
  intros Run.
  destruct (regular_Ok _ _ _ _ (regular_findAliasCandidates text norm ty) Run)
    as [RunH _].
  rewrite (findAliasCandidates_returns (heal w) text norm ty eq_refl) in RunH.
  injection RunH as Hc Hd Hq Hs.
  split; [auto|]. split; [auto|]. split; [auto|].
  subst cands. cbn [db heal]. rewrite candidatesIn_rows.
  assert (F1 : forall why sc rows,
            filter (fun c => Reason_eqb (reason c) why)
                   (map (candidateOf why sc) rows)
            = map (candidateOf why sc) rows).
  { intros why sc rows. apply filter_all. intros c Hc.
    apply in_map_iff in Hc as (r & <- & _). destruct why; reflexivity. }
  assert (F0 : forall why why' sc rows,
            Reason_eqb why' why = false ->
            filter (fun c => Reason_eqb (reason c) why)
                   (map (candidateOf why' sc) rows) = []).
  { intros why why' sc rows D. apply filter_none. intros c Hc.
    apply in_map_iff in Hc as (r & <- & _). exact D. }
  rewrite !filter_app, !F1, (F0 exact_alias key_fingerprint),
    (F0 key_fingerprint exact_alias) by reflexivity.
  rewrite List.app_nil_r. cbn [app]. rewrite !length_map.
  split; [etransitivity; [apply firstRows_length | apply aliasesWhere_length]|].
  split; [etransitivity; [apply firstRows_length | apply keyRowsIn_length]|].
  intros c Hc. apply in_app_or in Hc as [Hc|Hc];
    apply in_map_iff in Hc as (row & <- & Hrow);
    apply firstRows_incl in Hrow; exists row; cbn.
  - apply aliasesWhere_In in Hrow as (A & B & C). repeat split; auto.
  - apply keyRowsIn_key in Hrow as (A & B & C & D). repeat split; auto.
Qed.

Lemma findAliasCandidates_reads_only_witness :
  let w := Fixtures.world Fixtures.oneSmith Fixtures.oneSmithSeqs in
  exists cands,
    findAliasCandidates "John Smith" "john smith" PERSON w = Ok cands w
    /\ List.length (filter (fun c => Reason_eqb (reason c) exact_alias) cands)
       <= 20.
Proof.
  intros w. eexists. split; [reflexivity|].
  apply (findAliasCandidates_reads_only "John Smith" "john smith" PERSON w w _
           eq_refl).
Defined.

(* ================================================================= *)
(** * Every file is counted once *)

Lemma untallied_ret {A} (a : A) : untallied (ret a).
Proof. intros w. reflexivity. Qed.

Lemma untallied_throw {A} e : untallied (@throw A e).
Proof. intros w. reflexivity. Qed.

Lemma untallied_bind {A B} (c : Tx A) (k : A -> Tx B) :
  untallied c -> (forall a, untallied (k a)) -> untallied (bind c k).
Proof.
  intros Hc Hk w. specialize (Hc w). unfold bind.
  destruct (c w) as [a w1|e w1]; simpl in Hc; [|exact Hc].
  rewrite (Hk a w1). exact Hc.
Qed.

Lemma untallied_call {A} (f : Db -> Seqs -> Effect A) : untallied (call f).
Proof.
  intros [d q st b]. unfold call. simpl.
  destruct b as [[|n]|]; simpl; auto;
    destruct (f d q) as [[[a d'] q']|e]; simpl; auto.
Qed.

Lemma untallied_updateStats f :
  (forall s, tallies (f s) = tallies s) -> untallied (updateStats f).
Proof. intros H w. simpl. apply H. Qed.

Lemma untallied_forEach {A} (xs : list A) (body : A -> Tx unit) :
  (forall x, untallied (body x)) -> untallied (forEach xs body).
Proof.
  intros H. induction xs as [|x xs IH]; simpl.
  - apply untallied_ret.
  - apply untallied_bind; auto.
Qed.

Lemma untallied_transaction {A} (body : Tx A) :
  untallied body -> untallied (transaction body).
Proof.
  intros H w. specialize (H w). unfold transaction.
  destruct (body w); exact H.
Qed.

Ltac untallied_step :=
  match goal with
  | |- untallied (bind _ _) => apply untallied_bind; [|intros ?]
  | |- untallied (forEach _ _) => apply untallied_forEach; intros ?
  | |- untallied (ret _) => apply untallied_ret
  | |- untallied (throw _) => apply untallied_throw
  | |- untallied (updateStats _) =>
      apply untallied_updateStats; intros ?; reflexivity
  | |- untallied (match ?x with _ => _ end) => destruct x
  | |- untallied (if ?x then _ else _) => destruct x
  | |- untallied (let '(_, _) := ?x in _) => destruct x
  | |- untallied _ => apply untallied_call
  end.

Lemma untallied_upsertAlias ty cid t n : untallied (upsertAlias ty cid t n).
Proof. unfold upsertAlias. repeat untallied_step. Qed.

Lemma untallied_getOrCreateLegacyEntityId ty t n :
  untallied (getOrCreateLegacyEntityId ty t n).
Proof. unfold getOrCreateLegacyEntityId. repeat untallied_step. Qed.

Lemma untallied_registerAliases m cid : untallied (registerAliases m cid).
Proof.
  unfold registerAliases. repeat untallied_step; apply untallied_upsertAlias.
Qed.

Lemma untallied_findAliasCandidates t n ty :
  untallied (findAliasCandidates t n ty).
Proof. unfold findAliasCandidates. repeat untallied_step. Qed.

Lemma untallied_resolveMention u fid m : untallied (resolveMention u fid m).
Proof.
  unfold resolveMention.
  repeat first [ apply untallied_findAliasCandidates
               | apply untallied_registerAliases
               | apply untallied_getOrCreateLegacyEntityId
               | untallied_step ].
Qed.

Lemma untallied_resolveDocument u reprocess fid uniq :
  untallied (resolveDocument u reprocess fid uniq).
Proof.
  unfold resolveDocument.
  repeat first [ apply untallied_resolveMention | untallied_step ].
Qed.

Lemma untallied_collectMentions extract fullText chunks :
  untallied (collectMentions extract fullText chunks).
Proof.
  induction chunks as [|c chunks IH]; cbn [collectMentions].
  - apply untallied_ret.
  - unfold callOpenAiExtractEntitiesWithRetry.
    repeat first [ exact IH | untallied_step ].
Qed.

Section Counting.

Variable uniqueLinks : bool.
Variable reprocess : bool.
Variable chunkText : string -> list Chunk.
Variable extract : string -> option (list ExtractedEntity).
Variable storageFaults : nat -> option nat.

(** A file ends in exactly one of the three tallies. *)
Lemma processFile_counts f w :
  exists w',
    processFile uniqueLinks reprocess chunkText extract storageFaults f w
    = Ok tt w'
    /\ (tallies (stats w')
        = (S (processed (stats w)), skipped (stats w), failed (stats w))
        \/ tallies (stats w')
           = (processed (stats w), S (skipped (stats w)), failed (stats w))
        \/ tallies (stats w')
           = (processed (stats w), skipped (stats w), S (failed (stats w)))).
Proof.
  unfold processFile, skipFile.
  destruct (negb reprocess && File.entitiesExtracted f);
    [eexists; split; [reflexivity | right; left; reflexivity]|].
  destruct (JsString.isEmpty _);
    [eexists; split; [reflexivity | right; left; reflexivity]|].
  destruct (String.length _ <? 50);
    [eexists; split; [reflexivity | right; left; reflexivity]|].
  set (fullText := JsString.trim _).
  unfold tryCatch, bind.
  pose proof (untallied_collectMentions extract fullText (chunkText fullText) w) as T1.
  destruct (collectMentions extract fullText (chunkText fullText) w)
    as [mentions w1|e w1]; cbn [finalWorld] in T1.
  - cbn [connect].
    match goal with |- context [transaction ?b ?wc] =>
      pose proof (untallied_transaction b
                    (untallied_resolveDocument _ _ _ _) wc) as T2;
      destruct (transaction b wc) as [[] w2|e w2]
    end; cbn [finalWorld stats] in T2.
    + eexists. split; [reflexivity|]. left.
      unfold tallies in *. cbn [updateStats stats processed skipped failed].
      injection T1 as P1 S1 F1. injection T2 as P2 S2 F2. congruence.
    + eexists. split; [reflexivity|]. right. right.
      unfold tallies in *. cbn [updateStats stats processed skipped failed].
      injection T1 as P1 S1 F1. injection T2 as P2 S2 F2. congruence.
  - eexists. split; [reflexivity|]. right. right.
    unfold tallies in *. cbn [updateStats stats processed skipped failed].
    injection T1 as P1 S1 F1. congruence.
Qed.

End Counting.

(** With a chunk size of at least one character the loop of the
    chunker ends, within as many turns as the text has characters. *)
Lemma chunkTextByMaxChars_returns maxChars fullText :
  0 < maxChars ->
  chunkTextByMaxChars (String.length fullText) fullText maxChars
  = Some (chunksWithin maxChars fullText).
Proof.
  intros M. unfold chunksWithin.
  destruct (chunkTextByMaxChars (String.length fullText) fullText maxChars)
    as [chunks|] eqn:E; [reflexivity|]. exfalso.
  unfold chunkTextByMaxChars in E.
  destruct (String.length fullText <=? maxChars); [discriminate|].
  destruct (chunkLoop_spec fullText maxChars M (String.length fullText) 0)
    as (chunks & R & _); [lia | lia|]. congruence.
Qed.

(** With a chunk size of at least one character, the chunker returns
    on every text and a run returns, whatever the extractor and the
    store do; every file of the run is counted exactly once: as
    processed, as skipped or as failed. *)
Theorem every_file_counted_once (u reprocess : bool) (maxChars : nat)
    (extract : string -> option (list ExtractedEntity))
    (storageFaults : nat -> option nat)
    (files : list File.t) (w : World) :
  0 < maxChars ->
  (forall fullText,
     chunkTextByMaxChars (String.length fullText) fullText maxChars
     = Some (chunksWithin maxChars fullText))
  /\ exists w',
       processFiles u reprocess (chunksWithin maxChars) extract storageFaults
         files w = Ok tt w'
       /\ processed (stats w) <= processed (stats w')
       /\ skipped (stats w) <= skipped (stats w')
       /\ failed (stats w) <= failed (stats w')
       /\ processed (stats w') + skipped (stats w') + failed (stats w')
          = processed (stats w) + skipped (stats w) + failed (stats w)
            + List.length files.
Proof.
  intros M. split; [intros t; apply chunkTextByMaxChars_returns, M|].
  unfold processFiles. revert w.
  induction files as [|f files IH]; intros w.
  - exists w. split; [reflexivity|]. cbn [List.length]. lia.
  - destruct (processFile_counts u reprocess (chunksWithin maxChars) extract
                storageFaults f w) as (w1 & R1 & T).
    destruct (IH w1) as (w' & R' & P & S & F & Sum).
    exists w'. cbn [forEach]. rewrite (bind_Ok _ _ _ _ _ R1).
    split; [exact R'|]. unfold tallies in T. cbn [List.length].
    destruct T as [T|[T|T]]; injection T as T1 T2 T3; lia.
Qed.

(** The letter, cut into chunks of at most 40 characters, and the memo,
    which the store rejects: one file processed, one failed. *)
Lemma every_file_counted_once_witness :
  List.length (chunksWithin 40 (JsString.trim Fixtures.letter)) = 2
  /\ exists w',
       processFiles true false (chunksWithin 40) Fixtures.reportsPeople
         Fixtures.neverFails [Fixtures.memoFile; Fixtures.letterFile]
         Fixtures.smithsWorld = Ok tt w'
       /\ processed (stats w') + skipped (stats w') + failed (stats w') = 2.
Proof.
  destruct (every_file_counted_once true false 40 Fixtures.reportsPeople
              Fixtures.neverFails [Fixtures.memoFile; Fixtures.letterFile]
              Fixtures.smithsWorld)
    as (_ & w' & R & _ & _ & _ & Sum); [lia|].
  split; [vm_compute; reflexivity|].
  exists w'. split; [exact R | exact Sum].
Defined.

(* ================================================================= *)
(** * Stores the engine has built *)

Lemma keyFingerprint_keyOf text :
  keyFingerprint text = keyOf (normalizeMention text).
Proof.
  unfold keyFingerprint, keyOf.
  destruct (normalizeMention text); reflexivity.
Qed.

Lemma splitSpace_noSpace s :
  Forall (fun p => noSpace p = true) (JsString.splitSpace s).
Proof.
  induction s as [|c r IH]; simpl; [repeat constructor|].
  destruct (Ascii.eqb c Char.space) eqn:S.
  - constructor; [reflexivity | exact IH].
  - destruct (JsString.splitSpace r) as [|p ps].
    + repeat constructor. simpl. rewrite S. reflexivity.
    + inversion IH as [|? ? Hp Hps]; subst. constructor; [|exact Hps].
      simpl. rewrite S. exact Hp.
Qed.

Lemma last_In {A} (xs : list A) d : xs <> [] -> In (last xs d) xs.
Proof.
  induction xs as [|x xs IH]; intros H; [congruence|].
  destruct xs as [|y ys]; [left; reflexivity|].
  right. apply IH. discriminate.
Qed.

Lemma keyOf_Some n k :
  keyOf n = Some k -> noSpace k = true /\ 4 <= String.length k.
Proof.
  unfold keyOf, JsString.lastOrEmpty.
  set (parts := JsString.filterNonEmpty (JsString.splitSpace n)).
  destruct (List.length parts <? 2) eqn:L; [discriminate|].
  destruct (String.length (last parts EmptyString) <? 4) eqn:T; [discriminate|].
  intros [= <-]. apply Nat.ltb_ge in L, T. split; [|exact T].
  assert (In (last parts EmptyString) parts)
    by (apply last_In; destruct parts; [simpl in L; lia | discriminate]).
  unfold parts, JsString.filterNonEmpty in H. apply filter_In in H as [H _].
  pose proof (splitSpace_noSpace n) as F. rewrite Forall_forall in F.
  apply F, H.
Qed.

Lemma keyOf_token k : noSpace k = true -> keyOf k = None.
Proof.
  intros N. unfold keyOf. rewrite (noSpace_splitSpace k N).
  unfold JsString.filterNonEmpty. simpl.
  destruct (negb (JsString.isEmpty k)); reflexivity.
Qed.

Lemma In_setAdd x y set : In x (setAdd y set) <-> x = y \/ In x set.
Proof.
  unfold setAdd. destruct (existsb (String.eqb y) set) eqn:E.
  - apply existsb_eqb_In in E. split; [auto | intros [->|H]; auto].
  - rewrite in_app_iff. simpl. split.
    + intros [H|[H|[]]]; auto.
    + intros [->|H]; auto.
Qed.

(** The fingerprints of a text are its normalized text and, for a
    person or an organisation, its last-token key. *)
Lemma fingerprints_sound ty text k :
  In k (buildKeyFingerprints ty text) ->
  k = normalizeMention text
  \/ (ty <> LOCATION /\ keyOf (normalizeMention text) = Some k).
Proof.
  unfold buildKeyFingerprints.
  pose proof (normalizeMention_normalForm text) as NF.
  set (norm := normalizeMention text) in *. clearbody norm.
  destruct (JsString.isEmpty norm) eqn:E; [intros []|].
  assert (Hne : norm <> EmptyString) by (apply isEmpty_false, E).
  assert (G : In k (if 4 <=? String.length
                             (JsString.lastOrEmpty
                                (JsString.filterNonEmpty (JsString.splitSpace norm)))
                    then setAdd (JsString.lastOrEmpty
                                   (JsString.filterNonEmpty (JsString.splitSpace norm)))
                                [norm]
                    else [norm]) ->
              k = norm \/ keyOf norm = Some k).
  { destruct (tokens_normalForm _ NF Hne) as (F & _ & _).
    unfold keyOf. rewrite F. unfold JsString.lastOrEmpty.
    pose proof (splitSpace_concat norm) as J.
    set (tok := last (JsString.splitSpace norm) EmptyString).
    destruct (4 <=? String.length tok) eqn:T; [|intros [<-|[]]; auto].
    apply Nat.leb_le in T. rewrite In_setAdd. intros [->|[<-|[]]]; auto.
    destruct (List.length (JsString.splitSpace norm) <? 2) eqn:L.
    - left. apply Nat.ltb_lt in L. unfold tok.
      destruct (JsString.splitSpace norm) as [|p [|q ps]] eqn:S;
        [exfalso; eapply splitSpace_nonempty; eauto | | simpl in L; lia].
      simpl in J. exact J.
    - right. assert (X : (String.length tok <? 4) = false)
        by (apply Nat.ltb_ge; lia).
      rewrite X. reflexivity. }
  destruct ty; cbv zeta.
  - intros H. destruct (G H) as [->|K]; [auto | right; split; [discriminate | exact K]].
  - intros [<-|[]]. auto.
  - intros H. destruct (G H) as [->|K]; [auto | right; split; [discriminate | exact K]].
Qed.

Lemma fingerprints_complete ty text k :
  ty <> LOCATION -> normalizeMention text <> EmptyString ->
  keyOf (normalizeMention text) = Some k ->
  In k (buildKeyFingerprints ty text).
Proof.
  intros Hty Hne. unfold buildKeyFingerprints, keyOf.
  set (norm := normalizeMention text) in *. clearbody norm.
  assert (E : JsString.isEmpty norm = false)
    by (destruct norm; [congruence | reflexivity]).
  rewrite E. cbv zeta.
  destruct (List.length _ <? 2); [discriminate|].
  destruct (String.length _ <? 4) eqn:T; [discriminate|].
  apply Nat.ltb_ge in T. intros [= <-].
  assert (X : (4 <=? String.length
                       (JsString.lastOrEmpty
                          (JsString.filterNonEmpty (JsString.splitSpace norm))))
              = true) by (apply Nat.leb_le; exact T).
  destruct ty; try congruence; rewrite X; apply In_setAdd; auto.
Qed.

Lemma aliasKeys_sound mn k :
  pushed mn -> In k (aliasKeys mn) ->
  k = mentionNormalized mn
  \/ (entityType mn <> LOCATION /\ keyOf (mentionNormalized mn) = Some k).
Proof.
  intros [P _] [<-|H]; [auto|]. rewrite P. apply fingerprints_sound, H.
Qed.

(** Alias rows of one entity and one type, for a normalized text no
    entity has yet and its key, keep the alias rows settled. *)
Lemma settled_extend rows added ty c n :
  settled rows ->
  (forall r, In r added ->
     EntityAlias.canonicalEntityId r = c /\ EntityAlias.entityType r = ty
     /\ (EntityAlias.aliasNormalized r = n
         \/ (ty <> LOCATION /\ keyOf n = Some (EntityAlias.aliasNormalized r)))) ->
  (forall a, In a rows -> EntityAlias.entityType a = ty ->
     EntityAlias.aliasNormalized a = n -> EntityAlias.canonicalEntityId a = c) ->
  (forall k, ty <> LOCATION -> keyOf n = Some k ->
     (exists b, In b (rows ++ added) /\ EntityAlias.entityType b = ty
                /\ EntityAlias.canonicalEntityId b = c
                /\ EntityAlias.aliasNormalized b = k)
     /\ forall a, In a rows -> EntityAlias.entityType a = ty ->
          EntityAlias.aliasNormalized a = k ->
          EntityAlias.canonicalEntityId a = c) ->
  settled (rows ++ added).
Proof.
  intros [U V] New Old Key.
  assert (Own : forall a r, In a rows -> In r added ->
            EntityAlias.entityType a = EntityAlias.entityType r ->
            EntityAlias.aliasNormalized a = EntityAlias.aliasNormalized r ->
            EntityAlias.canonicalEntityId a = EntityAlias.canonicalEntityId r).
  { intros a r Ha Hr T N. destruct (New r Hr) as (C & Ty & [E|[L K]]).
    - rewrite C. apply Old; congruence.
    - rewrite C. destruct (Key _ L K) as [_ O]. apply O; congruence. }
  split.
  - intros a b Ha Hb T N.
    apply in_app_or in Ha as [Ha|Ha]; apply in_app_or in Hb as [Hb|Hb].
    + apply U; assumption.
    + apply Own; assumption.
    + symmetry. apply Own; auto.
    + destruct (New a Ha) as (-> & _). destruct (New b Hb) as (-> & _). reflexivity.
  - intros a k Ha L K. apply in_app_or in Ha as [Ha|Ha].
    + destruct (V a k Ha L K) as (b & B1 & B2). exists b.
      split; [apply in_or_app; left; exact B1 | exact B2].
    + destruct (New a Ha) as (C & Ty & [E|[L' K']]).
      * rewrite E in K. rewrite Ty in L. destruct (Key k L K) as [(b & B) _].
        exists b. rewrite C, Ty. exact B.
      * apply keyOf_Some in K' as [N _]. rewrite (keyOf_token _ N) in K.
        discriminate.
Qed.

Lemma ids_settled rows :
  (forall a b, In a rows -> In b rows ->
     EntityAlias.canonicalEntityId a = EntityAlias.canonicalEntityId b) ->
  distinct (map EntityAlias.canonicalEntityId rows) = []
  \/ exists c, distinct (map EntityAlias.canonicalEntityId rows) = [c].
Proof.
  intros H. destruct rows as [|r rows]; [left; reflexivity|]. right.
  exists (EntityAlias.canonicalEntityId r). apply distinct_const; [discriminate|].
  intros x Hx. apply in_map_iff in Hx as (b & <- & Hb).
  apply H; [exact Hb | left; reflexivity].
Qed.

Lemma keyRowsIn_rows d text norm ty r :
  In r (keyRowsIn d text norm ty) ->
  exists key,
    keyFingerprint text = Some key /\ key <> norm /\ ty <> LOCATION
    /\ In r (entityAlias d) /\ EntityAlias.entityType r = ty
    /\ EntityAlias.aliasNormalized r = key.
Proof.
  unfold keyRowsIn.
  destruct ty; try (intros []);
    (destruct (keyFingerprint text) as [key|]; [|intros []];
     destruct (String.eqb key norm) eqn:Q; [intros []|];
     cbn [negb]; intros H; apply aliasesWhere_In in H as (A & B & C);
     apply String.eqb_neq in Q;
     exists key; repeat split; auto; discriminate).
Qed.

(** In settled alias rows the exact matches of a mention name at most
    one entity, and so do its fingerprint matches. *)
Lemma settled_sets w mn :
  settled (entityAlias (db w)) ->
  (exactSet w mn = [] \/ exists c, exactSet w mn = [c])
  /\ (fingerprintSet w mn = [] \/ exists c, fingerprintSet w mn = [c]).
Proof.
  intros [U _]. split.
  - rewrite exactSet_rows. apply ids_settled. intros a b Ha Hb.
    apply aliasesWhere_In in Ha as (A1 & A2 & A3).
    apply aliasesWhere_In in Hb as (B1 & B2 & B3).
    apply U; congruence.
  - unfold fingerprintSet, candidatesOf. rewrite keyCanonicals_rows.
    apply ids_settled. intros a b Ha Hb.
    apply keyRowsIn_rows in Ha as (k1 & K1 & _ & _ & A1 & A2 & A3).
    apply keyRowsIn_rows in Hb as (k2 & K2 & _ & _ & B1 & B2 & B3).
    apply U; congruence.
Qed.

Lemma keyOf_other n k : keyOf n = Some k -> k <> n.
Proof.
  intros K E. subst k. pose proof (keyOf_Some _ _ K) as [N _].
  rewrite (keyOf_token _ N) in K. discriminate.
Qed.

Lemma alias_type w a ty :
  wellFormed w -> In a (entityAlias (db w)) ->
  ownedBy (canonicalEntity (db w)) (EntityAlias.canonicalEntityId a) ty = true ->
  EntityAlias.entityType a = ty.
Proof.
  intros (RI & _ & _) Ha O.
  pose proof (referentialIntegrity_alias _ _ RI Ha) as O'.
  apply ownedBy_spec in O as [(x & X1 & X2) F].
  apply ownedBy_spec in O' as [_ F'].
  rewrite <- (F x X1 X2). symmetry. apply F'; assumption.
Qed.

Lemma registered_rows ty c t keys rows next k :
  In k keys ->
  exists b, In b (rows ++ aliasesToAdd ty c t keys rows next)
            /\ EntityAlias.canonicalEntityId b = c
            /\ EntityAlias.aliasNormalized b = k.
Proof.
  intros Hk. pose proof (aliasesToAdd_covers ty c t keys rows next k Hk) as C.
  destruct (aliasIn c k _) as [b|] eqn:E; [|congruence].
  apply aliasIn_Some in E. eauto.
Qed.

Lemma no_exact_rows w mn a :
  exactSet w mn = [] -> In a (entityAlias (db w)) ->
  EntityAlias.entityType a = entityType mn ->
  EntityAlias.aliasNormalized a = mentionNormalized mn -> False.
Proof.
  intros E Ha T N. apply exactSet_empty in E.
  assert (X : In a (filter (fun a => EntityType_eqb (EntityAlias.entityType a) (entityType mn)
                                 && String.eqb (EntityAlias.aliasNormalized a)
                                               (mentionNormalized mn))
                      (entityAlias (db w)))).
  { apply filter_In. split; [exact Ha|].
    rewrite T, N, EntityType_eqb_refl, String.eqb_refl. reflexivity. }
  rewrite E in X. destruct X.
Qed.

Lemma no_key_rows w mn k a :
  pushed mn -> fingerprintSet w mn = [] ->
  entityType mn <> LOCATION -> keyOf (mentionNormalized mn) = Some k ->
  In a (entityAlias (db w)) ->
  EntityAlias.entityType a = entityType mn ->
  EntityAlias.aliasNormalized a = k -> False.
Proof.
  intros [P _] E L K Ha T N.
  unfold fingerprintSet, candidatesOf in E. rewrite keyCanonicals_rows in E.
  apply distinct_nil_inv, map_eq_nil in E.
  unfold keyRowsIn in E. rewrite keyFingerprint_keyOf, <- P, K in E.
  assert (Q : negb (String.eqb k (mentionNormalized mn)) = true)
    by (apply negb_true_iff, String.eqb_neq, (keyOf_other _ _ K)).
  rewrite Q in E.
  assert (W : aliasesWhere (entityType mn) k (db w) = [])
    by (destruct (entityType mn); congruence).
  unfold aliasesWhere in W. apply firstn_S_nil_inv in W.
  assert (X : In a (filter (fun a => EntityType_eqb (EntityAlias.entityType a) (entityType mn)
                                 && String.eqb (EntityAlias.aliasNormalized a) k)
                      (entityAlias (db w)))).
  { apply filter_In. split; [exact Ha|].
    rewrite T, N, EntityType_eqb_refl, String.eqb_refl. reflexivity. }
  rewrite W in X. destruct X.
Qed.

Lemma added_rows mn c rows next r :
  pushed mn ->
  In r (aliasesToAdd (entityType mn) c (mentionText mn) (aliasKeys mn) rows next) ->
  EntityAlias.canonicalEntityId r = c
  /\ EntityAlias.entityType r = entityType mn
  /\ (EntityAlias.aliasNormalized r = mentionNormalized mn
      \/ (entityType mn <> LOCATION
          /\ keyOf (mentionNormalized mn) = Some (EntityAlias.aliasNormalized r))).
Proof.
  intros P H. apply aliasesToAdd_rows in H as (A & B & _ & D & _).
  split; [exact A|]. split; [exact B|]. apply aliasKeys_sound; assumption.
Qed.

(** One resolution on settled alias rows. *)
Lemma resolveMention_settled u fid mn w :
  healthy w -> wellFormed w -> settled (entityAlias (db w)) -> pushed mn ->
  exists r w' c,
    resolveMention u fid mn w = Ok r w'
    /\ (r = Merged c \/ r = CreatedNew c)
    /\ healthy w' /\ wellFormed w'
    /\ settled (entityAlias (db w'))
    /\ entityCandidateLink (db w') = entityCandidateLink (db w)
    /\ (forall a, In a (entityAlias (db w)) -> In a (entityAlias (db w')))
    /\ (forall k, In k (aliasKeys mn) ->
          exists b, In b (entityAlias (db w'))
                    /\ EntityAlias.entityType b = entityType mn
                    /\ EntityAlias.canonicalEntityId b = c
                    /\ EntityAlias.aliasNormalized b = k)
    /\ exists more ct cn count,
         w' = written w more fid mn c ct cn [] count
         /\ (count = bumpNew \/ count = bumpMerged).
Proof.
  intros H WF St P. pose proof St as [U V].
  destruct (settled_sets w mn St) as [[E|[c E]] FK];
    [destruct FK as [K|[c' K]]|].
  - (* no match: a new entity *)
    destruct (decision_none _ _ E K) as [A C].
    destruct (resolveMention_creates u fid mn w H WF A C) as (w' & -> & Run & WF').
    set (c := nextCanonicalEntity (seqs w)) in *.
    exists (CreatedNew c). eexists. exists c.
    split; [exact Run|]. split; [auto|]. split; [reflexivity|].
    split; [exact WF'|]. rewrite written_aliases.
    set (added := aliasesToAdd _ _ _ _ _ _).
    assert (Fresh : forall b, In b (entityAlias (db w) ++ added) ->
              EntityAlias.canonicalEntityId b = c ->
              EntityAlias.entityType b = entityType mn).
    { intros b Hb Cb. apply in_app_or in Hb as [Hb|Hb].
      - exfalso.
        pose proof (no_alias_of_fresh w (EntityAlias.aliasNormalized b) WF) as N.
        eapply (aliasIn_None _ _ _ b N); eauto.
      - apply (added_rows mn c _ _ b P Hb). }
    assert (Reg : forall k, In k (aliasKeys mn) ->
              exists b, In b (entityAlias (db w) ++ added)
                        /\ EntityAlias.entityType b = entityType mn
                        /\ EntityAlias.canonicalEntityId b = c
                        /\ EntityAlias.aliasNormalized b = k).
    { intros k Hk.
      destruct (registered_rows (entityType mn) c (mentionText mn) (aliasKeys mn)
                  (entityAlias (db w)) (nextEntityAlias (seqs w)) k Hk)
        as (b & B1 & B2 & B3).
      exists b. split; [exact B1|]. split; [apply Fresh; assumption | auto]. }
    split; [|split; [|split]].
    + apply (settled_extend _ added (entityType mn) c (mentionNormalized mn) St).
      * intros r Hr. apply (added_rows mn c _ _ r P Hr).
      * intros a Ha T N. exfalso. eapply no_exact_rows; eauto.
      * intros k L Kk. split.
        -- apply Reg. right. destruct P as [P1 P2]. rewrite P1 in Kk, P2.
           apply fingerprints_complete; assumption.
        -- intros a Ha T N. exfalso. eapply no_key_rows; eauto.
    + unfold written. cbn [db entityCandidateLink linkRows].
      apply List.app_nil_r.
    + intros a Ha. apply in_or_app. left. exact Ha.
    + split; [exact Reg|]. do 4 eexists. split; [reflexivity | auto].
  - (* a fingerprint match *)
    destruct (decision_key_one _ _ c' E K) as [A C].
    destruct (resolveMention_merges u fid mn w c' H WF A C)
      as (row & w' & R1 & R2 & R3 & -> & Run & WF').
    destruct (chosen_owned w mn c' WF A C) as [Own _].
    assert (Hk : exists rk key,
              In rk (entityAlias (db w))
              /\ EntityAlias.canonicalEntityId rk = c'
              /\ EntityAlias.entityType rk = entityType mn
              /\ EntityAlias.aliasNormalized rk = key
              /\ entityType mn <> LOCATION
              /\ keyOf (mentionNormalized mn) = Some key).
    { assert (X : In c' (fingerprintSet w mn)) by (rewrite K; left; reflexivity).
      unfold fingerprintSet, candidatesOf in X.
      rewrite keyCanonicals_rows, distinct_In in X.
      apply rows_ids_In in X as (rk & X1 & X2).
      apply keyRowsIn_rows in X1 as (key & F1 & F2 & F3 & F4 & F5 & F6).
      exists rk, key. rewrite keyFingerprint_keyOf in F1.
      destruct P as [P1 _]. rewrite <- P1 in F1. auto 10. }
    destruct Hk as (rk & key & K1 & K2 & K3 & K4 & K5 & K6).
    exists (Merged c'). eexists. exists c'.
    split; [exact Run|]. split; [auto|]. split; [reflexivity|].
    split; [exact WF'|]. rewrite written_aliases.
    set (added := aliasesToAdd _ _ _ _ _ _).
    assert (Reg : forall k, In k (aliasKeys mn) ->
              exists b, In b (entityAlias (db w) ++ added)
                        /\ EntityAlias.entityType b = entityType mn
                        /\ EntityAlias.canonicalEntityId b = c'
                        /\ EntityAlias.aliasNormalized b = k).
    { intros k Hk.
      destruct (registered_rows (entityType mn) c' (mentionText mn) (aliasKeys mn)
                  (entityAlias (db w)) (nextEntityAlias (seqs w)) k Hk)
        as (b & B1 & B2 & B3).
      exists b. split; [exact B1|]. split; [|auto].
      apply in_app_or in B1 as [B1|B1].
      - apply (alias_type w b _ WF B1). rewrite B2. exact Own.
      - apply (added_rows mn c' _ _ b P B1). }
    split; [|split; [|split]].
    + apply (settled_extend _ added (entityType mn) c' (mentionNormalized mn) St).
      * intros r Hr. apply (added_rows mn c' _ _ r P Hr).
      * intros a Ha T N. exfalso. eapply no_exact_rows; eauto.
      * intros k L Kk. rewrite K6 in Kk. injection Kk as <-. split.
        -- exists rk. split; [apply in_or_app; left; exact K1 | auto].
        -- intros a Ha T N. rewrite <- K2. apply U; congruence.
    + unfold written. cbn [db entityCandidateLink linkRows].
      apply List.app_nil_r.
    + intros a Ha. apply in_or_app. left. exact Ha.
    + split; [exact Reg|]. do 4 eexists. split; [reflexivity | auto].
  - (* an exact match *)
    destruct (decision_exact_one _ (fingerprintSet w mn) c E) as [A C].
    destruct (resolveMention_merges u fid mn w c H WF A C)
      as (row & w' & R1 & R2 & R3 & -> & Run & WF').
    destruct (exactSet_alias w mn c) as (r0 & X1 & X2 & X3 & X4);
      [rewrite E; left; reflexivity|].
    assert (Reg0 : forall k, In k (aliasKeys mn) ->
              exists b, In b (entityAlias (db w))
                        /\ EntityAlias.entityType b = entityType mn
                        /\ EntityAlias.canonicalEntityId b = c
                        /\ EntityAlias.aliasNormalized b = k).
    { intros k Hk. destruct (aliasKeys_sound mn k P Hk) as [->|[L Kk]].
      - exists r0. auto.
      - rewrite <- X4 in Kk. rewrite <- X3 in L.
        destruct (V r0 k X1 L Kk) as (b & B1 & B2 & B3 & B4).
        exists b. repeat split; congruence. }
    assert (Nothing : aliasesToAdd (entityType mn) c (mentionText mn) (aliasKeys mn)
                        (entityAlias (db w)) (nextEntityAlias (seqs w)) = []).
    { apply aliasesToAdd_nothing. intros k Hk.
      destruct (Reg0 k Hk) as (b & B1 & B2 & B3 & B4).
      eapply aliasIn_present; eauto. }
    exists (Merged c). eexists. exists c.
    split; [exact Run|]. split; [auto|]. split; [reflexivity|].
    split; [exact WF'|]. rewrite written_aliases, Nothing, List.app_nil_r.
    split; [exact St|]. split; [|split; [auto|]].
    + unfold written. cbn [db entityCandidateLink linkRows]. apply List.app_nil_r.
    + split; [exact Reg0|]. do 4 eexists. split; [reflexivity | auto].
Qed.

Lemma settled_empty : settled [].
Proof. split; [intros a b [] | intros a k []]. Qed.

(** On a store whose alias rows are settled -- the empty store is --
    the engine never meets an ambiguity: on a healthy connection every
    mention the document loop pushes is merged into an entity or gets
    a new one, no candidate link is written, and the alias rows stay
    settled and the store well formed, so that this holds for every
    later mention as well. *)
Theorem settled_store_never_ambiguous (u : bool)
    (jobs : list (nat * MentionRow)) (w : World) :
  healthy w -> wellFormed w -> settled (entityAlias (db w)) ->
  Forall (fun job => pushed (snd job)) jobs ->
  exists rs w',
    resolveAll u jobs w = Ok rs w'
    /\ Forall decided rs
    /\ List.length rs = List.length jobs
    /\ entityCandidateLink (db w') = entityCandidateLink (db w)
    /\ wellFormed w'
    /\ settled (entityAlias (db w')).
Proof.
  intros H WF St All. revert w H WF St.
  induction All as [|[fid mn] jobs P _ IH]; intros w H WF St.
  - exists [], w. split; [reflexivity|]. split; [constructor|].
    split; [reflexivity|]. split; [reflexivity|]. split; [exact WF | exact St].
  - destruct (resolveMention_settled u fid mn w H WF St P)
      as (r & w1 & c & Run & D & H1 & WF1 & St1 & L1 & _).
    destruct (IH w1 H1 WF1 St1) as (rs & w' & Run' & D' & Len & L' & WF' & St').
    exists (r :: rs), w'. cbn [resolveAll].
    rewrite (bind_Ok _ _ _ _ _ Run), (bind_Ok _ _ _ _ _ Run'). cbn [ret].
    split; [reflexivity|]. split; [constructor; [exists c; exact D | exact D']|].
    split; [cbn [List.length]; congruence|]. split; [congruence|].
    split; [exact WF' | exact St'].
Qed.

Lemma settled_store_never_ambiguous_witness :
  exists rs w',
    resolveAll true
      [(7, Fixtures.mention "John Smith" PERSON);
       (8, Fixtures.mention "Smith" PERSON);
       (9, Fixtures.mention "Dr. Jane Smith" PERSON)]
      Fixtures.emptyWorld = Ok rs w'
    /\ Forall decided rs
    /\ entityCandidateLink (db w') = [].
Proof.
  destruct (settled_store_never_ambiguous true
              [(7, Fixtures.mention "John Smith" PERSON);
               (8, Fixtures.mention "Smith" PERSON);
               (9, Fixtures.mention "Dr. Jane Smith" PERSON)]
              Fixtures.emptyWorld)
    as (rs & w' & R & D & _ & L & _);
    [reflexivity | repeat split; reflexivity | apply settled_empty
     | repeat constructor; discriminate |].
  exists rs, w'. split; [exact R|]. split; [exact D | exact L].
Defined.

(** On a store whose alias rows are settled, two mentions of persons,
    or of organisations, whose texts have the same last-token key (at
    least two tokens, the last of at least four characters) are
    resolved to the same canonical entity, whatever else their texts
    say. *)
Theorem same_last_token_same_entity (u : bool) (f1 f2 : nat)
    (m1 m2 : MentionRow) (k : string) (w : World) :
  healthy w -> wellFormed w -> settled (entityAlias (db w)) ->
  pushed m1 -> pushed m2 ->
  entityType m1 = entityType m2 -> entityType m1 <> LOCATION ->
  keyFingerprint (mentionText m1) = Some k ->
  keyFingerprint (mentionText m2) = Some k ->
  exists r1 w1 r2 w2 c,
    resolveMention u f1 m1 w = Ok r1 w1
    /\ resolveMention u f2 m2 w1 = Ok r2 w2
    /\ resolvedTo r1 = Some c
    /\ resolvedTo r2 = Some c.
Proof.
  intros H WF St P1 P2 T L K1 K2.
  destruct (resolveMention_settled u f1 m1 w H WF St P1)
    as (r1 & w1 & c1 & Run1 & D1 & H1 & WF1 & St1 & _ & _ & Reg1 & _).
  destruct (resolveMention_settled u f2 m2 w1 H1 WF1 St1 P2)
    as (r2 & w2 & c2 & Run2 & D2 & _ & _ & [U2 _] & _ & Keep & Reg2 & _).
  assert (In1 : In k (aliasKeys m1)).
  { right. destruct P1 as [N1 E1]. rewrite N1 in E1.
    apply fingerprints_complete; [exact L | exact E1|].
    rewrite <- keyFingerprint_keyOf. exact K1. }
  assert (In2 : In k (aliasKeys m2)).
  { right. destruct P2 as [N2 E2]. rewrite N2 in E2.
    apply fingerprints_complete; [congruence | exact E2|].
    rewrite <- keyFingerprint_keyOf. exact K2. }
  destruct (Reg1 k In1) as (a & A1 & A2 & A3 & A4).
  destruct (Reg2 k In2) as (b & B1 & B2 & B3 & B4).
  assert (E : c1 = c2).
  { transitivity (EntityAlias.canonicalEntityId a); [symmetry; exact A3|].
    transitivity (EntityAlias.canonicalEntityId b); [|exact B3].
    apply U2; [apply Keep, A1 | exact B1 | congruence | congruence]. }
  exists r1, w1, r2, w2, c1.
  split; [exact Run1|]. split; [exact Run2|].
  split; [destruct D1 as [->| ->]; reflexivity|].
  destruct D2 as [->| ->]; cbn [resolvedTo]; congruence.
Qed.

Lemma same_last_token_same_entity_witness :
  exists w1 w2,
    resolveMention true 7 (Fixtures.mention "John Smith" PERSON)
      Fixtures.emptyWorld = Ok (CreatedNew 1) w1
    /\ resolveMention true 8 (Fixtures.mention "Dr. Jane Smith" PERSON) w1
       = Ok (Merged 1) w2.
Proof.
  destruct (same_last_token_same_entity true 7 8
              (Fixtures.mention "John Smith" PERSON)
              (Fixtures.mention "Dr. Jane Smith" PERSON) "smith"
              Fixtures.emptyWorld)
    as (r1 & w1 & r2 & w2 & c & R1 & R2 & _);
    [reflexivity | repeat split; reflexivity | apply settled_empty
     | split; [reflexivity | discriminate]
     | split; [reflexivity | discriminate]
     | reflexivity | discriminate | reflexivity | reflexivity |].
  assert (E1 : r1 = CreatedNew 1)
    by (vm_compute in R1; injection R1 as <- _; reflexivity).
  subst r1. exists w1.
  assert (E2 : resolveMention true 8 (Fixtures.mention "Dr. Jane Smith" PERSON)
                 w1 = Ok (Merged 1) w2).
  { rewrite R2. f_equal.
    vm_compute in R1. injection R1 as <-. vm_compute in R2.
    injection R2 as <- _. reflexivity. }
  exists w2. split; [exact R1 | exact E2].
Defined.

(* ================================================================= *)
(** * A file whose extraction fails, a file that goes through *)

Section FileRuns.

Variable reprocess : bool.
Variable chunkText : string -> list Chunk.
Variable extract : string -> option (list ExtractedEntity).
Variable storageFaults : nat -> option nat.

Lemma afterExtraction_more n k w :
  afterExtraction k (afterExtraction n w) = afterExtraction (n + k) w.
Proof.
  unfold afterExtraction. cbn [db seqs stats budget totalFiles processed skipped
    failed totalEntities totalMentions mergedMentions newEntities].
  rewrite Nat.add_assoc. reflexivity.
Qed.

Lemma afterExtraction_zero w : afterExtraction 0 w = w.
Proof.
  destruct w as [d q [a b c1 d1 e1 f1 g1 h1] bu]. unfold afterExtraction.
  cbn [db seqs stats budget totalFiles processed skipped failed totalEntities
       totalMentions mergedMentions newEntities].
  rewrite Nat.add_0_r. reflexivity.
Qed.

Lemma collectMentions_throws fullText chunks : forall w c,
  In c chunks -> extract (text c) = None ->
  exists n,
    collectMentions extract fullText chunks w
    = Threw ExtractionFailure (afterExtraction n w).
Proof.
  induction chunks as [|c0 chunks IH]; intros w c Hin Hc; [destruct Hin|].
  cbn [collectMentions]. unfold callOpenAiExtractEntitiesWithRetry.
  destruct (extract (text c0)) as [es|] eqn:E.
  - destruct Hin as [->|Hin]; [congruence|].
    unfold bind at 1. cbn [ret]. unfold bind at 1. cbn [updateStats].
    fold (afterExtraction (List.length es) w).
    destruct (IH (afterExtraction (List.length es) w) c Hin Hc) as [n R].
    exists (List.length es + n).
    unfold bind at 1. rewrite R, afterExtraction_more. reflexivity.
  - exists 0. rewrite afterExtraction_zero. reflexivity.
Qed.

Lemma collectMentions_returns fullText chunks : forall w,
  (forall c, In c chunks -> extract (text c) <> None) ->
  exists n,
    collectMentions extract fullText chunks w
    = Ok (mentionsOf extract fullText chunks) (afterExtraction n w).
Proof.
  induction chunks as [|c0 chunks IH]; intros w All.
  - exists 0. rewrite afterExtraction_zero. reflexivity.
  - cbn [collectMentions mentionsOf flat_map].
    unfold callOpenAiExtractEntitiesWithRetry.
    destruct (extract (text c0)) as [es|] eqn:E;
      [|exfalso; apply (All c0); [left; reflexivity | exact E]].
    unfold bind at 1. cbn [ret]. unfold bind at 1. cbn [updateStats].
    fold (afterExtraction (List.length es) w).
    destruct (IH (afterExtraction (List.length es) w)) as [n R];
      [intros c Hc; apply All; right; exact Hc|].
    exists (List.length es + n).
    unfold bind at 1. rewrite R, afterExtraction_more. reflexivity.
Qed.

End FileRuns.

(** When the extraction call fails for a chunk of a file, the file is
    counted as failed without a single store call: tables, serial
    counters and connection are as they were, and no mention is
    counted. *)
Theorem extraction_failure_fails_file (u reprocess : bool)
    (chunkText : string -> list Chunk)
    (extract : string -> option (list ExtractedEntity))
    (storageFaults : nat -> option nat)
    (f : File.t) (w : World) (c : Chunk) :
  let fullText :=
    JsString.trim (match File.fullText f with
                   | Some t => t
                   | None => EmptyString
                   end) in
  negb reprocess && File.entitiesExtracted f = false ->
  JsString.isEmpty fullText = false ->
  (String.length fullText <? 50) = false ->
  In c (chunkText fullText) ->
  extract (text c) = None ->
  exists w',
    processFile u reprocess chunkText extract storageFaults f w = Ok tt w'
    /\ db w' = db w /\ seqs w' = seqs w /\ budget w' = budget w
    /\ failed (stats w') = S (failed (stats w))
    /\ processed (stats w') = processed (stats w)
    /\ skipped (stats w') = skipped (stats w)
    /\ totalMentions (stats w') = totalMentions (stats w)
    /\ mergedMentions (stats w') = mergedMentions (stats w)
    /\ newEntities (stats w') = newEntities (stats w).
Proof.
  intros fullText Hskip Hempty Hshort Hin Hc.
  destruct (collectMentions_throws extract fullText (chunkText fullText) w c
              Hin Hc) as [n R].
  unfold processFile. rewrite Hskip. fold fullText. rewrite Hempty, Hshort.
  unfold tryCatch. rewrite (bind_Threw _ _ _ _ _ R).
  eexists. split; [reflexivity|]. cbn. repeat split; reflexivity.
Qed.

Lemma extraction_failure_fails_file_witness :
  exists w',
    processFile true false Fixtures.oneChunk (fun _ => None)
      Fixtures.neverFails Fixtures.letterFile Fixtures.letterWorld = Ok tt w'
    /\ db w' = db Fixtures.letterWorld
    /\ failed (stats w') = 1.
Proof.
  destruct (extraction_failure_fails_file true false Fixtures.oneChunk
              (fun _ => None) Fixtures.neverFails Fixtures.letterFile
              Fixtures.letterWorld (mkChunk 0 (JsString.trim Fixtures.letter)))
    as (w' & R & D & _ & _ & F & _);
    [reflexivity | reflexivity | reflexivity | left; reflexivity | reflexivity |].
  exists w'. split; [exact R|]. split; [exact D | exact F].
Defined.

(** *** Resolving on a healthy connection, where candidate links never
        collide *)

Lemma written_mentions w more fid mn cid ct cn cands count :
  exists row,
    entityMention (db (written w more fid mn cid ct cn cands count))
    = entityMention (db w) ++ [row]
    /\ writtenAs fid mn row.
Proof. eexists. split; [reflexivity|]. repeat split. Qed.

Lemma written_step w more fid mn cid ct cn cands count :
  count = bumpNew \/ count = bumpMerged ->
  let w' := written w more fid mn cid ct cn cands count in
  healthy w'
  /\ (exists row,
        entityMention (db w') = entityMention (db w) ++ [row]
        /\ writtenAs fid mn row)
  /\ file (db w') = file (db w)
  /\ totalMentions (stats w') = totalMentions (stats w)
  /\ resolved (stats w') = S (resolved (stats w)).
Proof.
  intros C w'. split; [reflexivity|].
  split; [apply written_mentions|]. split; [reflexivity|].
  destruct C as [->| ->]; unfold w', resolved, written, bumpNew, bumpMerged;
    cbn [stats totalMentions mergedMentions newEntities]; split; lia.
Qed.

(** One resolution that cannot fail: the alias rows are settled, or
    the store has no unique index on candidate links. *)
Lemma resolveMention_clear u fid mn w :
  healthy w -> wellFormed w ->
  u = false \/ (settled (entityAlias (db w)) /\ pushed mn) ->
  exists r w' row,
    resolveMention u fid mn w = Ok r w'
    /\ healthy w' /\ wellFormed w'
    /\ entityMention (db w') = entityMention (db w) ++ [row]
    /\ writtenAs fid mn row
    /\ file (db w') = file (db w)
    /\ totalMentions (stats w') = totalMentions (stats w)
    /\ resolved (stats w') = S (resolved (stats w))
    /\ (settled (entityAlias (db w)) -> pushed mn ->
        settled (entityAlias (db w'))).
Proof.
  intros H WF Clear.
  assert (G : forall r more cid ct cn cands count,
            resolveMention u fid mn w
            = Ok r (written w more fid mn cid ct cn cands count) ->
            wellFormed (written w more fid mn cid ct cn cands count) ->
            count = bumpNew \/ count = bumpMerged ->
            exists r w' row,
              resolveMention u fid mn w = Ok r w'
              /\ healthy w' /\ wellFormed w'
              /\ entityMention (db w') = entityMention (db w) ++ [row]
              /\ writtenAs fid mn row
              /\ file (db w') = file (db w)
              /\ totalMentions (stats w') = totalMentions (stats w)
              /\ resolved (stats w') = S (resolved (stats w))
              /\ (settled (entityAlias (db w)) -> pushed mn ->
                  settled (entityAlias (db w')))).
  { intros r more cid ct cn cands count Run WF' C.
    destruct (written_step w more fid mn cid ct cn cands count C)
      as (H' & (row & M & W) & F & T & R).
    exists r, (written w more fid mn cid ct cn cands count), row.
    split; [exact Run|]. split; [exact H'|]. split; [exact WF'|].
    split; [exact M|]. split; [exact W|]. split; [exact F|].
    split; [exact T|]. split; [exact R|].
    intros St P.
    destruct (resolveMention_settled u fid mn w H WF St P)
      as (r2 & w2 & c2 & Run2 & _ & _ & _ & St2 & _).
    rewrite Run in Run2. injection Run2 as _ <-. exact St2. }
  destruct Clear as [->|[St P]].
  - destruct (isAmbiguous (exactSet w mn) (fingerprintSet w mn)) eqn:A.
    + destruct (resolveMention_flags false fid mn w H WF A (or_introl eq_refl))
        as (w' & -> & Run & WF').
      eapply G; eauto.
    + destruct (chosenCanonicalId (exactSet w mn) (fingerprintSet w mn))
        as [chosen|] eqn:C.
      * destruct (resolveMention_merges false fid mn w chosen H WF A C)
          as (row & w' & _ & _ & _ & -> & Run & WF').
        eapply G; eauto.
      * destruct (resolveMention_creates false fid mn w H WF A C)
          as (w' & -> & Run & WF').
        eapply G; eauto.
  - destruct (resolveMention_settled u fid mn w H WF St P)
      as (r & w' & c & Run & _ & _ & WF' & _ & _ & _ & _
          & more & ct & cn & count & -> & C).
    eapply G; eauto.
Qed.

Lemma resolveAll_clear u fid uniq : forall w,
  healthy w -> wellFormed w ->
  u = false \/ (settled (entityAlias (db w)) /\ Forall pushed uniq) ->
  exists w' rows,
    forEach uniq (fun m => _ <- resolveMention u fid m ;; ret tt) w
    = Ok tt w'
    /\ healthy w' /\ wellFormed w'
    /\ entityMention (db w') = entityMention (db w) ++ rows
    /\ Forall2 (writtenAs fid) uniq rows
    /\ file (db w') = file (db w)
    /\ totalMentions (stats w') = totalMentions (stats w)
    /\ resolved (stats w') = resolved (stats w) + List.length uniq
    /\ (settled (entityAlias (db w)) -> Forall pushed uniq ->
        settled (entityAlias (db w'))).
Proof.
  induction uniq as [|m uniq IH]; intros w H WF Clear.
  - exists w, []. cbn [forEach List.length]. rewrite List.app_nil_r.
    split; [reflexivity|]. split; [exact H|]. split; [exact WF|].
    split; [reflexivity|]. split; [constructor|]. split; [reflexivity|].
    split; [reflexivity|]. split; [lia | auto].
  - assert (Clear1 : u = false \/ (settled (entityAlias (db w)) /\ pushed m)).
    { destruct Clear as [->|[St P]]; [auto|]. right. split; [exact St|].
      inversion P; assumption. }
    destruct (resolveMention_clear u fid m w H WF Clear1)
      as (r & w1 & row & Run & H1 & WF1 & M1 & W1 & F1 & T1 & R1 & St1).
    assert (ClearR : u = false
                     \/ (settled (entityAlias (db w1)) /\ Forall pushed uniq)).
    { destruct Clear as [->|[St P]]; [auto|]. right.
      inversion P as [|? ? Pm Pu]; subst. split; [apply St1; assumption | exact Pu]. }
    destruct (IH w1 H1 WF1 ClearR)
      as (w' & rows & Run' & H' & WF' & M' & W' & F' & T' & R' & St').
    exists w', (row :: rows). cbn [forEach].
    rewrite (bind_Ok _ _ _ _ _ (bind_Ok _ (fun _ => ret tt) _ _ _ Run)).
    cbn [ret]. split; [exact Run'|]. split; [exact H'|]. split; [exact WF'|].
    split; [rewrite M', M1, <- List.app_assoc; reflexivity|].
    split; [constructor; assumption|]. split; [congruence|].
    split; [congruence|]. split; [cbn [List.length]; lia|].
    intros St P. inversion P as [|? ? Pm Pu]; subst. apply St'; auto.
Qed.

Lemma mentionsOf_pushed extract fullText chunks m :
  In m (mentionsOf extract fullText chunks) -> pushed m.
Proof.
  unfold mentionsOf. intros H. apply in_flat_map in H as (c & _ & H).
  destruct (extract (text c)) as [es|]; [|destruct H].
  apply pushMentions_In in H as (e & _ & H).
  apply mentionOf_kept in H as (_ & _ & N & E & _).
  split; [exact N | exact E].
Qed.

Lemma uniqMentions_pushed extract fullText chunks :
  Forall pushed (uniqMentions (mentionsOf extract fullText chunks)).
Proof.
  apply Forall_forall. intros m H. unfold uniqMentions in H.
  destruct (uniqFrom_spec (mentionsOf extract fullText chunks) []) as (A & _).
  apply (mentionsOf_pushed extract fullText chunks), A, H.
Qed.

Lemma wellFormed_tables w w' :
  canonicalEntity (db w') = canonicalEntity (db w) ->
  entityAlias (db w') = entityAlias (db w) ->
  entity (db w') = entity (db w) ->
  (forall l, In l (entityCandidateLink (db w')) ->
             In l (entityCandidateLink (db w))) ->
  (forall r, In r (entityMention (db w')) -> In r (entityMention (db w))) ->
  seqs w' = seqs w ->
  wellFormed w -> wellFormed w'.
Proof.
  intros C A E L M Q (RI & AU & SA). unfold wellFormed.
  split; [|split].
  - unfold referentialIntegrity in *. rewrite C, A. exact RI.
  - rewrite A. exact AU.
  - rewrite serialsAhead_spec in *. rewrite C, A, E, Q.
    destruct SA as (S1 & S2 & S3 & S4 & S5). repeat split; auto.
Qed.

Lemma writtenAs_file fid uniq rows :
  Forall2 (writtenAs fid) uniq rows ->
  forall r, In r rows -> EntityMention.fileId r = fid.
Proof.
  induction 1 as [|m r uniq rows W _ IH]; intros x Hx; [destruct Hx|].
  destruct Hx as [<-|Hx]; [apply W | apply IH, Hx].
Qed.

(** On a well-formed store, with a connection that serves every call
    and either alias rows that are settled or a store without the
    unique index on candidate links, a file whose extraction calls all
    return is processed: it is counted as processed, its file row is
    marked as extracted, and its mention rows are the ones it had
    (none when the run reprocesses, which deletes them first)
    followed by its deduplicated mentions, one row each, in order;
    the mention rows of other files are untouched, the store stays
    well formed, and settled alias rows stay settled. *)
Theorem healthy_file_is_processed (u reprocess : bool)
    (chunkText : string -> list Chunk)
    (extract : string -> option (list ExtractedEntity))
    (storageFaults : nat -> option nat)
    (f : File.t) (w : World) :
  let fullText :=
    JsString.trim (match File.fullText f with
                   | Some t => t
                   | None => EmptyString
                   end) in
  let uniq := uniqMentions (mentionsOf extract fullText (chunkText fullText)) in
  wellFormed w ->
  u = false \/ settled (entityAlias (db w)) ->
  negb reprocess && File.entitiesExtracted f = false ->
  JsString.isEmpty fullText = false ->
  (String.length fullText <? 50) = false ->
  (forall c, In c (chunkText fullText) -> extract (text c) <> None) ->
  storageFaults (File.id f) = None ->
  exists w',
    processFile u reprocess chunkText extract storageFaults f w = Ok tt w'
    /\ wellFormed w'
    /\ (settled (entityAlias (db w)) -> settled (entityAlias (db w')))
    /\ processed (stats w') = S (processed (stats w))
    /\ failed (stats w') = failed (stats w)
    /\ skipped (stats w') = skipped (stats w)
    /\ totalMentions (stats w') = totalMentions (stats w) + List.length uniq
    /\ resolved (stats w') = resolved (stats w) + List.length uniq
    /\ (exists rows,
          mentionsOfFile (File.id f) (db w')
          = (if reprocess then [] else mentionsOfFile (File.id f) (db w))
            ++ rows
          /\ Forall2 (writtenAs (File.id f)) uniq rows)
    /\ mentionsElsewhere (File.id f) (db w')
       = mentionsElsewhere (File.id f) (db w)
    /\ (forall g, In g (file (db w')) -> File.id g = File.id f ->
          File.entitiesExtracted g = true).
Proof.
  intros fullText uniq WF Clear Hskip Hempty Hshort Hext Hfaults.
  destruct (collectMentions_returns extract fullText (chunkText fullText) w Hext)
    as [n Rc].
  set (w0 := afterExtraction n w) in *.
  set (wc := connected None w0).
  set (fid := File.id f) in *.
  (* the prelude *)
  assert (Pre : exists wa,
            (if reprocess then entityMention_deleteMany fid else ret tt) wc
            = Ok tt wa
            /\ healthy wa /\ wellFormed wa
            /\ mentionsOfFile fid (db wa)
               = (if reprocess then [] else mentionsOfFile fid (db w))
            /\ mentionsElsewhere fid (db wa) = mentionsElsewhere fid (db w)
            /\ file (db wa) = file (db w)
            /\ stats wa = stats w0
            /\ entityAlias (db wa) = entityAlias (db w)).
  { destruct reprocess.
    - eexists. split; [reflexivity|]. split; [reflexivity|].
      split; [|split; [|split; [|split]]].
      + apply (wellFormed_tables w); try reflexivity; [| |exact WF];
          intros r Hr; cbn in Hr; apply filter_In in Hr; tauto.
      + unfold mentionsOfFile. cbn [db entityMention].
        apply filter_none. intros r Hr. apply filter_In in Hr as [_ Hr].
        apply negb_true_iff in Hr. exact Hr.
      + unfold mentionsElsewhere. cbn [db entityMention]. apply filter_twice.
      + reflexivity.
      + split; reflexivity.
    - exists wc. split; [reflexivity|]. split; [reflexivity|].
      split; [apply (wellFormed_tables w); try reflexivity; auto|].
      repeat split. }
  destruct Pre as (wa & Rp & Ha & WFa & Ma & Ea & Fa & Sa & Aa).
  assert (ClearA : u = false
                   \/ (settled (entityAlias (db wa)) /\ Forall pushed uniq)).
  { destruct Clear as [->|St]; [auto|]. right. rewrite Aa.
    split; [exact St | apply uniqMentions_pushed]. }
  destruct (resolveAll_clear u fid uniq wa Ha WFa ClearA)
    as (wm & rows & Rm & Hm & WFm & Mm & Wm & Fm & Tm & Res & Stm).
  (* the file row *)
  set (wd := finalWorld (file_update_extracted fid wm)).
  assert (Rf : file_update_extracted fid wm = Ok tt wd).
  { unfold wd, file_update_extracted, call. rewrite Hm. reflexivity. }
  assert (Rd : resolveDocument u reprocess fid uniq wc = Ok tt wd).
  { unfold resolveDocument. rewrite (bind_Ok _ _ _ _ _ Rp).
    rewrite (bind_Ok _ _ _ _ _ Rm). exact Rf. }
  assert (Run : processFile u reprocess chunkText extract storageFaults f w
                = Ok tt (finalWorld
                           (updateStats
                              (fun s => mkStats (totalFiles s) (S (processed s))
                                 (skipped s) (failed s) (totalEntities s)
                                 (totalMentions s + List.length uniq)
                                 (mergedMentions s) (newEntities s)) wd))).
  { unfold processFile. rewrite Hskip. fold fullText. rewrite Hempty, Hshort.
    unfold tryCatch. rewrite (bind_Ok _ _ _ _ _ Rc). fold uniq.
    unfold bind at 1. unfold connect at 1. fold fid. rewrite Hfaults.
    fold (connected None w0). fold wc.
    unfold bind at 1. unfold transaction at 1. rewrite Rd. reflexivity. }
  eexists. split; [exact Run|].
  assert (Dd : db wd
               = mkDb (canonicalEntity (db wm)) (entityAlias (db wm))
                      (entity (db wm)) (entityMention (db wm))
                      (entityCandidateLink (db wm))
                      (map (fun g => if Nat.eqb (File.id g) fid
                                     then File.mk (File.id g) (File.fullText g) true
                                     else g)
                           (file (db wm)))).
  { unfold wd, file_update_extracted, call. rewrite Hm. reflexivity. }
  assert (Qd : seqs wd = seqs wm /\ stats wd = stats wm).
  { unfold wd, file_update_extracted, call. rewrite Hm. split; reflexivity. }
  destruct Qd as [Qd Sd].
  cbn [updateStats finalWorld db seqs stats].
  split.
  { apply (wellFormed_tables wm); cbn [db seqs]; rewrite ?Dd; auto. }
  split.
  { intros St. rewrite Dd. cbn [entityAlias]. apply Stm.
    - rewrite Aa. exact St.
    - apply uniqMentions_pushed. }
  cbn [processed failed skipped totalMentions]. unfold resolved.
  cbn [mergedMentions newEntities]. rewrite Sd.
  pose proof (untallied_forEach uniq
                (fun m => _ <- resolveMention u fid m ;; ret tt)
                (fun m => untallied_bind _ _ (untallied_resolveMention u fid m)
                            (fun _ => untallied_ret tt)) wa) as Tal.
  rewrite Rm in Tal. cbn [finalWorld] in Tal. rewrite Sa in Tal.
  unfold tallies, w0, afterExtraction in Tal. cbn [stats processed skipped failed] in Tal.
  injection Tal as Tp Ts Tf.
  rewrite Sa in Tm, Res. unfold resolved, w0, afterExtraction in Tm, Res.
  cbn [stats totalMentions mergedMentions newEntities] in Tm, Res.
  split; [lia|]. split; [lia|]. split; [lia|]. split; [lia|]. split; [lia|].
  rewrite Dd. unfold mentionsOfFile, mentionsElsewhere in *.
  cbn [entityMention file]. rewrite Mm, !filter_app.
  split; [|split].
  - exists rows. rewrite Ma.
    rewrite (filter_all _ rows); [split; [reflexivity | exact Wm]|].
    intros r Hr. apply Nat.eqb_eq. eapply writtenAs_file; eauto.
  - rewrite Ea, (filter_none _ rows), List.app_nil_r; [reflexivity|].
    intros r Hr. apply negb_false_iff, Nat.eqb_eq. eapply writtenAs_file; eauto.
  - intros g Hg E. apply in_map_iff in Hg as (g0 & <- & _).
    destruct (Nat.eqb (File.id g0) fid) eqn:Q; [reflexivity|].
    apply Nat.eqb_neq in Q. congruence.
Qed.

Lemma healthy_file_is_processed_witness :
  exists w' rows,
    processFile true false Fixtures.oneChunk Fixtures.reportsTitledSmith
      Fixtures.neverFails Fixtures.letterFile Fixtures.letterWorld = Ok tt w'
    /\ processed (stats w') = 1
    /\ mentionsOfFile 7 (db w') = rows
    /\ Forall2 (writtenAs 7) [Fixtures.letterMention] rows.
Proof.
  destruct (healthy_file_is_processed true false Fixtures.oneChunk
              Fixtures.reportsTitledSmith Fixtures.neverFails
              Fixtures.letterFile Fixtures.letterWorld)
    as (w' & R & _ & _ & P & _ & _ & _ & _ & (rows & M & W) & _);
    [repeat split; reflexivity | right; apply settled_empty
     | reflexivity | reflexivity | reflexivity
     | intros c _; discriminate | reflexivity |].
  exists w', rows. split; [exact R|]. split; [exact P|].
  split; [exact M | exact W].
Defined.

(* ================================================================= *)
(** * What a run never loses *)

Lemma extendedBy_refl {A} (xs : list A) : extendedBy xs xs.
Proof. exists []. symmetry. apply List.app_nil_r. Qed.

Lemma extendedBy_trans {A} (xs ys zs : list A) :
  extendedBy xs ys -> extendedBy ys zs -> extendedBy xs zs.
Proof.
  intros [a ->] [b ->]. exists (a ++ b). symmetry. apply List.app_assoc.
Qed.

Lemma extendedBy_snoc {A} (xs : list A) x : extendedBy xs (xs ++ [x]).
Proof. exists [x]. reflexivity. Qed.

Lemma sameFilesMarked_refl fs : sameFilesMarked fs fs.
Proof. unfold sameFilesMarked. induction fs; constructor; auto. Qed.

Lemma sameFilesMarked_trans a b c :
  sameFilesMarked a b -> sameFilesMarked b c -> sameFilesMarked a c.
Proof.
  unfold sameFilesMarked. intros H. revert c.
  induction H as [|x y a b (I1 & T1 & M1) _ IH]; intros c Hc;
    inversion Hc as [|? z ? c' (I2 & T2 & M2) Hc']; subst; constructor.
  - repeat split; [congruence | congruence | auto].
  - apply IH, Hc'.
Qed.

Lemma sameFilesMarked_update fid fs :
  sameFilesMarked fs
    (map (fun f => if Nat.eqb (File.id f) fid
                   then File.mk (File.id f) (File.fullText f) true
                   else f) fs).
Proof.
  unfold sameFilesMarked. induction fs as [|f fs IH]; simpl; constructor; auto.
  destruct (Nat.eqb (File.id f) fid); simpl; auto.
Qed.

Section Lossless.

Variable kept : EntityMention.t -> Prop.
Variable origin : list EntityMention.t.
Variable bound : nat.

Lemma keepsRows_refl d : keepsRows kept origin bound d d.
Proof.
  unfold keepsRows.
  refine (conj _ (conj _ (conj _ (conj _ (conj _ (conj _ _))))));
    auto using extendedBy_refl, sameFilesMarked_refl.
Qed.

Lemma keepsRows_trans a b c :
  keepsRows kept origin bound a b -> keepsRows kept origin bound b c ->
  keepsRows kept origin bound a c.
Proof.
  intros (C1 & A1 & E1 & M1 & L1 & X1 & F1) (C2 & A2 & E2 & M2 & L2 & X2 & F2).
  unfold keepsRows.
  refine (conj _ (conj _ (conj _ (conj _ (conj _ (conj _ _))))));
    eauto using extendedBy_trans, sameFilesMarked_trans.
Qed.

Ltac unchanged := intros w S; split; [exact S | apply keepsRows_refl].

Lemma lossless_ret {A} (a : A) : lossless kept origin bound (ret a).
Proof. unchanged. Qed.

Lemma lossless_throw {A} e : lossless kept origin bound (@throw A e).
Proof. unchanged. Qed.

Lemma lossless_bind {A B} (c : Tx A) (k : A -> Tx B) :
  lossless kept origin bound c ->
  (forall a, lossless kept origin bound (k a)) ->
  lossless kept origin bound (bind c k).
Proof.
  intros Hc Hk w S. destruct (Hc w S) as [S1 G1]. unfold bind.
  destruct (c w) as [a w1|e w1]; cbn [finalWorld] in S1, G1;
    [|split; assumption].
  destruct (Hk a w1 S1) as [S2 G2].
  split; [exact S2 | eapply keepsRows_trans; eauto].
Qed.

Lemma lossless_call {A} (f : Db -> Seqs -> Effect A) :
  (forall d q, steady origin bound d q ->
               match f d q with
               | inl (_, d', q') =>
                   steady origin bound d' q' /\ keepsRows kept origin bound d d'
               | inr _ => True
               end) ->
  lossless kept origin bound (call f).
Proof.
  intros H [d q st b] S. cbn [db seqs] in S. specialize (H d q S).
  unfold call. cbn [budget db seqs stats].
  destruct b as [[|n]|]; cbn [finalWorld db seqs];
    try (split; [exact S | apply keepsRows_refl]);
    destruct (f d q) as [[[a d'] q']|e]; cbn [finalWorld db seqs];
    try exact H; (split; [exact S | apply keepsRows_refl]).
Qed.

Lemma lossless_query {A} (f : Db -> A) : lossless kept origin bound (query f).
Proof.
  apply lossless_call. intros d q S. split; [exact S | apply keepsRows_refl].
Qed.

Lemma lossless_updateStats f : lossless kept origin bound (updateStats f).
Proof. unchanged. Qed.

Lemma lossless_connect faults : lossless kept origin bound (connect faults).
Proof. unchanged. Qed.

Lemma lossless_forEach {A} (xs : list A) (body : A -> Tx unit) :
  (forall x, lossless kept origin bound (body x)) ->
  lossless kept origin bound (forEach xs body).
Proof.
  intros H. induction xs as [|x xs IH]; simpl.
  - apply lossless_ret.
  - apply lossless_bind; auto.
Qed.

Lemma lossless_forEach_In {A} (xs : list A) (body : A -> Tx unit) :
  (forall x, In x xs -> lossless kept origin bound (body x)) ->
  lossless kept origin bound (forEach xs body).
Proof.
  induction xs as [|x xs IH]; intros H; simpl.
  - apply lossless_ret.
  - apply lossless_bind; [apply H; left; reflexivity|].
    intros _. apply IH. intros y Hy. apply H. right. exact Hy.
Qed.

(** A rollback puts the tables back and leaves the counters where the
    body took them. *)
Lemma lossless_transaction {A} (body : Tx A) :
  lossless kept origin bound body ->
  lossless kept origin bound (transaction body).
Proof.
  intros H w S. destruct (H w S) as [S1 G1]. unfold transaction.
  destruct (body w) as [a w1|e w1]; cbn [finalWorld db seqs] in *;
    [split; assumption|].
  split; [|apply keepsRows_refl].
  destruct S as [_ M], S1 as [B1 _]. split; [exact B1 | exact M].
Qed.

Lemma lossless_tryCatch {A} (body : Tx A) (handler : Error -> Tx A) :
  lossless kept origin bound body ->
  (forall e, lossless kept origin bound (handler e)) ->
  lossless kept origin bound (tryCatch body handler).
Proof.
  intros Hb Hh w S. destruct (Hb w S) as [S1 G1]. unfold tryCatch.
  destruct (body w) as [a w1|e w1]; cbn [finalWorld] in S1, G1;
    [split; assumption|].
  destruct (Hh e w1 S1) as [S2 G2].
  split; [exact S2 | eapply keepsRows_trans; eauto].
Qed.

Ltac seven :=
  unfold keepsRows;
  cbn [canonicalEntity entityAlias entity entityMention entityCandidateLink file];
  refine (conj _ (conj _ (conj _ (conj _ (conj _ (conj _ _))))));
  auto using extendedBy_refl, extendedBy_snoc, sameFilesMarked_refl, in_or_app.

(** A call that writes no mention row and moves no mention counter. *)
Ltac grows_by_row :=
  apply lossless_call; intros d q S; split; [exact S | seven].

Lemma lossless_entityAlias_create ty cid t n :
  lossless kept origin bound (entityAlias_create ty cid t n).
Proof. grows_by_row. Qed.

Lemma lossless_canonicalEntity_create ty t n meta :
  lossless kept origin bound (canonicalEntity_create ty t n meta).
Proof. grows_by_row. Qed.

Lemma lossless_entity_create t ty n c al fp :
  lossless kept origin bound (entity_create t ty n c al fp).
Proof. grows_by_row. Qed.

(** A new mention row gets the id the counter stands at, which is none
    of the ids the run started with. *)
Lemma lossless_entityMention_create f e c a t n x p cf :
  lossless kept origin bound (entityMention_create f e c a t n x p cf).
Proof.
  apply lossless_call. intros d q [B M]. split; [|seven].
  unfold steady. cbn [nextEntityMention entityMention]. split; [lia|].
  intros r Hr Hb. apply in_app_or in Hr as [Hr|[<-|[]]]; [apply M; assumption|].
  cbn [EntityMention.id] in Hb. lia.
Qed.

Lemma lossless_entityCandidateLink_create u m c s r st :
  lossless kept origin bound (entityCandidateLink_create u m c s r st).
Proof.
  apply lossless_call. intros d q S.
  destruct (u && existsb _ (entityCandidateLink d)); [exact I|].
  split; [exact S | seven].
Qed.

Lemma lossless_file_update_extracted fid :
  lossless kept origin bound (file_update_extracted fid).
Proof.
  apply lossless_call. intros d q S. split; [exact S|].
  unfold keepsRows.
  cbn [canonicalEntity entityAlias entity entityMention entityCandidateLink file].
  refine (conj _ (conj _ (conj _ (conj _ (conj _ (conj _ _))))));
    auto using extendedBy_refl, sameFilesMarked_update.
Qed.

(** What a deletion of the mention rows of a file takes: those rows
    and their candidate links, none of them kept. *)
Lemma lossless_entityMention_deleteMany fid :
  (forall r, kept r -> EntityMention.fileId r <> fid) ->
  lossless kept origin bound (entityMention_deleteMany fid).
Proof.
  intros K. apply lossless_call. intros d q [B M].
  assert (Gone : forall l,
            (forall r, In r (entityMention d) ->
               EntityMention.fileId r = fid ->
               EntityMention.id r = EntityCandidateLink.mentionId l -> False) ->
            negb (linkOf (filter (fun r => Nat.eqb (EntityMention.fileId r) fid)
                                 (entityMention d)) l) = true).
  { intros l H. apply negb_true_iff. unfold linkOf.
    destruct (existsb _ _) eqn:E; [|reflexivity]. exfalso.
    apply existsb_exists in E as (r & Hr & Er).
    apply filter_In in Hr as [Hr Hf].
    apply Nat.eqb_eq in Er. apply Nat.eqb_eq in Hf. apply (H r Hr Hf Er). }
  split.
  - split; [exact B|]. cbn [entityMention]. intros r Hr Hb.
    apply filter_In in Hr as [Hr _]. apply M; assumption.
  - unfold keepsRows.
    cbn [canonicalEntity entityAlias entity entityMention entityCandidateLink file].
    refine (conj _ (conj _ (conj _ (conj _ (conj _ (conj _ _))))));
      auto using extendedBy_refl, sameFilesMarked_refl.
    + intros r Hr Hk. apply filter_In. split; [exact Hr|].
      apply negb_true_iff, Nat.eqb_neq, K, Hk.
    + intros l Hl [Lb Lk]. apply filter_In. split; [exact Hl|].
      apply Gone. intros r Hr Hf Er.
      apply (K r); [|exact Hf]. apply Lk; [|exact Er]. apply M; [exact Hr | lia].
    + intros All. rewrite filter_all; [apply extendedBy_refl|].
      intros l _. apply Gone. intros r _ Hf _. apply (K r (All r) Hf).
Qed.

Ltac lossless_step :=
  match goal with
  | |- lossless _ _ _ (bind _ _) => apply lossless_bind; [|intros ?]
  | |- lossless _ _ _ (forEach _ _) => apply lossless_forEach; intros ?
  | |- lossless _ _ _ (ret _) => apply lossless_ret
  | |- lossless _ _ _ (throw _) => apply lossless_throw
  | |- lossless _ _ _ (updateStats _) => apply lossless_updateStats
  | |- lossless _ _ _ (query _) => apply lossless_query
  | |- lossless _ _ _ (match ?x with _ => _ end) => destruct x
  | |- lossless _ _ _ (if ?x then _ else _) => destruct x
  | |- lossless _ _ _ (let '(_, _) := ?x in _) => destruct x
  end.

Lemma lossless_upsertAlias ty cid t n :
  lossless kept origin bound (upsertAlias ty cid t n).
Proof.
  unfold upsertAlias, entityAlias_findFirst.
  repeat first [ apply lossless_entityAlias_create | lossless_step ].
Qed.

Lemma lossless_getOrCreateLegacyEntityId ty t n :
  lossless kept origin bound (getOrCreateLegacyEntityId ty t n).
Proof.
  unfold getOrCreateLegacyEntityId, entity_findFirst.
  repeat first [ apply lossless_entity_create | lossless_step ].
Qed.

Lemma lossless_registerAliases m cid :
  lossless kept origin bound (registerAliases m cid).
Proof.
  unfold registerAliases.
  repeat first [ apply lossless_upsertAlias | lossless_step ].
Qed.

Lemma lossless_findAliasCandidates t n ty :
  lossless kept origin bound (findAliasCandidates t n ty).
Proof.
  unfold findAliasCandidates, entityAlias_findMany. repeat lossless_step.
Qed.

Lemma lossless_resolveMention u fid m :
  lossless kept origin bound (resolveMention u fid m).
Proof.
  unfold resolveMention, canonicalEntity_findUnique.
  repeat first [ apply lossless_findAliasCandidates
               | apply lossless_registerAliases
               | apply lossless_getOrCreateLegacyEntityId
               | apply lossless_canonicalEntity_create
               | apply lossless_entityMention_create
               | apply lossless_entityCandidateLink_create
               | lossless_step ].
Qed.

Lemma lossless_collectMentions extract fullText chunks :
  lossless kept origin bound (collectMentions extract fullText chunks).
Proof.
  induction chunks as [|c chunks IH]; cbn [collectMentions].
  - apply lossless_ret.
  - unfold callOpenAiExtractEntitiesWithRetry.
    repeat first [ exact IH | lossless_step ].
Qed.

Lemma lossless_processFile u reprocess chunkText extract storageFaults f :
  (forall r, kept r -> reprocess = true -> EntityMention.fileId r <> File.id f) ->
  lossless kept origin bound
    (processFile u reprocess chunkText extract storageFaults f).
Proof.
  intros K. unfold processFile, skipFile.
  destruct (negb reprocess && File.entitiesExtracted f);
    [apply lossless_updateStats|].
  destruct (JsString.isEmpty _); [apply lossless_updateStats|].
  destruct (String.length _ <? 50); [apply lossless_updateStats|].
  apply lossless_tryCatch; [|intros e; apply lossless_updateStats].
  apply lossless_bind; [apply lossless_collectMentions|]. intros ms.
  apply lossless_bind; [apply lossless_connect|]. intros _.
  apply lossless_bind; [|intros _; apply lossless_updateStats].
  apply lossless_transaction. unfold resolveDocument.
  apply lossless_bind.
  - destruct reprocess eqn:R; [|apply lossless_ret].
    apply lossless_entityMention_deleteMany. intros r Hr. apply K; auto.
  - intros _. apply lossless_bind; [|intros _; apply lossless_file_update_extracted].
    apply lossless_forEach. intros m.
    apply lossless_bind; [apply lossless_resolveMention | intros r; apply lossless_ret].
Qed.

End Lossless.

(** On a well-formed store, whatever the extractor and the connection
    do, a run loses nothing but what reprocessing deletes.  The
    canonical entities, aliases and legacy entities it started with
    are all still there, unchanged and in place, with new rows only
    after them; the file rows are the same, none unmarked.  Every
    mention row is still there, except, when the run reprocesses,
    those of the files it goes through; and every candidate link is
    still there, except those of such a mention row, which the store
    deletes with it.  A run that does not reprocess only adds to the
    candidate links. *)
Theorem run_loses_nothing (u reprocess : bool)
    (chunkText : string -> list Chunk)
    (extract : string -> option (list ExtractedEntity))
    (storageFaults : nat -> option nat)
    (files : list File.t) (w : World) :
  wellFormed w ->
  exists w',
    processFiles u reprocess chunkText extract storageFaults files w = Ok tt w'
    /\ growsInto
         (fun r => reprocess = false
                   \/ ~ In (EntityMention.fileId r) (map File.id files))
         (db w) (db w').
Proof.
  intros (_ & _ & SA).
  apply serialsAhead_spec in SA as (_ & _ & _ & _ & S5).
  destruct (processFiles_total u reprocess chunkText extract storageFaults files w)
    as [w' R].
  exists w'. split; [exact R|].
  set (kept := fun r => reprocess = false
                        \/ ~ In (EntityMention.fileId r) (map File.id files)).
  assert (L : lossless kept (entityMention (db w)) (nextEntityMention (seqs w))
                (processFiles u reprocess chunkText extract storageFaults files)).
  { unfold processFiles. apply lossless_forEach_In. intros f Hf.
    apply lossless_processFile. intros r [K|K] Re; [congruence|].
    intros E. apply K. rewrite E. apply in_map, Hf. }
  destruct (L w) as [_ (G1 & G2 & G3 & G4 & G5 & G6 & G7)];
    [split; [lia | auto]|].
  rewrite R in G1, G2, G3, G4, G5, G6, G7. cbn [finalWorld] in *.
  unfold growsInto.
  refine (conj G1 (conj G2 (conj G3 (conj G4 (conj _ (conj G6 G7)))))).
  intros l Hl Hk. apply G5; [exact Hl|]. split; [apply S5, Hl | exact Hk].
Qed.

(** The store of the two notes, with file 7 reprocessed: the mention
    row of file 7 and its two candidate links are deleted, and the
    three candidate links of the mention row of file 9 are still
    there. *)
Lemma run_loses_nothing_witness :
  map EntityMention.fileId (entityMention (db Fixtures.signedWorld)) = [7; 9]
  /\ map EntityCandidateLink.mentionId
         (entityCandidateLink (db Fixtures.signedWorld))
     = [1; 1; 2; 2; 2]
  /\ exists w',
       processFiles true true Fixtures.oneChunk Fixtures.reportsSigner
         Fixtures.neverFails [Fixtures.carolFile] Fixtures.signedWorld
       = Ok tt w'
       /\ incl (skipn 2 (entityCandidateLink (db Fixtures.signedWorld)))
               (entityCandidateLink (db w'))
       /\ map EntityCandidateLink.mentionId (entityCandidateLink (db w'))
          = [2; 2; 2].
Proof.
  destruct (run_loses_nothing true true Fixtures.oneChunk Fixtures.reportsSigner
              Fixtures.neverFails [Fixtures.carolFile] Fixtures.signedWorld)
    as (w' & R & _ & _ & _ & _ & Links & _);
    [split; [|split]; vm_compute; reflexivity|].
  split; [vm_compute; reflexivity|]. split; [vm_compute; reflexivity|].
  exists w'. split; [exact R|]. split.
  - assert (Kept : forall r,
              In r (entityMention (db Fixtures.signedWorld)) ->
              EntityMention.id r = 2 ->
              true = false \/ ~ In (EntityMention.fileId r) [7]).
    { intros r Hr E. right. vm_compute in Hr.
      destruct Hr as [<-|[<-|[]]]; [discriminate E|].
      vm_compute. intros [F|[]]. discriminate F. }
    intros l Hl. apply Links.
    + rewrite <- (firstn_skipn 2 (entityCandidateLink (db Fixtures.signedWorld))).
      apply in_or_app. right. exact Hl.
    + intros r Hr E. apply (Kept r Hr). rewrite E.
      vm_compute in Hl. destruct Hl as [<-|[<-|[<-|[]]]]; reflexivity.
  - assert (E : finalWorld
                  (processFiles true true Fixtures.oneChunk
                     Fixtures.reportsSigner Fixtures.neverFails
                     [Fixtures.carolFile] Fixtures.signedWorld) = w')
      by (rewrite R; reflexivity).
    rewrite <- E. vm_compute. reflexivity.
Defined.
